(** * skritto: the packed-archive reader and its inflate engine

    A shallow embedding of the Go sources: the archive reader
    ([loadDatFile], [extractMFTData]) and the decompression engine (the bit
    pump [pullByte] / [needBits] / [dropBits] / [readBits], the Huffman
    decoder [readCode], [createHuffmanTree], [parseHuffmanTree] and
    [inflateData] / [inflateBuffer]).

    Unsigned Go integers are [Z] with the wrap-around written out, Go arrays
    and slices are lists whose out-of-range accesses panic, and every way a
    Go call can end is a constructor of [outcome]. *)

From Stdlib Require Import ZArith List Lia Bool Strings.Byte.
From Stdlib Require Strings.String Strings.Ascii.
Import String.StringSyntax.
From stdpp Require Import base option list.

Local Open Scope Z_scope.
Delimit Scope string_scope with string.

(** ** Machine integers *)

Definition u8 (z : Z) : Z := z mod 2 ^ 8.
Definition u16 (z : Z) : Z := z mod 2 ^ 16.
Definition u32 (z : Z) : Z := z mod 2 ^ 32.
Definition u64 (z : Z) : Z := z mod 2 ^ 64.

(** Conversion to a signed 16 or 64 bit integer (two's complement). *)
Definition i16 (z : Z) : Z := (z + 2 ^ 15) mod 2 ^ 16 - 2 ^ 15.
Definition i64 (z : Z) : Z := (z + 2 ^ 63) mod 2 ^ 64 - 2 ^ 63.

Definition byte_to_Z (b : byte) : Z := Z.of_N (Byte.to_N b).

(** [uint8(z)] as a byte of an output buffer. *)
Definition byte_of_Z (z : Z) : byte :=
  match Byte.of_N (Z.to_N (u8 z)) with
  | Some b => b
  | None => x00
  end.

(** ** How a call ends *)

(** Messages of [log.Fatal] and of the [os.Exit(1)] paths. *)
Inductive exit_msg : Set :=
| PullWithFullWindow    (* Tried to pull a value while we still have 32 bits available. *)
| EndOfInput            (* Reached end of input while trying to fetch a new byte. *)
| NeedTooManyBits       (* Tried to need more than 32 bits. *)
| DropTooManyBits       (* Tried to drop more than 32 bits. *)
| DropMoreThanHeld      (* Tried to drop more bits than we have. *)
| EmptyHuffmanTree      (* Trying to read code from an empty HuffmanTree. *)
| InvalidWriteSize      (* Invalid value for writeSize code. *)
| InvalidWriteOffset.   (* Invalid value for writeOffset code. *)

(** Error values handed back to the caller ([errors.New], [fmt.Errorf]). *)
Inductive error : Set :=
| ErrInputNull          (* input buffer is null *)
| ErrTreeEmpty          (* huffman tree empty *)
| ErrNotMultipleOf4     (* input size is not a multiple of 4 *)
| ErrConvert (e : error) (* failed to convert input buffer: ... *)
| ErrOpen               (* failed to open file *)
| ErrBadMagic           (* invalid MFT header magic number *)
| ErrNotFound           (* MFT entry not found *)
| ErrSeek               (* failed to seek to MFT entry offset *)
| ErrRead               (* failed to read MFT data *)
| ErrDecompress (e : error). (* decompression failed: ... *)

(** [Ok]: normal return.  [Error]: an [error] value is returned.  [Exit]:
    the process is terminated by [log.Fatal] or [os.Exit(1)].  [Panic]: a Go
    run-time panic (index out of range).  [NoFuel]: a loop bound of the
    model is exhausted; [inflateBuffer_fueled] and [extractMFTData_fueled]
    show that no call ends so. *)
Inductive outcome (A : Type) : Type :=
| Ok (a : A)
| Error (e : error)
| Exit (m : exit_msg)
| Panic
| NoFuel.
Arguments Ok {A} a.
Arguments Error {A} e.
Arguments Exit {A} m.
Arguments Panic {A}.
Arguments NoFuel {A}.

#[global] Instance outcome_ret : MRet outcome := fun _ a => Ok a.
#[global] Instance outcome_bind : MBind outcome := fun _ _ f m =>
  match m with
  | Ok a => f a
  | Error e => Error e
  | Exit x => Exit x
  | Panic => Panic
  | NoFuel => NoFuel
  end.

(** ** Arrays and slices: indexing panics out of range *)

Definition load {A} (l : list A) (i : Z) : outcome A :=
  if (0 <=? i) && (i <? Z.of_nat (length l))
  then match l !! Z.to_nat i with
       | Some x => Ok x
       | None => Panic
       end
  else Panic.

Definition store {A} (l : list A) (i : Z) (x : A) : outcome (list A) :=
  if (0 <=? i) && (i <? Z.of_nat (length l))
  then Ok (<[Z.to_nat i := x]> l)
  else Panic.

(** ** Constants *)

Definition MAX_SYMBOL_VALUE : Z := 285.
Definition MAX_CODE_BITS_LENGTH : Z := 32.
Definition BlockSize : Z := 0x4000.

(** ** The bit pump *)

Record State : Type := mkState {
  InputData : list Z;      (* []uint32 *)
  InputSize : Z;           (* uint32 *)
  InputPosition : Z;       (* uint32 *)
  Head : Z;                (* uint32 *)
  Bits : Z;                (* uint32 *)
  Buffer : Z;              (* uint32 *)
  Empty : bool
}.

(** [nextPosition p] is the cursor after the block-boundary test of
    [pullByte]: the index of the word that is fetched. *)
Definition nextPosition (p : Z) : Z :=
  if u32 (p + 1) mod BlockSize =? 0 then u32 (p + 1) else p.

Definition pullByte (s : State) : outcome State :=
  if 32 <=? Bits s then Exit PullWithFullWindow
  else
    let p := nextPosition (InputPosition s) in
    if InputSize s <=? p then Exit EndOfInput
    else
      tempValue ← load (InputData s) p;
      let '(h, b) :=
        if Bits s =? 0 then (tempValue, 0)
        else (Z.lor (Head s) (Z.shiftr tempValue (Bits s)),
              u32 (Z.shiftl tempValue (32 - Bits s))) in
      Ok (mkState (InputData s) (InputSize s) (u32 (p + 1))
                  h (u32 (Bits s + 32)) b (Empty s)).

Definition needBits (s : State) (bits : Z) : outcome State :=
  if 32 <? bits then Exit NeedTooManyBits
  else if Bits s <? bits then pullByte s
  else Ok s.

Definition dropBits (s : State) (bits : Z) : outcome State :=
  if 32 <? bits then Exit DropTooManyBits
  else if Bits s <? bits then Exit DropMoreThanHeld
  else
    let '(h, b) :=
      if bits =? 32 then (Buffer s, 0)
      else (u32 (Z.lor (Z.shiftl (Head s) bits) (Z.shiftr (Buffer s) (32 - bits))),
            u32 (Z.shiftl (Buffer s) bits)) in
    Ok (mkState (InputData s) (InputSize s) (InputPosition s)
                h (u32 (Bits s - bits)) b (Empty s)).

(** [32 - bits] is computed on [uint8]. *)
Definition readBits (s : State) (bits : Z) : Z :=
  Z.shiftr (Head s) (u8 (32 - bits)).

(** ** Huffman trees *)

Record HuffmanTree : Type := mkTree {
  SymbolValues : list Z;        (* [MAX_SYMBOL_VALUE]uint16 *)
  CompressedCodes : list Z;     (* [MAX_SYMBOL_VALUE]uint32 *)
  BitsLength : list Z;          (* [MAX_SYMBOL_VALUE]uint8 *)
  SymbolValueOffset : list Z    (* [MAX_SYMBOL_VALUE]uint16 *)
}.

(** The zero value [HuffmanTree{}]. *)
Definition emptyTree : HuffmanTree :=
  let z := replicate (Z.to_nat MAX_SYMBOL_VALUE) 0 in mkTree z z z z.

(** The loop [for bitsRead < CompressedCodes[tempIndex] { tempIndex++ }],
    walking the array from [tempIndex]; running off the array panics. *)
Fixpoint scanCodes (codes : list Z) (bitsRead tempIndex : Z) : outcome Z :=
  match codes with
  | [] => Panic
  | c :: rest =>
      if bitsRead <? c then scanCodes rest bitsRead (tempIndex + 1)
      else Ok tempIndex
  end.

Definition readCode (t : HuffmanTree) (s : State) : outcome (Z * State) :=
  c0 ← load (CompressedCodes t) 0;
  if c0 =? 0 then Exit EmptyHuffmanTree
  else
    s1 ← needBits s 32;
    let bitsRead := readBits s1 32 in
    tempIndex ← scanCodes (CompressedCodes t) bitsRead 0;
    tempBits ← load (BitsLength t) tempIndex;
    off ← load (SymbolValueOffset t) tempIndex;
    code ← load (CompressedCodes t) tempIndex;
    ioCode ← load (SymbolValues t)
               (u16 (off - u16 (Z.shiftr (u32 (bitsRead - code)) (u8 (32 - tempBits)))));
    s2 ← dropBits s1 tempBits;
    Ok (ioCode, s2).

(** *** Building a tree *)

(** The inner loop [for tempSymbol != -1] of [createHuffmanTree]: walks one
    chain of [ioWorkingCodeTab], writing the symbols into [SymbolValues].
    Every step writes at [symbolOffset] and advances it, so the walk ends
    within [MAX_SYMBOL_VALUE + 1] steps (lemma [walkChain_fueled]). *)
Fixpoint walkChain (fuel : nat) (codeTab sv : list Z)
    (tempSymbol symbolOffset tempCode : Z) : outcome (list Z * Z * Z) :=
  if tempSymbol =? -1 then Ok (sv, symbolOffset, tempCode)
  else
    match fuel with
    | O => NoFuel
    | S fuel' =>
        sv' ← store sv symbolOffset (u16 tempSymbol);
        next ← load codeTab tempSymbol;
        walkChain fuel' codeTab sv' next (u16 (symbolOffset + 1)) (u32 (tempCode - 1))
    end.

Definition chainFuel : nat := Z.to_nat (MAX_SYMBOL_VALUE + 1).

(** One pass of the loop [for tempBits < MAX_CODE_BITS_LENGTH]. *)
Definition createStep (bitTab codeTab : list Z)
    (t : HuffmanTree) (tempCode tempBits comparisonCodeIndex symbolOffset : Z)
  : outcome (HuffmanTree * Z * Z * Z) :=
  first ← load bitTab tempBits;
  '(t', code', cci', off') ←
    (if first =? -1 then Ok (t, tempCode, comparisonCodeIndex, symbolOffset)
     else
       '(sv, off', code') ←
          walkChain chainFuel codeTab (SymbolValues t) first symbolOffset tempCode;
       cc ← store (CompressedCodes t) comparisonCodeIndex
               (u32 (Z.shiftl (u32 (code' + 1)) (u8 (32 - tempBits))));
       bl ← store (BitsLength t) comparisonCodeIndex tempBits;
       so ← store (SymbolValueOffset t) comparisonCodeIndex (u16 (off' - 1));
       Ok (mkTree sv cc bl so, code', u16 (comparisonCodeIndex + 1), off'));
  Ok (t', u32 (Z.shiftl code' 1 + 1), cci', off').

(** [n] is the number of passes left: [MAX_CODE_BITS_LENGTH - tempBits]. *)
Fixpoint createLoop (n : nat) (bitTab codeTab : list Z)
    (t : HuffmanTree) (tempCode tempBits comparisonCodeIndex symbolOffset : Z)
  : outcome HuffmanTree :=
  match n with
  | O => Ok t
  | S n' =>
      '(t', code', cci', off') ←
        createStep bitTab codeTab t tempCode tempBits comparisonCodeIndex symbolOffset;
      createLoop n' bitTab codeTab t' code' (u8 (tempBits + 1)) cci' off'
  end.

Definition createHuffmanTree (ioHuffmanTree : HuffmanTree)
    (ioWorkingBitTab ioWorkingCodeTab : list Z) : outcome HuffmanTree :=
  createLoop (Z.to_nat MAX_CODE_BITS_LENGTH) ioWorkingBitTab ioWorkingCodeTab
             ioHuffmanTree 0 0 0 0.

Definition fillTabsHelper (bits symbol : Z) (bitTab codeTab : list Z)
  : outcome (list Z * list Z) :=
  if MAX_CODE_BITS_LENGTH <=? bits then Ok (bitTab, codeTab)
  else if MAX_SYMBOL_VALUE <=? symbol then Ok (bitTab, codeTab)
  else
    cur ← load bitTab bits;
    if cur =? -1 then
      bt ← store bitTab bits symbol; Ok (bt, codeTab)
    else
      ct ← store codeTab symbol cur;
      bt ← store bitTab bits symbol;
      Ok (bt, ct).

(** The two tables of [initializeHuffmanTreeDict]. *)
Definition dictBits : list Z :=
  [ 3; 3; 3; 4; 4; 4; 4; 5; 5; 5; 5; 6; 6; 6; 6; 6; 6; 6; 6; 7; 7; 7; 7; 7; 7; 7; 8; 8; 8; 8;
    8; 8; 9; 9; 9; 9; 9; 9; 9; 9; 9; 9; 10; 10; 10; 10; 10; 10; 10; 10; 10; 10; 10; 10; 10; 10;
    10; 10; 11; 11; 11; 11; 11; 11; 11; 11; 11; 11; 11; 11; 11; 12; 12; 12; 12; 12; 12; 12; 13;
    13; 13; 13; 13; 13; 14; 14; 14; 14; 15; 15; 15; 15; 15; 15; 15; 15; 16; 16; 16; 16; 16; 16;
    16; 16; 16; 16; 16; 16; 16; 16; 16; 16; 16; 16; 16; 16; 16; 16; 16; 16; 16; 16; 16; 16; 16;
    16; 16; 16; 16; 16; 16; 16; 16; 16; 16; 16; 16; 16; 16; 16; 16; 16; 16; 16; 16; 16; 16; 16;
    16; 16; 16; 16; 16; 16; 16; 16; 16; 16; 16; 16; 16; 16; 16; 16; 16; 16; 16; 16; 16; 16; 16;
    16; 16; 16; 16; 16; 16; 16; 16; 16; 16; 16; 16; 16; 16; 16; 16; 16; 16; 16; 16; 16; 16; 16;
    16; 16; 16; 16; 16; 16; 16; 16; 16; 16; 16; 16; 16; 16; 16; 16; 16; 16; 16; 16; 16; 16; 16;
    16; 16; 16; 16; 16; 16; 16; 16; 16; 16; 16; 16; 16; 16; 16; 16; 16; 16; 16; 16; 16; 16; 16;
    16; 16; 16; 16; 16; 16; 16; 16; 16; 16; 16; 16; 16; 16; 16; 16 ].

Definition dictSymbols : list Z :=
  [ 0x0A; 0x09; 0x08; 0x0C; 0x0B; 0x07; 0x00; 0xE0; 0x2A; 0x29; 0x06; 0x4A; 0x40; 0x2C; 0x2B;
    0x28; 0x20; 0x05; 0x04; 0x49; 0x48; 0x27; 0x26; 0x25; 0x0D; 0x03; 0x6A; 0x69; 0x4C; 0x4B;
    0x47; 0x24; 0xE8; 0xA0; 0x89; 0x88; 0x68; 0x67; 0x63; 0x60; 0x46; 0x23; 0xE9; 0xC9; 0xC0;
    0xA9; 0xA8; 0x8A; 0x87; 0x80; 0x66; 0x65; 0x45; 0x44; 0x43; 0x2D; 0x02; 0x01; 0xE5; 0xC8;
    0xAA; 0xA5; 0xA4; 0x8B; 0x85; 0x84; 0x6C; 0x6B; 0x64; 0x4D; 0x0E; 0xE7; 0xCA; 0xC7; 0xA7;
    0xA6; 0x86; 0x83; 0xE6; 0xE4; 0xC4; 0x8C; 0x2E; 0x22; 0xEC; 0xC6; 0x6D; 0x4E; 0xEA; 0xCC;
    0xAC; 0xAB; 0x8D; 0x11; 0x10; 0x0F; 0xFF; 0xFE; 0xFD; 0xFC; 0xFB; 0xFA; 0xF9; 0xF8; 0xF7;
    0xF6; 0xF5; 0xF4; 0xF3; 0xF2; 0xF1; 0xF0; 0xEF; 0xEE; 0xED; 0xEB; 0xE3; 0xE2; 0xE1; 0xDF;
    0xDE; 0xDD; 0xDC; 0xDB; 0xDA; 0xD9; 0xD8; 0xD7; 0xD6; 0xD5; 0xD4; 0xD3; 0xD2; 0xD1; 0xD0;
    0xCF; 0xCE; 0xCD; 0xCB; 0xC5; 0xC3; 0xC2; 0xC1; 0xBF; 0xBE; 0xBD; 0xBC; 0xBB; 0xBA; 0xB9;
    0xB8; 0xB7; 0xB6; 0xB5; 0xB4; 0xB3; 0xB2; 0xB1; 0xB0; 0xAF; 0xAE; 0xAD; 0xA3; 0xA2; 0xA1;
    0x9F; 0x9E; 0x9D; 0x9C; 0x9B; 0x9A; 0x99; 0x98; 0x97; 0x96; 0x95; 0x94; 0x93; 0x92; 0x91;
    0x90; 0x8F; 0x8E; 0x82; 0x81; 0x7F; 0x7E; 0x7D; 0x7C; 0x7B; 0x7A; 0x79; 0x78; 0x77; 0x76;
    0x75; 0x74; 0x73; 0x72; 0x71; 0x70; 0x6F; 0x6E; 0x62; 0x61; 0x5F; 0x5E; 0x5D; 0x5C; 0x5B;
    0x5A; 0x59; 0x58; 0x57; 0x56; 0x55; 0x54; 0x53; 0x52; 0x51; 0x50; 0x4F; 0x42; 0x41; 0x3F;
    0x3E; 0x3D; 0x3C; 0x3B; 0x3A; 0x39; 0x38; 0x37; 0x36; 0x35; 0x34; 0x33; 0x32; 0x31; 0x30;
    0x2F; 0x21; 0x1F; 0x1E; 0x1D; 0x1C; 0x1B; 0x1A; 0x19; 0x18; 0x17; 0x16; 0x15; 0x14; 0x13;
    0x12 ].

(** The loop [for i := 0; i < tempSymbol; i++] over [bits], reading
    [symbols[i]]. *)
Fixpoint fillTabs (bits : list Z) (i : Z) (symbols bitTab codeTab : list Z)
  : outcome (list Z * list Z) :=
  match bits with
  | [] => Ok (bitTab, codeTab)
  | b :: rest =>
      sym ← load symbols i;
      '(bt, ct) ← fillTabsHelper b sym bitTab codeTab;
      fillTabs rest (i + 1) symbols bt ct
  end.

Definition freshBitTab : list Z := replicate (Z.to_nat MAX_CODE_BITS_LENGTH) (-1).
Definition freshCodeTab : list Z := replicate (Z.to_nat MAX_SYMBOL_VALUE) (-1).

(** The value of the global [huffmanTreeDict] after
    [initializeHuffmanTreeDict], starting from its zero value. *)
Definition initializeHuffmanTreeDict : outcome HuffmanTree :=
  '(workingBits, workingCode) ← fillTabs dictBits 0 dictSymbols freshBitTab freshCodeTab;
  createHuffmanTree emptyTree workingBits workingCode.

(** *** Parsing a tree from the stream *)

(** The loop [for codeNumberSymbol > 0]; [n] is [codeNumberSymbol]. *)
Fixpoint registerSymbols (n : nat) (codeNumberBits remainingSymbol : Z)
    (workingBits workingCode : list Z) : outcome (Z * list Z * list Z) :=
  match n with
  | O => Ok (remainingSymbol, workingBits, workingCode)
  | S n' =>
      cur ← load workingBits codeNumberBits;
      '(bt, ct) ←
        (if cur =? -1 then
           bt ← store workingBits codeNumberBits (i16 remainingSymbol);
           Ok (bt, workingCode)
         else
           ct ← store workingCode remainingSymbol cur;
           bt ← store workingBits codeNumberBits (i16 remainingSymbol);
           Ok (bt, ct));
      registerSymbols n' codeNumberBits (i16 (remainingSymbol - 1)) bt ct
  end.

(** The loop [for remainingSymbol >= 0]; every pass lowers
    [remainingSymbol], so [remainingSymbol + 1] passes are enough (lemma
    [parseLoop_fueled]). *)
Fixpoint parseLoop (fuel : nat) (dict : HuffmanTree) (s : State)
    (remainingSymbol : Z) (workingBits workingCode : list Z)
  : outcome (State * list Z * list Z) :=
  if remainingSymbol <? 0 then Ok (s, workingBits, workingCode)
  else
    match fuel with
    | O => NoFuel
    | S fuel' =>
        '(tempCode, s1) ← readCode dict s;
        let codeNumberBits := Z.land tempCode 0x1F in
        let codeNumberSymbol := i16 (Z.shiftr tempCode 5 + 1) in
        if codeNumberBits =? 0 then
          parseLoop fuel' dict s1 (i16 (remainingSymbol - codeNumberSymbol))
                    workingBits workingCode
        else
          '(r, bt, ct) ←
            registerSymbols (Z.to_nat codeNumberSymbol) codeNumberBits remainingSymbol
                            workingBits workingCode;
          parseLoop fuel' dict s1 r bt ct
    end.

(** [dict] is the global [huffmanTreeDict]. *)
Definition parseHuffmanTree (dict : HuffmanTree) (s : State)
    (ioHuffmanTree : HuffmanTree) : outcome (State * HuffmanTree) :=
  s1 ← needBits s 16;
  let numberSymbolData := u16 (readBits s1 16) in
  s2 ← dropBits s1 16;
  let numberSymbol := i16 numberSymbolData in
  let remainingSymbol := i16 (numberSymbol - 1) in
  '(s3, workingBits, workingCode) ←
    parseLoop (Z.to_nat (remainingSymbol + 1)) dict s2 remainingSymbol
              freshBitTab freshCodeTab;
  t ← createHuffmanTree ioHuffmanTree workingBits workingCode;
  Ok (s3, t).

(** ** The inflate engine *)

(** The write size of a copy: [tempCode] is the symbol after
    [tempCode -= 0x100]; [addition] is [writeSizeConstantAddition].  The product
    [(1 << (codeDivision4 - 1)) * (4 + rem)] has operands of type [uint16],
    so the untyped constant [1] is a [uint16] and the product is computed
    modulo [2^16] before the conversion to [uint32]. *)
Definition decodeWriteSize (addition : Z) (s : State) (tempCode : Z) : outcome (Z * State) :=
  let codeDivision4 := tempCode / 4 in
  let rem := tempCode mod 4 in
  writeSize ←
    (if codeDivision4 =? 0 then Ok tempCode
     else if codeDivision4 <? 7 then
       Ok (u16 (u16 (Z.shiftl 1 (codeDivision4 - 1)) * (4 + rem)))
     else if tempCode =? 28 then Ok 0xFF
     else Exit InvalidWriteSize);
  '(writeSize', s') ←
    (if (1 <? codeDivision4) && negb (tempCode =? 28) then
       let writeSizeAddition := codeDivision4 - 1 in
       s1 ← needBits s (u8 writeSizeAddition);
       let w := Z.lor writeSize (readBits s1 (u8 writeSizeAddition)) in
       s2 ← dropBits s1 (u8 writeSizeAddition);
       Ok (w, s2)
     else Ok (writeSize, s));
  Ok (u32 (writeSize' + addition), s').

(** The base distance of a copy from the symbol [tempCode] of the copy
    tree, on [uint16] like the base write size. *)
Definition baseWriteOffset (tempCode : Z) : outcome Z :=
  let codeDivision2 := tempCode / 2 in
  if codeDivision2 =? 0 then Ok tempCode
  else if codeDivision2 <? 17 then
    Ok (u16 (u16 (Z.shiftl 1 (codeDivision2 - 1)) * (2 + tempCode mod 2)))
  else Exit InvalidWriteOffset.

(** The write offset of a copy: reads a symbol of the copy tree, then the
    additional bits, then adds one. *)
Definition decodeWriteOffset (copyTree : HuffmanTree) (s : State) : outcome (Z * State) :=
  '(tempCode, s0) ← readCode copyTree s;
  let codeDivision2 := tempCode / 2 in
  writeOffset ← baseWriteOffset tempCode;
  '(writeOffset', s') ←
    (if 1 <? codeDivision2 then
       let writeOffsetAdditionBits := codeDivision2 - 1 in
       s1 ← needBits s0 (u8 writeOffsetAdditionBits);
       let w := Z.lor writeOffset (readBits s1 (u8 writeOffsetAdditionBits)) in
       s2 ← dropBits s1 (u8 writeOffsetAdditionBits);
       Ok (w, s2)
     else Ok (writeOffset, s0));
  Ok (u32 (writeOffset' + 1), s').

(** The loop [for alreadyWritten < writeSize && tempOutputPosition <
    outputBufferSize]; [n] is [writeSize - alreadyWritten].  The source
    index [tempOutputPosition - writeOffset] is a [uint32]. *)
Fixpoint copyBytes (n : nat) (out : list byte) (pos writeOffset size : Z)
  : outcome (list byte * Z) :=
  match n with
  | O => Ok (out, pos)
  | S n' =>
      if pos <? size then
        b ← load out (u32 (pos - writeOffset));
        out' ← store out pos b;
        copyBytes n' out' (u32 (pos + 1)) writeOffset size
      else Ok (out, pos)
  end.

(** The loop [for currentCodeReadCount < maxCount && tempOutputPosition <
    outputBufferSize]; [n] is [maxCount - currentCodeReadCount]. *)
Fixpoint inflateCodes (n : nat) (addition : Z) (symTree copyTree : HuffmanTree)
    (s : State) (out : list byte) (pos size : Z)
  : outcome (State * list byte * Z) :=
  match n with
  | O => Ok (s, out, pos)
  | S n' =>
      if pos <? size then
        '(tempCode, s1) ← readCode symTree s;
        if tempCode <? 0x100 then
          out' ← store out pos (byte_of_Z tempCode);
          inflateCodes n' addition symTree copyTree s1 out' (u32 (pos + 1)) size
        else
          '(writeSize, s2) ← decodeWriteSize addition s1 (u16 (tempCode - 0x100));
          '(writeOffset, s3) ← decodeWriteOffset copyTree s2;
          '(out', pos') ← copyBytes (Z.to_nat writeSize) out pos writeOffset size;
          inflateCodes n' addition symTree copyTree s3 out' pos' size
      else Ok (s, out, pos)
  end.

(** One pass of the main loop: the two trees, [maxCount], then the codes. *)
Definition inflateBlock (dict : HuffmanTree) (addition : Z)
    (s : State) (out : list byte) (pos size : Z)
  : outcome (State * list byte * Z) :=
  '(s1, huffmanTreeSymbol) ← parseHuffmanTree dict s emptyTree;
  '(s2, huffmanTreeCopy) ← parseHuffmanTree dict s1 emptyTree;
  s3 ← needBits s2 4;
  let maxCount := u32 (Z.shiftl (u32 (readBits s3 4 + 1)) 12) in
  s4 ← dropBits s3 4;
  inflateCodes (Z.to_nat maxCount) addition huffmanTreeSymbol huffmanTreeCopy s4 out pos size.

(** The main loop [for tempOutputPosition < outputBufferSize]; a pass
    writes at least one byte, so [outputBufferSize] passes are enough (lemma
    [inflateBlocks_fueled]). *)
Fixpoint inflateBlocks (fuel : nat) (dict : HuffmanTree) (addition : Z)
    (s : State) (out : list byte) (pos size : Z)
  : outcome (State * list byte * Z) :=
  if pos <? size then
    match fuel with
    | O => NoFuel
    | S fuel' =>
        '(s', out', pos') ← inflateBlock dict addition s out pos size;
        inflateBlocks fuel' dict addition s' out' pos' size
    end
  else Ok (s, out, pos).

(** Returns the state, the output buffer and [tempOutputPosition] as they
    are when the Go function returns. *)
Definition inflateData (dict : HuffmanTree) (s : State)
    (outputBuffer : list byte) (outputBufferSize : Z)
  : outcome (State * list byte * Z) :=
  s1 ← needBits s 8;
  s2 ← dropBits s1 4;
  let writeSizeConstantAddition := u32 (readBits s2 4 + 1) in
  s3 ← dropBits s2 4;
  inflateBlocks (Z.to_nat outputBufferSize) dict writeSizeConstantAddition
                s3 outputBuffer 0 outputBufferSize.

(** *** From bytes to words *)

Definition wordAt (input : list byte) (i : Z) : outcome Z :=
  b0 ← load input (i * 4);
  b1 ← load input (i * 4 + 1);
  b2 ← load input (i * 4 + 2);
  b3 ← load input (i * 4 + 3);
  Ok (Z.lor (Z.lor (Z.lor (byte_to_Z b0) (Z.shiftl (byte_to_Z b1) 8))
                   (Z.shiftl (byte_to_Z b2) 16))
            (Z.shiftl (byte_to_Z b3) 24)).

(** The loop [for i := 0; i < outputSize; i++]; [n] is [outputSize - i]. *)
Fixpoint convertLoop (n : nat) (i : Z) (input : list byte) : outcome (list Z) :=
  match n with
  | O => Ok []
  | S n' =>
      w ← wordAt input i;
      rest ← convertLoop n' (i + 1) input;
      Ok (w :: rest)
  end.

Definition convertU8ToU32 (input : list byte) : outcome (list Z) :=
  let inputSize := Z.of_nat (length input) in
  if negb (inputSize mod 4 =? 0) then Error ErrNotMultipleOf4
  else convertLoop (Z.to_nat (inputSize / 4)) 0 input.

(** The body of [inflateBuffer] from [Initialize state] on, for the words
    [u32InputBuffer]: returns the output buffer and the value left in
    [*outputBufferSize]. *)
Definition inflateWords (dict : HuffmanTree) (u32InputBuffer : list Z)
    (outputBufferSize customOutputBufferSize : Z) : outcome (list byte * Z) :=
  let stateData :=
    mkState u32InputBuffer (u32 (Z.of_nat (length u32InputBuffer))) 0 0 0 0 false in
  s1 ← needBits stateData 32;
  s2 ← dropBits s1 32;
  s3 ← needBits s2 32;
  let tempOutputBufferSize := readBits s3 32 in
  s4 ← dropBits s3 32;
  let tempOutputBufferSize :=
    if negb (outputBufferSize =? 0) && (outputBufferSize <? tempOutputBufferSize)
    then outputBufferSize else tempOutputBufferSize in
  let reported := tempOutputBufferSize in
  let tempOutputBufferSize :=
    if 0 <? customOutputBufferSize then customOutputBufferSize
    else tempOutputBufferSize in
  let outputBuffer := replicate (Z.to_nat tempOutputBufferSize) x00 in
  '(_, out, _) ← inflateData dict s4 outputBuffer tempOutputBufferSize;
  Ok (out, reported).

(** [inputBuffer] is [None] for a nil slice; [inputBufferSize] is not used
    by the Go function.  The global dictionary tree is built on the first
    call and reused afterwards; its value is the same on every call, so the
    model builds it each time.  The result pairs the returned slice with the
    value left in [*outputBufferSize]. *)
Definition inflateBuffer (inputBufferSize : Z) (inputBuffer : option (list byte))
    (outputBufferSize customOutputBufferSize : Z) : outcome (list byte * Z) :=
  match inputBuffer with
  | None => Error ErrInputNull
  | Some input =>
      huffmanTreeDict ← initializeHuffmanTreeDict;
      c0 ← load (CompressedCodes huffmanTreeDict) 0;
      if c0 =? 0 then Error ErrTreeEmpty
      else
        match convertU8ToU32 input with
        | Error e => Error (ErrConvert e)
        | Ok u32InputBuffer =>
            inflateWords huffmanTreeDict u32InputBuffer
                         outputBufferSize customOutputBufferSize
        | Exit m => Exit m
        | Panic => Panic
        | NoFuel => NoFuel
        end
  end.

(** ** The archive reader

    Go lets a field carry the name of a type and two structs share a field
    name; here the fields [Identifier], [CRC] and [UnknownField2] of
    [DatHeader] are [DatIdentifier], [HeaderCRC] and [HeaderUnknownField2],
    and the fields [MFTHeader], [MFTData] and [MFTIndexData] of [DatFile]
    are [MFTHeaderOf], [MFTDataOf] and [MFTIndexDataOf]. *)

Record DatHeader : Type := mkDatHeader {
  Version : Z;                 (* uint8 *)
  DatIdentifier : list byte;   (* [DatMagicNumber]uint8 *)
  HeaderSize : Z;
  UnknownField : Z;
  ChunkSize : Z;
  HeaderCRC : Z;
  HeaderUnknownField2 : Z;
  MftOffset : Z;               (* uint64 *)
  MftSize : Z;
  Flags : Z
}.

Record MFTHeader : Type := mkMFTHeader {
  Identifier : list byte;      (* [MftMagicNumber]uint8 *)
  Unknown : Z;                 (* uint64 *)
  NumEntries : Z;              (* uint32 *)
  UnknownField2 : Z;
  UnknownField3 : Z
}.

Record MFTData : Type := mkMFTData {
  Offset : Z;                  (* uint64 *)
  Size : Z;                    (* uint32 *)
  CompressionFlag : Z;         (* uint16 *)
  EntryFlag : Z;               (* uint16 *)
  Counter : Z;                 (* uint32 *)
  CRC : Z                      (* uint32 *)
}.

Record MFTIndexData : Type := mkMFTIndexData {
  FileID : Z;                  (* uint32 *)
  BaseID : Z                   (* uint32 *)
}.

Record DatFile : Type := mkDatFile {
  Header : DatHeader;
  MFTHeaderOf : MFTHeader;
  MFTDataOf : list MFTData;
  MFTIndexDataOf : list MFTIndexData
}.

Definition DatMagicNumber : Z := 3.
Definition MftMagicNumber : Z := 4.
Definition MftEntryIndexNum : Z := 1.

(** *** An open regular file

    The bytes of the file and the read cursor.  The operations follow the
    documented behaviour of [os.File] on a regular file. *)
Record File : Type := mkFile {
  contents : list byte;
  cursor : Z
}.

(** The bytes from the cursor on (none when the cursor is past the end). *)
Definition remaining (f : File) : list byte :=
  if Z.of_nat (length (contents f)) <=? cursor f then []
  else drop (Z.to_nat (cursor f)) (contents f).

(** [file.Seek(offset, io.SeekStart)] with [offset] an [int64]: a negative
    offset is an error and leaves the cursor where it is. *)
Definition fileSeek (f : File) (offset : Z) : option File :=
  if offset <? 0 then None else Some (mkFile (contents f) offset).

(** [loadDatFile] ignores the result of [Seek]. *)
Definition seekIgnoringError (f : File) (offset : Z) : File :=
  match fileSeek f offset with
  | Some f' => f'
  | None => f
  end.

(** [file.Read(b)] on a buffer [b]: the bytes available, at most
    [length b], overwrite the front of [b]; the flag is [true] when an error
    is returned, which is [io.EOF] for a non-empty [b] at the end of the
    file. *)
Definition fileRead (f : File) (b : list byte) : list byte * bool * File :=
  let got := take (length b) (remaining f) in
  (got ++ drop (length got) b,
   negb (Nat.eqb (length b) 0) && Nat.eqb (length got) 0,
   mkFile (contents f) (cursor f + Z.of_nat (length got))).

(** [io.ReadFull] of [n] bytes, as [binary.Read] does for a fixed-size
    integer: all [n] bytes, or an error after consuming what is left. *)
Definition readFull (f : File) (n : nat) : option (list byte) * File :=
  let got := take n (remaining f) in
  (if Nat.eqb (length got) n then Some got else None,
   mkFile (contents f) (cursor f + Z.of_nat (length got))).

(** Little-endian value of a byte string. *)
Fixpoint le_value (bs : list byte) : Z :=
  match bs with
  | [] => 0
  | b :: rest => byte_to_Z b + 2 ^ 8 * le_value rest
  end.

(** [readUint16LE], [readUint32LE], [readUint64LE] with the error dropped,
    as every caller does: the value is zero when the read fails. *)
Definition readUintLE (n : nat) (f : File) : Z * File :=
  let '(r, f') := readFull f n in
  (match r with Some bs => le_value bs | None => 0 end, f').

Definition readUint16LE := readUintLE 2.
Definition readUint32LE := readUintLE 4.
Definition readUint64LE := readUintLE 8.

(** [file.Read(id[:])] into a zeroed array of [n] bytes, result dropped. *)
Definition readIdentifier (n : Z) (f : File) : list byte * File :=
  let '(bs, _, f') := fileRead f (replicate (Z.to_nat n) x00) in (bs, f').

(** The block [Reading DatHeader...] of [loadDatFile]. *)
Definition readDatHeader (f : File) : DatHeader * File :=
  let '(version, f) := readUintLE 1 f in
  let '(ident, f) := readIdentifier DatMagicNumber f in
  let '(headerSize, f) := readUint32LE f in
  let '(unknownField, f) := readUint32LE f in
  let '(chunkSize, f) := readUint32LE f in
  let '(crc, f) := readUint32LE f in
  let '(unknownField2, f) := readUint32LE f in
  let '(mftOffset, f) := readUint64LE f in
  let '(mftSize, f) := readUint32LE f in
  let '(flags, f) := readUint32LE f in
  (mkDatHeader version ident headerSize unknownField chunkSize crc
               unknownField2 mftOffset mftSize flags, f).

(** The block [Reading MFTHeader...]. *)
Definition readMFTHeader (f : File) : MFTHeader * File :=
  let '(ident, f) := readIdentifier MftMagicNumber f in
  let '(unknown, f) := readUint64LE f in
  let '(numEntries, f) := readUint32LE f in
  let '(unknownField2, f) := readUint32LE f in
  let '(unknownField3, f) := readUint32LE f in
  (mkMFTHeader ident unknown numEntries unknownField2 unknownField3, f).

#[global] Instance byte_eq_decision : EqDecision byte := Byte.byte_eq_dec.

(** The bytes [4D 66 74 1A]. *)
Definition mftMagic : list byte := [x4d; x66; x74; x1a].

Definition readMFTEntry (f : File) : MFTData * File :=
  let '(offset, f) := readUint64LE f in
  let '(size, f) := readUint32LE f in
  let '(compressionFlag, f) := readUint16LE f in
  let '(entryFlag, f) := readUint16LE f in
  let '(counter, f) := readUint32LE f in
  let '(crc, f) := readUint32LE f in
  (mkMFTData offset size compressionFlag entryFlag counter crc, f).

(** The loop [for i := range datFile.MFTData] over a slice of [n] entries. *)
Fixpoint readMFTEntries (n : nat) (f : File) : list MFTData * File :=
  match n with
  | O => ([], f)
  | S n' =>
      let '(e, f1) := readMFTEntry f in
      let '(es, f2) := readMFTEntries n' f1 in
      (e :: es, f2)
  end.

Definition readMFTIndexEntry (f : File) : MFTIndexData * File :=
  let '(fileID, f) := readUint32LE f in
  let '(baseID, f) := readUint32LE f in
  (mkMFTIndexData fileID baseID, f).

(** The loop [for i := range datFile.MFTIndexData]. *)
Fixpoint readMFTIndexEntries (n : nat) (f : File) : list MFTIndexData * File :=
  match n with
  | O => ([], f)
  | S n' =>
      let '(e, f1) := readMFTIndexEntry f in
      let '(es, f2) := readMFTIndexEntries n' f1 in
      (e :: es, f2)
  end.

(** [disk] is what [os.Open(filePath)] finds: [None] when the file cannot
    be opened, its bytes otherwise. *)
Definition loadDatFile (disk : option (list byte)) : outcome DatFile :=
  match disk with
  | None => Error ErrOpen
  | Some bytes =>
      let file := mkFile bytes 0 in
      let '(header, file) := readDatHeader file in
      let file := seekIgnoringError file (i64 (MftOffset header)) in
      let '(mftHeader, file) := readMFTHeader file in
      if negb (bool_decide (Identifier mftHeader = mftMagic)) then Error ErrBadMagic
      else
        let '(mftData, file) := readMFTEntries (Z.to_nat (NumEntries mftHeader)) file in
        indexEntry ← load mftData MftEntryIndexNum;
        let numIndexEntries := Size indexEntry / 8 in
        let file := seekIgnoringError file (i64 (Offset indexEntry)) in
        let '(mftIndexData, _) := readMFTIndexEntries (Z.to_nat numIndexEntries) file in
        Ok (mkDatFile header mftHeader mftData mftIndexData)
  end.

(** The lookup loop of [extractMFTData]: the value of [index] after the
    loop, [-1] when no record matches.  [int] has 64 bits, so
    [int(entry.BaseID)] is [entry.BaseID]. *)
Fixpoint findIndex (table : list MFTIndexData) (number : Z) (isFileID : bool) : Z :=
  match table with
  | [] => -1
  | entry :: rest =>
      if isFileID && (FileID entry =? number) then BaseID entry
      else if negb isFileID && (BaseID entry =? number) then BaseID entry
      else findIndex rest number isFileID
  end.

(** What [extractMFTData] makes of the result of [inflateBuffer]: the
    inflated data, or the error wrapped as [decompression failed]. *)
Definition decompressed (r : outcome (list byte * Z)) : outcome (list byte) :=
  match r with
  | Ok (inflatedData, _) => Ok inflatedData
  | Error e => Error (ErrDecompress e)
  | Exit m => Exit m
  | Panic => Panic
  | NoFuel => NoFuel
  end.

(** [extractMFTData] from [buffer := make([]byte, mftEntry.Size)] on: reads
    the payload of [mftEntry] from the archive that is opened again
    ([disk]) and inflates it when it is flagged compressed. *)
Definition extractEntry (disk : option (list byte)) (mftEntry : MFTData)
  : outcome (list byte) :=
  let buffer := replicate (Z.to_nat (Size mftEntry)) x00 in
  match disk with
  | None => Error ErrOpen
  | Some bytes =>
      match fileSeek (mkFile bytes 0) (i64 (Offset mftEntry)) with
      | None => Error ErrSeek
      | Some file =>
          let '(buffer, failed, _) := fileRead file buffer in
          if failed then Error ErrRead
          else if negb (CompressionFlag mftEntry =? 0) then
            decompressed (inflateBuffer (u32 (Z.of_nat (length buffer))) (Some buffer) 0 0)
          else Ok buffer
      end
  end.

Definition extractMFTData (disk : option (list byte)) (datFile : DatFile)
    (number : Z) (isFileID : bool) : outcome (list byte) :=
  let index := findIndex (MFTIndexDataOf datFile) number isFileID in
  if index =? -1 then Error ErrNotFound
  else
    mftEntry ← load (MFTDataOf datFile) (index - 1);
    extractEntry disk mftEntry.

(** ** The command line

    [main] of [main.go] takes the number of an entry from the command
    line, loads the archive and dumps the first 128 bytes of the entry.
    The archive is opened twice, by [loadDatFile] and again by
    [extractMFTData], under the same path; [disk] is what both find. *)

(** The value of a decimal digit. *)
Definition digitOf (c : Ascii.ascii) : option Z :=
  let n := Z.of_N (Ascii.N_of_ascii c) in
  if (48 <=? n) && (n <=? 57) then Some (n - 48) else None.

(** The loop of [strconv.ParseUint] for the base 10 and 32 bits: [n] is the
    value of the digits read so far; a character that is no digit is a
    syntax error and a value above [2^32 - 1] a range error. *)
Fixpoint parseDigits (s : String.string) (n : Z) : option Z :=
  match s with
  | String.EmptyString => Some n
  | String.String c rest =>
      match digitOf c with
      | None => None
      | Some d =>
          let n1 := n * 10 + d in
          if 2 ^ 32 - 1 <? n1 then None else parseDigits rest n1
      end
  end.

(** [strconv.ParseUint(s, 10, 32)]: [None] when an error is returned, which
    the empty string gives too. *)
Definition parseUint32 (s : String.string) : option Z :=
  match s with
  | String.EmptyString => None
  | _ => parseDigits s 0
  end.

(** What [main] prints last on its standard output. *)
Inductive ending : Type :=
| PrintedUsage                                   (* Usage: program <MFT index> *)
| PrintedParseError (arg : String.string)        (* Error parsing MFT index ... *)
| PrintedLoadError (e : error)                   (* Error loading .dat file: ... *)
| PrintedExtractError (mftIndex : Z) (e : error) (* Error extracting MFT data ... *)
| PrintedDump (data : list byte).                (* hex.Dump(data[:128]) *)

(** [args] is [os.Args].  The slice [data[:128]] panics when the capacity
    of [data] is below 128; [data] comes from [make] with its length as
    capacity, in [extractMFTData] and in [inflateBuffer] alike. *)
Definition main (args : list String.string) (disk : option (list byte)) : outcome ending :=
  match args with
  | _ :: arg :: _ =>
      match parseUint32 arg with
      | None => Ok (PrintedParseError arg)
      | Some mftIndex =>
          match loadDatFile disk with
          | Ok datFile =>
              match extractMFTData disk datFile (u32 mftIndex) false with
              | Ok data =>
                  if Z.of_nat (length data) <? 128 then Panic
                  else Ok (PrintedDump (take 128 data))
              | Error e => Ok (PrintedExtractError mftIndex e)
              | Exit m => Exit m
              | Panic => Panic
              | NoFuel => NoFuel
              end
          | Error e => Ok (PrintedLoadError e)
          | Exit m => Exit m
          | Panic => Panic
          | NoFuel => NoFuel
          end
      end
  | _ => Ok PrintedUsage
  end.

(** The older [main], which reads the entry 16 of [Local.dat]. *)
Definition mainLocalDat (disk : option (list byte)) : outcome ending :=
  match loadDatFile disk with
  | Ok datFile =>
      match extractMFTData disk datFile 16 false with
      | Ok data =>
          if Z.of_nat (length data) <? 128 then Panic
          else Ok (PrintedDump (take 128 data))
      | Error e => Ok (PrintedExtractError 16 e)
      | Exit m => Exit m
      | Panic => Panic
      | NoFuel => NoFuel
      end
  | Error e => Ok (PrintedLoadError e)
  | Exit m => Exit m
  | Panic => Panic
  | NoFuel => NoFuel
  end.

(** * Definitions for the properties

    Predicates, the value of the dictionary tree, the two places where the
    specification words an algorithm differently from the code, and the
    sample inputs of the examples. *)

(** ** Predicates *)

(** A pump whose registers hold 32-bit values over a stream of 32-bit
    words. *)
Definition wfState (s : State) : Prop :=
  0 ≤ Head s < 2 ^ 32 ∧ 0 ≤ Buffer s < 2 ^ 32 ∧ 0 ≤ Bits s ∧
  Forall (λ w, 0 ≤ w < 2 ^ 32) (InputData s).

(** The same, as a test. *)
Definition wfStateb (s : State) : bool :=
  (0 <=? Head s) && (Head s <? 2 ^ 32) && (0 <=? Buffer s) && (Buffer s <? 2 ^ 32) &&
  (0 <=? Bits s) && forallb (λ w, (0 <=? w) && (w <? 2 ^ 32)) (InputData s).

(** The symbols of a tree are [uint16] values. *)
Definition wfDict (t : HuffmanTree) : Prop :=
  Forall (λ v, 0 ≤ v < 2 ^ 16) (SymbolValues t).

(** A result that is not the exhaustion of a loop bound of the model. *)
Definition fueled {A} (r : outcome A) : Prop := r ≠ NoFuel.

(** Whether an index record answers the key [number] of the given kind. *)
Definition matchesKey (number : Z) (isFileID : bool) (e : MFTIndexData) : bool :=
  if isFileID then FileID e =? number else BaseID e =? number.

(** ** The dictionary tree *)

(** The value of the global [huffmanTreeDict] after its initialisation. *)
Definition huffmanTreeDict : HuffmanTree :=
  Eval vm_compute in
    match initializeHuffmanTreeDict with
    | Ok t => t
    | _ => emptyTree
    end.

(** ** The algorithms in the words of the specification *)

(** The class selection of the decoder: the smallest class index [c] with
    [b < MinCode[c]]. *)
Fixpoint scanCodes_as_specified (codes : list Z) (bitsRead tempIndex : Z) : outcome Z :=
  match codes with
  | [] => Panic
  | c :: rest =>
      if bitsRead <? c then Ok tempIndex
      else scanCodes_as_specified rest bitsRead (tempIndex + 1)
  end.

(** [readCode] with that class selection. *)
Definition readCode_as_specified (t : HuffmanTree) (s : State) : outcome (Z * State) :=
  c0 ← load (CompressedCodes t) 0;
  if c0 =? 0 then Exit EmptyHuffmanTree
  else
    s1 ← needBits s 32;
    let bitsRead := readBits s1 32 in
    tempIndex ← scanCodes_as_specified (CompressedCodes t) bitsRead 0;
    tempBits ← load (BitsLength t) tempIndex;
    off ← load (SymbolValueOffset t) tempIndex;
    code ← load (CompressedCodes t) tempIndex;
    ioCode ← load (SymbolValues t)
               (u16 (off - u16 (Z.shiftr (u32 (bitsRead - code)) (u8 (32 - tempBits)))));
    s2 ← dropBits s1 tempBits;
    Ok (ioCode, s2).

(** The main loop of the inflate engine: every pass starts by reading the
    8-bit field that gives [S]. *)
Fixpoint inflateBlocks_as_specified (fuel : nat) (dict : HuffmanTree)
    (s : State) (out : list byte) (pos size : Z)
  : outcome (State * list byte * Z) :=
  if pos <? size then
    match fuel with
    | O => NoFuel
    | S fuel' =>
        s1 ← needBits s 8;
        s2 ← dropBits s1 4;
        let addition := u32 (readBits s2 4 + 1) in
        s3 ← dropBits s2 4;
        '(s', out', pos') ← inflateBlock dict addition s3 out pos size;
        inflateBlocks_as_specified fuel' dict s' out' pos' size
    end
  else Ok (s, out, pos).

Definition inflateData_as_specified (dict : HuffmanTree) (s : State)
    (outputBuffer : list byte) (outputBufferSize : Z)
  : outcome (State * list byte * Z) :=
  inflateBlocks_as_specified (Z.to_nat outputBufferSize) dict s outputBuffer 0
                             outputBufferSize.

(** ** The main loop in the words of the amended claim *)

(** The length of a copy before [S] is added, in the words of the
    specification: the base length of the symbol [σ] (after [σ -= 0x100]),
    with the [q - 1] additional bits combined into it. *)
Definition copyLength_as_specified (s : State) (σ : Z) : outcome (Z * State) :=
  let q := σ / 4 in
  let r := σ mod 4 in
  len ←
    (if q =? 0 then Ok σ
     else if (1 <=? q) && (q <=? 6) then Ok (Z.shiftl 1 (q - 1) * (4 + r))
     else if σ =? 28 then Ok 0xFF
     else Exit InvalidWriteSize);
  if (1 <? q) && negb (σ =? 28) then
    s1 ← needBits s (q - 1);
    let len' := Z.lor len (readBits s1 (q - 1)) in
    s2 ← dropBits s1 (q - 1);
    Ok (len', s2)
  else Ok (len, s).

(** The inner loop in the words of the amended claim: a copy has the
    length of its symbol plus [S], where [plus] is the [S] of the call. *)
Fixpoint inflateCodes_as_amended (n : nat) (plus : Z) (symTree copyTree : HuffmanTree)
    (s : State) (out : list byte) (pos size : Z)
  : outcome (State * list byte * Z) :=
  match n with
  | O => Ok (s, out, pos)
  | S n' =>
      if pos <? size then
        '(σ, s1) ← readCode symTree s;
        if σ <? 0x100 then
          out' ← store out pos (byte_of_Z σ);
          inflateCodes_as_amended n' plus symTree copyTree s1 out' (u32 (pos + 1)) size
        else
          '(len, s2) ← copyLength_as_specified s1 (σ - 0x100);
          let len := len + plus in
          '(dist, s3) ← decodeWriteOffset copyTree s2;
          '(out', pos') ← copyBytes (Z.to_nat len) out pos dist size;
          inflateCodes_as_amended n' plus symTree copyTree s3 out' pos' size
      else Ok (s, out, pos)
  end.

(** One iteration of the main loop in the words of the amended claim: it
    reads no 8-bit field and starts with the symbol tree. *)
Definition inflateBlock_as_amended (dict : HuffmanTree) (plus : Z)
    (s : State) (out : list byte) (pos size : Z)
  : outcome (State * list byte * Z) :=
  '(s1, symTree) ← parseHuffmanTree dict s emptyTree;
  '(s2, copyTree) ← parseHuffmanTree dict s1 emptyTree;
  s3 ← needBits s2 4;
  let maxCount := u32 (Z.shiftl (u32 (readBits s3 4 + 1)) 12) in
  s4 ← dropBits s3 4;
  inflateCodes_as_amended (Z.to_nat maxCount) plus symTree copyTree s4 out pos size.

Fixpoint inflateBlocks_as_amended (fuel : nat) (dict : HuffmanTree) (plus : Z)
    (s : State) (out : list byte) (pos size : Z)
  : outcome (State * list byte * Z) :=
  if pos <? size then
    match fuel with
    | O => NoFuel
    | S fuel' =>
        '(s', out', pos') ← inflateBlock_as_amended dict plus s out pos size;
        inflateBlocks_as_amended fuel' dict plus s' out' pos' size
    end
  else Ok (s, out, pos).

(** The inflate engine in the words of the amended claim: the 8-bit field
    is read once, before the main loop, [S = K + 1] holds for the whole
    call, and every copy of every iteration has [S] added to its length. *)
Definition inflateData_as_amended (dict : HuffmanTree) (s : State)
    (outputBuffer : list byte) (outputBufferSize : Z)
  : outcome (State * list byte * Z) :=
  s1 ← needBits s 8;
  s2 ← dropBits s1 4;
  let K := readBits s2 4 in
  s3 ← dropBits s2 4;
  inflateBlocks_as_amended (Z.to_nat outputBufferSize) dict (K + 1)
                           s3 outputBuffer 0 outputBufferSize.

(** ** Observations of a run *)

(** The words delivered by [n] successive pulls, each followed by the
    consumption of the 32 bits it brought in. *)
Fixpoint pullWords (n : nat) (s : State) : outcome (list Z) :=
  match n with
  | O => Ok []
  | S n' =>
      s1 ← pullByte s;
      s2 ← dropBits s1 32;
      rest ← pullWords n' s2;
      Ok (Head s1 :: rest)
  end.

(** The pump of [inflateBuffer] before the first pull. *)
Definition initialState (ws : list Z) : State :=
  mkState ws (u32 (Z.of_nat (length ws))) 0 0 0 0 false.

(** The pump of [inflateBuffer] when [inflateData] is called: the two
    words of the prefix have been consumed. *)
Definition afterPrefix (ws : list Z) : State :=
  mkState ws (u32 (Z.of_nat (length ws))) 2 0 0 0 false.

(** The pump of a stream when the first pass of the main loop starts: the
    two words of the prefix and the 8-bit field have been consumed. *)
Definition firstPassState (ws : list Z) : outcome State :=
  s1 ← needBits (initialState ws) 32;
  s2 ← dropBits s1 32;
  s3 ← needBits s2 32;
  s4 ← dropBits s3 32;
  s5 ← needBits s4 8;
  s6 ← dropBits s5 4;
  dropBits s6 4.

(** The two trees of the first pass and the pump when its first code is
    read. *)
Definition firstPassTrees (ws : list Z) : outcome (HuffmanTree * HuffmanTree * State) :=
  s ← firstPassState ws;
  '(s1, huffmanTreeSymbol) ← parseHuffmanTree huffmanTreeDict s emptyTree;
  '(s2, huffmanTreeCopy) ← parseHuffmanTree huffmanTreeDict s1 emptyTree;
  s3 ← needBits s2 4;
  s4 ← dropBits s3 4;
  Ok (huffmanTreeSymbol, huffmanTreeCopy, s4).

(** ** Bytes and words *)

(** The four bytes of a word, least significant first, and the bytes of a
    stream of words. *)
Definition bytesOfWord (w : Z) : list byte :=
  [byte_of_Z w; byte_of_Z (Z.shiftr w 8); byte_of_Z (Z.shiftr w 16);
   byte_of_Z (Z.shiftr w 24)].

Definition bytesOfWords (ws : list Z) : list byte := concat (map bytesOfWord ws).

(** The four bytes of the word [i] of a byte string. *)
Definition wordBytes (input : list byte) (i : nat) : list byte :=
  take 4 (drop (4 * i) input).

(** The little-endian 32-bit words of a byte string whose length is a
    multiple of 4. *)
Definition littleEndianWords (input : list byte) : list Z :=
  (λ k, le_value (wordBytes input k)) <$> seq 0 (length input / 4).

(** ** Writing a compressed stream

    A stream is written as a sequence of bit fields, most significant bit
    first, packed into 32-bit words. *)

(** The low [width] bits of [v], most significant first. *)
Fixpoint field (width : nat) (v : Z) : list bool :=
  match width with
  | O => []
  | S w => Z.testbit v (Z.of_nat w) :: field w v
  end.

Definition valueOfBits (bits : list bool) : Z :=
  fold_left (λ acc (b : bool), 2 * acc + (if b then 1 else 0)) bits 0.

Fixpoint packBits (fuel : nat) (bits : list bool) : list Z :=
  match fuel, bits with
  | _, [] => []
  | O, _ => []
  | S fuel', _ =>
      valueOfBits (take 32 (bits ++ replicate 31 false)) :: packBits fuel' (drop 32 bits)
  end.

(** The words of a bit string, the last one filled up with zeros. *)
Definition packWords (bits : list bool) : list Z := packBits (length bits) bits.

(** The code of the dictionary tree for the description entry "[count]
    symbols of code length [bits]" ([bits = 0]: the symbols are absent), for
    the entries the samples use. *)
Definition entry (count bits : Z) : list bool :=
  let sym := Z.lor (Z.shiftl (count - 1) 5) bits in
  if sym =? 0x00 then field 4 9
  else if sym =? 0x01 then field 10 27
  else if sym =? 0x02 then field 10 26
  else if sym =? 0x20 then field 6 13
  else if sym =? 0x80 then field 10 19
  else if sym =? 0xE0 then field 5 8
  else [].

(** [n] times the same entry. *)
Definition entries (n : nat) (count bits : Z) : list bool :=
  concat (replicate n (entry count bits)).

(** A pump that holds 32 bits, starting with [bits]. *)
Definition pumpOfBits (bits : list bool) : State :=
  mkState [] 0 0 (valueOfBits (take 32 (bits ++ replicate 32 false))) 32 0 false.

(** The bits [bits] are a code of the tree [t] for the symbol [sym]:
    decoding consumes them all and yields [sym]. *)
Definition decodesTo (t : HuffmanTree) (bits : list bool) (sym : Z) : Prop :=
  ∃ s, readCode t (pumpOfBits bits) = Ok (sym, s) ∧
       Bits s = 32 - Z.of_nat (length bits).

(** The 8-bit field before the main loop with [K = 2], so that [S = 3]. *)
Definition sizeField : list bool := field 4 0 ++ field 4 2.

(** A tree of 0x42 symbols whose only member is the literal [A] (0x41),
    with a code of one bit: the code 1 decodes to [A], and so do the bits 0,
    which reach the first unused class and consume nothing. *)
Definition treeOfA : list bool :=
  field 16 0x42 ++ entry 1 1 ++ entries 8 8 0 ++ entry 1 0.

(** A tree of 257 symbols with the literal [B] (0x42, code 1) and the copy
    symbol [0x100] (code 01). *)
Definition treeOfBAndCopy : list bool :=
  field 16 257 ++ entry 1 2 ++ entries 23 8 0 ++ entry 5 0 ++
  entry 1 1 ++ entries 8 8 0 ++ entry 2 0.

(** A tree of 257 symbols whose only member is the copy symbol [0x100]
    (code 1). *)
Definition treeOfCopy : list bool :=
  field 16 257 ++ entry 1 1 ++ entries 32 8 0.

(** The copy trees: none, the distance symbol 0 alone, the distance symbol
    32 alone (each with the code 1). *)
Definition noTree : list bool := field 16 0.
Definition treeOfDistance0 : list bool := field 16 1 ++ entry 1 1.
Definition treeOfDistance32 : list bool := field 16 33 ++ entry 1 1 ++ entries 4 8 0.

(** The 4-bit field [M = 0]: [MaxCount = 4096]. *)
Definition maxCountField : list bool := field 4 0.

(** ** Sample streams *)

(** Declares 3 bytes; the codes are five times the literal [A]. *)
Definition literalStream : list Z :=
  [0xdeadbeef; 3] ++
  packWords (sizeField ++ treeOfA ++ noTree ++ maxCountField ++
             [true; true; true; true; true]) ++ [0].

(** Declares 4 bytes; the first code is a copy (symbol [0x100]: length
    [0 + S = 3]) with the distance symbol 0 (distance 1), at output
    position 0. *)
Definition copyAtStartStream : list Z :=
  [0; 4] ++
  packWords (sizeField ++ treeOfCopy ++ treeOfDistance0 ++ maxCountField ++
             [true] ++ [true]) ++ [0].

(** Declares 4 bytes: the literal [B], then a copy of length 3 from
    distance 1. *)
Definition literalCopyStream : list Z :=
  [0; 4] ++
  packWords (sizeField ++ treeOfBAndCopy ++ treeOfDistance0 ++ maxCountField ++
             [true] ++ [false; true] ++ [true]) ++ [0].

(** Declares 4 bytes: the literal [B], then a copy of length 3 whose
    distance symbol is 32, with fifteen additional bits, all zero. *)
Definition longDistanceStream : list Z :=
  [0; 4] ++
  packWords (sizeField ++ treeOfBAndCopy ++ treeOfDistance32 ++ maxCountField ++
             [true] ++ [false; true] ++ [true] ++ field 15 0) ++ [0].

(** Declares 4100 bytes, decoded in two passes of the main loop.  First
    pass: the tree of the literal [A] and [MaxCount = 4096]; its 4096 codes
    are the bit 0 that follows, which is not consumed.  Second pass: the
    literal [B], then a copy of length [0 + S] from distance 1. *)
Definition twoPassStream : list Z :=
  [0; 4100] ++
  packWords (sizeField ++ treeOfA ++ noTree ++ maxCountField ++
             treeOfBAndCopy ++ treeOfDistance0 ++ maxCountField ++
             [true] ++ [false; true] ++ [true]) ++ [0].

(** The trees of [copyAtStartStream] and its pump when the first code is
    read. *)
Definition copyAtStartSymbolTree : HuffmanTree :=
  Eval vm_compute in
    match firstPassTrees copyAtStartStream with
    | Ok (t, _, _) => t
    | _ => emptyTree
    end.

Definition copyAtStartCopyTree : HuffmanTree :=
  Eval vm_compute in
    match firstPassTrees copyAtStartStream with
    | Ok (_, t, _) => t
    | _ => emptyTree
    end.

Definition copyAtStartState : State :=
  Eval vm_compute in
    match firstPassTrees copyAtStartStream with
    | Ok (_, _, s) => s
    | _ => mkState [] 0 0 0 0 0 false
    end.

(** ** Sample pumps *)

Fixpoint countFrom (n : nat) (start : Z) : list Z :=
  match n with
  | O => []
  | S n' => start :: countFrom n' (start + 1)
  end.

(** A stream of [0x4001] words, word [i] being [i], and a pump whose cursor
    is three words before the end of the first block. *)
Definition blockStream : list Z := countFrom (Z.to_nat 0x4001) 0.

Definition blockState : State := mkState blockStream 0x4001 0x3FFD 0 0 0 false.

(** A fresh pump over a stream of two words. *)
Definition startState : State := mkState [7; 8] 2 0 0 0 0 false.

(** A pump holding 32 bits, all ones. *)
Definition onesState : State := mkState [] 0 0 0xFFFFFFFF 32 0 false.

(** ** Sample archives *)

(** A handle with two entries and three index records, two of them with the
    file id 10, and the archive bytes its entries point into. *)
Definition sampleEntries : list MFTData :=
  [mkMFTData 0 2 0 0 0 0; mkMFTData 2 3 0 0 0 0].

Definition sampleHandle : DatFile :=
  mkDatFile (mkDatHeader 0 [] 0 0 0 0 0 0 0 0) (mkMFTHeader mftMagic 0 2 0 0)
            sampleEntries
            [mkMFTIndexData 11 1; mkMFTIndexData 10 2; mkMFTIndexData 10 1].

Definition sampleDisk : list byte := ["a"; "b"; "c"; "d"; "e"; "f"]%byte.

(** A handle whose index table names the entries 0 and 3 of a table of two
    entries. *)
Definition corruptHandle : DatFile :=
  mkDatFile (mkDatHeader 0 [] 0 0 0 0 0 0 0 0) (mkMFTHeader mftMagic 0 2 0 0)
            sampleEntries
            [mkMFTIndexData 7 0; mkMFTIndexData 8 3].

(** An archive of 88 bytes: a header of 40 bytes whose [MftOffset] is 40,
    an MFT header with the magic and [NumEntries = 1], and one entry. *)
Definition oneEntryArchive : list byte :=
  map byte_of_Z
    ([0x97; 0x41; 0x4E; 0x1A] ++ [40; 0; 0; 0] ++ replicate 16 0 ++
     [40; 0; 0; 0; 0; 0; 0; 0] ++ [48; 0; 0; 0] ++ [0; 0; 0; 0] ++
     [0x4D; 0x66; 0x74; 0x1A] ++ replicate 8 0 ++ [1; 0; 0; 0] ++ replicate 8 0 ++
     replicate 24 0).

(** The same archive with [NumEntries = 2], a second entry of size 16 at
    offset 112 and an index table of two records there. *)
Definition twoEntryArchive : list byte :=
  map byte_of_Z
    ([0x97; 0x41; 0x4E; 0x1A] ++ [40; 0; 0; 0] ++ replicate 16 0 ++
     [40; 0; 0; 0; 0; 0; 0; 0] ++ [72; 0; 0; 0] ++ [0; 0; 0; 0] ++
     [0x4D; 0x66; 0x74; 0x1A] ++ replicate 8 0 ++ [2; 0; 0; 0] ++ replicate 8 0 ++
     replicate 24 0 ++
     [112; 0; 0; 0; 0; 0; 0; 0; 16; 0; 0; 0] ++ replicate 12 0 ++
     [5; 0; 0; 0; 1; 0; 0; 0; 6; 0; 0; 0; 2; 0; 0; 0]).

(** * Definitions for the further properties *)

(** ** The stream of bits *)

(** The 64 bits of the window of a pump: [Head] above [Buffer]. *)
Definition window (s : State) : Z := Head s * 2 ^ 32 + Buffer s.

(** A stream of words read as one number, the first word on top. *)
Fixpoint streamValue (ws : list Z) : Z :=
  match ws with
  | [] => 0
  | w :: rest => w * 2 ^ (32 * Z.of_nat (length rest)) + streamValue rest
  end.

(** The [n] bits of the stream from the bit [c] on, as a number; bit 0 is
    the top bit of the first word. *)
Definition streamBits (ws : list Z) (c n : Z) : Z :=
  (streamValue ws / 2 ^ (32 * Z.of_nat (length ws) - c - n)) mod 2 ^ n.

(** The pump [s] stands at the bit [c] of the stream [ws]: the [Bits s]
    bits it holds are the bits of the stream from [c] on, at the top of the
    window, and the words before the word cursor are the ones consumed.
    The stream is shorter than a block, so that no word is skipped. *)
Definition pumpAt (ws : list Z) (c : Z) (s : State) : Prop :=
  InputData s = ws ∧ InputSize s = Z.of_nat (length ws) ∧
  Z.of_nat (length ws) < BlockSize - 1 ∧
  Forall (λ w, 0 ≤ w < 2 ^ 32) ws ∧
  0 ≤ c ∧ 0 ≤ Bits s ≤ 64 ∧
  c + Bits s = 32 * InputPosition s ∧ InputPosition s ≤ Z.of_nat (length ws) ∧
  0 ≤ Head s < 2 ^ 32 ∧ 0 ≤ Buffer s < 2 ^ 32 ∧
  window s = streamBits ws c (Bits s) * 2 ^ (64 - Bits s).

(** ** Output buffers *)

(** The bytes of [out'] outside the positions [pos .. pos' - 1] are those of
    [out]. *)
Definition sameOutside (pos pos' : Z) (out out' : list byte) : Prop :=
  take (Z.to_nat pos) out' = take (Z.to_nat pos) out ∧
  drop (Z.to_nat pos') out' = drop (Z.to_nat pos') out.

(** ** Longer streams *)

(** The pump [s] over a stream that has the words [tail] after its own. *)
Definition withTail (tail : list Z) (s : State) : State :=
  mkState (InputData s ++ tail) (InputSize s + Z.of_nat (length tail))
          (InputPosition s) (Head s) (Bits s) (Buffer s) (Empty s).

(** The pump knows the length of its stream. *)
Definition sized (s : State) : Prop := InputSize s = Z.of_nat (length (InputData s)).

(** ** The layout of an archive *)

(** The [n] bytes at the offset [off] of a file. *)
Definition bytesAt (bytes : list byte) (off : Z) (n : nat) : list byte :=
  take n (drop (Z.to_nat off) bytes).

(** The unsigned little-endian integer of [n] bytes at the offset [off]. *)
Definition uintAt (bytes : list byte) (off : Z) (n : nat) : Z :=
  le_value (bytesAt bytes off n).

(** The header of 40 bytes at the start of the file. *)
Definition datHeaderAt (bytes : list byte) : DatHeader :=
  mkDatHeader (uintAt bytes 0 1) (bytesAt bytes 1 3) (uintAt bytes 4 4)
              (uintAt bytes 8 4) (uintAt bytes 12 4) (uintAt bytes 16 4)
              (uintAt bytes 20 4) (uintAt bytes 24 8) (uintAt bytes 32 4)
              (uintAt bytes 36 4).

(** The MFT header of 24 bytes at the offset [off]. *)
Definition mftHeaderAt (bytes : list byte) (off : Z) : MFTHeader :=
  mkMFTHeader (bytesAt bytes off 4) (uintAt bytes (off + 4) 8)
              (uintAt bytes (off + 12) 4) (uintAt bytes (off + 16) 4)
              (uintAt bytes (off + 20) 4).

(** An entry of 24 bytes and an index record of 8 bytes at the offset
    [off]. *)
Definition mftDataAt (bytes : list byte) (off : Z) : MFTData :=
  mkMFTData (uintAt bytes off 8) (uintAt bytes (off + 8) 4)
            (uintAt bytes (off + 12) 2) (uintAt bytes (off + 14) 2)
            (uintAt bytes (off + 16) 4) (uintAt bytes (off + 20) 4).

Definition mftIndexDataAt (bytes : list byte) (off : Z) : MFTIndexData :=
  mkMFTIndexData (uintAt bytes off 4) (uintAt bytes (off + 4) 4).

(** ** Canonical codes *)

(** The chain of [codeTab] that starts at [sym]: [sym], [codeTab[sym]],
    and so on up to the end mark [-1]. *)
Inductive chainOf (codeTab : list Z) : Z → list Z → Prop :=
| chain_end : chainOf codeTab (-1) []
| chain_next (sym next : Z) (rest : list Z) :
    sym ≠ -1 → load codeTab sym = Ok next → chainOf codeTab next rest →
    chainOf codeTab sym (sym :: rest).

(** [levels] lists the symbols by code length: [levels[L]] are the symbols
    of code length [L], in the order of their chain.  [freeCodes levels 1]
    gives for every length [L] the number of codes of [L] bits that no
    shorter code is a prefix of: 1 for the length 0, and twice what the
    symbols of the length [L] leave for the length [L + 1]. *)
Fixpoint freeCodes (levels : list (list Z)) (free : Z) : list Z :=
  match levels with
  | [] => []
  | l :: rest => free :: freeCodes rest (2 * (free - Z.of_nat (length l)))
  end.

(** The codes fit: no length has more symbols than free codes. *)
Definition fits (levels : list (list Z)) (free : Z) : Prop :=
  Forall2 (λ l f, Z.of_nat (length l) ≤ f) levels (freeCodes levels free).

(** The classes of the decoder table, one for every length that has
    symbols, as triples of the minimum code (left-aligned in 32 bits), the
    length and the offset of the last symbol of the class: the symbols of
    the length [L] get the [n] highest free codes, the first symbol the
    highest. *)
Fixpoint classesOf (levels : list (list Z)) (L free cum : Z) : list (Z * Z * Z) :=
  match levels with
  | [] => []
  | l :: rest =>
      let n := Z.of_nat (length l) in
      (if n =? 0 then [] else [((free - n) * 2 ^ (32 - L), L, cum + n - 1)])
      ++ classesOf rest (L + 1) (2 * (free - n)) (cum + n)
  end.

(** An array of [MAX_SYMBOL_VALUE] entries that starts with [l], zero
    after it. *)
Definition padded (l : list Z) : list Z :=
  l ++ replicate (Z.to_nat MAX_SYMBOL_VALUE - length l) 0.

(** The decoder table of the canonical code of [levels]. *)
Definition canonicalTree (levels : list (list Z)) : HuffmanTree :=
  let classes := classesOf levels 0 1 0 in
  mkTree (padded (concat levels))
         (padded (map (λ c, c.1.1) classes))
         (padded (map (λ c, c.1.2) classes))
         (padded (map (λ c, c.2) classes)).

(** The codes of the greatest length that are left when every length has
    taken its codes: 0 for a complete code. *)
Fixpoint leftover (levels : list (list Z)) (free : Z) : Z :=
  match levels with
  | [] => free
  | l :: rest => leftover rest (2 * (free - Z.of_nat (length l)))
  end.

(** The table after the lengths that gave the symbols [syms] and the
    classes [classes]. *)
Definition partialTree (syms : list Z) (classes : list (Z * Z * Z)) : HuffmanTree :=
  mkTree (padded syms)
         (padded (map (λ c, c.1.1) classes))
         (padded (map (λ c, c.1.2) classes))
         (padded (map (λ c, c.2) classes)).

(** The working tables hold the symbols of [levels]: [bitTab[L]] starts the
    chain of the length [L], and the symbols that no chain holds have the
    end mark in [codeTab]. *)
Definition tabsOf (bitTab codeTab : list Z) (levels : list (list Z)) : Prop :=
  Forall2 (chainOf codeTab) bitTab levels ∧
  ∀ sym : Z, 0 ≤ sym < Z.of_nat (length codeTab) → sym ∉ concat levels →
             load codeTab sym = Ok (-1).

(** The symbols of a table of lengths and symbols, by length: each entry
    goes to the head of the symbols of its length, as [fillTabsHelper]
    puts it at the head of its chain. *)
Fixpoint tableLevels (bits symbols : list Z) (levels : list (list Z)) : list (list Z) :=
  match bits, symbols with
  | b :: bits', sym :: symbols' =>
      tableLevels bits' symbols' (alter (cons sym) (Z.to_nat b) levels)
  | _, _ => levels
  end.

Definition noLevels : list (list Z) := replicate (Z.to_nat MAX_CODE_BITS_LENGTH) [].

(** The symbols of the dictionary tree by length. *)
Definition dictLevels : list (list Z) := tableLevels dictBits dictSymbols noLevels.

(** Sample tables.  A complete code: the symbol 5 of length 1 (code 1), the
    symbols 7 and 9 of length 2 (codes 01 and 00). *)
Definition smallLevels : list (list Z) := <[1%nat := [5]]> (<[2%nat := [7; 9]]> noLevels).
Definition smallBitTab : list Z := <[1%nat := 5]> (<[2%nat := 7]> freshBitTab).
Definition smallCodeTab : list Z := <[7%nat := 9]> freshCodeTab.

(** A code with a gap: only the symbols 7 and 9 of length 2 (codes 11 and
    10); no code starts with 0. *)
Definition gapLevels : list (list Z) := <[2%nat := [7; 9]]> noLevels.
Definition gapBitTab : list Z := <[2%nat := 7]> freshBitTab.

(** A code of one length that uses every code of that length: the symbols
    5 and 6 of length 1. *)
Definition fullLevels : list (list Z) := <[1%nat := [5; 6]]> noLevels.
Definition fullBitTab : list Z := <[1%nat := 5]> freshBitTab.
Definition fullCodeTab : list Z := <[5%nat := 6]> freshCodeTab.




(** ** The checks of the bit pump *)

(** The fatal messages with which the pump answers a call that breaks its
    rules: a pull with a full window, a request or a drop of more than 32
    bits, a drop of more bits than the window holds. *)
Definition pumpMisuse (m : exit_msg) : bool :=
  match m with
  | PullWithFullWindow | NeedTooManyBits | DropTooManyBits | DropMoreThanHeld => true
  | _ => false
  end.

(** A result that is no such message. *)
Definition proper {A} (r : outcome A) : Prop := ∀ m, r = Exit m → pumpMisuse m = false.

(** A pump between two calls: it holds at most 63 bits. *)
Definition held (s : State) : Prop := 0 ≤ Bits s ≤ 63.

(** A tree whose code lengths are at most 32. *)
Definition lengthsOk (t : HuffmanTree) : Prop :=
  Forall (λ b, 0 ≤ b ≤ 32) (BitsLength t).

(** * Properties *)

(** ** The outcome monad and the array accesses *)

Lemma bind_Ok {A B} (m : outcome A) (f : A → outcome B) (b : B) :
  m ≫= f = Ok b ↔ ∃ a, m = Ok a ∧ f a = Ok b.
Proof.
  destruct m; simpl; split; try (intros [a' [H _]]; discriminate); try discriminate.
  - intros H; eauto.
  - intros [a' [H1 H2]]. now inversion H1; subst.
Qed.

Lemma load_Ok {A} (l : list A) (i : Z) (x : A) :
  load l i = Ok x ↔ 0 ≤ i ∧ l !! Z.to_nat i = Some x.
Proof.
  unfold load. split.
  - destruct (0 <=? i) eqn:H0; simpl; [|discriminate].
    destruct (i <? Z.of_nat (length l)); [|discriminate].
    destruct (l !! Z.to_nat i); [|discriminate].
    intros [= ->]. split; [lia | reflexivity].
  - intros [H0 Hx].
    pose proof (lookup_lt_Some _ _ _ Hx) as Hlt.
    destruct (0 <=? i) eqn:E0; [|lia]. simpl.
    destruct (i <? Z.of_nat (length l)) eqn:E1; [|lia].
    now rewrite Hx.
Qed.

Lemma load_Panic {A} (l : list A) (i : Z) :
  i < 0 ∨ Z.of_nat (length l) ≤ i → load l i = Panic.
Proof.
  intros H. unfold load.
  destruct (0 <=? i) eqn:E0; simpl; [|reflexivity].
  destruct (i <? Z.of_nat (length l)) eqn:E1; [lia | reflexivity].
Qed.

Lemma load_cases {A} (l : list A) (i : Z) :
  (∃ x, load l i = Ok x) ∨ load l i = Panic.
Proof.
  unfold load. destruct ((0 <=? i) && (i <? Z.of_nat (length l))); [|auto].
  destruct (l !! Z.to_nat i); eauto.
Qed.

Lemma store_Ok {A} (l l' : list A) (i : Z) (x : A) :
  store l i x = Ok l' ↔ 0 ≤ i < Z.of_nat (length l) ∧ l' = <[Z.to_nat i := x]> l.
Proof.
  unfold store. split.
  - destruct (0 <=? i) eqn:E0; simpl; [|discriminate].
    destruct (i <? Z.of_nat (length l)) eqn:E1; [|discriminate].
    intros [= <-]. split; [lia | reflexivity].
  - intros [[H0 H1] ->].
    destruct (0 <=? i) eqn:E0; [|lia]. simpl.
    destruct (i <? Z.of_nat (length l)) eqn:E1; [reflexivity | lia].
Qed.

Lemma store_length {A} (l l' : list A) (i : Z) (x : A) :
  store l i x = Ok l' → length l' = length l.
Proof. intros [_ ->]%store_Ok. apply length_insert. Qed.

Lemma store_cases {A} (l : list A) (i : Z) (x : A) :
  (∃ l', store l i x = Ok l') ∨ store l i x = Panic.
Proof. unfold store. destruct ((0 <=? i) && (i <? Z.of_nat (length l))); eauto. Qed.

(** Splits a hypothesis [m ≫= f = Ok b] into its two steps. *)
Ltac bind_inv H :=
  let a := fresh "a" in
  let H1 := fresh H "l" in
  let H2 := fresh H "r" in
  apply bind_Ok in H; destruct H as [a [H1 H2]].

(** ** The bit pump: basic facts *)

Lemma pullByte_Ok (s s' : State) :
  pullByte s = Ok s' ↔
  Bits s < 32 ∧ nextPosition (InputPosition s) < InputSize s ∧
  ∃ w, load (InputData s) (nextPosition (InputPosition s)) = Ok w ∧
       s' = mkState (InputData s) (InputSize s)
              (u32 (nextPosition (InputPosition s) + 1))
              (if Bits s =? 0 then w else Z.lor (Head s) (Z.shiftr w (Bits s)))
              (u32 (Bits s + 32))
              (if Bits s =? 0 then 0 else u32 (Z.shiftl w (32 - Bits s)))
              (Empty s).
Proof.
  unfold pullByte.
  destruct (32 <=? Bits s) eqn:E1.
  { split; [discriminate | lia]. }
  destruct (InputSize s <=? nextPosition (InputPosition s)) eqn:E2.
  { split; [discriminate | lia]. }
  split.
  - intros H. bind_inv H. split; [lia|]. split; [lia|]. exists a. split; [assumption|].
    destruct (Bits s =? 0); now inversion Hr.
  - intros (_ & _ & w & Hw & ->). rewrite Hw. simpl.
    now destruct (Bits s =? 0).
Qed.

Lemma nextPosition_not_block_end (p : Z) :
  nextPosition p mod BlockSize ≠ BlockSize - 1.
Proof.
  unfold nextPosition, u32, BlockSize.
  destruct ((p + 1) mod 2 ^ 32 mod 16384 =? 0) eqn:E.
  - apply Z.eqb_eq in E. rewrite E. discriminate.
  - apply Z.eqb_neq in E. intros H. apply E.
    replace (2 ^ 32) with (16384 * 262144) by reflexivity.
    rewrite Z.rem_mul_r by lia.
    rewrite Z.mul_comm, Z.mod_add by lia. rewrite Z.mod_mod by lia.
    rewrite Z.add_mod, H by lia. reflexivity.
Qed.

Lemma nextPosition_spec (p : Z) :
  0 ≤ p → p + 1 < 2 ^ 32 →
  nextPosition p = if (p + 1) mod BlockSize =? 0 then p + 1 else p.
Proof.
  intros H0 H1. unfold nextPosition, u32.
  now rewrite (Z.mod_small (p + 1)) by lia.
Qed.

Lemma needBits_enough (s : State) (bits : Z) :
  bits ≤ 32 → bits ≤ Bits s → needBits s bits = Ok s.
Proof.
  intros H1 H2. unfold needBits.
  destruct (32 <? bits) eqn:E1; [lia|].
  destruct (Bits s <? bits) eqn:E2; [lia | reflexivity].
Qed.

Lemma readBits_32 (s : State) : readBits s 32 = Head s.
Proof. unfold readBits. simpl. apply Z.shiftr_0_r. Qed.

Lemma dropBits_Ok (s : State) (bits : Z) :
  bits ≤ 32 → bits ≤ Bits s →
  ∃ s', dropBits s bits = Ok s' ∧ Bits s' = u32 (Bits s - bits) ∧
        InputPosition s' = InputPosition s ∧ InputData s' = InputData s ∧
        InputSize s' = InputSize s.
Proof.
  intros H1 H2. unfold dropBits.
  destruct (32 <? bits) eqn:E1; [lia|].
  destruct (Bits s <? bits) eqn:E2; [lia|].
  destruct (bits =? 32); eexists; (split; [reflexivity|]); simpl; auto.
Qed.


Lemma initializeHuffmanTreeDict_Ok : initializeHuffmanTreeDict = Ok huffmanTreeDict.
Proof. vm_compute. reflexivity. Qed.

(** ** States and trees that hold values of their Go types *)

Lemma u32_range (z : Z) : 0 ≤ u32 z < 2 ^ 32.
Proof. unfold u32. apply Z.mod_pos_bound. lia. Qed.

Lemma u16_range (z : Z) : 0 ≤ u16 z < 2 ^ 16.
Proof. unfold u16. apply Z.mod_pos_bound. lia. Qed.

Lemma u8_range (z : Z) : 0 ≤ u8 z < 2 ^ 8.
Proof. unfold u8. apply Z.mod_pos_bound. lia. Qed.

Lemma lor_range (a b n : Z) :
  0 ≤ n → 0 ≤ a < 2 ^ n → 0 ≤ b < 2 ^ n → 0 ≤ Z.lor a b < 2 ^ n.
Proof.
  intros Hn Ha Hb.
  assert (0 < 2 ^ n) as Hp by (apply Z.pow_pos_nonneg; lia).
  split.
  - apply Z.lor_nonneg. lia.
  - destruct (Z.eq_dec (Z.lor a b) 0) as [->|Hne]; [lia|].
    apply Z.log2_lt_pow2; [pose proof (proj2 (Z.lor_nonneg a b)); lia|].
    rewrite Z.log2_lor by lia.
    destruct (Z.eq_dec a 0) as [->|Ha0]; destruct (Z.eq_dec b 0) as [->|Hb0].
    + now destruct Hne.
    + rewrite Z.max_r by (simpl; apply Z.log2_nonneg). apply Z.log2_lt_pow2; lia.
    + rewrite Z.max_l by (simpl; apply Z.log2_nonneg). apply Z.log2_lt_pow2; lia.
    + apply Z.max_lub_lt; apply Z.log2_lt_pow2; lia.
Qed.

Lemma shiftr_range (a k n : Z) : 0 ≤ k → 0 ≤ a < 2 ^ n → 0 ≤ Z.shiftr a k < 2 ^ n.
Proof.
  intros Hk Ha. rewrite Z.shiftr_div_pow2 by lia. split.
  - apply Z.div_pos; lia.
  - apply Z.le_lt_trans with a; [|lia].
    apply Z.div_le_upper_bound; [lia|]. 
    assert (1 ≤ 2 ^ k) by (apply Z.pow_le_mono_r with (b := 0) (c := k); lia). nia.
Qed.

Lemma pullByte_wf (s s' : State) : wfState s → pullByte s = Ok s' → wfState s'.
Proof.
  intros (HH & HB & Hb & Hw) H. apply pullByte_Ok in H.
  destruct H as (Hlt & _ & w & Hl & ->).
  apply load_Ok in Hl. destruct Hl as [_ Hl].
  assert (0 ≤ w < 2 ^ 32) as Hwr.
  { rewrite Forall_forall in Hw. apply Hw. eapply list_elem_of_lookup_2. exact Hl. }
  unfold wfState. simpl. split; [|split; [|split]]; try assumption.
  - destruct (Bits s =? 0); [lia|]. apply lor_range; [lia | lia | apply shiftr_range; lia].
  - destruct (Bits s =? 0); [lia | apply u32_range].
  - apply u32_range.
Qed.

Lemma needBits_wf (s s' : State) (bits : Z) :
  wfState s → needBits s bits = Ok s' → wfState s'.
Proof.
  unfold needBits. intros Hwf.
  destruct (32 <? bits); [discriminate|].
  destruct (Bits s <? bits).
  - now apply pullByte_wf.
  - now intros [= <-].
Qed.

Lemma dropBits_wf (s s' : State) (bits : Z) :
  wfState s → dropBits s bits = Ok s' → wfState s'.
Proof.
  unfold dropBits. intros (HH & HB & Hb & Hw).
  destruct (32 <? bits); [discriminate|].
  destruct (Bits s <? bits); [discriminate|].
  destruct (bits =? 32); intros [= <-]; unfold wfState; simpl;
    (split; [|split; [|split]]); try apply u32_range; try assumption; lia.
Qed.

Lemma readCode_wf (t : HuffmanTree) (s s' : State) (c : Z) :
  wfState s → readCode t s = Ok (c, s') → wfState s'.
Proof.
  unfold readCode. intros Hwf H.
  bind_inv H. destruct (a =? 0); [discriminate|].
  bind_inv Hr. bind_inv Hrr. bind_inv Hrrr. bind_inv Hrrrr. bind_inv Hrrrrr.
  bind_inv Hrrrrrr. bind_inv Hrrrrrrr. injection Hrrrrrrrr as _ <-.
  eapply dropBits_wf; [|eassumption]. eapply needBits_wf; eassumption.
Qed.

Lemma wfStateb_sound (s : State) : wfStateb s = true → wfState s.
Proof.
  unfold wfStateb, wfState. intros H.
  repeat (apply andb_prop in H; destruct H as [H ?]).
  repeat split; try lia.
  apply Forall_forall. intros w Hw.
  match goal with
  | Hf : forallb _ _ = true |- _ =>
      rewrite forallb_forall in Hf; apply list_elem_of_In in Hw; specialize (Hf w Hw)
  end.
  lia.
Qed.
(** ** Decoding keeps the pump well formed *)

(** Splits every hypothesis [m ≫= f = Ok b] into its steps. *)
Ltac binds :=
  repeat match goal with
  | H : (_ ≫= _) = Ok _ |- _ =>
      let v := fresh "v" in
      let E := fresh "E" in
      apply bind_Ok in H; destruct H as [v [E H]]; cbv beta in H
  | H : (let '(_, _) := ?p in _) = Ok _ |- _ => destruct p; cbv beta iota in H
  | H : match ?p with (_, _) => _ end = Ok _ |- _ => destruct p; cbv beta iota in H
  end.

Lemma readCode_state (t : HuffmanTree) (s s' : State) (c : Z) :
  readCode t s = Ok (c, s') →
  ∃ s1 L, needBits s 32 = Ok s1 ∧ dropBits s1 L = Ok s' ∧ c ∈ SymbolValues t.
Proof.
  unfold readCode. intros H. binds.
  destruct (v =? 0); [discriminate|]. binds.
  injection H as <- <-.
  exists v0, v2. repeat split; try assumption.
  apply load_Ok in E5. destruct E5 as [_ E5].
  eapply list_elem_of_lookup_2. exact E5.
Qed.

Lemma parseLoop_wf (fuel : nat) (dict : HuffmanTree) (s s' : State)
    (r : Z) (bt ct bt' ct' : list Z) :
  wfState s → parseLoop fuel dict s r bt ct = Ok (s', bt', ct') → wfState s'.
Proof.
  revert s r bt ct. induction fuel as [|fuel IH]; intros s r bt ct Hwf H; cbn [parseLoop] in H.
  - destruct (r <? 0); [|discriminate]. now injection H as <- _ _.
  - destruct (r <? 0); [now injection H as <- _ _|].
    binds. cbv zeta in H.
    assert (wfState s0) by (eapply readCode_wf; eassumption).
    destruct (Z.land z 31 =? 0).
    + eapply IH; eassumption.
    + binds. eapply IH; eassumption.
Qed.

Lemma parseHuffmanTree_wf (dict t t' : HuffmanTree) (s s' : State) :
  wfState s → parseHuffmanTree dict s t = Ok (s', t') → wfState s'.
Proof.
  unfold parseHuffmanTree. intros Hwf H. binds. cbv zeta in H. binds.
  injection H as <- _.
  eapply parseLoop_wf; [|eassumption].
  eapply dropBits_wf; [|eassumption]. eapply needBits_wf; eassumption.
Qed.

Lemma decodeWriteSize_wf (add : Z) (s s' : State) (v len : Z) :
  wfState s → decodeWriteSize add s v = Ok (len, s') → wfState s'.
Proof.
  unfold decodeWriteSize. intros Hwf H. cbv zeta in H. binds.
  injection H as _ <-.
  destruct ((1 <? v / 4) && negb (v =? 28)).
  - binds. injection E0 as _ <-.
    eapply dropBits_wf; [|eassumption]. eapply needBits_wf; eassumption.
  - now injection E0 as _ <-.
Qed.

Lemma decodeWriteOffset_wf (t : HuffmanTree) (s s' : State) (dist : Z) :
  wfState s → decodeWriteOffset t s = Ok (dist, s') → wfState s'.
Proof.
  unfold decodeWriteOffset. intros Hwf H. binds. cbv zeta in H. binds.
  injection H as _ <-.
  assert (wfState s0) by (eapply readCode_wf; eassumption).
  destruct (1 <? z / 2).
  - binds. injection E1 as _ <-.
    eapply dropBits_wf; [|eassumption]. eapply needBits_wf; eassumption.
  - now injection E1 as _ <-.
Qed.

Lemma inflateCodes_wf (n : nat) (add : Z) (ts tc : HuffmanTree) (s s' : State)
    (out out' : list byte) (pos pos' size : Z) :
  wfState s → inflateCodes n add ts tc s out pos size = Ok (s', out', pos') → wfState s'.
Proof.
  revert s out pos. induction n as [|n IH]; intros s out pos Hwf H; cbn [inflateCodes] in H.
  - now injection H as <- _ _.
  - destruct (pos <? size); [|now injection H as <- _ _].
    binds.
    assert (wfState s0) by (eapply readCode_wf; eassumption).
    destruct (z <? 256).
    + binds. eapply IH; eassumption.
    + binds. eapply IH; [|eassumption].
      eapply decodeWriteOffset_wf; [|eassumption].
      eapply decodeWriteSize_wf; eassumption.
Qed.

Lemma inflateBlock_wf (dict : HuffmanTree) (add : Z) (s s' : State)
    (out out' : list byte) (pos pos' size : Z) :
  wfState s → inflateBlock dict add s out pos size = Ok (s', out', pos') → wfState s'.
Proof.
  unfold inflateBlock. intros Hwf H. binds. cbv zeta in H. binds.
  eapply inflateCodes_wf; [|eassumption].
  eapply dropBits_wf; [|eassumption]. eapply needBits_wf; [|eassumption].
  eapply parseHuffmanTree_wf; [|eassumption].
  eapply parseHuffmanTree_wf; eassumption.
Qed.

(** ** Ranges of the copy lengths and distances *)

Lemma readBits_range (s : State) (n : Z) :
  wfState s → 0 ≤ n ≤ 32 → 0 ≤ readBits s n < 2 ^ n.
Proof.
  intros (HH & _) Hn. unfold readBits.
  assert (u8 (32 - n) = 32 - n) as -> by (apply Z.mod_small; lia).
  rewrite Z.shiftr_div_pow2 by lia.
  assert (0 < 2 ^ (32 - n)) by (apply Z.pow_pos_nonneg; lia).
  split; [apply Z.div_pos; lia|].
  apply Z.div_lt_upper_bound; [lia|].
  rewrite <- Z.pow_add_r by lia. now replace (32 - n + n) with 32 by lia.
Qed.

Lemma pow2_lt_mono (a b : Z) : 0 ≤ a < b → 2 ^ a < 2 ^ b.
Proof. intros H. apply Z.pow_lt_mono_r; lia. Qed.

Lemma decodeWriteSize_range (add : Z) (s s' : State) (v len : Z) :
  wfState s → 0 ≤ v → 1 ≤ add ≤ 16 →
  decodeWriteSize add s v = Ok (len, s') → 1 ≤ len < 2 ^ 17.
Proof.
  unfold decodeWriteSize. intros Hwf Hv Hadd H. cbv zeta in H. binds.
  injection H as <- _.
  assert (0 ≤ v0 < 2 ^ 16) as Hbase.
  { destruct (v / 4 =? 0) eqn:Q0.
    - injection E as <-. apply Z.eqb_eq in Q0.
      pose proof (Z.div_mod v 4 ltac:(lia)). pose proof (Z.mod_pos_bound v 4 ltac:(lia)). lia.
    - destruct (v / 4 <? 7); [injection E as <-; apply u16_range|].
      destruct (v =? 28); [injection E as <-; lia | discriminate]. }
  assert (0 ≤ z < 2 ^ 16) as Hz.
  { destruct (1 <? v / 4) eqn:Q1; cbn [andb] in E0.
    2:{ now injection E0 as <- _. }
    destruct (v =? 28) eqn:Q28; cbn [negb] in E0.
    { now injection E0 as <- _. }
    destruct (v / 4 =? 0) eqn:Q0; [lia|].
    destruct (v / 4 <? 7) eqn:Q7; [|discriminate].
    binds. injection E0 as <- _.
    assert (u8 (v / 4 - 1) = v / 4 - 1) as Hu by (apply Z.mod_small; lia).
    rewrite Hu in *.
    assert (wfState v1) by (eapply needBits_wf; eassumption).
    pose proof (readBits_range v1 (v / 4 - 1) ltac:(assumption) ltac:(lia)) as Hrb.
    assert (2 ^ (v / 4 - 1) < 2 ^ 16) by (apply pow2_lt_mono; lia).
    apply lor_range; lia. }
  unfold u32. rewrite Z.mod_small; lia.
Qed.

Lemma baseWriteOffset_range (d a : Z) : baseWriteOffset d = Ok a → 0 ≤ a < 2 ^ 16.
Proof.
  unfold baseWriteOffset. cbv zeta.
  destruct (d / 2 =? 0) eqn:Q0.
  - intros [= <-]. apply Z.eqb_eq in Q0.
    pose proof (Z.div_mod d 2 ltac:(lia)). pose proof (Z.mod_pos_bound d 2 ltac:(lia)). lia.
  - destruct (d / 2 <? 17); [|discriminate]. intros [= <-]. apply u16_range.
Qed.

Lemma decodeWriteOffset_range (t : HuffmanTree) (s s' : State) (dist : Z) :
  wfState s → decodeWriteOffset t s = Ok (dist, s') → 1 ≤ dist ≤ 2 ^ 16.
Proof.
  unfold decodeWriteOffset. intros Hwf H. binds. cbv zeta in H. binds.
  injection H as <- _.
  pose proof (baseWriteOffset_range _ _ E0) as Hbase.
  assert (wfState s0) by (eapply readCode_wf; eassumption).
  assert (0 ≤ z0 < 2 ^ 16) as Hz.
  { destruct (1 <? z / 2) eqn:Q2.
    2:{ now injection E1 as <- _. }
    binds. injection E1 as <- _.
    assert (z / 2 < 17) as Hlt.
    { unfold baseWriteOffset in E0. cbv zeta in E0.
      destruct (z / 2 =? 0) eqn:Q0; [lia|].
      destruct (z / 2 <? 17) eqn:Q17; [lia | discriminate]. }
    assert (u8 (z / 2 - 1) = z / 2 - 1) as Hu by (apply Z.mod_small; lia).
    rewrite Hu in *.
    assert (wfState v0) by (eapply needBits_wf; eassumption).
    pose proof (readBits_range v0 (z / 2 - 1) ltac:(assumption) ltac:(lia)) as Hrb.
    assert (2 ^ (z / 2 - 1) < 2 ^ 16) by (apply pow2_lt_mono; lia).
    apply lor_range; lia. }
  unfold u32. rewrite Z.mod_small; lia.
Qed.

(** ** The output position *)

Ltac store_lengths :=
  repeat match goal with
  | H : store _ _ _ = Ok _ |- _ => apply store_length in H
  end.


Lemma copyBytes_inv (n : nat) (out out' : list byte) (pos pos' d size : Z) :
  0 ≤ pos ≤ size → size < 2 ^ 32 →
  copyBytes n out pos d size = Ok (out', pos') →
  pos ≤ pos' ≤ size ∧ length out' = length out ∧
  ((0 < n)%nat → pos < size → pos < pos').
Proof.
  revert out pos. induction n as [|n IH]; intros out pos Hpos Hsize H; cbn [copyBytes] in H.
  - injection H as <- <-. repeat split; lia.
  - destruct (pos <? size) eqn:Q.
    2:{ injection H as <- <-. repeat split; lia. }
    binds.
    assert (u32 (pos + 1) = pos + 1) as Hu by (apply Z.mod_small; lia).
    rewrite Hu in H. apply IH in H; [|lia|lia].
    store_lengths. destruct H as (H1 & H2 & _).
    repeat split; first [lia | congruence].
Qed.

Lemma copyBytes_before_start (n : nat) (out : list byte) (pos d size : Z) :
  (0 < n)%nat → 0 ≤ pos < size → pos < d ≤ 2 ^ 16 →
  Z.of_nat (length out) ≤ 2 ^ 32 - 2 ^ 16 →
  copyBytes n out pos d size = Panic.
Proof.
  intros Hn Hpos Hd Hlen. destruct n as [|n]; [lia|]. cbn [copyBytes].
  destruct (pos <? size) eqn:Q; [|lia].
  rewrite load_Panic; [reflexivity|]. right.
  unfold u32. replace (pos - d) with (2 ^ 32 + pos - d + (-1) * 2 ^ 32) by lia.
  rewrite Z.mod_add by lia. rewrite Z.mod_small; lia.
Qed.

Lemma inflateCodes_pos (n : nat) (add : Z) (ts tc : HuffmanTree) (s s' : State)
    (out out' : list byte) (pos pos' size : Z) :
  0 ≤ pos ≤ size → size < 2 ^ 32 →
  inflateCodes n add ts tc s out pos size = Ok (s', out', pos') →
  pos ≤ pos' ≤ size ∧ length out' = length out.
Proof.
  revert s out pos. induction n as [|n IH]; intros s out pos Hpos Hsize H;
    cbn [inflateCodes] in H.
  - injection H as _ <- <-. split; [lia | reflexivity].
  - destruct (pos <? size) eqn:Q.
    2:{ injection H as _ <- <-. split; [lia | reflexivity]. }
    binds. destruct (z <? 256).
    + binds. assert (u32 (pos + 1) = pos + 1) as Hu by (apply Z.mod_small; lia).
      rewrite Hu in H. apply IH in H; [|lia|lia].
      store_lengths. destruct H. split; [lia | congruence].
    + binds.
      match goal with
      | Hc : copyBytes _ _ _ _ _ = Ok _ |- _ =>
          apply copyBytes_inv in Hc; [|lia|lia]; destruct Hc as (H1 & H2 & _)
      end.
      apply IH in H; [|lia|lia]. destruct H. split; [lia | congruence].
Qed.

Lemma inflateCodes_progress (n : nat) (add : Z) (ts tc : HuffmanTree) (s s' : State)
    (out out' : list byte) (pos pos' size : Z) :
  wfState s → 1 ≤ add ≤ 16 → (0 < n)%nat → 0 ≤ pos < size → size < 2 ^ 32 →
  inflateCodes n add ts tc s out pos size = Ok (s', out', pos') → pos < pos'.
Proof.
  intros Hwf Hadd Hn Hpos Hsize H. destruct n as [|n]; [lia|]. cbn [inflateCodes] in H.
  destruct (pos <? size) eqn:Q; [|lia].
  binds. assert (wfState s0) by (eapply readCode_wf; eassumption).
  destruct (z <? 256).
  - binds. assert (u32 (pos + 1) = pos + 1) as Hu by (apply Z.mod_small; lia).
    rewrite Hu in H. apply inflateCodes_pos in H; lia.
  - binds.
    match goal with
    | Hd : decodeWriteSize _ _ _ = Ok _ |- _ =>
        pose proof (decodeWriteSize_range _ _ _ _ _ H0 (proj1 (u16_range _)) Hadd Hd) as Hlen
    end.
    match goal with
    | Hc : copyBytes _ _ _ _ _ = Ok _ |- _ =>
        apply copyBytes_inv in Hc; [|lia|lia]; destruct Hc as (H1 & H2 & H3)
    end.
    apply inflateCodes_pos in H; lia.
Qed.

Lemma inflateBlock_pos (dict : HuffmanTree) (add : Z) (s s' : State)
    (out out' : list byte) (pos pos' size : Z) :
  0 ≤ pos ≤ size → size < 2 ^ 32 →
  inflateBlock dict add s out pos size = Ok (s', out', pos') →
  pos ≤ pos' ≤ size ∧ length out' = length out.
Proof.
  unfold inflateBlock. intros Hpos Hsize H. binds. cbv zeta in H. binds.
  eapply inflateCodes_pos; eassumption.
Qed.

Lemma inflateBlock_progress (dict : HuffmanTree) (add : Z) (s s' : State)
    (out out' : list byte) (pos pos' size : Z) :
  wfState s → 1 ≤ add ≤ 16 → 0 ≤ pos < size → size < 2 ^ 32 →
  inflateBlock dict add s out pos size = Ok (s', out', pos') → pos < pos'.
Proof.
  unfold inflateBlock. intros Hwf Hadd Hpos Hsize H. binds. cbv zeta in H. binds.
  match goal with
  | Hn : needBits _ 4 = Ok ?s3, Hd : dropBits ?s3 4 = Ok ?s4 |- _ =>
      assert (wfState s3) as Hw3
        by (eapply needBits_wf; [|exact Hn];
            eapply parseHuffmanTree_wf; [|eassumption];
            eapply parseHuffmanTree_wf; eassumption);
      assert (wfState s4) as Hw4 by (eapply dropBits_wf; eassumption);
      pose proof (readBits_range s3 4 Hw3 ltac:(lia)) as Hrb;
      assert (u32 (readBits s3 4 + 1) = readBits s3 4 + 1) as Hu1
        by (apply Z.mod_small; lia);
      rewrite Hu1 in H;
      rewrite Z.shiftl_mul_pow2 in H by lia;
      assert (u32 ((readBits s3 4 + 1) * 2 ^ 12) = (readBits s3 4 + 1) * 2 ^ 12) as Hu2
        by (apply Z.mod_small; lia);
      rewrite Hu2 in H
  end.
  eapply inflateCodes_progress; try eassumption. lia.
Qed.

Lemma inflateBlocks_pos (fuel : nat) (dict : HuffmanTree) (add : Z) (s s' : State)
    (out out' : list byte) (pos pos' size : Z) :
  0 ≤ pos ≤ size → size < 2 ^ 32 →
  inflateBlocks fuel dict add s out pos size = Ok (s', out', pos') →
  pos' = size ∧ length out' = length out.
Proof.
  revert s out pos. induction fuel as [|fuel IH]; intros s out pos Hpos Hsize H;
    cbn [inflateBlocks] in H.
  - destruct (pos <? size) eqn:Q; [discriminate|].
    injection H as _ <- <-. split; [lia | reflexivity].
  - destruct (pos <? size) eqn:Q.
    2:{ injection H as _ <- <-. split; [lia | reflexivity]. }
    binds.
    match goal with
    | Hb : inflateBlock _ _ _ _ _ _ = Ok _ |- _ =>
        apply inflateBlock_pos in Hb; [|lia|lia]; destruct Hb
    end.
    apply IH in H; [|lia|lia]. destruct H. split; [assumption | congruence].
Qed.

Lemma inflateData_pos (dict : HuffmanTree) (s s' : State)
    (out out' : list byte) (size pos' : Z) :
  0 ≤ size < 2 ^ 32 →
  inflateData dict s out size = Ok (s', out', pos') →
  pos' = size ∧ length out' = length out.
Proof.
  unfold inflateData. intros Hsize H. binds. cbv zeta in H. binds.
  eapply inflateBlocks_pos; [| |eassumption]; lia.
Qed.

(** ** The loop bounds of the model are never exhausted *)

Lemma bind_fueled {A B} (m : outcome A) (f : A → outcome B) :
  fueled m → (∀ a, m = Ok a → fueled (f a)) → fueled (m ≫= f).
Proof.
  unfold fueled. intros Hm Hf. destruct m; simpl; try discriminate; [|congruence].
  now apply Hf.
Qed.

Lemma load_fueled {A} (l : list A) (i : Z) : fueled (load l i).
Proof. unfold fueled. destruct (load_cases l i) as [[x ->]| ->]; discriminate. Qed.

Lemma store_fueled {A} (l : list A) (i : Z) (x : A) : fueled (store l i x).
Proof. unfold fueled. destruct (store_cases l i x) as [[l' ->]| ->]; discriminate. Qed.

Create HintDb fuel.
#[local] Hint Resolve load_fueled store_fueled : fuel.

(** One step in the proof that a computation keeps within its bounds. *)
Ltac fuel_step :=
  match goal with
  | |- fueled (Ok _) => unfold fueled; discriminate
  | |- fueled (Error _) => unfold fueled; discriminate
  | |- fueled (Exit _) => unfold fueled; discriminate
  | |- fueled Panic => unfold fueled; discriminate
  | |- fueled (_ ≫= _) => apply bind_fueled; [|intros ? ?]
  | |- fueled (if ?b then _ else _) => destruct b eqn:?
  | |- fueled (match ?p with (_, _) => _ end) => destruct p
  | |- fueled _ => solve [eauto with fuel]
  end.

Ltac fuel_auto := cbv zeta; repeat fuel_step.

Lemma pullByte_fueled (s : State) : fueled (pullByte s).
Proof. unfold pullByte. fuel_auto. Qed.
#[local] Hint Resolve pullByte_fueled : fuel.

Lemma needBits_fueled (s : State) (bits : Z) : fueled (needBits s bits).
Proof. unfold needBits. fuel_auto. Qed.

Lemma dropBits_fueled (s : State) (bits : Z) : fueled (dropBits s bits).
Proof. unfold dropBits. fuel_auto. Qed.
#[local] Hint Resolve needBits_fueled dropBits_fueled : fuel.

Lemma scanCodes_fueled (codes : list Z) (b i : Z) : fueled (scanCodes codes b i).
Proof.
  revert i. induction codes as [|c rest IH]; intros i; cbn [scanCodes]; fuel_auto.
Qed.
#[local] Hint Resolve scanCodes_fueled : fuel.

Lemma readCode_fueled (t : HuffmanTree) (s : State) : fueled (readCode t s).
Proof. unfold readCode. fuel_auto. Qed.
#[local] Hint Resolve readCode_fueled : fuel.

Lemma decodeWriteSize_fueled (add : Z) (s : State) (v : Z) : fueled (decodeWriteSize add s v).
Proof. unfold decodeWriteSize. fuel_auto. Qed.

Lemma decodeWriteOffset_fueled (t : HuffmanTree) (s : State) : fueled (decodeWriteOffset t s).
Proof. unfold decodeWriteOffset, baseWriteOffset. fuel_auto. Qed.
#[local] Hint Resolve decodeWriteSize_fueled decodeWriteOffset_fueled : fuel.

Lemma copyBytes_fueled (n : nat) (out : list byte) (pos d size : Z) :
  fueled (copyBytes n out pos d size).
Proof.
  revert out pos. induction n as [|n IH]; intros out pos; cbn [copyBytes]; fuel_auto.
Qed.
#[local] Hint Resolve copyBytes_fueled : fuel.

Lemma inflateCodes_fueled (n : nat) (add : Z) (ts tc : HuffmanTree) (s : State)
    (out : list byte) (pos size : Z) :
  fueled (inflateCodes n add ts tc s out pos size).
Proof.
  revert s out pos. induction n as [|n IH]; intros s out pos; cbn [inflateCodes]; fuel_auto.
Qed.
#[local] Hint Resolve inflateCodes_fueled : fuel.

Lemma registerSymbols_fueled (n : nat) (bits r : Z) (bt ct : list Z) :
  fueled (registerSymbols n bits r bt ct).
Proof.
  revert r bt ct. induction n as [|n IH]; intros r bt ct; cbn [registerSymbols]; fuel_auto.
Qed.
#[local] Hint Resolve registerSymbols_fueled : fuel.

(** *** The chain walk of [createHuffmanTree] *)

Lemma walkChain_inv (fuel : nat) (ct sv sv' : list Z) (sym off code off' code' : Z) :
  0 ≤ off ≤ Z.of_nat (length sv) → Z.of_nat (length sv) < 2 ^ 16 →
  walkChain fuel ct sv sym off code = Ok (sv', off', code') →
  length sv' = length sv ∧ off ≤ off' ≤ Z.of_nat (length sv).
Proof.
  revert sv sym off code. induction fuel as [|fuel IH]; intros sv sym off code Hoff Hlen H;
    cbn [walkChain] in H.
  - destruct (sym =? -1); [|discriminate]. injection H as <- <- _. lia.
  - destruct (sym =? -1); [injection H as <- <- _; lia|].
    binds.
    match goal with
    | Hs : store _ _ _ = Ok _ |- _ =>
        pose proof (proj1 (store_Ok _ _ _ _) Hs) as [Hr _]; apply store_length in Hs
    end.
    assert (u16 (off + 1) = off + 1) as Hu by (apply Z.mod_small; lia).
    rewrite Hu in H. apply IH in H; [|lia|lia]. destruct H. split; [congruence | lia].
Qed.

Lemma walkChain_fueled (fuel : nat) (ct sv : list Z) (sym off code : Z) :
  0 ≤ off ≤ Z.of_nat (length sv) → Z.of_nat (length sv) < 2 ^ 16 →
  Z.of_nat (length sv) + 1 ≤ off + Z.of_nat fuel →
  fueled (walkChain fuel ct sv sym off code).
Proof.
  revert sv sym off code. induction fuel as [|fuel IH]; intros sv sym off code Hoff Hlen Hf;
    cbn [walkChain].
  - lia.
  - fuel_auto.
    match goal with
    | Hs : store _ _ _ = Ok _ |- _ =>
        pose proof (proj1 (store_Ok _ _ _ _) Hs) as [Hr _]; apply store_length in Hs
    end.
    assert (u16 (off + 1) = off + 1) as Hu by (apply Z.mod_small; lia).
    rewrite Hu. apply IH; lia.
Qed.

Lemma createStep_inv (bt ct : list Z) (t t' : HuffmanTree)
    (code bits cci off code' cci' off' : Z) :
  0 ≤ off ≤ Z.of_nat (length (SymbolValues t)) →
  Z.of_nat (length (SymbolValues t)) < 2 ^ 16 →
  createStep bt ct t code bits cci off = Ok (t', code', cci', off') →
  length (SymbolValues t') = length (SymbolValues t) ∧
  0 ≤ off' ≤ Z.of_nat (length (SymbolValues t)).
Proof.
  unfold createStep. intros Hoff Hlen H. binds. injection H as <- _ _ <-.
  match goal with
  | Hi : (if ?c then _ else _) = Ok _ |- _ => destruct c
  end.
  - match goal with Hi : Ok _ = Ok _ |- _ => injection Hi as <- _ _ <- end. lia.
  - binds.
    match goal with Hi : Ok _ = Ok _ |- _ => injection Hi as <- _ _ <- end.
    match goal with
    | Hw : walkChain _ _ _ _ _ _ = Ok _ |- _ => apply walkChain_inv in Hw; [|lia|lia]
    end.
    simpl. lia.
Qed.

Lemma createStep_fueled (bt ct : list Z) (t : HuffmanTree) (code bits cci off : Z) :
  0 ≤ off ≤ Z.of_nat (length (SymbolValues t)) →
  Z.of_nat (length (SymbolValues t)) ≤ MAX_SYMBOL_VALUE →
  fueled (createStep bt ct t code bits cci off).
Proof.
  intros Hoff Hlen. unfold MAX_SYMBOL_VALUE in Hlen. unfold createStep. fuel_auto.
  apply walkChain_fueled; unfold chainFuel, MAX_SYMBOL_VALUE; lia.
Qed.

Lemma createLoop_fueled (n : nat) (bt ct : list Z) (t : HuffmanTree) (code bits cci off : Z) :
  0 ≤ off ≤ Z.of_nat (length (SymbolValues t)) →
  Z.of_nat (length (SymbolValues t)) ≤ MAX_SYMBOL_VALUE →
  fueled (createLoop n bt ct t code bits cci off).
Proof.
  revert t code bits cci off. induction n as [|n IH]; intros t code bits cci off Hoff Hlen;
    cbn [createLoop]; [fuel_auto|].
  apply bind_fueled; [now apply createStep_fueled|].
  intros [[[t' code'] cci'] off'] H.
  unfold MAX_SYMBOL_VALUE in Hlen.
  apply createStep_inv in H; [|lia|lia]. destruct H as [Hl Ho].
  apply IH; rewrite Hl; [lia | unfold MAX_SYMBOL_VALUE; lia].
Qed.

Lemma createHuffmanTree_fueled (bt ct : list Z) :
  fueled (createHuffmanTree emptyTree bt ct).
Proof.
  unfold createHuffmanTree. apply createLoop_fueled; simpl; unfold MAX_SYMBOL_VALUE; lia.
Qed.
#[local] Hint Resolve createHuffmanTree_fueled : fuel.

(** *** The tree description *)

Lemma i16_small (z : Z) : - 2 ^ 15 ≤ z < 2 ^ 15 → i16 z = z.
Proof. intros H. unfold i16. rewrite Z.mod_small; lia. Qed.

Lemma registerSymbols_remaining (n : nat) (bits r r' : Z) (bt ct bt' ct' : list Z) :
  - 2 ^ 15 ≤ r - Z.of_nat n → r < 2 ^ 15 →
  registerSymbols n bits r bt ct = Ok (r', bt', ct') → r' = r - Z.of_nat n.
Proof.
  revert r bt ct. induction n as [|n IH]; intros r bt ct Hlo Hhi H;
    cbn [registerSymbols] in H.
  - injection H as <- _ _. lia.
  - binds. rewrite i16_small in H by lia. apply IH in H; lia.
Qed.

Lemma i16_range (z : Z) : - 2 ^ 15 ≤ i16 z < 2 ^ 15.
Proof. unfold i16. pose proof (Z.mod_pos_bound (z + 2 ^ 15) (2 ^ 16) ltac:(lia)). lia. Qed.

(** With a dictionary tree whose symbols are [uint16] values, every entry
    of a tree description stands for at least one symbol, so the
    description loop comes to its end; and a pass of the main loop writes
    at least one byte. *)
Section Dictionary.

Variable dict : HuffmanTree.
Hypothesis dict_wf : wfDict dict.

Lemma parseLoop_fueled (fuel : nat) (s : State) (r : Z) (bt ct : list Z) :
  r < 2 ^ 15 → (Z.to_nat (r + 1) ≤ fuel)%nat →
  fueled (parseLoop fuel dict s r bt ct).
Proof.
  revert s r bt ct. induction fuel as [|fuel IH]; intros s r bt ct Hr Hf;
    cbn [parseLoop].
  - destruct (r <? 0) eqn:Q; [fuel_auto | lia].
  - destruct (r <? 0) eqn:Q; [fuel_auto|].
    apply bind_fueled; [apply readCode_fueled|].
    intros [c s1] Hc. cbv zeta.
    apply readCode_state in Hc. destruct Hc as (_ & _ & _ & _ & Hin).
    pose proof dict_wf as Hd.
    unfold wfDict in Hd. rewrite Forall_forall in Hd. specialize (Hd c Hin).
    assert (0 ≤ Z.shiftr c 5 < 2 ^ 11) as Hsh.
    { rewrite Z.shiftr_div_pow2 by lia. split; [apply Z.div_pos; lia|].
      apply Z.div_lt_upper_bound; lia. }
    rewrite (i16_small (Z.shiftr c 5 + 1)) by lia.
    destruct (Z.land c 31 =? 0).
    + rewrite i16_small by lia. apply IH; lia.
    + apply bind_fueled; [apply registerSymbols_fueled|].
      intros [[r' bt'] ct'] Hreg.
      apply registerSymbols_remaining in Hreg; [|lia|lia].
      apply IH; lia.
Qed.

Lemma parseHuffmanTree_fueled (s : State) :
  fueled (parseHuffmanTree dict s emptyTree).
Proof.
  unfold parseHuffmanTree. fuel_auto.
  apply parseLoop_fueled; [|lia].
  apply i16_range.
Qed.

Lemma inflateBlock_fueled (add : Z) (s : State) (out : list byte) (pos size : Z) :
  fueled (inflateBlock dict add s out pos size).
Proof.
  unfold inflateBlock.
  apply bind_fueled; [apply parseHuffmanTree_fueled|]. intros [s1 ts] _.
  apply bind_fueled; [apply parseHuffmanTree_fueled|]. intros [s2 tc] _.
  fuel_auto.
Qed.

Lemma inflateBlocks_fueled (fuel : nat) (add : Z) (s : State)
    (out : list byte) (pos size : Z) :
  wfState s → 1 ≤ add ≤ 16 → 0 ≤ pos → size < 2 ^ 32 →
  (Z.to_nat (size - pos) ≤ fuel)%nat →
  fueled (inflateBlocks fuel dict add s out pos size).
Proof.
  revert s out pos. induction fuel as [|fuel IH];
    intros s out pos Hwf Hadd Hpos Hsize Hf; cbn [inflateBlocks].
  - destruct (pos <? size) eqn:Q; [lia | fuel_auto].
  - destruct (pos <? size) eqn:Q; [|fuel_auto].
    apply bind_fueled; [apply inflateBlock_fueled|].
    intros [[s' out'] pos'] Hb.
    pose proof (inflateBlock_wf _ _ _ _ _ _ _ _ _ Hwf Hb) as Hwf'.
    assert (0 ≤ pos < size) as Hlt by lia.
    pose proof (inflateBlock_progress _ _ _ _ _ _ _ _ _ Hwf Hadd Hlt Hsize Hb) as Hp.
    apply IH; try assumption; lia.
Qed.

Lemma inflateData_fueled (s : State) (out : list byte) (size : Z) :
  wfState s → size < 2 ^ 32 →
  fueled (inflateData dict s out size).
Proof.
  intros Hwf Hsize. unfold inflateData.
  apply bind_fueled; [apply needBits_fueled|]. intros s1 H1.
  apply bind_fueled; [apply dropBits_fueled|]. intros s2 H2. cbv zeta.
  apply bind_fueled; [apply dropBits_fueled|]. intros s3 H3.
  assert (wfState s2) as Hw2
    by (eapply dropBits_wf; [|eassumption]; eapply needBits_wf; eassumption).
  pose proof (readBits_range s2 4 Hw2 ltac:(lia)) as Hrb.
  apply inflateBlocks_fueled; try assumption; try lia.
  - eapply dropBits_wf; eassumption.
  - unfold u32. rewrite Z.mod_small; lia.
Qed.

End Dictionary.
(** ** The sample streams *)

(** The entries of tree descriptions are codes of the dictionary tree: the
    symbol [32 * (count - 1) + bits] stands for [count] symbols of code
    length [bits]. *)
Example dictionary_entries :
  decodesTo huffmanTreeDict (entry 1 0) 0x00 ∧
  decodesTo huffmanTreeDict (entry 1 1) 0x01 ∧
  decodesTo huffmanTreeDict (entry 1 2) 0x02 ∧
  decodesTo huffmanTreeDict (entry 2 0) 0x20 ∧
  decodesTo huffmanTreeDict (entry 5 0) 0x80 ∧
  decodesTo huffmanTreeDict (entry 8 0) 0xE0.
Proof.
  repeat split; (eexists; split; [vm_compute; reflexivity | reflexivity]).
Qed.

(** The words of the sample streams. *)
Example sample_stream_words :
  literalStream
    = [0xdeadbeef; 0x3; 0x2004206; 0xd0842108; 0x42240000; 0x3e000000; 0x0] ∧
  copyAtStartStream
    = [0x0; 0x4; 0x2010106; 0xd0842108; 0x42108421; 0x8421084; 0x21084210;
       0x84210842; 0x41b0; 0xc0000000; 0x0] ∧
  literalCopyStream
    = [0x0; 0x4; 0x2010106; 0x90842108; 0x42108421; 0x8421084; 0x21084026;
       0xda10842; 0x10841a00; 0x20d8580; 0x0] ∧
  longDistanceStream
    = [0x0; 0x4; 0x2010106; 0x90842108; 0x42108421; 0x8421084; 0x21084026;
       0xda10842; 0x10841a00; 0x420da108; 0x40580000; 0x0] ∧
  twoPassStream
    = [0x0; 0x1004; 0x2004206; 0xd0842108; 0x42240000; 0x4041a4; 0x21084210;
       0x84210842; 0x10842108; 0x42100983; 0x68421084; 0x21068000; 0x83616000;
       0x0].
Proof. repeat split; vm_compute; reflexivity. Qed.

(** The trees of [literalCopyStream]: the symbol tree has the class of
    length 1 with the literal [B] and the class of length 2 with the symbol
    [0x100]; the copy tree has the class of length 1 with the symbol 0. *)
Example literalCopyStream_trees :
  ∃ ts tc s,
    firstPassTrees literalCopyStream = Ok (ts, tc, s) ∧
    take 3 (CompressedCodes ts) = [0x80000000; 0x40000000; 0] ∧
    take 3 (BitsLength ts) = [1; 2; 0] ∧
    take 3 (SymbolValueOffset ts) = [0; 1; 0] ∧
    take 3 (SymbolValues ts) = [0x42; 0x100; 0] ∧
    take 2 (CompressedCodes tc) = [0x80000000; 0] ∧
    take 2 (BitsLength tc) = [1; 0] ∧
    take 2 (SymbolValues tc) = [0; 0].
Proof.
  destruct (firstPassTrees literalCopyStream) as [[[ts tc] s]| | | |] eqn:E;
    try (vm_compute in E; discriminate E).
  exists ts, tc, s. split; [reflexivity|].
  vm_compute in E. injection E as <- <- <-.
  repeat split.
Qed.
(** ** The bit pump *)

(** [C5], as amended.  A successful pull fetches the word at
    [nextPosition p], where [p] is the word cursor: [p + 1] when
    [(p + 1) mod 0x4000 = 0] and [p] otherwise, and leaves the cursor one
    past it.  The word that is passed over is the one at the old cursor,
    whose index is [0x3FFF] modulo [0x4000] (the last word of a block): no
    pull ever fetches a word at such an index.  The word at index [0x4000],
    the first one after the first block, is fetched. *)
Theorem pullByte_skips_last_word_of_block (s s' : State) :
  0 ≤ InputPosition s → InputPosition s + 1 < 2 ^ 32 →
  pullByte s = Ok s' →
  let p := InputPosition s in
  let q := if (p + 1) mod 0x4000 =? 0 then p + 1 else p in
  ∃ w, InputData s !! Z.to_nat q = Some w ∧
       Head s' = (if Bits s =? 0 then w else Z.lor (Head s) (Z.shiftr w (Bits s))) ∧
       InputPosition s' = q + 1 ∧
       q mod 0x4000 ≠ 0x3FFF ∧
       (p = 0x3FFF → q = 0x4000).
Proof.
  intros H0 H1 H. apply pullByte_Ok in H. destruct H as (_ & Hlt & w & Hw & ->).
  pose proof (nextPosition_spec _ H0 H1) as Hq. unfold BlockSize in Hq.
  pose proof (nextPosition_not_block_end (InputPosition s)) as Hne.
  unfold BlockSize in Hne. simpl in Hne.
  cbv zeta. rewrite <- Hq.
  apply load_Ok in Hw. destruct Hw as [Hq0 Hw].
  exists w. simpl. repeat split; try assumption.
  - unfold u32. apply Z.mod_small.
    rewrite Hq. destruct ((InputPosition s + 1) mod 16384 =? 0) eqn:E; [|lia].
    split; [lia|].
    apply Z.eqb_eq in E.
    assert (InputPosition s + 1 ≠ 2 ^ 32 - 1); [|lia].
    intros Heq. rewrite Heq in E. discriminate.
  - intros ->. reflexivity.
Qed.

Lemma pullByte_skips_last_word_of_block_witness :
  ∃ w, InputData startState !! Z.to_nat 0 = Some w ∧
       Head (mkState [7; 8] 2 1 7 32 0 false) = w ∧
       InputPosition (mkState [7; 8] 2 1 7 32 0 false) = 0 + 1 ∧
       0 mod 0x4000 ≠ 0x3FFF ∧
       (InputPosition startState = 0x3FFF → 0 = 0x4000).
Proof.
  apply (pullByte_skips_last_word_of_block startState (mkState [7; 8] 2 1 7 32 0 false)).
  - simpl. lia.
  - simpl. lia.
  - reflexivity.
Defined.

(** [C5], as stated, fails: with a stream of [0x4001] words whose word [i]
    is [i], three pulls from cursor [0x3FFD] deliver the words [0x3FFD],
    [0x3FFE] and [0x4000].  The word after the first block (index
    [0x4000], the 0x4001st) is delivered; the one passed over is the last
    word of the block (index [0x3FFF], the 0x4000th). *)
Lemma block_boundary_delivers_word_after_block :
  pullWords 3 blockState = Ok [0x3FFD; 0x3FFE; 0x4000].
Proof. vm_compute. reflexivity. Qed.
(** ** Decoding one symbol *)

Lemma scanCodes_first (codes : list Z) (b i : Z) (n : nat) (mc : Z) :
  codes !! n = Some mc → mc ≤ b →
  (∀ (j : nat) mj, (j < n)%nat → codes !! j = Some mj → b < mj) →
  scanCodes codes b i = Ok (i + Z.of_nat n).
Proof.
  revert i n. induction codes as [|c rest IH]; intros i n Hn Hle Hbelow.
  - destruct n; discriminate.
  - destruct n as [|n]; simpl in *.
    + injection Hn as ->. destruct (b <? mc) eqn:E; [lia|]. f_equal. lia.
    + assert (b < c) as Hc by (apply (Hbelow 0%nat); [lia | reflexivity]).
      destruct (b <? c) eqn:E; [|lia].
      rewrite (IH (i + 1) n Hn Hle).
      * f_equal. lia.
      * intros j mj Hj Hmj. apply (Hbelow (S j)); [lia | exact Hmj].
Qed.

(** [C4], as amended.  With a non-empty table and at least 32 bits in the
    window, [readCode] peeks [b = 32] bits, selects the smallest class
    index [c] with [b >= MinCode[c]] (every earlier class has
    [b < MinCode[j]]), takes [L = BitLen[c]], returns
    [Symbols[SymOff[c] - ((b - MinCode[c]) >> (32 - L))]] and consumes
    exactly [L] bits, pulling no word. *)
Theorem readCode_selects_first_class_not_above
    (t : HuffmanTree) (s : State) (c0 c mc L off sym : Z) :
  CompressedCodes t !! 0%nat = Some c0 → c0 ≠ 0 →
  32 ≤ Bits s ≤ 64 → 0 ≤ Head s < 2 ^ 32 →
  0 ≤ c → CompressedCodes t !! Z.to_nat c = Some mc →
  0 ≤ mc ≤ Head s →
  (∀ j mj, 0 ≤ j < c → CompressedCodes t !! Z.to_nat j = Some mj → Head s < mj) →
  BitsLength t !! Z.to_nat c = Some L → 0 ≤ L ≤ 32 →
  SymbolValueOffset t !! Z.to_nat c = Some off → 0 ≤ off < 2 ^ 16 →
  0 ≤ off - Z.shiftr (Head s - mc) (32 - L) →
  SymbolValues t !! Z.to_nat (off - Z.shiftr (Head s - mc) (32 - L)) = Some sym →
  ∃ s', readCode t s = Ok (sym, s') ∧ dropBits s L = Ok s' ∧
        Bits s' = Bits s - L ∧ InputPosition s' = InputPosition s.
Proof.
  intros Hc0 Hne HB HH Hc Hmc Hle Hbelow HL HLr Hoff Hoffr Hk Hsym.
  destruct (dropBits_Ok s L ltac:(lia) ltac:(lia)) as (s' & Hd & HB' & HP' & _).
  exists s'. split; [|split; [exact Hd|split; [|exact HP']]].
  2:{ rewrite HB'. unfold u32. apply Z.mod_small. lia. }
  unfold readCode.
  assert (load (CompressedCodes t) 0 = Ok c0) as -> by (apply load_Ok; split; [lia | exact Hc0]).
  simpl. destruct (c0 =? 0) eqn:E0; [lia|].
  rewrite needBits_enough by lia. simpl. rewrite readBits_32.
  assert (scanCodes (CompressedCodes t) (Head s) 0 = Ok (0 + Z.of_nat (Z.to_nat c))) as ->.
  { apply (scanCodes_first _ _ 0 (Z.to_nat c) mc Hmc); [lia|].
    intros j mj Hj Hmj. apply (Hbelow (Z.of_nat j)); [lia | now rewrite Nat2Z.id]. }
  simpl. rewrite Z2Nat.id by lia. rewrite Z.add_0_l.
  assert (load (BitsLength t) c = Ok L) as -> by (apply load_Ok; auto).
  assert (load (SymbolValueOffset t) c = Ok off) as -> by (apply load_Ok; auto).
  assert (load (CompressedCodes t) c = Ok mc) as -> by (apply load_Ok; auto).
  simpl.
  assert (0 ≤ Z.shiftr (Head s - mc) (32 - L)) as Hsh by (apply Z.shiftr_nonneg; lia).
  assert (u32 (Head s - mc) = Head s - mc) as -> by (apply Z.mod_small; lia).
  assert (u8 (32 - L) = 32 - L) as -> by (apply Z.mod_small; lia).
  assert (u16 (Z.shiftr (Head s - mc) (32 - L)) = Z.shiftr (Head s - mc) (32 - L)) as ->
    by (apply Z.mod_small; lia).
  assert (u16 (off - Z.shiftr (Head s - mc) (32 - L)) = off - Z.shiftr (Head s - mc) (32 - L)) as ->
    by (apply Z.mod_small; lia).
  assert (load (SymbolValues t) (off - Z.shiftr (Head s - mc) (32 - L)) = Ok sym) as ->
    by (apply load_Ok; auto).
  simpl. rewrite Hd. reflexivity.
Qed.


Lemma readCode_selects_first_class_not_above_witness :
  ∃ s', readCode huffmanTreeDict onesState = Ok (8, s') ∧
        dropBits onesState 3 = Ok s' ∧
        Bits s' = Bits onesState - 3 ∧ InputPosition s' = InputPosition onesState.
Proof.
  apply (readCode_selects_first_class_not_above huffmanTreeDict onesState
           0xA0000000 0 0xA0000000 3 2 8).
  - reflexivity.
  - discriminate.
  - simpl. lia.
  - simpl. lia.
  - lia.
  - reflexivity.
  - simpl. lia.
  - intros j mj Hj. lia.
  - reflexivity.
  - lia.
  - reflexivity.
  - lia.
  - vm_compute. discriminate.
  - vm_compute. reflexivity.
Defined.

(** [C4], as stated, fails: on the dictionary tree with the 32 peeked bits
    all ones, [readCode] returns the symbol 8 of class 0 and consumes 3
    bits, although [b < MinCode[0]] does not hold; no class has
    [b < MinCode[c]], and the decoder that selects the smallest such class
    runs off the table. *)
Lemma readCode_not_smallest_class_above :
  readCode huffmanTreeDict onesState
    = Ok (8, mkState [] 0 0 0xFFFFFFF8 29 0 false) ∧
  CompressedCodes huffmanTreeDict !! 0%nat = Some 0xA0000000 ∧
  ¬ (Head onesState < 0xA0000000) ∧
  readCode_as_specified huffmanTreeDict onesState = Panic.
Proof.
  split; [vm_compute; reflexivity|].
  split; [reflexivity|].
  split; [simpl; lia|].
  vm_compute. reflexivity.
Qed.
(** ** Copy lengths and distances *)

Lemma pow2_le_mono (a b : Z) : 0 ≤ a ≤ b → 2 ^ a ≤ 2 ^ b.
Proof. intros H. apply Z.pow_le_mono_r; lia. Qed.

(** The base write size is the one of the format: the symbol itself below
    4, [(1 << (q - 1)) * (4 + r)] for [1 <= q <= 6], [0xFF] for 28, and
    anything else ends the process. *)
Lemma baseWriteSize_spec (add : Z) (s : State) (v : Z) :
  0 ≤ v →
  let q := v / 4 in
  let r := v mod 4 in
  (q = 0 → decodeWriteSize add s v = Ok (u32 (v + add), s)) ∧
  (q = 1 → decodeWriteSize add s v = Ok (u32 (4 + r + add), s)) ∧
  (2 ≤ q ≤ 6 →
   decodeWriteSize add s v =
     s1 ← needBits s (q - 1);
     s2 ← dropBits s1 (q - 1);
     Ok (u32 (Z.lor (2 ^ (q - 1) * (4 + r)) (readBits s1 (q - 1)) + add), s2)) ∧
  (v = 28 → decodeWriteSize add s v = Ok (u32 (0xFF + add), s)) ∧
  (29 ≤ v → decodeWriteSize add s v = Exit InvalidWriteSize).
Proof.
  intros Hv q r. unfold decodeWriteSize. fold q. fold r.
  assert (0 ≤ r < 4) as Hr by (apply Z.mod_pos_bound; lia).
  assert (v = 4 * q + r) as Hqr by (apply Z.div_mod; lia).
  split; [|split; [|split; [|split]]].
  - intros Hq. rewrite Hq. reflexivity.
  - intros Hq. rewrite Hq.
    change (1 =? 0) with false. change (1 <? 7) with true. change (1 <? 1) with false.
    cbv iota. change (Z.shiftl 1 (1 - 1)) with 1. change (u16 1) with 1.
    rewrite Z.mul_1_l.
    assert (u16 (4 + r) = 4 + r) as -> by (apply Z.mod_small; lia).
    reflexivity.
  - intros Hq.
    destruct (q =? 0) eqn:E0; [lia|].
    destruct (q <? 7) eqn:E7; [|lia].
    destruct (1 <? q) eqn:E1; [|lia].
    destruct (v =? 28) eqn:E28; [lia|].
    assert (u8 (q - 1) = q - 1) as -> by (apply Z.mod_small; lia).
    rewrite Z.shiftl_1_l.
    assert (2 ^ (q - 1) ≤ 2 ^ 5) by (apply pow2_le_mono; lia).
    assert (0 < 2 ^ (q - 1)) by (apply Z.pow_pos_nonneg; lia).
    assert (u16 (2 ^ (q - 1)) = 2 ^ (q - 1)) as -> by (apply Z.mod_small; lia).
    assert (u16 (2 ^ (q - 1) * (4 + r)) = 2 ^ (q - 1) * (4 + r)) as ->
      by (apply Z.mod_small; nia).
    simpl. destruct (needBits s (q - 1)) as [s1| | | |]; try reflexivity.
    simpl. destruct (dropBits s1 (q - 1)); reflexivity.
  - intros ->. reflexivity.
  - intros Hv'.
    assert (7 ≤ q) by (unfold q; apply Z.div_le_lower_bound; lia).
    destruct (q =? 0) eqn:E0; [lia|].
    destruct (q <? 7) eqn:E7; [lia|].
    destruct (v =? 28) eqn:E28; [lia|]. reflexivity.
Qed.

(** The base write offset is the one of the format up to [u = 15]; for
    [u = 16] the product is taken modulo [2^16]. *)
Lemma baseWriteOffset_spec (d : Z) :
  0 ≤ d →
  let u := d / 2 in
  (u = 0 → baseWriteOffset d = Ok d) ∧
  (1 ≤ u ≤ 15 → baseWriteOffset d = Ok (2 ^ (u - 1) * (2 + d mod 2))) ∧
  (u = 16 → baseWriteOffset d = Ok ((2 ^ 15 * (2 + d mod 2)) mod 2 ^ 16)) ∧
  (17 ≤ u → baseWriteOffset d = Exit InvalidWriteOffset).
Proof.
  intros Hd u. unfold baseWriteOffset. fold u.
  assert (0 ≤ d mod 2 < 2) as Hr by (apply Z.mod_pos_bound; lia).
  split; [|split; [|split]].
  - intros ->. reflexivity.
  - intros Hu.
    destruct (u =? 0) eqn:E0; [lia|].
    destruct (u <? 17) eqn:E17; [|lia].
    rewrite Z.shiftl_1_l.
    assert (2 ^ (u - 1) ≤ 2 ^ 14) by (apply pow2_le_mono; lia).
    assert (0 < 2 ^ (u - 1)) by (apply Z.pow_pos_nonneg; lia).
    assert (u16 (2 ^ (u - 1)) = 2 ^ (u - 1)) as -> by (apply Z.mod_small; lia).
    f_equal. apply Z.mod_small. nia.
  - intros ->. reflexivity.
  - intros Hu.
    destruct (u =? 0) eqn:E0; [lia|].
    destruct (u <? 17) eqn:E17; [lia | reflexivity].
Qed.

(** After the base distance, [u - 1] additional bits are read and ORed in
    when [u > 1], and 1 is added. *)
Lemma decodeWriteOffset_spec (t : HuffmanTree) (s s0 : State) (d : Z) :
  readCode t s = Ok (d, s0) → 0 ≤ d →
  let u := d / 2 in
  (u ≤ 1 → decodeWriteOffset t s = (b ← baseWriteOffset d; Ok (u32 (b + 1), s0))) ∧
  (2 ≤ u ≤ 16 →
   decodeWriteOffset t s =
     b ← baseWriteOffset d;
     s1 ← needBits s0 (u - 1);
     s2 ← dropBits s1 (u - 1);
     Ok (u32 (Z.lor b (readBits s1 (u - 1)) + 1), s2)).
Proof.
  intros Hc Hd u. unfold decodeWriteOffset. rewrite Hc. cbn [mbind outcome_bind].
  fold u. split.
  - intros Hu. destruct (1 <? u) eqn:Q; [lia|].
    destruct (baseWriteOffset d); reflexivity.
  - intros Hu. destruct (1 <? u) eqn:Q; [|lia].
    assert (u8 (u - 1) = u - 1) as -> by (apply Z.mod_small; lia).
    destruct (baseWriteOffset d) as [b| | | |]; try reflexivity.
    cbn [mbind outcome_bind].
    destruct (needBits s0 (u - 1)) as [s1| | | |]; try reflexivity.
    cbn [mbind outcome_bind].
    destruct (dropBits s1 (u - 1)); reflexivity.
Qed.

(** [C6] at the distance symbols 32 and 33 ([u = 16]).  The format gives
    the base distances [(1 << 15) * 2 = 65536] and [(1 << 15) * 3 = 98304];
    the code computes the product on 16 bits and gets [0] and [32768].  On
    [longDistanceStream] the copy with distance symbol 32 and additional
    bits zero therefore copies from distance 1 and the call returns four
    bytes [B], where the format asks for the distance 65537. *)
Theorem baseWriteOffset_truncated_to_16_bits :
  baseWriteOffset 32 = Ok 0 ∧
  baseWriteOffset 33 = Ok 32768 ∧
  Z.shiftl 1 (32 / 2 - 1) * (2 + 32 mod 2) = 65536 ∧
  Z.shiftl 1 (33 / 2 - 1) * (2 + 33 mod 2) = 98304 ∧
  inflateBuffer 48 (Some (bytesOfWords longDistanceStream)) 0 0
    = Ok (["B"; "B"; "B"; "B"]%byte, 4).
Proof.
  repeat split; vm_compute; reflexivity.
Qed.
(** ** From bytes to words *)

Lemma byte_to_Z_range (b : byte) : 0 ≤ byte_to_Z b < 2 ^ 8.
Proof.
  unfold byte_to_Z. pose proof (Byte.to_N_bounded b). lia.
Qed.

Lemma lor_shiftl_disjoint (a b k : Z) :
  0 ≤ k → 0 ≤ a < 2 ^ k → Z.lor a (Z.shiftl b k) = a + 2 ^ k * b.
Proof.
  intros Hk Ha. rewrite Z.shiftl_mul_pow2 by lia. rewrite (Z.mul_comm (2 ^ k) b).
  symmetry. apply Z.add_nocarry_lor.
  apply Z.bits_inj'. intros n Hn. rewrite Z.land_spec, Z.bits_0.
  destruct (Z.lt_ge_cases n k) as [Hlt|Hge].
  - rewrite Z.mul_pow2_bits_low by lia. apply andb_false_r.
  - rewrite <- (Z.mod_small a (2 ^ k)) by lia.
    rewrite Z.mod_pow2_bits_high by lia. reflexivity.
Qed.

Lemma le_value_range (bs : list byte) : 0 ≤ le_value bs < 2 ^ (8 * Z.of_nat (length bs)).
Proof.
  induction bs as [|b bs IH].
  - simpl. lia.
  - cbn [le_value length]. pose proof (byte_to_Z_range b).
    replace (8 * Z.of_nat (S (length bs))) with (8 + 8 * Z.of_nat (length bs)) by lia.
    rewrite Z.pow_add_r by lia. nia.
Qed.

Lemma wordAt_Ok (input : list byte) (i : Z) (b0 b1 b2 b3 : byte) :
  0 ≤ i →
  input !! Z.to_nat (i * 4) = Some b0 →
  input !! Z.to_nat (i * 4 + 1) = Some b1 →
  input !! Z.to_nat (i * 4 + 2) = Some b2 →
  input !! Z.to_nat (i * 4 + 3) = Some b3 →
  wordAt input i = Ok (le_value [b0; b1; b2; b3]).
Proof.
  intros Hi H0 H1 H2 H3. unfold wordAt.
  rewrite (proj2 (load_Ok input (i * 4) b0)) by (split; [lia | assumption]).
  rewrite (proj2 (load_Ok input (i * 4 + 1) b1)) by (split; [lia | assumption]).
  rewrite (proj2 (load_Ok input (i * 4 + 2) b2)) by (split; [lia | assumption]).
  rewrite (proj2 (load_Ok input (i * 4 + 3) b3)) by (split; [lia | assumption]).
  cbn [mbind outcome_bind le_value]. f_equal.
  pose proof (byte_to_Z_range b0). pose proof (byte_to_Z_range b1).
  pose proof (byte_to_Z_range b2). pose proof (byte_to_Z_range b3).
  rewrite (lor_shiftl_disjoint (byte_to_Z b0) (byte_to_Z b1) 8) by lia.
  rewrite (lor_shiftl_disjoint _ (byte_to_Z b2) 16) by lia.
  rewrite (lor_shiftl_disjoint _ (byte_to_Z b3) 24) by lia.
  lia.
Qed.

Lemma wordBytes_lookup (input : list byte) (i : nat) :
  (4 * i + 4 ≤ length input)%nat →
  ∃ b0 b1 b2 b3,
    wordBytes input i = [b0; b1; b2; b3] ∧
    input !! (4 * i)%nat = Some b0 ∧ input !! (4 * i + 1)%nat = Some b1 ∧
    input !! (4 * i + 2)%nat = Some b2 ∧ input !! (4 * i + 3)%nat = Some b3.
Proof.
  intros Hlen. unfold wordBytes.
  destruct (drop (4 * i) input) as [|b0 [|b1 [|b2 [|b3 rest]]]] eqn:E;
    try (apply (f_equal length) in E; rewrite length_drop in E; simpl in E; lia).
  exists b0, b1, b2, b3. split; [reflexivity|].
  assert (∀ k, input !! (4 * i + k)%nat = (b0 :: b1 :: b2 :: b3 :: rest) !! k) as Hk.
  { intros k. rewrite <- E. now rewrite lookup_drop. }
  repeat split.
  - rewrite <- (Nat.add_0_r (4 * i)). apply (Hk 0%nat).
  - apply (Hk 1%nat).
  - apply (Hk 2%nat).
  - apply (Hk 3%nat).
Qed.

Lemma convertLoop_Ok (n : nat) (i : nat) (input : list byte) :
  (4 * (i + n) ≤ length input)%nat →
  ∃ ws, convertLoop n (Z.of_nat i) input = Ok ws ∧ length ws = n ∧
        ∀ k, (k < n)%nat → ws !! k = Some (le_value (wordBytes input (i + k))).
Proof.
  revert i. induction n as [|n IH]; intros i Hlen.
  - exists []. repeat split. intros k Hk. lia.
  - destruct (wordBytes_lookup input i ltac:(lia)) as (b0 & b1 & b2 & b3 & Hw & H0 & H1 & H2 & H3).
    destruct (IH (S i) ltac:(lia)) as (ws & Hws & Hl & Hk).
    exists (le_value [b0; b1; b2; b3] :: ws).
    cbn [convertLoop].
    rewrite (wordAt_Ok input (Z.of_nat i) b0 b1 b2 b3); try lia.
    + replace (Z.of_nat i + 1) with (Z.of_nat (S i)) by lia. rewrite Hws.
      repeat split; [simpl; lia|].
      intros [|k] Hlt.
      * rewrite Nat.add_0_r, Hw. reflexivity.
      * simpl. rewrite Hk by lia. do 2 f_equal. f_equal. lia.
    + now replace (Z.to_nat (Z.of_nat i * 4)) with (4 * i)%nat by lia.
    + now replace (Z.to_nat (Z.of_nat i * 4 + 1)) with (4 * i + 1)%nat by lia.
    + now replace (Z.to_nat (Z.of_nat i * 4 + 2)) with (4 * i + 2)%nat by lia.
    + now replace (Z.to_nat (Z.of_nat i * 4 + 3)) with (4 * i + 3)%nat by lia.
Qed.

Lemma convertU8ToU32_Ok (input : list byte) :
  Z.of_nat (length input) mod 4 = 0 →
  ∃ ws, convertU8ToU32 input = Ok ws ∧
        Z.of_nat (length ws) = Z.of_nat (length input) / 4 ∧
        (∀ k, (k < length ws)%nat → ws !! k = Some (le_value (wordBytes input k))) ∧
        Forall (λ w, 0 ≤ w < 2 ^ 32) ws.
Proof.
  intros Hmod. unfold convertU8ToU32. rewrite Hmod. cbn [Z.eqb negb].
  pose proof (Z.div_mod (Z.of_nat (length input)) 4 ltac:(lia)) as Hdm.
  assert (0 ≤ Z.of_nat (length input) / 4) by (apply Z.div_pos; lia).
  destruct (convertLoop_Ok (Z.to_nat (Z.of_nat (length input) / 4)) 0 input ltac:(lia))
    as (ws & Hws & Hl & Hk).
  exists ws. change (Z.of_nat 0) with 0 in Hws. rewrite Hws.
  split; [reflexivity|]. split; [lia|]. split.
  - intros k Hlt. rewrite Hk by lia. reflexivity.
  - apply Forall_lookup_2. intros k w Hw.
    pose proof (lookup_lt_Some _ _ _ Hw) as Hlt.
    rewrite Hk in Hw by lia. injection Hw as <-.
    destruct (wordBytes_lookup input k ltac:(lia)) as (b0 & b1 & b2 & b3 & -> & _).
    apply (le_value_range [b0; b1; b2; b3]).
Qed.

Lemma inflateBuffer_words (sz : Z) (input : list byte) (ws : list Z) (cap custom : Z) :
  convertU8ToU32 input = Ok ws →
  inflateBuffer sz (Some input) cap custom = inflateWords huffmanTreeDict ws cap custom.
Proof.
  intros H. unfold inflateBuffer. rewrite initializeHuffmanTreeDict_Ok.
  cbn [mbind outcome_bind].
  change (load (CompressedCodes huffmanTreeDict) 0) with (Ok (A := Z) 0xA0000000).
  cbn [mbind outcome_bind]. change (0xA0000000 =? 0) with false. cbv iota.
  rewrite H. reflexivity.
Qed.

Lemma convertU8ToU32_littleEndianWords (input : list byte) :
  Z.of_nat (length input) mod 4 = 0 →
  convertU8ToU32 input = Ok (littleEndianWords input).
Proof.
  intros Hmod. destruct (convertU8ToU32_Ok input Hmod) as (ws & Hws & Hl & Hk & _).
  rewrite Hws. f_equal. apply list_eq. intros k.
  assert (length ws = (length input / 4)%nat) as Hl'.
  { apply Nat2Z.inj. rewrite Hl. now rewrite Nat2Z.inj_div. }
  unfold littleEndianWords. rewrite list_lookup_fmap.
  destruct (Nat.lt_ge_cases k (length ws)) as [Hlt|Hge].
  - rewrite Hk by exact Hlt. rewrite lookup_seq_lt by lia. reflexivity.
  - rewrite lookup_ge_None_2 by exact Hge.
    rewrite lookup_seq_ge by lia. reflexivity.
Qed.

Lemma inflateBuffer_partial_word (sz : Z) (input : list byte) (cap custom : Z) :
  Z.of_nat (length input) mod 4 ≠ 0 →
  inflateBuffer sz (Some input) cap custom = Error (ErrConvert ErrNotMultipleOf4).
Proof.
  intros Hmod. unfold inflateBuffer. rewrite initializeHuffmanTreeDict_Ok.
  cbn [mbind outcome_bind].
  change (load (CompressedCodes huffmanTreeDict) 0) with (Ok (A := Z) 0xA0000000).
  cbn [mbind outcome_bind]. change (0xA0000000 =? 0) with false. cbv iota.
  unfold convertU8ToU32.
  destruct (Z.of_nat (length input) mod 4 =? 0) eqn:E; [lia | reflexivity].
Qed.

(** [C9].  [inflateBuffer] accepts only inputs of whole words: an input
    whose length is not a multiple of 4 is answered with the conversion
    error before any bit of it is looked at; an input whose length is a
    multiple of 4 is read as [length / 4] little-endian 32-bit words, word
    [k] being the value of the bytes [4k .. 4k+3], least significant first,
    and the decoder runs on these words. *)
Theorem inflateBuffer_input_is_little_endian_words
    (sz : Z) (input : list byte) (cap custom : Z) :
  inflateBuffer sz (Some input) cap custom
    = if Z.of_nat (length input) mod 4 =? 0
      then inflateWords huffmanTreeDict (littleEndianWords input) cap custom
      else Error (ErrConvert ErrNotMultipleOf4).
Proof.
  destruct (Z.of_nat (length input) mod 4 =? 0) eqn:E.
  - apply inflateBuffer_words, convertU8ToU32_littleEndianWords. lia.
  - apply inflateBuffer_partial_word. lia.
Qed.

(** Five bytes are refused; the eight bytes [01 02 03 04 FF 00 00 80] are
    the words [0x04030201] and [0x800000FF]. *)
Example convertU8ToU32_samples :
  convertU8ToU32 [x01; x02; x03; x04; xff] = Error ErrNotMultipleOf4 ∧
  convertU8ToU32 [x01; x02; x03; x04; xff; x00; x00; x80]
    = Ok [0x04030201; 0x800000FF].
Proof. split; reflexivity. Qed.
(** ** The archive reader *)

Lemma findIndex_none (table : list MFTIndexData) (number : Z) (isFileID : bool) :
  (∀ e, e ∈ table → matchesKey number isFileID e = false) →
  findIndex table number isFileID = -1.
Proof.
  induction table as [|e table IH]; intros H; [reflexivity|].
  cbn [findIndex].
  pose proof (H e ltac:(left)) as He. unfold matchesKey in He.
  destruct isFileID; cbn [andb negb]; rewrite He; apply IH;
    intros e' He'; apply H; now right.
Qed.

Lemma findIndex_first (before after : list MFTIndexData) (e : MFTIndexData)
    (number : Z) (isFileID : bool) :
  (∀ e', e' ∈ before → matchesKey number isFileID e' = false) →
  matchesKey number isFileID e = true →
  findIndex (before ++ e :: after) number isFileID = BaseID e.
Proof.
  intros Hb He. induction before as [|b before IH].
  - cbn [app findIndex]. unfold matchesKey in He.
    destruct isFileID; cbn [andb negb]; now rewrite He.
  - cbn [app findIndex].
    pose proof (Hb b ltac:(left)) as Hb0. unfold matchesKey in Hb0.
    destruct isFileID; cbn [andb negb]; rewrite Hb0; apply IH;
      intros e' He'; apply Hb; now right.
Qed.

(** [C7].  [extractMFTData] scans the index table in stored order: when no
    record answers the key the result is the error [MFT entry not found],
    whatever the archive and the entry array hold; otherwise the first
    record that answers the key decides, and the entry that is read is
    [MFTData[BaseID - 1]] for the [BaseID] of that record. *)
Theorem extractMFTData_uses_first_matching_record
    (disk : option (list byte)) (h : DatFile) (number : Z) (isFileID : bool) :
  (∀ e, e ∈ MFTIndexDataOf h → 0 ≤ BaseID e) →
  ((∀ e, e ∈ MFTIndexDataOf h → matchesKey number isFileID e = false) →
   extractMFTData disk h number isFileID = Error ErrNotFound) ∧
  (∀ before e after,
     MFTIndexDataOf h = before ++ e :: after →
     (∀ e', e' ∈ before → matchesKey number isFileID e' = false) →
     matchesKey number isFileID e = true →
     extractMFTData disk h number isFileID
       = (mftEntry ← load (MFTDataOf h) (BaseID e - 1); extractEntry disk mftEntry) ∧
     ∀ mftEntry,
       1 ≤ BaseID e →
       MFTDataOf h !! Z.to_nat (BaseID e - 1) = Some mftEntry →
       extractMFTData disk h number isFileID = extractEntry disk mftEntry).
Proof.
  intros Hrange. split.
  - intros Hnone. unfold extractMFTData. now rewrite findIndex_none.
  - intros before e after Heq Hb He.
    assert (extractMFTData disk h number isFileID
            = (mftEntry ← load (MFTDataOf h) (BaseID e - 1); extractEntry disk mftEntry)) as Hx.
    { unfold extractMFTData. rewrite Heq, (findIndex_first before after e) by assumption.
      assert (0 ≤ BaseID e) as H0.
      { apply Hrange. rewrite Heq. apply elem_of_app. right. left. }
      destruct (BaseID e =? -1) eqn:E; [lia | reflexivity]. }
    split; [exact Hx|].
    intros mftEntry H1 Hm. rewrite Hx.
    now rewrite (proj2 (load_Ok _ _ mftEntry)) by (split; [lia | exact Hm]).
Qed.

Lemma extractMFTData_uses_first_matching_record_witness :
  (( ∀ e, e ∈ MFTIndexDataOf sampleHandle → matchesKey 10 true e = false) →
   extractMFTData (Some sampleDisk) sampleHandle 10 true = Error ErrNotFound) ∧
  (∀ before e after,
     MFTIndexDataOf sampleHandle = before ++ e :: after →
     (∀ e', e' ∈ before → matchesKey 10 true e' = false) →
     matchesKey 10 true e = true →
     extractMFTData (Some sampleDisk) sampleHandle 10 true
       = (mftEntry ← load (MFTDataOf sampleHandle) (BaseID e - 1);
          extractEntry (Some sampleDisk) mftEntry) ∧
     ∀ mftEntry,
       1 ≤ BaseID e →
       MFTDataOf sampleHandle !! Z.to_nat (BaseID e - 1) = Some mftEntry →
       extractMFTData (Some sampleDisk) sampleHandle 10 true
         = extractEntry (Some sampleDisk) mftEntry).
Proof.
  apply (extractMFTData_uses_first_matching_record (Some sampleDisk) sampleHandle 10 true).
  intros e He. simpl in He.
  repeat (apply elem_of_cons in He; destruct He as [->|He]; [simpl; lia|]).
  now apply elem_of_nil in He.
Defined.

(** On the sample handle the key 10 is answered by the second record, not
    by the third: the payload is the one of entry 2. *)
Example extractMFTData_sample :
  extractMFTData (Some sampleDisk) sampleHandle 10 true = Ok ["c"; "d"; "e"]%byte ∧
  extractMFTData (Some sampleDisk) sampleHandle 12 true = Error ErrNotFound.
Proof. split; reflexivity. Qed.

(** [C8], as amended.  When the first record that answers the key has
    [BaseID = 0], or [BaseID - 1] is not below the length of the entry
    array (which is [NumEntries] for a handle made by [loadDatFile]), the
    access [MFTData[index-1]] is out of range: the call panics and returns
    no error value. *)
Theorem extractMFTData_panics_on_corrupt_index
    (disk : option (list byte)) (h : DatFile) (number : Z) (isFileID : bool)
    (before after : list MFTIndexData) (e : MFTIndexData) :
  MFTIndexDataOf h = before ++ e :: after →
  (∀ e', e' ∈ before → matchesKey number isFileID e' = false) →
  matchesKey number isFileID e = true →
  BaseID e = 0 ∨ Z.of_nat (length (MFTDataOf h)) ≤ BaseID e - 1 →
  extractMFTData disk h number isFileID = Panic.
Proof.
  intros Heq Hb He Hbad.
  unfold extractMFTData. rewrite Heq, (findIndex_first before after e) by assumption.
  destruct (BaseID e =? -1) eqn:E; [lia|].
  rewrite load_Panic by lia. reflexivity.
Qed.

Lemma extractMFTData_panics_on_corrupt_index_witness :
  extractMFTData (Some sampleDisk) corruptHandle 8 true = Panic.
Proof.
  apply (extractMFTData_panics_on_corrupt_index (Some sampleDisk) corruptHandle 8 true
           [mkMFTIndexData 7 0] [] (mkMFTIndexData 8 3)).
  - reflexivity.
  - intros e' He'. apply elem_of_cons in He'. destruct He' as [->|He']; [reflexivity | now apply elem_of_nil in He'].
  - reflexivity.
  - right. simpl. lia.
Defined.

(** [C8], as stated, fails: for the key [BaseID = 0], and for the file id 8
    whose record names entry 3 of 2, the call panics and no error value is
    returned. *)
Lemma extractMFTData_corrupt_index_is_no_error :
  extractMFTData (Some sampleDisk) corruptHandle 0 false = Panic ∧
  extractMFTData (Some sampleDisk) corruptHandle 8 true = Panic ∧
  ∀ err, extractMFTData (Some sampleDisk) corruptHandle 0 false ≠ Error err ∧
         extractMFTData (Some sampleDisk) corruptHandle 8 true ≠ Error err.
Proof.
  split; [reflexivity|]. split; [reflexivity|].
  intros err. split; discriminate.
Qed.

Lemma le_value_nonneg (bs : list byte) : 0 ≤ le_value bs.
Proof.
  induction bs as [|b bs IH]; cbn [le_value]; [lia|].
  unfold byte_to_Z. lia.
Qed.

Lemma readUintLE_nonneg (n : nat) (f : File) : 0 ≤ (readUintLE n f).1.
Proof.
  unfold readUintLE. destruct (readFull f n) as [[bs|] f']; simpl; [|lia].
  apply le_value_nonneg.
Qed.

Lemma readMFTHeader_NumEntries_nonneg (f : File) : 0 ≤ NumEntries (readMFTHeader f).1.
Proof.
  unfold readMFTHeader.
  destruct (readIdentifier MftMagicNumber f) as [ident f1].
  destruct (readUint64LE f1) as [unknown f2].
  pose proof (readUintLE_nonneg 4 f2) as H. unfold readUint32LE.
  destruct (readUintLE 4 f2) as [numEntries f3].
  destruct (readUintLE 4 f3) as [u2 f4].
  destruct (readUintLE 4 f4) as [u3 f5]. exact H.
Qed.

Lemma readMFTEntries_length (n : nat) (f : File) : length (readMFTEntries n f).1 = n.
Proof.
  revert f. induction n as [|n IH]; intros f; [reflexivity|].
  cbn [readMFTEntries]. destruct (readMFTEntry f) as [e f1].
  specialize (IH f1). destruct (readMFTEntries n f1) as [es f2].
  simpl in *. now rewrite IH.
Qed.

(** [C10].  For an archive whose MFT header has the magic, [loadDatFile]
    indexes [MFTData[1]] whatever [NumEntries] is: with [NumEntries <= 1]
    the access is out of range and the call panics, returning no error
    value; a handle is returned only when [NumEntries >= 2], and then it
    is returned. *)
Theorem loadDatFile_indexes_entry_one
    (bytes : list byte) (header : DatHeader) (mftHeader : MFTHeader) (f1 f2 : File) :
  readDatHeader (mkFile bytes 0) = (header, f1) →
  readMFTHeader (seekIgnoringError f1 (i64 (MftOffset header))) = (mftHeader, f2) →
  Identifier mftHeader = mftMagic →
  (NumEntries mftHeader ≤ 1 → loadDatFile (Some bytes) = Panic) ∧
  (2 ≤ NumEntries mftHeader →
   ∃ h, loadDatFile (Some bytes) = Ok h ∧ MFTHeaderOf h = mftHeader ∧
        Z.of_nat (length (MFTDataOf h)) = NumEntries mftHeader) ∧
  (∀ h, loadDatFile (Some bytes) = Ok h → 2 ≤ NumEntries (MFTHeaderOf h)).
Proof.
  intros Hh Hm Hmagic.
  pose proof (readMFTHeader_NumEntries_nonneg (seekIgnoringError f1 (i64 (MftOffset header)))) as Hn.
  rewrite Hm in Hn. simpl in Hn.
  pose proof (readMFTEntries_length (Z.to_nat (NumEntries mftHeader)) f2) as Hlen.
  assert (loadDatFile (Some bytes) =
          let '(mftData, file) := readMFTEntries (Z.to_nat (NumEntries mftHeader)) f2 in
          indexEntry ← load mftData MftEntryIndexNum;
          let file := seekIgnoringError file (i64 (Offset indexEntry)) in
          let '(mftIndexData, _) :=
            readMFTIndexEntries (Z.to_nat (Size indexEntry / 8)) file in
          Ok (mkDatFile header mftHeader mftData mftIndexData)) as Hload.
  { unfold loadDatFile. rewrite Hh, Hm, Hmagic.
    rewrite bool_decide_eq_true_2 by reflexivity. reflexivity. }
  destruct (readMFTEntries (Z.to_nat (NumEntries mftHeader)) f2) as [mftData f3].
  simpl in Hlen.
  assert (NumEntries mftHeader ≤ 1 → loadDatFile (Some bytes) = Panic) as Hpanic.
  { intros Hle. rewrite Hload. rewrite load_Panic; [reflexivity|].
    right. unfold MftEntryIndexNum. lia. }
  assert (2 ≤ NumEntries mftHeader →
          ∃ h, loadDatFile (Some bytes) = Ok h ∧ MFTHeaderOf h = mftHeader ∧
               Z.of_nat (length (MFTDataOf h)) = NumEntries mftHeader) as Hok.
  { intros Hge. rewrite Hload.
    destruct (mftData !! Z.to_nat MftEntryIndexNum) as [indexEntry|] eqn:E.
    2:{ apply lookup_ge_None in E. unfold MftEntryIndexNum in E. lia. }
    rewrite (proj2 (load_Ok mftData MftEntryIndexNum indexEntry))
      by (split; [unfold MftEntryIndexNum; lia | exact E]).
    cbn [mbind outcome_bind].
    destruct (readMFTIndexEntries _ _) as [mftIndexData f4].
    eexists. split; [reflexivity|]. simpl. split; [reflexivity | lia]. }
  split; [exact Hpanic|]. split; [exact Hok|].
  intros h Hh'. destruct (Z_le_gt_dec (NumEntries mftHeader) 1) as [Hle|Hgt].
  - rewrite (Hpanic Hle) in Hh'. discriminate.
  - destruct (Hok ltac:(lia)) as (h' & Hh'' & Hmh & _).
    rewrite Hh'' in Hh'. injection Hh' as <-. rewrite Hmh. lia.
Qed.

Lemma loadDatFile_indexes_entry_one_witness :
  (1 ≤ 1 → loadDatFile (Some oneEntryArchive) = Panic) ∧
  (2 ≤ 1 →
   ∃ h, loadDatFile (Some oneEntryArchive) = Ok h ∧
        MFTHeaderOf h = mkMFTHeader mftMagic 0 1 0 0 ∧
        Z.of_nat (length (MFTDataOf h)) = 1) ∧
  (∀ h, loadDatFile (Some oneEntryArchive) = Ok h → 2 ≤ NumEntries (MFTHeaderOf h)).
Proof.
  apply (loadDatFile_indexes_entry_one oneEntryArchive
           (mkDatHeader 0x97 [x41; x4e; x1a] 40 0 0 0 0 40 48 0)
           (mkMFTHeader mftMagic 0 1 0 0)
           (mkFile oneEntryArchive 40) (mkFile oneEntryArchive 64)).
  - vm_compute. reflexivity.
  - vm_compute. reflexivity.
  - reflexivity.
Defined.

(** The archive with one entry makes [loadDatFile] panic; with a second
    entry that locates the index table, the handle is returned. *)
Example loadDatFile_samples :
  loadDatFile (Some oneEntryArchive) = Panic ∧
  loadDatFile (Some twoEntryArchive)
    = Ok (mkDatFile (mkDatHeader 0x97 [x41; x4e; x1a] 40 0 0 0 0 40 72 0)
                    (mkMFTHeader mftMagic 0 2 0 0)
                    [mkMFTData 0 0 0 0 0 0; mkMFTData 112 16 0 0 0 0]
                    [mkMFTIndexData 5 1; mkMFTIndexData 6 2]).
Proof. split; vm_compute; reflexivity. Qed.
(** ** The stream prefix and the output size *)

Lemma wfDict_huffmanTreeDict : wfDict huffmanTreeDict.
Proof.
  unfold wfDict. apply Forall_forall. intros v Hv.
  assert (forallb (λ v, (0 <=? v) && (v <? 2 ^ 16)) (SymbolValues huffmanTreeDict) = true) as Hb
    by (vm_compute; reflexivity).
  rewrite forallb_forall in Hb. apply list_elem_of_In in Hv. specialize (Hb v Hv). lia.
Qed.

Lemma initialState_wf (ws : list Z) :
  Forall (λ w, 0 ≤ w < 2 ^ 32) ws → wfState (initialState ws).
Proof. intros H. unfold wfState, initialState. simpl. repeat split; try lia. exact H. Qed.

(** The first two pulls of [inflateBuffer]: the first word is dropped, the
    second is the declared length. *)
Lemma stream_prefix (w0 U : Z) (rest : list Z) (s1 s2 s3 : State) :
  needBits (initialState (w0 :: U :: rest)) 32 = Ok s1 →
  dropBits s1 32 = Ok s2 →
  needBits s2 32 = Ok s3 →
  readBits s3 32 = U.
Proof.
  intros H1 H2 H3. rewrite readBits_32.
  unfold needBits in H1. simpl in H1. apply pullByte_Ok in H1.
  destruct H1 as (_ & _ & w & Hw & ->).
  unfold dropBits in H2. simpl in H2. injection H2 as <-.
  unfold needBits in H3. simpl in H3. apply pullByte_Ok in H3.
  destruct H3 as (_ & _ & w' & Hw' & ->). simpl in Hw'. simpl.
  change (nextPosition (u32 (nextPosition 0 + 1))) with 1 in Hw'.
  apply load_Ok in Hw'. destruct Hw' as [_ Hw']. simpl in Hw'. congruence.
Qed.

Lemma replicate_length_Z {A} (n : Z) (x : A) : 0 ≤ n → Z.of_nat (length (replicate (Z.to_nat n) x)) = n.
Proof. intros H. rewrite length_replicate. lia. Qed.

(** [C2], as amended.  For a stream whose prefix declares the length [U]:
    the size reported back is [U' = min(U, Cap)] when [Cap != 0] and
    [U' = U] when [Cap == 0], whatever [CustomSize] is; the output buffer
    has [CustomSize] bytes when [CustomSize != 0] and [U'] bytes otherwise,
    and the main loop runs until the output position has reached that same
    size. *)
Theorem inflateBuffer_reports_capped_size
    (sz : Z) (input : list byte) (w0 U : Z) (rest : list Z) (cap custom : Z)
    (out : list byte) (rep : Z) :
  convertU8ToU32 input = Ok (w0 :: U :: rest) →
  0 ≤ cap < 2 ^ 32 → 0 ≤ custom < 2 ^ 32 →
  inflateBuffer sz (Some input) cap custom = Ok (out, rep) →
  let U' := if cap =? 0 then U else Z.min U cap in
  let alloc := if custom =? 0 then U' else custom in
  rep = U' ∧ Z.of_nat (length out) = alloc ∧
  ∃ s s', inflateData huffmanTreeDict s (replicate (Z.to_nat alloc) x00) alloc
            = Ok (s', out, alloc).
Proof.
  intros Hconv Hcap Hcustom H U' alloc.
  assert (0 ≤ U < 2 ^ 32) as HU.
  { assert (Z.of_nat (length input) mod 4 = 0) as Hmod.
    { unfold convertU8ToU32 in Hconv.
      destruct (Z.of_nat (length input) mod 4 =? 0) eqn:Q; [lia | discriminate Hconv]. }
    destruct (convertU8ToU32_Ok input Hmod) as (ws & Hws & _ & _ & Hr).
    rewrite Hconv in Hws. injection Hws as <-.
    apply Forall_cons in Hr. destruct Hr as [_ Hr].
    apply Forall_cons in Hr. now destruct Hr as [Hr _]. }
  rewrite (inflateBuffer_words _ _ _ _ _ Hconv) in H.
  unfold inflateWords in H. fold (initialState (w0 :: U :: rest)) in H.
  binds. cbv zeta in H. binds.
  match goal with
  | Ha : needBits (initialState _) 32 = Ok ?a, Hb : dropBits ?a 32 = Ok ?b,
    Hc : needBits ?b 32 = Ok ?c |- _ =>
      rewrite (stream_prefix _ _ _ _ _ _ Ha Hb Hc) in *
  end.
  injection H as <- <-.
  assert ((if negb (cap =? 0) && (cap <? U) then cap else U) = U') as HU'.
  { unfold U'. destruct (cap =? 0) eqn:Q0; cbn [negb andb]; [reflexivity|].
    destruct (cap <? U) eqn:Q1; lia. }
  rewrite HU' in *.
  assert ((if 0 <? custom then custom else U') = alloc) as Halloc.
  { unfold alloc. destruct (custom =? 0) eqn:Q0; destruct (0 <? custom) eqn:Q1; lia. }
  rewrite Halloc in *.
  assert (0 ≤ alloc < 2 ^ 32) as Hrange.
  { unfold alloc, U'. destruct (custom =? 0); destruct (cap =? 0); lia. }
  match goal with
  | Hd : inflateData _ _ _ _ = Ok _ |- _ =>
      pose proof (inflateData_pos _ _ _ _ _ _ _ Hrange Hd) as [-> Hlen]
  end.
  split; [reflexivity|]. split.
  - rewrite Hlen. apply replicate_length_Z. lia.
  - eauto.
Qed.

Lemma inflateBuffer_reports_capped_size_witness :
  3 = 3 ∧ Z.of_nat (length ["A"; "A"; "A"; "A"; "A"]%byte) = 5 ∧
  ∃ s s', inflateData huffmanTreeDict s (replicate (Z.to_nat 5) x00) 5
            = Ok (s', ["A"; "A"; "A"; "A"; "A"]%byte, 5).
Proof.
  apply (inflateBuffer_reports_capped_size 28 (bytesOfWords literalStream)
           0xdeadbeef 3 [0x2004206; 0xd0842108; 0x42240000; 0x3e000000; 0x0] 0 5
           ["A"; "A"; "A"; "A"; "A"]%byte 3).
  - vm_compute. reflexivity.
  - lia.
  - lia.
  - vm_compute. reflexivity.
Defined.

(** [C2], as stated, fails: the stream declares [U = 3]; with [Cap = 0] and
    [CustomSize = 5] the size reported is 3 but the main loop decodes five
    codes and produces five bytes, where [CustomSize = 0] gives three. *)
Lemma inflateBuffer_custom_size_changes_decoded_length :
  inflateBuffer 28 (Some (bytesOfWords literalStream)) 0 0
    = Ok (["A"; "A"; "A"]%byte, 3) ∧
  inflateBuffer 28 (Some (bytesOfWords literalStream)) 0 5
    = Ok (["A"; "A"; "A"; "A"; "A"]%byte, 3).
Proof. split; vm_compute; reflexivity. Qed.

(** *** The whole call keeps within the loop bounds *)

Lemma inflateWords_fueled (ws : list Z) (cap custom : Z) :
  Forall (λ w, 0 ≤ w < 2 ^ 32) ws → 0 ≤ cap < 2 ^ 32 → 0 ≤ custom < 2 ^ 32 →
  fueled (inflateWords huffmanTreeDict ws cap custom).
Proof.
  intros Hws Hcap Hcustom. unfold inflateWords. fold (initialState ws).
  pose proof (initialState_wf ws Hws) as Hw0.
  apply bind_fueled; [apply needBits_fueled|]. intros s1 H1.
  apply bind_fueled; [apply dropBits_fueled|]. intros s2 H2.
  apply bind_fueled; [apply needBits_fueled|]. intros s3 H3. cbv zeta.
  apply bind_fueled; [apply dropBits_fueled|]. intros s4 H4.
  assert (wfState s3) as Hw3.
  { eapply needBits_wf; [|exact H3]. eapply dropBits_wf; [|exact H2].
    eapply needBits_wf; eassumption. }
  assert (wfState s4) as Hw4 by (eapply dropBits_wf; eassumption).
  rewrite readBits_32. destruct Hw3 as (HH & _).
  apply bind_fueled.
  - apply inflateData_fueled; [apply wfDict_huffmanTreeDict | exact Hw4 |].
    destruct (0 <? custom); [lia|].
    destruct (negb (cap =? 0) && (cap <? Head s3)); lia.
  - intros [[s' out] pos] _. unfold fueled. discriminate.
Qed.

(** [inflateBuffer] never ends by exhausting a loop bound of the model:
    every result is a return, an exit or a panic of the Go function. *)
Theorem inflateBuffer_fueled (sz : Z) (input : option (list byte)) (cap custom : Z) :
  0 ≤ cap < 2 ^ 32 → 0 ≤ custom < 2 ^ 32 →
  fueled (inflateBuffer sz input cap custom).
Proof.
  intros Hcap Hcustom. destruct input as [input|]; [|unfold fueled; discriminate].
  destruct (Z.eq_dec (Z.of_nat (length input) mod 4) 0) as [Hmod|Hmod].
  - destruct (convertU8ToU32_Ok input Hmod) as (ws & Hws & _ & _ & Hr).
    rewrite (inflateBuffer_words _ _ _ _ _ Hws). now apply inflateWords_fueled.
  - rewrite inflateBuffer_partial_word by exact Hmod. unfold fueled. discriminate.
Qed.


(** Nor does [extractMFTData]. *)
Theorem extractMFTData_fueled (disk : option (list byte)) (h : DatFile)
    (number : Z) (isFileID : bool) :
  fueled (extractMFTData disk h number isFileID).
Proof.
  unfold extractMFTData. cbv zeta.
  destruct (findIndex (MFTIndexDataOf h) number isFileID =? -1);
    [unfold fueled; discriminate|].
  apply bind_fueled; [apply load_fueled|]. intros mftEntry _.
  unfold extractEntry. cbv zeta.
  destruct disk as [bytes|]; [|unfold fueled; discriminate].
  destruct (fileSeek _ _) as [file|]; [|unfold fueled; discriminate].
  destruct (fileRead _ _) as [[buffer failed] file'].
  destruct failed; [unfold fueled; discriminate|].
  destruct (negb (CompressionFlag mftEntry =? 0)); [|unfold fueled; discriminate].
  pose proof (inflateBuffer_fueled (u32 (Z.of_nat (length buffer))) (Some buffer) 0 0
                ltac:(lia) ltac:(lia)) as Hf.
  unfold fueled in *. unfold decompressed.
  destruct (inflateBuffer _ _ 0 0) as [[inflated rep]| | | |]; congruence.
Qed.
(** ** The copy step *)

(** [C1], as amended.  In a pass of the code loop that decodes a copy
    (symbol [sigma >= 0x100], length [len], distance [dist]): the distance
    is at least 1 (and at most 65536) and the length is at least 1; the
    copy is started whatever the distance is, nothing compares [dist] with
    the output position; when [dist] exceeds the output position the first
    read, at index [(pos - dist) mod 2^32], is outside an output buffer of
    at most [2^32 - 65536] bytes, and the call panics. *)
Theorem copy_distance_is_not_checked
    (n : nat) (add : Z) (ts tc : HuffmanTree) (s s1 s2 s3 : State)
    (out : list byte) (pos size sigma len dist : Z) :
  wfState s → 1 ≤ add ≤ 16 → 0 ≤ pos < size →
  Z.of_nat (length out) ≤ 2 ^ 32 - 2 ^ 16 →
  readCode ts s = Ok (sigma, s1) → 0x100 ≤ sigma →
  decodeWriteSize add s1 (u16 (sigma - 0x100)) = Ok (len, s2) →
  decodeWriteOffset tc s2 = Ok (dist, s3) →
  1 ≤ dist ≤ 65536 ∧ 1 ≤ len ∧
  inflateCodes (S n) add ts tc s out pos size
    = ('(out', pos') ← copyBytes (Z.to_nat len) out pos dist size;
       inflateCodes n add ts tc s3 out' pos' size) ∧
  (pos < dist → inflateCodes (S n) add ts tc s out pos size = Panic).
Proof.
  intros Hwf Hadd Hpos Hlen Hc Hsigma Hsz Hoff.
  assert (wfState s1) as Hw1 by (eapply readCode_wf; eassumption).
  assert (wfState s2) as Hw2 by (eapply decodeWriteSize_wf; eassumption).
  pose proof (decodeWriteSize_range _ _ _ _ _ Hw1 (proj1 (u16_range _)) Hadd Hsz) as Hl.
  pose proof (decodeWriteOffset_range _ _ _ _ Hw2 Hoff) as Hd.
  assert (inflateCodes (S n) add ts tc s out pos size
          = ('(out', pos') ← copyBytes (Z.to_nat len) out pos dist size;
             inflateCodes n add ts tc s3 out' pos' size)) as Heq.
  { cbn [inflateCodes].
    destruct (pos <? size) eqn:Q; [|lia].
    rewrite Hc. cbn [mbind outcome_bind].
    destruct (sigma <? 256) eqn:Q1; [lia|].
    rewrite Hsz. cbn [mbind outcome_bind]. rewrite Hoff. reflexivity. }
  split; [simpl in Hd; lia|]. split; [lia|]. split; [exact Heq|].
  intros Hlt. rewrite Heq.
  rewrite copyBytes_before_start; [reflexivity | lia | lia | simpl in Hd |- *; lia | exact Hlen].
Qed.

Lemma copy_distance_is_not_checked_witness :
  1 ≤ 1 ≤ 65536 ∧ 1 ≤ 3 ∧
  inflateCodes 1 3 copyAtStartSymbolTree copyAtStartCopyTree copyAtStartState
               (replicate 4 x00) 0 4
    = ('(out', pos') ← copyBytes (Z.to_nat 3) (replicate 4 x00) 0 1 4;
       inflateCodes 0 3 copyAtStartSymbolTree copyAtStartCopyTree
                    (mkState copyAtStartStream 11 11 0 62 0 false) out' pos' 4) ∧
  (0 < 1 → inflateCodes 1 3 copyAtStartSymbolTree copyAtStartCopyTree copyAtStartState
                        (replicate 4 x00) 0 4 = Panic).
Proof.
  apply (copy_distance_is_not_checked 0 3 copyAtStartSymbolTree copyAtStartCopyTree
           copyAtStartState
           (mkState copyAtStartStream 11 10 0x80000000 31 0 false)
           (mkState copyAtStartStream 11 10 0x80000000 31 0 false)
           (mkState copyAtStartStream 11 11 0 62 0 false)
           (replicate 4 x00) 0 4 0x100 3 1).
  - apply wfStateb_sound. vm_compute. reflexivity.
  - lia.
  - lia.
  - simpl. lia.
  - vm_compute. reflexivity.
  - lia.
  - vm_compute. reflexivity.
  - vm_compute. reflexivity.
Defined.

(** [C1], as stated, fails: on [copyAtStartStream] the first code is a copy
    of length 3 and distance 1 at output position 0; the call panics on the
    read of [out[0 - 1]] and returns no error value. *)
Lemma inflateBuffer_copy_before_start_panics :
  inflateBuffer 44 (Some (bytesOfWords copyAtStartStream)) 0 0 = Panic ∧
  ∀ err, inflateBuffer 44 (Some (bytesOfWords copyAtStartStream)) 0 0 ≠ Error err.
Proof.
  assert (inflateBuffer 44 (Some (bytesOfWords copyAtStartStream)) 0 0 = Panic) as H
    by (vm_compute; reflexivity).
  split; [exact H|]. intros err. rewrite H. discriminate.
Qed.

(** A copy whose distance does not exceed the output position succeeds:
    the literal [B], then three bytes copied from distance 1. *)
Example inflateBuffer_literal_then_copy :
  inflateBuffer 44 (Some (bytesOfWords literalCopyStream)) 0 0
    = Ok (["B"; "B"; "B"; "B"]%byte, 4).
Proof. vm_compute. reflexivity. Qed.

(** ** The size field *)

Lemma needBits_Bits (s s1 : State) (bits : Z) :
  wfState s → Bits s ≤ 64 → 0 ≤ bits ≤ 32 → needBits s bits = Ok s1 →
  bits ≤ Bits s1 ≤ 64.
Proof.
  intros (_ & _ & Hb & _) H64 Hbits H. unfold needBits in H.
  destruct (32 <? bits) eqn:Q0; [discriminate H|].
  destruct (Bits s <? bits) eqn:Q1.
  - apply pullByte_Ok in H. destruct H as (Hlt & _ & w & _ & ->). simpl.
    unfold u32. rewrite Z.mod_small; lia.
  - injection H as <-. lia.
Qed.

(** The four bits read after four bits are dropped are the low four bits
    of the top byte of the window. *)
Lemma readBits_after_drop_4 (s1 s2 : State) :
  wfState s1 → dropBits s1 4 = Ok s2 →
  readBits s2 4 = (Head s1 / 2 ^ 24) mod 16.
Proof.
  intros (HH & HB & _ & _) H. unfold dropBits in H.
  destruct (32 <? 4) eqn:Q0; [discriminate H|].
  destruct (Bits s1 <? 4) eqn:Q1; [discriminate H|].
  change (4 =? 32) with false in H. cbv iota in H. injection H as <-.
  unfold readBits. simpl Head. change (u8 (32 - 4)) with 28. change (32 - 4) with 28.
  pose proof (shiftr_range (Buffer s1) 28 32 ltac:(lia) HB) as Hb.
  assert (0 ≤ Z.shiftr (Buffer s1) 28 < 2 ^ 4) as Hb4.
  { rewrite Z.shiftr_div_pow2 by lia. split; [apply Z.div_pos; lia|].
    apply Z.div_lt_upper_bound; lia. }
  rewrite Z.lor_comm, lor_shiftl_disjoint by lia.
  rewrite Z.shiftr_div_pow2 by lia. unfold u32.
  set (b := Z.shiftr (Buffer s1) 28) in *. set (h := Head s1) in *.
  pose proof (Z.div_mod h (2 ^ 28) ltac:(lia)) as E1.
  pose proof (Z.mod_pos_bound h (2 ^ 28) ltac:(lia)) as R1.
  pose proof (Z.div_mod (h mod 2 ^ 28) (2 ^ 24) ltac:(lia)) as E2.
  pose proof (Z.mod_pos_bound (h mod 2 ^ 28) (2 ^ 24) ltac:(lia)) as R2.
  set (q := h / 2 ^ 28) in *. set (r := h mod 2 ^ 28) in *.
  set (q' := r / 2 ^ 24) in *. set (r' := r mod 2 ^ 24) in *.
  assert (0 ≤ q' < 16) as Hq'.
  { unfold q'. split; [apply Z.div_pos; lia | apply Z.div_lt_upper_bound; lia]. }
  assert ((b + 2 ^ 4 * h) mod 2 ^ 32 = b + 16 * r) as ->.
  { symmetry. apply (Z.mod_unique _ _ q); lia. }
  assert ((b + 16 * r) / 2 ^ 28 = q') as ->.
  { symmetry. apply (Z.div_unique _ _ _ (16 * r' + b)); lia. }
  symmetry. assert (h / 2 ^ 24 = 16 * q + q') as ->.
  { symmetry. apply (Z.div_unique _ _ _ r'); lia. }
  symmetry. apply (Z.mod_unique _ _ q); lia.
Qed.

(** *** The copy lengths of the main loop *)

(** The code adds the constant to the length of the specification. *)
Lemma decodeWriteSize_adds (add : Z) (s : State) (v : Z) :
  wfState s → 0 ≤ v → 0 ≤ add < 2 ^ 31 →
  decodeWriteSize add s v
  = ('(len, s') ← copyLength_as_specified s v; Ok (len + add, s')).
Proof.
  intros Hwf Hv Hadd.
  destruct (baseWriteSize_spec add s v Hv) as (H0 & H1 & H2 & H28 & Hbad). cbv zeta in *.
  assert (0 ≤ v mod 4 < 4) as Hr by (apply Z.mod_pos_bound; lia).
  assert (v = 4 * (v / 4) + v mod 4) as Hqr by (apply Z.div_mod; lia).
  unfold copyLength_as_specified. cbv zeta.
  destruct (Z.le_gt_cases 29 v) as [Hge|Hlt].
  { rewrite (Hbad Hge).
    destruct (v / 4 =? 0) eqn:E0; [lia|].
    destruct ((1 <=? v / 4) && (v / 4 <=? 6)) eqn:E1; [lia|].
    destruct (v =? 28) eqn:E2; [lia|]. reflexivity. }
  destruct (Z.eq_dec v 28) as [->|Hne].
  { rewrite (H28 eq_refl). change (28 / 4) with 7. change (7 =? 0) with false.
    change ((1 <=? 7) && (7 <=? 6)) with false. change (28 =? 28) with true.
    cbn [andb negb mbind outcome_bind]. rewrite andb_false_r.
    cbn [mbind outcome_bind]. f_equal. f_equal. apply Z.mod_small. lia. }
  assert (0 ≤ v / 4 ≤ 6) as Hq by lia.
  destruct (Z.eq_dec (v / 4) 0) as [Hq0|Hq0].
  { rewrite (H0 Hq0), Hq0. cbn [mbind outcome_bind]. change (0 =? 0) with true.
    change (1 <? 0) with false. cbn [andb mbind outcome_bind].
    f_equal. f_equal. apply Z.mod_small. lia. }
  destruct (Z.eq_dec (v / 4) 1) as [Hq1|Hq1].
  { rewrite (H1 Hq1), Hq1. change (1 =? 0) with false.
    change ((1 <=? 1) && (1 <=? 6)) with true. change (1 <? 1) with false.
    cbn [andb mbind outcome_bind]. change (Z.shiftl 1 (1 - 1)) with 1.
    rewrite Z.mul_1_l. f_equal. f_equal. apply Z.mod_small. lia. }
  rewrite (H2 ltac:(lia)).
  destruct (v / 4 =? 0) eqn:E0; [lia|].
  destruct ((1 <=? v / 4) && (v / 4 <=? 6)) eqn:E1; [|lia].
  destruct (1 <? v / 4) eqn:E2; [|lia].
  destruct (v =? 28) eqn:E3; [lia|].
  cbn [andb negb mbind outcome_bind].
  destruct (needBits s (v / 4 - 1)) as [s1| | | |] eqn:Q1; try reflexivity.
  cbn [mbind outcome_bind].
  destruct (dropBits s1 (v / 4 - 1)) as [s2| | | |] eqn:Q2; try reflexivity.
  cbn [mbind outcome_bind]. rewrite Z.shiftl_1_l.
  assert (wfState s1) as Hw1 by (eapply needBits_wf; eassumption).
  pose proof (readBits_range s1 (v / 4 - 1) Hw1 ltac:(lia)) as Hx.
  set (q := v / 4) in *.
  assert (0 < 2 ^ (q - 1)) as Hpos by (apply Z.pow_pos_nonneg; lia).
  assert (2 ^ (q - 1) ≤ 2 ^ 5) as Hle by (apply Z.pow_le_mono_r; lia).
  assert (2 ^ (q - 1) ≤ 2 ^ 8) as Hle8 by (apply Z.pow_le_mono_r; lia).
  pose proof (lor_range (2 ^ (q - 1) * (4 + v mod 4)) (readBits s1 (q - 1)) 8 ltac:(lia)
                ltac:(nia) ltac:(lia)) as Hlor.
  f_equal. f_equal. apply Z.mod_small. lia.
Qed.

(** The symbols of a parsed tree are [uint16] values. *)
Lemma walkChain_wfDict (fuel : nat) :
  ∀ (ct sv sv' : list Z) (sym off code off' code' : Z),
  Forall (λ v, 0 ≤ v < 2 ^ 16) sv →
  walkChain fuel ct sv sym off code = Ok (sv', off', code') →
  Forall (λ v, 0 ≤ v < 2 ^ 16) sv'.
Proof.
  induction fuel as [|fuel IH]; intros ct sv sv' sym off code off' code' Hsv H;
    cbn [walkChain] in H.
  - destruct (sym =? -1); [|discriminate H]. injection H as <- _ _. exact Hsv.
  - destruct (sym =? -1); [injection H as <- _ _; exact Hsv|].
    destruct (store sv off (u16 sym)) as [sv1| | | |] eqn:Hst; try discriminate H.
    cbn [mbind outcome_bind] in H.
    destruct (load ct sym) as [next| | | |]; try discriminate H.
    cbn [mbind outcome_bind] in H.
    apply store_Ok in Hst as [_ ->].
    apply (IH _ _ _ _ _ _ _ _ (Forall_insert _ _ _ _ Hsv (u16_range sym)) H).
Qed.

Lemma createStep_wfDict (bt ct : list Z) (t t' : HuffmanTree)
    (code bits cci off code' cci' off' : Z) :
  wfDict t → createStep bt ct t code bits cci off = Ok (t', code', cci', off') → wfDict t'.
Proof.
  unfold createStep, wfDict. intros Ht H.
  destruct (load bt bits) as [first| | | |]; try discriminate H.
  cbn [mbind outcome_bind] in H.
  destruct (first =? -1).
  - cbn [mbind outcome_bind] in H. injection H as <- _ _ _. exact Ht.
  - destruct (walkChain chainFuel ct (SymbolValues t) first off code)
      as [[[sv o1] c1]| | | |] eqn:Hw; try discriminate H.
    cbn [mbind outcome_bind] in H.
    destruct (store (CompressedCodes t) cci _) as [cc| | | |]; try discriminate H.
    cbn [mbind outcome_bind] in H.
    destruct (store (BitsLength t) cci bits) as [bl| | | |]; try discriminate H.
    cbn [mbind outcome_bind] in H.
    destruct (store (SymbolValueOffset t) cci _) as [so| | | |]; try discriminate H.
    cbn [mbind outcome_bind] in H. injection H as <- _ _ _. cbn [SymbolValues].
    exact (walkChain_wfDict _ _ _ _ _ _ _ _ _ Ht Hw).
Qed.

Lemma createLoop_wfDict (n : nat) :
  ∀ (bt ct : list Z) (t t' : HuffmanTree) (code bits cci off : Z),
  wfDict t → createLoop n bt ct t code bits cci off = Ok t' → wfDict t'.
Proof.
  induction n as [|n IH]; intros bt ct t t' code bits cci off Ht H; cbn [createLoop] in H.
  - injection H as <-. exact Ht.
  - destruct (createStep bt ct t code bits cci off) as [[[[t1 c1] i1] o1]| | | |] eqn:Hs;
      try discriminate H.
    cbn [mbind outcome_bind] in H.
    exact (IH _ _ _ _ _ _ _ _ (createStep_wfDict _ _ _ _ _ _ _ _ _ _ _ Ht Hs) H).
Qed.

Lemma wfDict_emptyTree : wfDict emptyTree.
Proof. unfold wfDict, emptyTree. cbn [SymbolValues]. apply Forall_replicate. lia. Qed.

Lemma parseHuffmanTree_wfDict (dict t : HuffmanTree) (s s' : State) :
  parseHuffmanTree dict s emptyTree = Ok (s', t) → wfDict t.
Proof.
  unfold parseHuffmanTree. intros H. binds. cbv zeta in H. binds.
  injection H as _ <-.
  match goal with
  | Hc : createHuffmanTree emptyTree _ _ = Ok _ |- _ =>
      exact (createLoop_wfDict _ _ _ _ _ _ _ _ _ wfDict_emptyTree Hc)
  end.
Qed.

(** The inner loop adds [S] to the length of every copy. *)
Lemma inflateCodes_amended (plus : Z) (ts tc : HuffmanTree) (size : Z) :
  wfDict ts → 0 ≤ plus < 2 ^ 31 →
  ∀ (n : nat) (s : State) (out : list byte) (pos : Z),
  wfState s →
  inflateCodes n plus ts tc s out pos size
  = inflateCodes_as_amended n plus ts tc s out pos size.
Proof.
  intros Hts Hplus. induction n as [|n IH]; intros s out pos Hwf;
    cbn [inflateCodes inflateCodes_as_amended]; [reflexivity|].
  destruct (pos <? size); [|reflexivity].
  destruct (readCode ts s) as [[c s1]| | | |] eqn:Hc; try reflexivity.
  cbn [mbind outcome_bind].
  assert (wfState s1) as Hw1 by (eapply readCode_wf; eassumption).
  destruct (readCode_state ts s s1 c Hc) as (_ & _ & _ & _ & Hin).
  unfold wfDict in Hts. rewrite Forall_forall in Hts. specialize (Hts c Hin).
  destruct (c <? 256) eqn:Ec.
  - destruct (store out pos (byte_of_Z c)) as [out'| | | |]; try reflexivity.
    cbn [mbind outcome_bind]. apply IH, Hw1.
  - apply Z.ltb_ge in Ec.
    assert (u16 (c - 256) = c - 256) as -> by (apply Z.mod_small; lia).
    rewrite (decodeWriteSize_adds plus s1 (c - 256) Hw1 ltac:(lia) Hplus).
    destruct (copyLength_as_specified s1 (c - 256)) as [[len s2]| | | |] eqn:Hlen;
      try reflexivity.
    cbn [mbind outcome_bind]. cbv zeta.
    assert (wfState s2) as Hw2.
    { apply (decodeWriteSize_wf plus s1 s2 (c - 256) (len + plus) Hw1).
      rewrite (decodeWriteSize_adds plus s1 (c - 256) Hw1 ltac:(lia) Hplus), Hlen.
      reflexivity. }
    destruct (decodeWriteOffset tc s2) as [[d s3]| | | |] eqn:Hd; try reflexivity.
    cbn [mbind outcome_bind].
    assert (wfState s3) as Hw3 by (eapply decodeWriteOffset_wf; eassumption).
    destruct (copyBytes (Z.to_nat (len + plus)) out pos d size) as [[o1 p1]| | | |];
      try reflexivity.
    cbn [mbind outcome_bind]. apply IH, Hw3.
Qed.

Lemma inflateBlock_amended (dict : HuffmanTree) (plus : Z) (s : State)
    (out : list byte) (pos size : Z) :
  wfState s → 0 ≤ plus < 2 ^ 31 →
  inflateBlock dict plus s out pos size = inflateBlock_as_amended dict plus s out pos size.
Proof.
  intros Hwf Hplus. unfold inflateBlock, inflateBlock_as_amended.
  destruct (parseHuffmanTree dict s emptyTree) as [[s1 ts]| | | |] eqn:H1; try reflexivity.
  cbn [mbind outcome_bind].
  assert (wfState s1) as Hw1 by (eapply parseHuffmanTree_wf; eassumption).
  destruct (parseHuffmanTree dict s1 emptyTree) as [[s2 tc]| | | |] eqn:H2; try reflexivity.
  cbn [mbind outcome_bind].
  assert (wfState s2) as Hw2 by (eapply parseHuffmanTree_wf; eassumption).
  destruct (needBits s2 4) as [s3| | | |] eqn:H3; try reflexivity.
  cbn [mbind outcome_bind]. cbv zeta.
  assert (wfState s3) as Hw3 by (eapply needBits_wf; eassumption).
  destruct (dropBits s3 4) as [s4| | | |] eqn:H4; try reflexivity.
  cbn [mbind outcome_bind].
  apply inflateCodes_amended; [|exact Hplus|eapply dropBits_wf; eassumption].
  exact (parseHuffmanTree_wfDict dict ts s s1 H1).
Qed.

Lemma inflateBlocks_amended (dict : HuffmanTree) (plus size : Z) :
  0 ≤ plus < 2 ^ 31 →
  ∀ (fuel : nat) (s : State) (out : list byte) (pos : Z),
  wfState s →
  inflateBlocks fuel dict plus s out pos size
  = inflateBlocks_as_amended fuel dict plus s out pos size.
Proof.
  intros Hplus. induction fuel as [|fuel IH]; intros s out pos Hwf;
    cbn [inflateBlocks inflateBlocks_as_amended]; [reflexivity|].
  destruct (pos <? size); [|reflexivity].
  rewrite <- (inflateBlock_amended dict plus s out pos size Hwf Hplus).
  destruct (inflateBlock dict plus s out pos size) as [[[s' out'] pos']| | | |] eqn:Hb;
    try reflexivity.
  cbn [mbind outcome_bind]. apply IH. eapply inflateBlock_wf; eassumption.
Qed.

Lemma inflateData_amended (dict : HuffmanTree) (s : State) (out : list byte) (size : Z) :
  wfState s →
  inflateData dict s out size = inflateData_as_amended dict s out size.
Proof.
  intros Hwf. unfold inflateData, inflateData_as_amended.
  destruct (needBits s 8) as [s1| | | |] eqn:H1; try reflexivity.
  cbn [mbind outcome_bind].
  assert (wfState s1) as Hw1 by (eapply needBits_wf; eassumption).
  destruct (dropBits s1 4) as [s2| | | |] eqn:H2; try reflexivity.
  cbn [mbind outcome_bind]. cbv zeta.
  assert (wfState s2) as Hw2 by (eapply dropBits_wf; eassumption).
  pose proof (readBits_range s2 4 Hw2 ltac:(lia)) as Hrb.
  destruct (dropBits s2 4) as [s3| | | |] eqn:H3; try reflexivity.
  cbn [mbind outcome_bind].
  assert (u32 (readBits s2 4 + 1) = readBits s2 4 + 1) as -> by (apply Z.mod_small; lia).
  apply inflateBlocks_amended; [lia|]. eapply dropBits_wf; eassumption.
Qed.

(** [C3], as amended.  [inflateData] reads the 8-bit field once, before
    the main loop: 4 bits are dropped, 4 bits are read as [K] (the low four
    bits of the top byte of the window), 4 bits are dropped, 8 bits in all.
    This happens even when the declared size is zero and the loop makes no
    pass.  The loop then runs with [S = K + 1] for every pass: a pass reads
    no field, it starts with the symbol tree at the bit where the previous
    pass stopped, and hands the same [S] to the next pass.  [S] is added to
    the length of every copy: a copy symbol [σ] read in the inner loop
    copies [len + S] bytes, where [len] is the length that the
    specification gives for [σ - 0x100] and its additional bits; and the
    whole call does what the engine of the amended claim does
    ([inflateData_as_amended]: the field read once, then the iterations,
    every copy with its length plus [S]). *)
Theorem inflateData_reads_size_field_once
    (dict : HuffmanTree) (s s1 : State) (out : list byte) (size : Z) :
  wfState s → Bits s ≤ 64 → needBits s 8 = Ok s1 →
  ∃ s2 s3,
    dropBits s1 4 = Ok s2 ∧ dropBits s2 4 = Ok s3 ∧
    Bits s3 = Bits s1 - 8 ∧ InputPosition s3 = InputPosition s1 ∧
    readBits s2 4 = (Head s1 / 2 ^ 24) mod 16 ∧
    inflateData dict s out size
      = inflateBlocks (Z.to_nat size) dict (readBits s2 4 + 1) s3 out 0 size ∧
    (size ≤ 0 → inflateData dict s out size = Ok (s3, out, 0)) ∧
    (∀ (fuel : nat) (st : State) (o : list byte) (p : Z),
      p < size →
      inflateBlocks (S fuel) dict (readBits s2 4 + 1) st o p size
        = ('(st', o', p') ← inflateBlock dict (readBits s2 4 + 1) st o p size;
           inflateBlocks fuel dict (readBits s2 4 + 1) st' o' p' size)) ∧
    (∀ (n : nat) (ts tc : HuffmanTree) (st st1 : State) (o : list byte) (p σ : Z),
      wfState st → p < size →
      readCode ts st = Ok (σ, st1) → 0x100 ≤ σ < 2 ^ 16 →
      inflateCodes (S n) (readBits s2 4 + 1) ts tc st o p size
        = ('(len, st2) ← copyLength_as_specified st1 (σ - 0x100);
           '(dist, st3) ← decodeWriteOffset tc st2;
           '(o', p') ← copyBytes (Z.to_nat (len + (readBits s2 4 + 1))) o p dist size;
           inflateCodes n (readBits s2 4 + 1) ts tc st3 o' p' size)) ∧
    inflateData dict s out size = inflateData_as_amended dict s out size.
Proof.
  intros Hwf H64 Hn.
  pose proof (needBits_Bits s s1 8 Hwf H64 ltac:(lia) Hn) as HB1.
  assert (wfState s1) as Hw1 by (eapply needBits_wf; eassumption).
  destruct (dropBits_Ok s1 4 ltac:(lia) ltac:(lia)) as (s2 & Hd2 & HB2 & HP2 & _).
  assert (Bits s2 = Bits s1 - 4) as HB2' by (rewrite HB2; apply Z.mod_small; lia).
  assert (4 ≤ Bits s2) as Hge by (rewrite HB2'; lia).
  destruct (dropBits_Ok s2 4 ltac:(lia) Hge) as (s3 & Hd3 & HB3 & HP3 & _).
  assert (wfState s2) as Hw2 by (eapply dropBits_wf; eassumption).
  pose proof (readBits_range s2 4 Hw2 ltac:(lia)) as Hrb.
  assert (inflateData dict s out size
          = inflateBlocks (Z.to_nat size) dict (readBits s2 4 + 1) s3 out 0 size) as Heq.
  { unfold inflateData. rewrite Hn. cbn [mbind outcome_bind]. rewrite Hd2.
    cbn [mbind outcome_bind]. rewrite Hd3. cbn [mbind outcome_bind].
    f_equal. apply Z.mod_small. lia. }
  exists s2, s3.
  split; [exact Hd2|]. split; [exact Hd3|].
  split; [rewrite HB3, HB2'; unfold u32; rewrite Z.mod_small; lia|].
  split; [congruence|].
  split; [now apply readBits_after_drop_4|].
  split; [exact Heq|].
  split; [|split; [|split]].
  - intros Hsize. rewrite Heq. replace (Z.to_nat size) with 0%nat by lia.
    cbn [inflateBlocks]. destruct (0 <? size) eqn:Q; [lia | reflexivity].
  - intros fuel st o p Hp. cbn [inflateBlocks].
    destruct (p <? size) eqn:Q; [reflexivity | lia].
  - intros n ts tc st st1 o p σ Hst Hp Hread Hσ. cbn [inflateCodes].
    destruct (p <? size) eqn:Q; [|lia].
    rewrite Hread. cbn [mbind outcome_bind].
    destruct (σ <? 256) eqn:Q1; [lia|].
    assert (u16 (σ - 256) = σ - 256) as -> by (apply Z.mod_small; lia).
    assert (wfState st1) as Hst1 by (eapply readCode_wf; eassumption).
    rewrite (decodeWriteSize_adds (readBits s2 4 + 1) st1 (σ - 256) Hst1 ltac:(lia) ltac:(lia)).
    destruct (copyLength_as_specified st1 (σ - 256)) as [[len st2]| | | |]; reflexivity.
  - apply inflateData_amended, Hwf.
Qed.

Lemma inflateData_reads_size_field_once_witness :
  ∃ s2 s3,
    dropBits (mkState twoPassStream 14 3 0x02004206 32 0 false) 4 = Ok s2 ∧
    dropBits s2 4 = Ok s3 ∧
    Bits s3 = 32 - 8 ∧ InputPosition s3 = 3 ∧
    readBits s2 4 = (0x02004206 / 2 ^ 24) mod 16 ∧
    inflateData huffmanTreeDict (afterPrefix twoPassStream)
                (replicate (Z.to_nat 4100) x00) 4100
      = inflateBlocks (Z.to_nat 4100) huffmanTreeDict (readBits s2 4 + 1) s3
                      (replicate (Z.to_nat 4100) x00) 0 4100 ∧
    (4100 ≤ 0 →
     inflateData huffmanTreeDict (afterPrefix twoPassStream)
                 (replicate (Z.to_nat 4100) x00) 4100
       = Ok (s3, replicate (Z.to_nat 4100) x00, 0)) ∧
    (∀ (fuel : nat) (st : State) (o : list byte) (p : Z),
      p < 4100 →
      inflateBlocks (S fuel) huffmanTreeDict (readBits s2 4 + 1) st o p 4100
        = ('(st', o', p') ← inflateBlock huffmanTreeDict (readBits s2 4 + 1) st o p 4100;
           inflateBlocks fuel huffmanTreeDict (readBits s2 4 + 1) st' o' p' 4100)) ∧
    (∀ (n : nat) (ts tc : HuffmanTree) (st st1 : State) (o : list byte) (p σ : Z),
      wfState st → p < 4100 →
      readCode ts st = Ok (σ, st1) → 0x100 ≤ σ < 2 ^ 16 →
      inflateCodes (S n) (readBits s2 4 + 1) ts tc st o p 4100
        = ('(len, st2) ← copyLength_as_specified st1 (σ - 0x100);
           '(dist, st3) ← decodeWriteOffset tc st2;
           '(o', p') ← copyBytes (Z.to_nat (len + (readBits s2 4 + 1))) o p dist 4100;
           inflateCodes n (readBits s2 4 + 1) ts tc st3 o' p' 4100)) ∧
    inflateData huffmanTreeDict (afterPrefix twoPassStream)
                (replicate (Z.to_nat 4100) x00) 4100
      = inflateData_as_amended huffmanTreeDict (afterPrefix twoPassStream)
                               (replicate (Z.to_nat 4100) x00) 4100.
Proof.
  apply (inflateData_reads_size_field_once huffmanTreeDict (afterPrefix twoPassStream)
           (mkState twoPassStream 14 3 0x02004206 32 0 false)
           (replicate (Z.to_nat 4100) x00) 4100).
  - apply wfStateb_sound. vm_compute. reflexivity.
  - simpl. lia.
  - vm_compute. reflexivity.
Defined.

(** [C3], as stated, fails.  On [twoPassStream] the code decodes 4096
    bytes [A] in a first pass and [B B B B] in a second pass that starts
    with the symbol tree: the copy of the second pass has the length
    [0 + S] with the [S = 3] read before the loop.  A main loop that reads
    the 8-bit field in every pass loses the bit position at the second
    pass and ends in a pull past the end of the input.  With a declared
    size of zero the code still reads the field, and exits when the stream
    ends after the prefix, where the loop that reads it in every pass makes
    no pass and returns. *)
Lemma inflateData_field_not_read_in_every_pass :
  (∃ s', inflateData huffmanTreeDict (afterPrefix twoPassStream)
                     (replicate (Z.to_nat 4100) x00) 4100
           = Ok (s', replicate (Z.to_nat 4096) "A"%byte ++ ["B"; "B"; "B"; "B"]%byte, 4100)) ∧
  inflateData_as_specified huffmanTreeDict (afterPrefix twoPassStream)
                           (replicate (Z.to_nat 4100) x00) 4100
    = Exit EndOfInput ∧
  inflateData huffmanTreeDict (afterPrefix [0; 0]) [] 0 = Exit EndOfInput ∧
  inflateData_as_specified huffmanTreeDict (afterPrefix [0; 0]) [] 0
    = Ok (afterPrefix [0; 0], [], 0).
Proof.
  split; [|split; [|split]].
  - eexists. vm_compute. reflexivity.
  - vm_compute. reflexivity.
  - vm_compute. reflexivity.
  - vm_compute. reflexivity.
Qed.

(** The whole call on [twoPassStream]. *)
Example inflateBuffer_two_passes :
  inflateBuffer 56 (Some (bytesOfWords twoPassStream)) 0 0
    = Ok (replicate (Z.to_nat 4096) "A"%byte ++ ["B"; "B"; "B"; "B"]%byte, 4100).
Proof. vm_compute. reflexivity. Qed.

(** * The bit pump as a cursor into the stream *)

Lemma streamValue_app (l1 l2 : list Z) :
  streamValue (l1 ++ l2) = streamValue l1 * 2 ^ (32 * Z.of_nat (length l2)) + streamValue l2.
Proof.
  induction l1 as [|w l1 IH]; simpl; [lia|].
  rewrite IH, length_app, Nat2Z.inj_add.
  replace (32 * (Z.of_nat (length l1) + Z.of_nat (length l2)))
    with (32 * Z.of_nat (length l1) + 32 * Z.of_nat (length l2)) by lia.
  rewrite Z.pow_add_r by lia. ring.
Qed.

Lemma streamValue_range (ws : list Z) :
  Forall (λ w, 0 ≤ w < 2 ^ 32) ws →
  0 ≤ streamValue ws < 2 ^ (32 * Z.of_nat (length ws)).
Proof.
  induction 1 as [|w ws Hw _ IH]; simpl length; simpl streamValue.
  - simpl. lia.
  - rewrite Nat2Z.inj_succ.
    replace (32 * Z.succ (Z.of_nat (length ws))) with (32 + 32 * Z.of_nat (length ws)) by lia.
    rewrite Z.pow_add_r by lia.
    assert (0 < 2 ^ (32 * Z.of_nat (length ws))) by (apply Z.pow_pos_nonneg; lia).
    nia.
Qed.

(** Two adjacent runs of bits make one run. *)
Lemma streamBits_split (ws : list Z) (c n m : Z) :
  0 ≤ n → 0 ≤ m → c + n + m ≤ 32 * Z.of_nat (length ws) →
  streamBits ws c (n + m) = streamBits ws c n * 2 ^ m + streamBits ws (c + n) m.
Proof.
  intros Hn Hm Hc. unfold streamBits.
  set (T := 32 * Z.of_nat (length ws)).
  set (V := streamValue ws).
  replace (T - c - n) with ((T - c - (n + m)) + m) by lia.
  replace (T - (c + n) - m) with (T - c - (n + m)) by lia.
  set (k := T - c - (n + m)).
  assert (0 ≤ k) by (unfold k; lia).
  rewrite (Z.pow_add_r 2 k m) by lia.
  rewrite <- Z.div_div by (try apply Z.pow_pos_nonneg; try apply Z.pow_nonzero; lia).
  set (X := V / 2 ^ k).
  rewrite (Z.add_comm n m), (Z.pow_add_r 2 m n) by lia.
  rewrite Z.rem_mul_r by (apply Z.pow_nonzero || apply Z.pow_pos_nonneg; lia).
  lia.
Qed.

Lemma streamBits_range (ws : list Z) (c n : Z) :
  0 ≤ n → 0 ≤ streamBits ws c n < 2 ^ n.
Proof.
  intros Hn. unfold streamBits. apply Z.mod_pos_bound. apply Z.pow_pos_nonneg; lia.
Qed.

(** A whole word of the stream. *)
Lemma streamBits_word (ws : list Z) (p : nat) (w : Z) :
  Forall (λ w, 0 ≤ w < 2 ^ 32) ws →
  ws !! p = Some w →
  streamBits ws (32 * Z.of_nat p) 32 = w.
Proof.
  intros Hws Hp.
  destruct (list_elem_of_split_length ws p w Hp) as (l1 & l2 & -> & Hl).
  apply Forall_app in Hws as [H1 H2]. apply Forall_cons in H2 as [Hw H2].
  unfold streamBits.
  rewrite streamValue_app. simpl streamValue.
  rewrite length_app. simpl length. subst p.
  rewrite Nat2Z.inj_add, Nat2Z.inj_succ.
  set (a := Z.of_nat (length l1)). set (b := Z.of_nat (length l2)).
  replace (32 * (a + Z.succ b) - 32 * a - 32) with (32 * b) by lia.
  replace (32 * Z.succ b) with (32 + 32 * b) by lia.
  pose proof (streamValue_range l2 H2) as R2. fold b in R2.
  assert (0 < 2 ^ (32 * b)) as Hpos by (apply Z.pow_pos_nonneg; lia).
  rewrite Z.pow_add_r by lia.
  replace (streamValue l1 * (2 ^ 32 * 2 ^ (32 * b)) + (w * 2 ^ (32 * b) + streamValue l2))
    with (streamValue l2 + (streamValue l1 * 2 ^ 32 + w) * 2 ^ (32 * b)) by ring.
  rewrite Z.div_add by lia.
  rewrite Z.div_small by lia. rewrite Z.add_0_l.
  rewrite Z.add_comm, Z.mod_add by lia.
  apply Z.mod_small. lia.
Qed.

Lemma mod_hi_lo (A B : Z) :
  0 ≤ B < 2 ^ 32 → (A * 2 ^ 32 + B) mod 2 ^ 64 = (A mod 2 ^ 32) * 2 ^ 32 + B.
Proof.
  intros HB.
  pose proof (Z.div_mod A (2 ^ 32) ltac:(lia)) as HA.
  pose proof (Z.mod_pos_bound A (2 ^ 32) ltac:(lia)) as HR.
  symmetry. apply (Z.mod_unique _ _ (A / 2 ^ 32)); [left; lia|].
  change (2 ^ 64) with (2 ^ 32 * 2 ^ 32). nia.
Qed.

(** [dropBits] shifts the window to the left. *)
Lemma dropBits_window (s : State) (n : Z) :
  0 ≤ Head s < 2 ^ 32 → 0 ≤ Buffer s < 2 ^ 32 →
  0 ≤ n ≤ 32 → n ≤ Bits s → Bits s < 2 ^ 32 →
  ∃ s', dropBits s n = Ok s' ∧
        window s' = (window s * 2 ^ n) mod 2 ^ 64 ∧
        Bits s' = Bits s - n ∧
        0 ≤ Head s' < 2 ^ 32 ∧ 0 ≤ Buffer s' < 2 ^ 32 ∧
        InputData s' = InputData s ∧ InputSize s' = InputSize s ∧
        InputPosition s' = InputPosition s ∧ Empty s' = Empty s.
Proof.
  intros HH HB Hn Hle Hb. unfold dropBits.
  destruct (32 <? n) eqn:Q1; [lia|].
  destruct (Bits s <? n) eqn:Q2; [lia|].
  assert (u32 (Bits s - n) = Bits s - n) as Hu by (apply Z.mod_small; lia).
  destruct (n =? 32) eqn:Q3.
  - assert (n = 32) as -> by lia.
    eexists. split; [reflexivity|]. unfold window. cbn [Head Buffer Bits InputData InputSize InputPosition Empty].
    rewrite Hu. repeat split; try lia.
    replace ((Head s * 2 ^ 32 + Buffer s) * 2 ^ 32)
      with (Buffer s * 2 ^ 32 + Head s * 2 ^ 64) by ring.
    rewrite Z.mod_add by lia. rewrite Z.mod_small; lia.
  - eexists. split; [reflexivity|]. unfold window. cbn [Head Buffer Bits InputData InputSize InputPosition Empty].
    rewrite Hu.
    split; [|split; [reflexivity|]; split; [apply u32_range|]; split; [apply u32_range|]; auto].
    set (k := 32 - n). assert (0 < k ≤ 32) by (unfold k; lia).
    rewrite Z.shiftr_div_pow2 by lia.
    assert (0 < 2 ^ k) as Hk by (apply Z.pow_pos_nonneg; lia).
    assert (0 < 2 ^ n) as Hpn by (apply Z.pow_pos_nonneg; lia).
    assert (2 ^ k * 2 ^ n = 2 ^ 32) as Hkn
      by (rewrite <- Z.pow_add_r by lia; f_equal; unfold k; lia).
    pose proof (Z.div_mod (Buffer s) (2 ^ k) ltac:(lia)) as HD.
    pose proof (Z.mod_pos_bound (Buffer s) (2 ^ k) Hk) as HR.
    set (q := Buffer s / 2 ^ k) in *. set (r := Buffer s mod 2 ^ k) in *.
    assert (0 ≤ q < 2 ^ n) as Hq.
    { split; [apply Z.div_pos; lia|]. apply Z.div_lt_upper_bound; lia. }
    rewrite Z.lor_comm, (lor_shiftl_disjoint q (Head s) n) by lia.
    rewrite (Z.shiftl_mul_pow2 (Buffer s)) by lia.
    assert (u32 (Buffer s * 2 ^ n) = r * 2 ^ n) as ->.
    { unfold u32. rewrite HD.
      replace ((2 ^ k * q + r) * 2 ^ n) with (r * 2 ^ n + q * 2 ^ 32) by (rewrite <- Hkn; ring).
      rewrite Z.mod_add by lia. apply Z.mod_small. nia. }
    replace ((Head s * 2 ^ 32 + Buffer s) * 2 ^ n)
      with ((q + 2 ^ n * Head s) * 2 ^ 32 + r * 2 ^ n).
    2:{ transitivity ((Head s * 2 ^ 32 + (2 ^ k * q + r)) * 2 ^ n); [rewrite <- Hkn; ring|]. rewrite <- HD. reflexivity. }
    rewrite mod_hi_lo by nia. reflexivity.
Qed.

(** [readBits] gives the top bits of the window. *)
Lemma readBits_window (s : State) (n : Z) :
  0 ≤ Head s → 0 ≤ Buffer s < 2 ^ 32 → 0 ≤ n ≤ 32 →
  readBits s n = window s / 2 ^ (64 - n).
Proof.
  intros HH HB Hn. unfold readBits, window.
  assert (u8 (32 - n) = 32 - n) as -> by (apply Z.mod_small; lia).
  rewrite Z.shiftr_div_pow2 by lia.
  replace (64 - n) with (32 + (32 - n)) by lia.
  rewrite Z.pow_add_r by lia.
  rewrite <- Z.div_div by lia.
  rewrite Z.add_comm, Z.div_add by lia.
  rewrite (Z.div_small (Buffer s)) by lia. reflexivity.
Qed.

(** A pull puts the fetched word below the bits held. *)
Lemma pullByte_window (s : State) (w : Z) :
  0 ≤ Bits s < 32 → 0 ≤ w < 2 ^ 32 →
  0 ≤ InputPosition s → InputPosition s < InputSize s → InputSize s < BlockSize - 1 →
  InputData s !! Z.to_nat (InputPosition s) = Some w →
  0 ≤ Head s < 2 ^ 32 → 0 ≤ Buffer s < 2 ^ 32 →
  window s mod 2 ^ (64 - Bits s) = 0 →
  ∃ s', pullByte s = Ok s' ∧
        window s' = window s + w * 2 ^ (32 - Bits s) ∧
        Bits s' = Bits s + 32 ∧ InputPosition s' = InputPosition s + 1 ∧
        0 ≤ Head s' < 2 ^ 32 ∧ 0 ≤ Buffer s' < 2 ^ 32 ∧
        InputData s' = InputData s ∧ InputSize s' = InputSize s ∧ Empty s' = Empty s.
Proof.
  intros Hb Hw Hp0 Hp Hsz Hl HH HB Hz.
  assert (nextPosition (InputPosition s) = InputPosition s) as Hnp.
  { unfold BlockSize in Hsz. rewrite nextPosition_spec by lia. unfold BlockSize.
    destruct ((InputPosition s + 1) mod 16384 =? 0) eqn:Q; [|reflexivity].
    apply Z.eqb_eq in Q. rewrite Z.mod_small in Q by lia. lia. }
  unfold BlockSize in Hsz.
  assert (pullByte s = Ok (mkState (InputData s) (InputSize s)
              (u32 (InputPosition s + 1))
              (if Bits s =? 0 then w else Z.lor (Head s) (Z.shiftr w (Bits s)))
              (u32 (Bits s + 32))
              (if Bits s =? 0 then 0 else u32 (Z.shiftl w (32 - Bits s)))
              (Empty s))) as Hpull.
  { apply pullByte_Ok. rewrite Hnp. split; [lia|]. split; [lia|].
    exists w. split; [|reflexivity]. apply load_Ok. split; [lia|exact Hl]. }
  eexists. split; [exact Hpull|].
  unfold window in *. cbn [Head Buffer Bits InputData InputSize InputPosition Empty].
  assert (u32 (Bits s + 32) = Bits s + 32) as -> by (apply Z.mod_small; lia).
  assert (u32 (InputPosition s + 1) = InputPosition s + 1) as -> by (apply Z.mod_small; lia).
  (* the buffer is empty and the head has room *)
  set (b := Bits s) in *.
  assert (0 < 2 ^ (32 - b)) as Hp1 by (apply Z.pow_pos_nonneg; lia).
  assert (2 ^ (64 - b) = 2 ^ 32 * 2 ^ (32 - b)) as Hsplit
    by (rewrite <- Z.pow_add_r by lia; f_equal; lia).
  (* the low [64 - b] bits of the window are zero: the buffer is empty and
     the head is a multiple of [2 ^ (32 - b)] *)
  apply Z.mod_divide in Hz; [|lia]. destruct Hz as [z Hz]. rewrite Hsplit in Hz.
  assert (Buffer s = 0) as HB0.
  { assert (Buffer s mod 2 ^ 32 = 0) as Hm.
    { replace (Buffer s) with ((Head s * 2 ^ 32 + Buffer s) + (- Head s) * 2 ^ 32) by ring.
      rewrite Z.mod_add by lia. rewrite Hz.
      replace (z * (2 ^ 32 * 2 ^ (32 - b))) with ((z * 2 ^ (32 - b)) * 2 ^ 32) by ring.
      apply Z.mod_mul. lia. }
    rewrite Z.mod_small in Hm; lia. }
  rewrite HB0 in *. rewrite Z.add_0_r in *.
  assert (Head s = z * 2 ^ (32 - b)) as HHz by nia.
  assert (2 ^ b * 2 ^ (32 - b) = 2 ^ 32) as Hbb
    by (rewrite <- Z.pow_add_r by lia; f_equal; lia).
  assert (0 < 2 ^ b) as Hpb by (apply Z.pow_pos_nonneg; lia).
  destruct (b =? 0) eqn:Q.
  - assert (b = 0) as Hb0 by lia. rewrite Hb0 in *.
    change (2 ^ (32 - 0)) with (2 ^ 32) in *.
    assert (z = 0) by nia. subst z.
    repeat split; try lia.
  - pose proof (Z.div_mod w (2 ^ b) ltac:(lia)) as HD.
    pose proof (Z.mod_pos_bound w (2 ^ b) Hpb) as HR.
    rewrite Z.shiftr_div_pow2, Z.shiftl_mul_pow2 by lia.
    set (q := w / 2 ^ b) in *. set (r := w mod 2 ^ b) in *.
    assert (0 ≤ q < 2 ^ (32 - b)) as Hq.
    { split; [apply Z.div_pos; lia|]. apply Z.div_lt_upper_bound; lia. }
    assert (Z.lor (Head s) q = q + 2 ^ (32 - b) * z) as Hlor.
    { rewrite HHz, Z.lor_comm, <- (lor_shiftl_disjoint q z (32 - b)) by lia.
      rewrite Z.shiftl_mul_pow2 by lia. reflexivity. }
    assert (u32 (w * 2 ^ (32 - b)) = r * 2 ^ (32 - b)) as Hbuf.
    { unfold u32.
      transitivity ((r * 2 ^ (32 - b) + q * 2 ^ 32) mod 2 ^ 32).
      - f_equal. rewrite HD at 1. rewrite <- Hbb. ring.
      - rewrite Z.mod_add by lia. apply Z.mod_small. nia. }
    rewrite Hlor, Hbuf.
    split.
    { rewrite HHz. transitivity (z * 2 ^ (32 - b) * 2 ^ 32 + (2 ^ b * q + r) * 2 ^ (32 - b)); [rewrite <- Hbb; ring|]. rewrite <- HD. reflexivity. }
    split; [reflexivity|]. split; [reflexivity|].
    assert (0 ≤ z < 2 ^ b) as Hz' by nia.
    assert (2 ^ (32 - b) * z ≤ 2 ^ 32 - 2 ^ (32 - b)) by nia.
    split; [lia|]. split; [nia|]. auto.
Qed.

Lemma pumpAt_initialState (ws : list Z) :
  Z.of_nat (length ws) < BlockSize - 1 →
  Forall (λ w, 0 ≤ w < 2 ^ 32) ws →
  pumpAt ws 0 (initialState ws).
Proof.
  intros Hl Hws. unfold pumpAt, initialState, window. cbn.
  unfold BlockSize in Hl.
  assert (u32 (Z.of_nat (length ws)) = Z.of_nat (length ws)) as ->
    by (apply Z.mod_small; lia).
  unfold streamBits. rewrite Z.mod_1_r. unfold BlockSize.
  repeat split; try lia; auto.
Qed.

Lemma pumpAt_readBits (ws : list Z) (c : Z) (s : State) (n : Z) :
  pumpAt ws c s → 0 ≤ n ≤ 32 → n ≤ Bits s →
  readBits s n = streamBits ws c n.
Proof.
  intros (Hd & Hs & Hl & Hws & Hc & Hb & Hcur & Hp & HH & HB & Hw) Hn Hle.
  rewrite readBits_window by lia. rewrite Hw.
  set (b := Bits s) in *.
  replace b with (n + (b - n)) at 1 by lia.
  rewrite streamBits_split by lia.
  pose proof (streamBits_range ws (c + n) (b - n) ltac:(lia)) as Hlo.
  set (hi := streamBits ws c n). set (lo := streamBits ws (c + n) (b - n)) in *.
  replace (64 - n) with ((64 - b) + (b - n)) by lia.
  rewrite Z.pow_add_r by lia.
  assert (0 < 2 ^ (64 - b)) by (apply Z.pow_pos_nonneg; lia).
  assert (0 < 2 ^ (b - n)) by (apply Z.pow_pos_nonneg; lia).
  rewrite Z.mul_comm, Z.div_mul_cancel_l by lia.
  rewrite Z.add_comm, Z.div_add by lia.
  rewrite Z.div_small by lia. reflexivity.
Qed.

Lemma pumpAt_dropBits (ws : list Z) (c : Z) (s : State) (n : Z) :
  pumpAt ws c s → 0 ≤ n ≤ 32 → n ≤ Bits s →
  ∃ s', dropBits s n = Ok s' ∧ pumpAt ws (c + n) s'.
Proof.
  intros (Hd & Hs & Hl & Hws & Hc & Hb & Hcur & Hp & HH & HB & Hw) Hn Hle.
  destruct (dropBits_window s n HH HB Hn Hle ltac:(lia))
    as (s' & Hdrop & Hw' & Hb' & HH' & HB' & Hd' & Hs' & Hp' & _).
  exists s'. split; [exact Hdrop|].
  unfold pumpAt. rewrite Hd', Hs', Hp', Hb'.
  repeat (split; [first [assumption | lia]|]).
  rewrite Hw', Hw.
  set (b := Bits s) in *.
  replace b with (n + (b - n)) at 1 by lia.
  rewrite streamBits_split by lia.
  pose proof (streamBits_range ws (c + n) (b - n) ltac:(lia)) as Hlo.
  set (hi := streamBits ws c n). set (lo := streamBits ws (c + n) (b - n)) in *.
  assert (2 ^ (b - n) * 2 ^ (64 - (b - n)) = 2 ^ 64) as E1
    by (rewrite <- Z.pow_add_r by lia; f_equal; lia).
  assert (2 ^ (64 - b) * 2 ^ n = 2 ^ (64 - (b - n))) as E2
    by (rewrite <- Z.pow_add_r by lia; f_equal; lia).
  assert (0 < 2 ^ (64 - (b - n))) by (apply Z.pow_pos_nonneg; lia).
  assert (0 < 2 ^ (b - n)) by (apply Z.pow_pos_nonneg; lia).
  replace ((hi * 2 ^ (b - n) + lo) * 2 ^ (64 - b) * 2 ^ n)
    with (lo * 2 ^ (64 - (b - n)) + hi * 2 ^ 64) by (rewrite <- E1, <- E2; ring).
  rewrite Z.mod_add by lia. apply Z.mod_small. nia.
Qed.

Lemma pumpAt_needBits (ws : list Z) (c : Z) (s : State) (n : Z) :
  pumpAt ws c s → 0 ≤ n ≤ 32 →
  (c + n ≤ 32 * Z.of_nat (length ws) →
   ∃ s1, needBits s n = Ok s1 ∧ pumpAt ws c s1 ∧ n ≤ Bits s1) ∧
  (32 * Z.of_nat (length ws) < c + n → needBits s n = Exit EndOfInput).
Proof.
  intros HP Hn.
  pose proof HP as (Hd & Hs & Hl & Hws & Hc & Hb & Hcur & Hp & HH & HB & Hw).
  unfold needBits. destruct (32 <? n) eqn:Q1; [lia|].
  destruct (Bits s <? n) eqn:Q2.
  - assert (Bits s < n) as Hlt by lia.
    split.
    + intros Hfit.
      assert (InputPosition s < Z.of_nat (length ws)) as Hpos by lia.
      assert (0 ≤ InputPosition s) as Hp0 by lia.
      destruct (lookup_lt_is_Some_2 ws (Z.to_nat (InputPosition s)) ltac:(lia)) as [w Hlw].
      assert (0 ≤ w < 2 ^ 32) as Hwr.
      { rewrite Forall_lookup in Hws. exact (Hws _ _ Hlw). }
      destruct (pullByte_window s w ltac:(lia) Hwr Hp0 ltac:(lia) ltac:(lia)
                  ltac:(rewrite Hd; exact Hlw) HH HB) as
        (s' & Hpull & Hw' & Hb' & Hp' & HH' & HB' & Hd' & Hs' & _).
      { rewrite Hw. apply Z.mod_mul. apply Z.pow_nonzero; lia. }
      exists s'. split; [exact Hpull|]. split; [|lia].
      unfold pumpAt. rewrite Hd', Hs', Hp', Hb'.
      repeat (split; [first [assumption | lia]|]).
      rewrite Hw', Hw.
      set (b := Bits s) in *.
      rewrite (streamBits_split ws c b 32) by lia.
      replace (c + b) with (32 * Z.of_nat (Z.to_nat (InputPosition s))) by lia.
      rewrite (streamBits_word ws _ w Hws Hlw).
      replace (64 - b) with (32 + (32 - b)) by lia.
      replace (64 - (b + 32)) with (32 - b) by lia.
      rewrite Z.pow_add_r by lia. ring.
    + intros Hover.
      assert (InputPosition s = Z.of_nat (length ws)) as Hend by lia.
      unfold pullByte. destruct (32 <=? Bits s) eqn:Q3; [lia|].
      unfold BlockSize in Hl.
      rewrite nextPosition_spec by lia. unfold BlockSize.
      destruct ((InputPosition s + 1) mod 16384 =? 0) eqn:Q4.
      * apply Z.eqb_eq in Q4. rewrite Z.mod_small in Q4 by lia. lia.
      * destruct (InputSize s <=? InputPosition s) eqn:Q5; [reflexivity|lia].
  - split; [|lia]. intros _. exists s. split; [reflexivity|]. split; [exact HP|lia].
Qed.

(** [X1].  The bit pump reads the stream as one string of bits, the top bit
    of the first word first.  For a pump that stands at the bit [c] of a
    stream shorter than a block (as the pump of [inflateBuffer] does at bit
    0 before its first pull), the sequence [needBits(n)], [readBits(n)],
    [dropBits(n)] with [n <= 32] returns the [n] bits from [c] on and
    leaves the pump at the bit [c + n]; it ends the process with
    [Reached end of input] exactly when fewer than [n] bits are left. *)
Theorem pump_delivers_stream_bits (ws : list Z) (c : Z) (s : State) (n : Z) :
  pumpAt ws c s → 0 ≤ n ≤ 32 →
  (c + n ≤ 32 * Z.of_nat (length ws) →
   ∃ s1 s2, needBits s n = Ok s1 ∧ readBits s1 n = streamBits ws c n ∧
            dropBits s1 n = Ok s2 ∧ pumpAt ws (c + n) s2) ∧
  (32 * Z.of_nat (length ws) < c + n → needBits s n = Exit EndOfInput).
Proof.
  intros HP Hn. destruct (pumpAt_needBits ws c s n HP Hn) as [Hfit Hover].
  split; [|exact Hover].
  intros Hc. destruct (Hfit Hc) as (s1 & Hneed & HP1 & Hb1).
  destruct (pumpAt_dropBits ws c s1 n HP1 Hn Hb1) as (s2 & Hdrop & HP2).
  exists s1, s2. split; [exact Hneed|].
  split; [apply (pumpAt_readBits ws c); assumption|]. split; assumption.
Qed.

Lemma pump_delivers_stream_bits_witness :
  pumpAt [0x12345678; 0x9ABCDEF0] 0 (initialState [0x12345678; 0x9ABCDEF0]) ∧
  0 ≤ 12 ≤ 32 ∧
  ((0 + 12 ≤ 32 * Z.of_nat (length [0x12345678; 0x9ABCDEF0]) →
    ∃ s1 s2, needBits (initialState [0x12345678; 0x9ABCDEF0]) 12 = Ok s1 ∧
             readBits s1 12 = streamBits [0x12345678; 0x9ABCDEF0] 0 12 ∧
             dropBits s1 12 = Ok s2 ∧ pumpAt [0x12345678; 0x9ABCDEF0] (0 + 12) s2) ∧
   (32 * Z.of_nat (length [0x12345678; 0x9ABCDEF0]) < 0 + 12 →
    needBits (initialState [0x12345678; 0x9ABCDEF0]) 12 = Exit EndOfInput)).
Proof.
  assert (pumpAt [0x12345678; 0x9ABCDEF0] 0 (initialState [0x12345678; 0x9ABCDEF0])) as HP.
  { apply pumpAt_initialState; [unfold BlockSize; simpl; lia|].
    repeat constructor; lia. }
  split; [exact HP|]. split; [lia|].
  exact (pump_delivers_stream_bits _ 0 _ 12 HP ltac:(lia)).
Defined.

Example streamBits_sample :
  streamBits [0x12345678; 0x9ABCDEF0] 0 12 = 0x123 ∧
  streamBits [0x12345678; 0x9ABCDEF0] 12 8 = 0x45 ∧
  streamBits [0x12345678; 0x9ABCDEF0] 28 8 = 0x89.
Proof. repeat split; reflexivity. Qed.

(** [X2].  [readCode] asks for a window of 32 bits whatever the length of
    the code that follows: on a non-empty tree, when fewer than 32 bits of
    the stream are left at the bit [c] where the pump stands, the process
    ends with [Reached end of input], also when the bits left hold a
    complete code. *)
Theorem readCode_needs_32_bits_of_input
    (t : HuffmanTree) (ws : list Z) (c : Z) (s : State) (c0 : Z) :
  pumpAt ws c s → CompressedCodes t !! 0%nat = Some c0 → c0 ≠ 0 →
  32 * Z.of_nat (length ws) < c + 32 →
  readCode t s = Exit EndOfInput.
Proof.
  intros HP Hc0 Hne Hover. unfold readCode.
  assert (load (CompressedCodes t) 0 = Ok c0) as -> by (apply load_Ok; split; [lia|exact Hc0]).
  cbn [mbind outcome_bind]. destruct (c0 =? 0) eqn:Q; [lia|].
  destruct (pumpAt_needBits ws c s 32 HP ltac:(lia)) as [_ Hex].
  rewrite (Hex Hover). reflexivity.
Qed.

Lemma readCode_needs_32_bits_of_input_witness :
  pumpAt [0xFFFFFFFF] 8 (mkState [0xFFFFFFFF] 1 1 0xFFFFFF00 24 0 false) ∧
  CompressedCodes huffmanTreeDict !! 0%nat = Some 0xA0000000 ∧ 0xA0000000 ≠ 0 ∧
  32 * Z.of_nat (length [0xFFFFFFFF]) < 8 + 32 ∧
  readCode huffmanTreeDict (mkState [0xFFFFFFFF] 1 1 0xFFFFFF00 24 0 false)
    = Exit EndOfInput.
Proof.
  assert (pumpAt [0xFFFFFFFF] 8 (mkState [0xFFFFFFFF] 1 1 0xFFFFFF00 24 0 false)) as HP.
  { unfold pumpAt, window, BlockSize. cbn.
    repeat (split; [first [reflexivity | lia | (repeat constructor; lia)]|]).
    reflexivity. }
  split; [exact HP|]. split; [reflexivity|]. split; [lia|]. split; [simpl; lia|].
  exact (readCode_needs_32_bits_of_input huffmanTreeDict _ 8 _ 0xA0000000 HP
           eq_refl ltac:(lia) ltac:(simpl; lia)).
Defined.

Lemma state_of_window (s s' : State) :
  0 ≤ Head s < 2 ^ 32 → 0 ≤ Buffer s < 2 ^ 32 →
  0 ≤ Head s' < 2 ^ 32 → 0 ≤ Buffer s' < 2 ^ 32 →
  window s = window s' → Bits s = Bits s' →
  InputData s = InputData s' → InputSize s = InputSize s' →
  InputPosition s = InputPosition s' → Empty s = Empty s' → s = s'.
Proof.
  destruct s as [d z p h b f e], s' as [d' z' p' h' b' f' e']. unfold window.
  cbn [Head Buffer Bits InputData InputSize InputPosition Empty].
  intros Hh Hf Hh' Hf' Hw -> -> -> -> ->.
  assert (h = h') by lia. assert (f = f') by lia. subst. reflexivity.
Qed.

(** [X3].  Dropping [a] bits and then [b] bits is dropping [a + b] bits when
    [a + b <= 32], with the same outcome in every case: the same pump, or
    the end of the process with [Tried to drop more bits than we have]. *)
Theorem dropBits_compose (s : State) (a b : Z) :
  0 ≤ Head s < 2 ^ 32 → 0 ≤ Buffer s < 2 ^ 32 → 0 ≤ Bits s < 2 ^ 32 →
  0 ≤ a → 0 ≤ b → a + b ≤ 32 →
  (s1 ← dropBits s a; dropBits s1 b) = dropBits s (a + b).
Proof.
  intros HH HB Hbits Ha Hb Hab.
  destruct (Z.lt_ge_cases (Bits s) a) as [Hlt|Hge].
  - unfold dropBits at 2 3.
    destruct (32 <? a) eqn:Q1; [lia|]. destruct (32 <? a + b) eqn:Q2; [lia|].
    destruct (Bits s <? a) eqn:Q3; [|lia]. destruct (Bits s <? a + b) eqn:Q4; [|lia].
    reflexivity.
  - destruct (dropBits_window s a HH HB ltac:(lia) Hge ltac:(lia))
      as (s1 & H1 & W1 & B1 & HH1 & HB1 & D1 & S1 & P1 & E1).
    rewrite H1. cbn [mbind outcome_bind].
    destruct (Z.lt_ge_cases (Bits s) (a + b)) as [Hlt|Hge2].
    + unfold dropBits.
      destruct (32 <? b) eqn:Q1; [lia|]. destruct (32 <? a + b) eqn:Q2; [lia|].
      destruct (Bits s1 <? b) eqn:Q3; [|lia]. destruct (Bits s <? a + b) eqn:Q4; [|lia].
      reflexivity.
    + destruct (dropBits_window s1 b HH1 HB1 ltac:(lia) ltac:(lia) ltac:(lia))
        as (s2 & H2 & W2 & B2 & HH2 & HB2 & D2 & S2 & P2 & E2).
      destruct (dropBits_window s (a + b) HH HB ltac:(lia) Hge2 ltac:(lia))
        as (s3 & H3 & W3 & B3 & HH3 & HB3 & D3 & S3 & P3 & E3).
      rewrite H2, H3. f_equal.
      apply state_of_window; try assumption; try congruence; try lia.
      rewrite W2, W3, W1.
      rewrite Z.mul_mod_idemp_l by lia.
      rewrite Z.pow_add_r by lia. f_equal. ring.
Qed.

Lemma dropBits_compose_witness :
  0 ≤ Head onesState < 2 ^ 32 ∧ 0 ≤ Buffer onesState < 2 ^ 32 ∧
  0 ≤ Bits onesState < 2 ^ 32 ∧ 0 ≤ 4 ∧ 0 ≤ 4 ∧ 4 + 4 ≤ 32 ∧
  (s1 ← dropBits onesState 4; dropBits s1 4) = dropBits onesState (4 + 4).
Proof.
  repeat (split; [simpl; lia|]).
  apply (dropBits_compose onesState 4 4); simpl; lia.
Defined.

(** * Copies and the order of writing *)

Lemma copyBytes_periodic (d size p0 : Z) (n : nat) :
  ∀ (out : list byte) (pos : Z),
  1 ≤ d ≤ p0 → p0 ≤ pos ≤ size → size ≤ Z.of_nat (length out) →
  Z.of_nat (length out) < 2 ^ 32 →
  (∀ j, p0 ≤ j < pos →
        out !! Z.to_nat j = out !! Z.to_nat (p0 - d + (j - p0) mod d)) →
  let m := Z.min (Z.of_nat n) (size - pos) in
  ∃ out', copyBytes n out pos d size = Ok (out', pos + m) ∧
          length out' = length out ∧
          (∀ i, 0 ≤ i → i < pos ∨ pos + m ≤ i → out' !! Z.to_nat i = out !! Z.to_nat i) ∧
          (∀ j, p0 ≤ j < pos + m →
                out' !! Z.to_nat j = out' !! Z.to_nat (p0 - d + (j - p0) mod d)).
Proof.
  induction n as [|n IH]; intros out pos Hd Hpos Hsize Hlen Hinv m.
  - exists out. subst m. rewrite Z.min_l by lia. rewrite Z.add_0_r.
    simpl. repeat split; auto.
  - simpl copyBytes. destruct (pos <? size) eqn:Q.
    + assert (pos < size) as Hlt by lia.
      assert (u32 (pos - d) = pos - d) as Hsrc by (apply Z.mod_small; lia).
      assert (u32 (pos + 1) = pos + 1) as Hnext by (apply Z.mod_small; lia).
      rewrite Hsrc, Hnext.
      destruct (lookup_lt_is_Some_2 out (Z.to_nat (pos - d)) ltac:(lia)) as [b Hb].
      assert (load out (pos - d) = Ok b) as -> by (apply load_Ok; split; [lia|exact Hb]).
      cbn [mbind outcome_bind].
      assert (store out pos b = Ok (<[Z.to_nat pos := b]> out)) as ->
        by (apply store_Ok; split; [lia|reflexivity]).
      cbn [mbind outcome_bind].
      set (out1 := <[Z.to_nat pos := b]> out).
      assert (length out1 = length out) as Hl1 by apply length_insert.
      assert (∀ i, 0 ≤ i → i ≠ pos → out1 !! Z.to_nat i = out !! Z.to_nat i) as Hother.
      { intros i Hi Hne. unfold out1. apply list_lookup_insert_ne. lia. }
      assert (out1 !! Z.to_nat pos = Some b) as Hat.
      { unfold out1. apply list_lookup_insert_eq. lia. }
      assert (b_periodic : out !! Z.to_nat (pos - d)
                           = out !! Z.to_nat (p0 - d + (pos - p0) mod d)).
      { destruct (Z.lt_ge_cases (pos - d) p0) as [Hlo|Hhi].
        - rewrite Z.mod_small by lia. f_equal. lia.
        - rewrite (Hinv (pos - d)) by lia. do 2 f_equal.
          replace (pos - d - p0) with ((pos - p0) + (-1) * d) by lia.
          rewrite Z.mod_add by lia. reflexivity. }
      destruct (IH out1 (pos + 1) Hd ltac:(lia) ltac:(lia) ltac:(lia))
        as (out' & Hrun & Hl' & Hout & Hper).
      { intros j Hj.
        assert (0 ≤ (j - p0) mod d < d) as Hm by (apply Z.mod_pos_bound; lia).
        rewrite (Hother (p0 - d + (j - p0) mod d)) by lia.
        destruct (Z.eq_dec j pos) as [->|Hne].
        - rewrite Hat, <- b_periodic. symmetry. exact Hb.
        - rewrite Hother by lia. apply Hinv. lia. }
      exists out'.
      assert (m = 1 + Z.min (Z.of_nat n) (size - (pos + 1))) as Hm by (subst m; lia).
      rewrite Hm. rewrite Z.add_assoc. split; [exact Hrun|].
      split; [lia|]. split.
      * intros i Hi Hrange. rewrite Hout by lia. apply Hother; lia.
      * intros j Hj. apply Hper. lia.
    + assert (pos = size) by lia. exists out. subst m. rewrite Z.min_r by lia.
      replace (size - pos) with 0 by lia. rewrite Z.add_0_r.
      repeat split; auto.
Qed.

(** [X4].  A copy of [n] bytes from the distance [d] at the output position
    [pos], with [1 <= d <= pos]: it writes [m = min(n, size - pos)] bytes
    (the copy is cut at the end of the output), leaves every other byte as
    it was, and the byte [k] of the run is the byte [k mod d] of the [d]
    bytes before [pos]; a distance shorter than the length repeats these
    [d] bytes. *)
Theorem copyBytes_repeats_the_last_bytes
    (n : nat) (out : list byte) (pos d size : Z) :
  1 ≤ d ≤ pos → pos ≤ size → size ≤ Z.of_nat (length out) →
  Z.of_nat (length out) < 2 ^ 32 →
  let m := Z.min (Z.of_nat n) (size - pos) in
  ∃ out', copyBytes n out pos d size = Ok (out', pos + m) ∧
          length out' = length out ∧
          (∀ i, 0 ≤ i → i < pos ∨ pos + m ≤ i → out' !! Z.to_nat i = out !! Z.to_nat i) ∧
          (∀ k, 0 ≤ k < m →
                out' !! Z.to_nat (pos + k) = out !! Z.to_nat (pos - d + k mod d)).
Proof.
  intros Hd Hpos Hsize Hlen m.
  destruct (copyBytes_periodic d size pos n out pos Hd ltac:(lia) Hsize Hlen)
    as (out' & Hrun & Hl & Hout & Hper).
  { intros j Hj. lia. }
  exists out'. fold m in Hrun, Hout, Hper.
  split; [exact Hrun|]. split; [exact Hl|]. split; [exact Hout|].
  intros k Hk.
  assert (0 ≤ k mod d < d) by (apply Z.mod_pos_bound; lia).
  rewrite (Hper (pos + k)) by lia.
  replace (pos + k - pos) with k by lia.
  apply Hout; lia.
Qed.

Lemma copyBytes_repeats_the_last_bytes_witness :
  1 ≤ 2 ≤ 2 ∧ 2 ≤ 7 ∧ 7 ≤ Z.of_nat (length ["a"; "b"; x00; x00; x00; x00; x00; x00]%byte) ∧
  Z.of_nat (length ["a"; "b"; x00; x00; x00; x00; x00; x00]%byte) < 2 ^ 32 ∧
  ∃ out', copyBytes 9 ["a"; "b"; x00; x00; x00; x00; x00; x00]%byte 2 2 7
            = Ok (out', 2 + Z.min (Z.of_nat 9) (7 - 2)) ∧
          length out' = length ["a"; "b"; x00; x00; x00; x00; x00; x00]%byte ∧
          (∀ i, 0 ≤ i → i < 2 ∨ 2 + Z.min (Z.of_nat 9) (7 - 2) ≤ i →
                out' !! Z.to_nat i = ["a"; "b"; x00; x00; x00; x00; x00; x00]%byte !! Z.to_nat i) ∧
          (∀ k, 0 ≤ k < Z.min (Z.of_nat 9) (7 - 2) →
                out' !! Z.to_nat (2 + k)
                = ["a"; "b"; x00; x00; x00; x00; x00; x00]%byte !! Z.to_nat (2 - 2 + k mod 2)).
Proof.
  split; [lia|]. split; [lia|]. split; [simpl; lia|]. split; [simpl; lia|].
  apply (copyBytes_repeats_the_last_bytes 9 ["a"; "b"; x00; x00; x00; x00; x00; x00]%byte 2 2 7);
    simpl; lia.
Defined.

Example copyBytes_sample :
  copyBytes 9 ["a"; "b"; x00; x00; x00; x00; x00; x00]%byte 2 2 7
    = Ok (["a"; "b"; "a"; "b"; "a"; "b"; "a"; x00]%byte, 7).
Proof. reflexivity. Qed.

Lemma sameOutside_refl (pos : Z) (out : list byte) : sameOutside pos pos out out.
Proof. split; reflexivity. Qed.

Lemma sameOutside_trans (p1 p2 p3 : Z) (o1 o2 o3 : list byte) :
  0 ≤ p1 ≤ p2 → p2 ≤ p3 →
  sameOutside p1 p2 o1 o2 → sameOutside p2 p3 o2 o3 → sameOutside p1 p3 o1 o3.
Proof.
  intros H12 H23 [Ha Hb] [Hc Hd]. split.
  - rewrite <- Ha.
    replace (Z.to_nat p1) with (Z.to_nat p1 `min` Z.to_nat p2)%nat by lia.
    rewrite <- !take_take. rewrite Hc. reflexivity.
  - rewrite Hd.
    replace (Z.to_nat p3) with (Z.to_nat p2 + (Z.to_nat p3 - Z.to_nat p2))%nat by lia.
    rewrite <- !drop_drop. rewrite Hb. reflexivity.
Qed.

Lemma sameOutside_store (pos : Z) (out out' : list byte) (b : byte) :
  0 ≤ pos → store out pos b = Ok out' → sameOutside pos (pos + 1) out out'.
Proof.
  intros Hp H. apply store_Ok in H as [Hr ->]. split.
  - apply take_insert_ge. lia.
  - apply drop_insert_lt. lia.
Qed.

Lemma copyBytes_sameOutside (n : nat) (out out' : list byte) (pos pos' d size : Z) :
  0 ≤ pos ≤ size → size < 2 ^ 32 →
  copyBytes n out pos d size = Ok (out', pos') → sameOutside pos pos' out out'.
Proof.
  revert out pos. induction n as [|n IH]; intros out pos Hpos Hsize H; cbn [copyBytes] in H.
  - injection H as <- <-. apply sameOutside_refl.
  - destruct (pos <? size) eqn:Q.
    2:{ injection H as <- <-. apply sameOutside_refl. }
    binds.
    assert (u32 (pos + 1) = pos + 1) as Hu by (apply Z.mod_small; lia).
    rewrite Hu in H.
    assert (0 ≤ pos + 1 ≤ size) as Hp1 by lia.
    pose proof (copyBytes_inv _ _ _ _ _ _ _ Hp1 Hsize H) as (Hp' & _).
    apply IH in H; [|lia|lia].
    match goal with
    | Hs : store _ _ _ = Ok _ |- _ => apply sameOutside_store in Hs; [|lia]
    end.
    eapply sameOutside_trans; [| |eassumption|eassumption]; lia.
Qed.

Lemma inflateCodes_sameOutside (n : nat) (add : Z) (ts tc : HuffmanTree) (s s' : State)
    (out out' : list byte) (pos pos' size : Z) :
  0 ≤ pos ≤ size → size < 2 ^ 32 →
  inflateCodes n add ts tc s out pos size = Ok (s', out', pos') →
  sameOutside pos pos' out out'.
Proof.
  revert s out pos. induction n as [|n IH]; intros s out pos Hpos Hsize H;
    cbn [inflateCodes] in H.
  - injection H as _ <- <-. apply sameOutside_refl.
  - destruct (pos <? size) eqn:Q.
    2:{ injection H as _ <- <-. apply sameOutside_refl. }
    binds. destruct (z <? 256).
    + binds. assert (u32 (pos + 1) = pos + 1) as Hu by (apply Z.mod_small; lia).
      rewrite Hu in H.
      assert (0 ≤ pos + 1 ≤ size) as Hp1 by lia.
      pose proof (inflateCodes_pos _ _ _ _ _ _ _ _ _ _ _ Hp1 Hsize H) as (Hp' & _).
      apply IH in H; [|lia|lia].
      match goal with
      | Hs : store _ _ _ = Ok _ |- _ => apply sameOutside_store in Hs; [|lia]
      end.
      eapply sameOutside_trans; [| |eassumption|eassumption]; lia.
    + binds.
      match goal with
      | Hc : copyBytes _ _ _ _ _ = Ok _ |- _ =>
          pose proof (copyBytes_inv _ _ _ _ _ _ _ Hpos Hsize Hc) as (H1 & _ & _);
          apply copyBytes_sameOutside in Hc; [|lia|lia]
      end.
      match type of H with
      | inflateCodes _ _ _ _ _ _ ?p _ = _ =>
          assert (0 ≤ p ≤ size) as Hp1 by lia
      end.
      pose proof (inflateCodes_pos _ _ _ _ _ _ _ _ _ _ _ Hp1 Hsize H) as (Hp' & _).
      apply IH in H; [|lia|lia].
      eapply sameOutside_trans; [| |eassumption|eassumption]; lia.
Qed.

Lemma inflateBlock_sameOutside (dict : HuffmanTree) (add : Z) (s s' : State)
    (out out' : list byte) (pos pos' size : Z) :
  0 ≤ pos ≤ size → size < 2 ^ 32 →
  inflateBlock dict add s out pos size = Ok (s', out', pos') →
  sameOutside pos pos' out out'.
Proof.
  intros Hpos Hsize H. unfold inflateBlock in H. binds.
  eapply inflateCodes_sameOutside; eassumption.
Qed.

Lemma inflateBlocks_sameOutside (fuel : nat) (dict : HuffmanTree) (add : Z) (s s' : State)
    (out out' : list byte) (pos pos' size : Z) :
  0 ≤ pos ≤ size → size < 2 ^ 32 →
  inflateBlocks fuel dict add s out pos size = Ok (s', out', pos') →
  sameOutside pos pos' out out'.
Proof.
  revert s out pos. induction fuel as [|fuel IH]; intros s out pos Hpos Hsize H;
    cbn [inflateBlocks] in H.
  - destruct (pos <? size); [discriminate H|]. injection H as _ <- <-. apply sameOutside_refl.
  - destruct (pos <? size) eqn:Q.
    2:{ injection H as _ <- <-. apply sameOutside_refl. }
    binds.
    match goal with
    | Hb : inflateBlock _ _ _ _ _ _ = Ok _ |- _ =>
        pose proof (inflateBlock_pos _ _ _ _ _ _ _ _ _ Hpos Hsize Hb) as (H1 & _);
        apply inflateBlock_sameOutside in Hb; [|lia|lia]
    end.
    match type of H with
    | inflateBlocks _ _ _ _ _ ?p _ = _ =>
        assert (0 ≤ p ≤ size) as Hp1 by lia
    end.
    pose proof (inflateBlocks_pos _ _ _ _ _ _ _ _ _ _ Hp1 Hsize H) as (Hp' & _).
    apply IH in H; [|lia|lia].
    eapply sameOutside_trans; [| |eassumption|eassumption]; lia.
Qed.

(** * The output size *)

Lemma take_take_le {A} (l : list A) (n m : nat) : (n ≤ m)%nat → take n (take m l) = take n l.
Proof. intros H. rewrite take_take. f_equal. lia. Qed.

Lemma take_agree_le {A} (l k : list A) (n m : nat) :
  (n ≤ m)%nat → take m l = take m k → take n l = take n k.
Proof.
  intros H E. rewrite <- (take_take_le l n m H), <- (take_take_le k n m H). now rewrite E.
Qed.

Lemma take_agree_lookup {A} (l k : list A) (n i : nat) :
  (i < n)%nat → take n l = take n k → l !! i = k !! i.
Proof.
  intros H E. rewrite <- (lookup_take_lt l n i H), <- (lookup_take_lt k n i H). now rewrite E.
Qed.

Lemma take_agree_insert {A} (l k : list A) (n : nat) (x : A) :
  (n < length l)%nat → (n < length k)%nat → take n l = take n k →
  take (S n) (<[n := x]> l) = take (S n) (<[n := x]> k).
Proof.
  intros Hl Hk E.
  rewrite (take_S_r (<[n := x]> l) n x) by (apply list_lookup_insert_eq; exact Hl).
  rewrite (take_S_r (<[n := x]> k) n x) by (apply list_lookup_insert_eq; exact Hk).
  rewrite !take_insert_ge by lia. now rewrite E.
Qed.

Section Smaller.

(** Two output buffers, of [a] and of [b] bytes. *)
Variables a b : Z.
Hypothesis a_le_b : 0 ≤ a ≤ b.
Hypothesis b_small : b ≤ 2 ^ 32 - 2 ^ 16.

Lemma copyBytes_smaller (d : Z) (n : nat) :
  ∀ (outA outB outB' : list byte) (pos posB' : Z),
  0 ≤ pos ≤ a → 1 ≤ d ≤ 2 ^ 16 →
  Z.of_nat (length outA) = a → Z.of_nat (length outB) = b →
  take (Z.to_nat pos) outA = take (Z.to_nat pos) outB →
  copyBytes n outB pos d b = Ok (outB', posB') →
  ∃ outA', copyBytes n outA pos d a = Ok (outA', Z.min posB' a) ∧
           length outA' = length outA ∧
           take (Z.to_nat (Z.min posB' a)) outA' = take (Z.to_nat (Z.min posB' a)) outB'.
Proof.
  induction n as [|n IH]; intros outA outB outB' pos posB' Hpos Hd HlA HlB Hag H.
  - cbn [copyBytes] in *. injection H as <- <-. exists outA.
    rewrite Z.min_l by lia. auto.
  - cbn [copyBytes]. destruct (pos <? a) eqn:Qa.
    + cbn [copyBytes] in H. destruct (pos <? b) eqn:Qb; [|lia].
      binds.
      match goal with Hl : load outB _ = Ok _ |- _ => rename Hl into Hload end.
      match goal with Hs : store outB _ _ = Ok _ |- _ => rename Hs into Hstore end.
      assert (d ≤ pos) as Hdp.
      { destruct (Z.le_gt_cases d pos) as [|Hgt]; [assumption|].
        rewrite load_Panic in Hload; [discriminate Hload|]. right.
        unfold u32. replace (pos - d) with (2 ^ 32 + pos - d + (-1) * 2 ^ 32) by lia.
        rewrite Z.mod_add by lia. rewrite Z.mod_small; lia. }
      assert (u32 (pos - d) = pos - d) as Hsrc by (apply Z.mod_small; lia).
      assert (u32 (pos + 1) = pos + 1) as Hnext by (apply Z.mod_small; lia).
      rewrite Hsrc in *. rewrite Hnext in *.
      apply load_Ok in Hload as [_ Hload].
      apply store_Ok in Hstore as [_ ->].
      assert (load outA (pos - d) = Ok v) as ->.
      { apply load_Ok. split; [lia|].
        rewrite (take_agree_lookup outA outB (Z.to_nat pos)) by (assumption || lia).
        exact Hload. }
      cbn [mbind outcome_bind].
      assert (store outA pos v = Ok (<[Z.to_nat pos := v]> outA)) as ->
        by (apply store_Ok; split; [lia|reflexivity]).
      cbn [mbind outcome_bind].
      destruct (IH (<[Z.to_nat pos := v]> outA) (<[Z.to_nat pos := v]> outB) outB'
                   (pos + 1) posB') as (outA' & Hrun & Hl & Hag'); try lia.
      * rewrite length_insert. exact HlA.
      * rewrite length_insert. exact HlB.
      * replace (Z.to_nat (pos + 1)) with (S (Z.to_nat pos)) by lia.
        apply take_agree_insert; lia || assumption.
      * exact H.
      * exists outA'. rewrite length_insert in Hl. auto.
    + assert (pos = a) as Hpa by lia. rewrite Hpa in *.
      assert (0 ≤ a ≤ b) as Hab by lia. assert (b < 2 ^ 32) as Hb32 by lia.
      pose proof (copyBytes_inv _ _ _ _ _ _ _ Hab Hb32 H) as (Hp & _ & _).
      apply copyBytes_sameOutside in H as [Htake _]; [|lia|lia].
      exists outA. rewrite Z.min_r by lia. split; [reflexivity|]. split; [reflexivity|].
      rewrite Htake. exact Hag.
Qed.

Variable add : Z.
Hypothesis add_range : 1 ≤ add ≤ 16.

Lemma inflateCodes_smaller (ts tc : HuffmanTree) (n : nat) :
  ∀ (s sB' : State) (outA outB outB' : list byte) (pB posB' : Z),
  wfState s → 0 ≤ pB ≤ b →
  Z.of_nat (length outA) = a → Z.of_nat (length outB) = b →
  take (Z.to_nat (Z.min pB a)) outA = take (Z.to_nat (Z.min pB a)) outB →
  inflateCodes n add ts tc s outB pB b = Ok (sB', outB', posB') →
  ∃ sA' outA',
    inflateCodes n add ts tc s outA (Z.min pB a) a = Ok (sA', outA', Z.min posB' a) ∧
    length outA' = length outA ∧
    take (Z.to_nat (Z.min posB' a)) outA' = take (Z.to_nat (Z.min posB' a)) outB' ∧
    (posB' < a → sA' = sB').
Proof.
  induction n as [|n IH]; intros s sB' outA outB outB' pB posB' Hwf Hp HlA HlB Hag H.
  - cbn [inflateCodes] in *. injection H as <- <- <-. exists s, outA. auto.
  - destruct (Z.lt_ge_cases pB a) as [Hlt|Hge].
    + rewrite Z.min_l in * by lia.
      cbn [inflateCodes] in *.
      destruct (pB <? a) eqn:Qa; [|lia]. destruct (pB <? b) eqn:Qb; [|lia].
      destruct (readCode ts s) as [[z s0]| | | |] eqn:Hread; try discriminate H.
      cbn [mbind outcome_bind] in *.
      assert (wfState s0) as Hwf0 by (eapply readCode_wf; eassumption).
      assert (u32 (pB + 1) = pB + 1) as Hnext by (apply Z.mod_small; lia).
      destruct (z <? 256).
      * destruct (store outB pB (byte_of_Z z)) as [outB1| | | |] eqn:HsB; try discriminate H.
        cbn [mbind outcome_bind] in *.
        apply store_Ok in HsB as [_ ->].
        assert (store outA pB (byte_of_Z z) = Ok (<[Z.to_nat pB := byte_of_Z z]> outA)) as ->
          by (apply store_Ok; split; [lia|reflexivity]).
        cbn [mbind outcome_bind]. rewrite Hnext in *.
        destruct (IH s0 sB' (<[Z.to_nat pB := byte_of_Z z]> outA)
                     (<[Z.to_nat pB := byte_of_Z z]> outB) outB' (pB + 1) posB')
          as (sA' & outA' & Hrun & Hl & Hag' & Hst); try assumption; try lia.
        -- rewrite length_insert. exact HlA.
        -- rewrite length_insert. exact HlB.
        -- rewrite Z.min_l by lia.
           replace (Z.to_nat (pB + 1)) with (S (Z.to_nat pB)) by lia.
           apply take_agree_insert; lia || assumption.
        -- rewrite Z.min_l in Hrun by lia. rewrite length_insert in Hl.
           exists sA', outA'. auto.
      * destruct (decodeWriteSize add s0 (u16 (z - 256))) as [[len s2]| | | |] eqn:Hsz;
          try discriminate H.
        cbn [mbind outcome_bind] in *.
        assert (wfState s2) as Hwf2 by (eapply decodeWriteSize_wf; eassumption).
        destruct (decodeWriteOffset tc s2) as [[dist s3]| | | |] eqn:Hoff; try discriminate H.
        cbn [mbind outcome_bind] in *.
        assert (wfState s3) as Hwf3 by (eapply decodeWriteOffset_wf; eassumption).
        pose proof (decodeWriteOffset_range _ _ _ _ Hwf2 Hoff) as Hdist.
        destruct (copyBytes (Z.to_nat len) outB pB dist b) as [[outB1 pB1]| | | |] eqn:Hcp;
          try discriminate H.
        cbn [mbind outcome_bind] in *.
        assert (0 ≤ pB ≤ b) as Hab by lia. assert (b < 2 ^ 32) as Hb32 by lia.
        pose proof (copyBytes_inv _ _ _ _ _ _ _ Hab Hb32 Hcp) as (HpB1 & HlB1 & _).
        destruct (copyBytes_smaller dist (Z.to_nat len) outA outB outB1 pB pB1)
          as (outA1 & HcpA & HlA1 & Hag1); try assumption; try lia.
        rewrite HcpA. cbn [mbind outcome_bind].
        destruct (IH s3 sB' outA1 outB1 outB' pB1 posB')
          as (sA' & outA' & Hrun & Hl & Hag' & Hst); try assumption; try lia.
        exists sA', outA'. rewrite Hl, HlA1. auto.
    + rewrite Z.min_r in * by lia.
      assert (b < 2 ^ 32) as Hb32 by lia.
      pose proof (inflateCodes_pos _ _ _ _ _ _ _ _ _ _ _ Hp Hb32 H) as (Hp' & _).
      apply inflateCodes_sameOutside in H as [Htake _]; [|lia|lia].
      exists s, outA. rewrite Z.min_r by lia.
      split.
      { cbn [inflateCodes]. destruct (a <? a) eqn:Q; [lia|reflexivity]. }
      split; [reflexivity|]. split; [|lia].
      rewrite Hag. symmetry. eapply take_agree_le; [|exact Htake]. lia.
Qed.

Variable dict : HuffmanTree.

Lemma inflateBlock_smaller (s sB' : State) (outA outB outB' : list byte) (pos posB' : Z) :
  wfState s → 0 ≤ pos ≤ a →
  Z.of_nat (length outA) = a → Z.of_nat (length outB) = b →
  take (Z.to_nat pos) outA = take (Z.to_nat pos) outB →
  inflateBlock dict add s outB pos b = Ok (sB', outB', posB') →
  ∃ sA' outA',
    inflateBlock dict add s outA pos a = Ok (sA', outA', Z.min posB' a) ∧
    length outA' = length outA ∧
    take (Z.to_nat (Z.min posB' a)) outA' = take (Z.to_nat (Z.min posB' a)) outB' ∧
    (posB' < a → sA' = sB').
Proof.
  intros Hwf Hp HlA HlB Hag H. unfold inflateBlock in *.
  destruct (parseHuffmanTree dict s emptyTree) as [[s1 t1]| | | |] eqn:Q1; try discriminate H.
  cbn [mbind outcome_bind] in *.
  assert (wfState s1) as W1 by (eapply parseHuffmanTree_wf; eassumption).
  destruct (parseHuffmanTree dict s1 emptyTree) as [[s2 t2]| | | |] eqn:Q2; try discriminate H.
  cbn [mbind outcome_bind] in *.
  assert (wfState s2) as W2 by (eapply parseHuffmanTree_wf; eassumption).
  destruct (needBits s2 4) as [s3| | | |] eqn:Q3; try discriminate H.
  cbn [mbind outcome_bind] in *.
  assert (wfState s3) as W3 by (eapply needBits_wf; eassumption).
  destruct (dropBits s3 4) as [s4| | | |] eqn:Q4; try discriminate H.
  cbn [mbind outcome_bind] in *.
  assert (wfState s4) as W4 by (eapply dropBits_wf; eassumption).
  assert (0 ≤ pos ≤ b) as Hpb by lia.
  destruct (inflateCodes_smaller t1 t2 (Z.to_nat (u32 (Z.shiftl (u32 (readBits s3 4 + 1)) 12)))
              s4 sB' outA outB outB' pos posB' W4
              Hpb HlA HlB) as (sA' & outA' & Hrun & Hrest); [| exact H |].
  - rewrite Z.min_l by lia. exact Hag.
  - rewrite Z.min_l in Hrun by lia. exists sA', outA'. auto.
Qed.

Lemma inflateBlocks_smaller (fuelB : nat) :
  ∀ (fuelA : nat) (s sB' : State) (outA outB outB' : list byte) (pos posB' : Z),
  wfState s → 0 ≤ pos ≤ a → (Z.to_nat (a - pos) ≤ fuelA)%nat →
  Z.of_nat (length outA) = a → Z.of_nat (length outB) = b →
  take (Z.to_nat pos) outA = take (Z.to_nat pos) outB →
  inflateBlocks fuelB dict add s outB pos b = Ok (sB', outB', posB') →
  ∃ sA' outA',
    inflateBlocks fuelA dict add s outA pos a = Ok (sA', outA', a) ∧
    length outA' = length outA ∧
    take (Z.to_nat a) outA' = take (Z.to_nat a) outB'.
Proof.
  induction fuelB as [|fuelB IH];
    intros fuelA s sB' outA outB outB' pos posB' Hwf Hp Hfuel HlA HlB Hag H.
  - cbn [inflateBlocks] in H. destruct (pos <? b) eqn:Qb; [discriminate H|].
    injection H as <- <- <-. assert (pos = a) as -> by lia.
    exists s, outA. split; [|auto].
    destruct fuelA; cbn [inflateBlocks]; destruct (a <? a) eqn:Q; try lia; reflexivity.
  - destruct (Z.lt_ge_cases pos a) as [Hlt|Hge].
    + cbn [inflateBlocks] in H. destruct (pos <? b) eqn:Qb; [|lia].
      destruct (inflateBlock dict add s outB pos b) as [[[s1 outB1] pB1]| | | |] eqn:Hblk;
        try discriminate H.
      cbn [mbind outcome_bind] in H.
      assert (0 ≤ pos < b) as Hpb by lia. assert (b < 2 ^ 32) as Hb32 by lia.
      pose proof (inflateBlock_progress _ _ _ _ _ _ _ _ _ Hwf add_range Hpb Hb32 Hblk) as Hprog.
      assert (0 ≤ pos ≤ b) as Hpb' by lia.
      pose proof (inflateBlock_pos _ _ _ _ _ _ _ _ _ Hpb' Hb32 Hblk) as (HpB1 & HlB1).
      assert (wfState s1) as Hwf1 by (eapply inflateBlock_wf; eassumption).
      destruct (inflateBlock_smaller s s1 outA outB outB1 pos pB1)
        as (sA1 & outA1 & HblkA & HlA1 & Hag1 & Hst); try assumption; try lia.
      destruct fuelA as [|fuelA]; [lia|].
      cbn [inflateBlocks]. destruct (pos <? a) eqn:Qa; [|lia].
      rewrite HblkA. cbn [mbind outcome_bind].
      destruct (Z.lt_ge_cases pB1 a) as [Hlt1|Hge1].
      * rewrite Z.min_l in * by lia. rewrite (Hst Hlt1).
        destruct (IH fuelA s1 sB' outA1 outB1 outB' pB1 posB')
          as (sA' & outA' & Hrun & Hl & Hag'); try assumption; try lia.
        exists sA', outA'. rewrite Hl, HlA1. auto.
      * rewrite Z.min_r in * by lia.
        assert (0 ≤ pB1 ≤ b) as Hp1 by lia.
        apply inflateBlocks_sameOutside in H as [Htake _]; [|lia|lia].
        exists sA1, outA1. split.
        { destruct fuelA; cbn [inflateBlocks]; destruct (a <? a) eqn:Q; try lia; reflexivity. }
        split; [exact HlA1|].
        rewrite Hag1. symmetry. eapply take_agree_le; [|exact Htake]. lia.
    + assert (pos = a) as Hpa by lia. rewrite Hpa in *.
      assert (0 ≤ a ≤ b) as Hab by lia.
      apply inflateBlocks_sameOutside in H as [Htake _]; [|lia|lia].
      exists s, outA. split.
      { destruct fuelA; cbn [inflateBlocks]; destruct (a <? a) eqn:Q; try lia; reflexivity. }
      split; [reflexivity|]. rewrite Htake. exact Hag.
Qed.

End Smaller.

Lemma inflateData_smaller (dict : HuffmanTree) (a b : Z) (s sB' : State)
    (outB' : list byte) (posB' : Z) :
  0 ≤ a ≤ b → b ≤ 2 ^ 32 - 2 ^ 16 → wfState s →
  inflateData dict s (replicate (Z.to_nat b) x00) b = Ok (sB', outB', posB') →
  ∃ sA', inflateData dict s (replicate (Z.to_nat a) x00) a
           = Ok (sA', take (Z.to_nat a) outB', a).
Proof.
  intros a_le_b b_small Hwf H. unfold inflateData in *.
  destruct (needBits s 8) as [s1| | | |] eqn:H1; try discriminate H.
  cbn [mbind outcome_bind] in *.
  assert (wfState s1) as Hwf1 by (eapply needBits_wf; eassumption).
  destruct (dropBits s1 4) as [s2| | | |] eqn:H2; try discriminate H.
  cbn [mbind outcome_bind] in *.
  assert (wfState s2) as Hwf2 by (eapply dropBits_wf; eassumption).
  destruct (dropBits s2 4) as [s3| | | |] eqn:H3; try discriminate H.
  cbn [mbind outcome_bind] in *.
  assert (wfState s3) as Hwf3 by (eapply dropBits_wf; eassumption).
  assert (Z.of_nat (length (replicate (Z.to_nat a) x00)) = a) as HlA
    by (rewrite length_replicate; lia).
  assert (Z.of_nat (length (replicate (Z.to_nat b) x00)) = b) as HlB
    by (rewrite length_replicate; lia).
  assert (0 ≤ 0 ≤ a) as Hp0 by lia.
  assert ((Z.to_nat (a - 0) ≤ Z.to_nat a)%nat) as Hfuel by lia.
  assert (1 ≤ u32 (readBits s2 4 + 1) ≤ 16) as Hadd.
  { pose proof (readBits_range s2 4 Hwf2 ltac:(lia)) as Hr.
    unfold u32. rewrite Z.mod_small; lia. }
  destruct (inflateBlocks_smaller a b a_le_b b_small _ Hadd dict (Z.to_nat b) (Z.to_nat a) s3 sB'
              (replicate (Z.to_nat a) x00) (replicate (Z.to_nat b) x00) outB' 0 posB'
              Hwf3 Hp0 Hfuel HlA HlB eq_refl H)
    as (sA' & outA' & Hrun & Hl & Hag).
  exists sA'. rewrite Hrun. do 2 f_equal. f_equal.
  rewrite <- Hag. symmetry. apply take_ge. rewrite Hl. lia.
Qed.

(** The declared length of a stream and the pump after the two words of the
    prefix, as [inflateBuffer] reads them. *)
Lemma inflateWords_sizes (ws : list Z) (cap custom : Z) (out : list byte) (rep : Z) :
  Forall (λ w, 0 ≤ w < 2 ^ 32) ws →
  inflateWords huffmanTreeDict ws cap custom = Ok (out, rep) →
  ∃ U s4 s' pos,
    wfState s4 ∧ 0 ≤ U < 2 ^ 32 ∧
    rep = (if negb (cap =? 0) && (cap <? U) then cap else U) ∧
    (∀ cap' custom',
       inflateWords huffmanTreeDict ws cap' custom'
       = (let U' := if negb (cap' =? 0) && (cap' <? U) then cap' else U in
          let size := if 0 <? custom' then custom' else U' in
          '(_, out', _) ← inflateData huffmanTreeDict s4
                            (replicate (Z.to_nat size) x00) size;
          Ok (out', U'))) ∧
    inflateData huffmanTreeDict s4
      (replicate (Z.to_nat (if 0 <? custom then custom else rep)) x00)
      (if 0 <? custom then custom else rep) = Ok (s', out, pos).
Proof.
  intros Hws H. unfold inflateWords in H. fold (initialState ws) in H.
  pose proof (initialState_wf ws Hws) as Hw0.
  destruct (needBits (initialState ws) 32) as [s1| | | |] eqn:Q1; try discriminate H.
  cbn [mbind outcome_bind] in H.
  destruct (dropBits s1 32) as [s2| | | |] eqn:Q2; try discriminate H.
  cbn [mbind outcome_bind] in H.
  destruct (needBits s2 32) as [s3| | | |] eqn:Q3; try discriminate H.
  cbn [mbind outcome_bind] in H. cbv zeta in H.
  destruct (dropBits s3 32) as [s4| | | |] eqn:Q4; try discriminate H.
  cbn [mbind outcome_bind] in H.
  assert (wfState s3) as Hw3.
  { eapply needBits_wf; [|exact Q3]. eapply dropBits_wf; [|exact Q2].
    eapply needBits_wf; eassumption. }
  assert (wfState s4) as Hw4 by (eapply dropBits_wf; eassumption).
  rewrite readBits_32 in H.
  match type of H with
  | (?m ≫= _) = _ => destruct m as [[[s' out'] pos]| | | |] eqn:QD; try discriminate H
  end.
  cbn [mbind outcome_bind] in H. injection H as <- <-.
  exists (Head s3), s4, s', pos.
  split; [exact Hw4|]. split; [apply Hw3|]. split; [reflexivity|]. split.
  - intros cap' custom'. unfold inflateWords. fold (initialState ws).
    rewrite Q1. cbn [mbind outcome_bind]. rewrite Q2. cbn [mbind outcome_bind].
    rewrite Q3. cbn [mbind outcome_bind]. cbv zeta. rewrite Q4. cbn [mbind outcome_bind].
    rewrite readBits_32. reflexivity.
  - exact QD.
Qed.

(** [X6].  A smaller output size gives a prefix of the output.  When
    [inflateBuffer] succeeds with the custom size [b] (at most
    [2^32 - 2^16]), it succeeds with every custom size [a] between 1 and
    [b], and returns the first [a] bytes of the same output and the same
    reported size; likewise, without a custom size, a cap [a] below the cap
    [b] returns the first [a] bytes of what the cap [b] returns. *)
Theorem inflateBuffer_smaller_size_gives_prefix
    (sz : Z) (input : list byte) (cap a b : Z) (outB : list byte) (rep : Z) :
  0 < a ≤ b → b ≤ 2 ^ 32 - 2 ^ 16 →
  (inflateBuffer sz (Some input) cap b = Ok (outB, rep) →
   inflateBuffer sz (Some input) cap a = Ok (take (Z.to_nat a) outB, rep)) ∧
  (inflateBuffer sz (Some input) b 0 = Ok (outB, rep) →
   inflateBuffer sz (Some input) a 0 = Ok (take (Z.to_nat a) outB, Z.min rep a)).
Proof.
  intros Hab Hb.
  destruct (Z.eq_dec (Z.of_nat (length input) mod 4) 0) as [Hmod|Hmod].
  2:{ split; intros H; rewrite (inflateBuffer_partial_word _ _ _ _ Hmod) in H;
        discriminate H. }
  destruct (convertU8ToU32_Ok input Hmod) as (ws & Hconv & _ & _ & Hws).
  split; intros H.
  - rewrite (inflateBuffer_words sz input ws cap b Hconv) in H.
    rewrite (inflateBuffer_words sz input ws cap a Hconv).
    destruct (inflateWords_sizes ws cap b outB rep Hws H)
      as (U & s4 & s' & pos & Hw4 & HU & Hrep & Hany & Hrun).
    destruct (0 <? b) eqn:Qb; [|lia].
    destruct (inflateData_smaller huffmanTreeDict a b s4 s' outB pos ltac:(lia) Hb Hw4 Hrun)
      as (sA' & HrunA).
    rewrite (Hany cap a). cbv zeta. destruct (0 <? a) eqn:Qa; [|lia].
    rewrite HrunA. cbn [mbind outcome_bind]. rewrite Hrep. reflexivity.
  - rewrite (inflateBuffer_words sz input ws b 0 Hconv) in H.
    rewrite (inflateBuffer_words sz input ws a 0 Hconv).
    destruct (inflateWords_sizes ws b 0 outB rep Hws H)
      as (U & s4 & s' & pos & Hw4 & HU & Hrep & Hany & Hrun).
    change (0 <? 0) with false in Hrun. cbv iota in Hrun.
    assert (rep = Z.min U b) as HrepB.
    { rewrite Hrep. destruct (b =? 0) eqn:Q1; [lia|]. destruct (b <? U) eqn:Q2; simpl; lia. }
    assert (0 ≤ rep) as Hrep0 by lia.
    assert (0 ≤ rep < 2 ^ 32) as Hrep32 by lia.
    pose proof (inflateData_pos _ _ _ _ _ _ _ Hrep32 Hrun) as (_ & HlB).
    rewrite length_replicate in HlB.
    destruct (inflateData_smaller huffmanTreeDict (Z.min rep a) rep s4 s' outB pos
                ltac:(lia) ltac:(lia) Hw4 Hrun) as (sA' & HrunA).
    rewrite (Hany a 0). cbv zeta. change (0 <? 0) with false. cbv iota.
    assert ((if negb (a =? 0) && (a <? U) then a else U) = Z.min rep a) as ->.
    { destruct (a =? 0) eqn:Q1; [lia|]. destruct (a <? U) eqn:Q2; simpl; lia. }
    rewrite HrunA. cbn [mbind outcome_bind]. do 2 f_equal.
    destruct (Z.le_gt_cases a rep).
    + rewrite Z.min_r by lia. reflexivity.
    + rewrite Z.min_l by lia. rewrite !take_ge by lia. reflexivity.
Qed.

Lemma inflateBuffer_smaller_size_gives_prefix_witness :
  0 < 2 ≤ 3 ∧ 3 ≤ 2 ^ 32 - 2 ^ 16 ∧
  (inflateBuffer 28 (Some (bytesOfWords literalStream)) 0 3
     = Ok (["A"; "A"; "A"]%byte, 3) →
   inflateBuffer 28 (Some (bytesOfWords literalStream)) 0 2
     = Ok (take (Z.to_nat 2) ["A"; "A"; "A"]%byte, 3)) ∧
  (inflateBuffer 28 (Some (bytesOfWords literalStream)) 3 0
     = Ok (["A"; "A"; "A"]%byte, 3) →
   inflateBuffer 28 (Some (bytesOfWords literalStream)) 2 0
     = Ok (take (Z.to_nat 2) ["A"; "A"; "A"]%byte, Z.min 3 2)).
Proof.
  split; [lia|]. split; [lia|].
  apply (inflateBuffer_smaller_size_gives_prefix 28 (bytesOfWords literalStream) 0 2 3
           ["A"; "A"; "A"]%byte 3); lia.
Defined.

Example inflateBuffer_prefix_sample :
  inflateBuffer 28 (Some (bytesOfWords literalStream)) 0 3 = Ok (["A"; "A"; "A"]%byte, 3) ∧
  inflateBuffer 28 (Some (bytesOfWords literalStream)) 0 2 = Ok (["A"; "A"]%byte, 3) ∧
  inflateBuffer 28 (Some (bytesOfWords literalStream)) 3 0 = Ok (["A"; "A"; "A"]%byte, 3) ∧
  inflateBuffer 28 (Some (bytesOfWords literalStream)) 2 0 = Ok (["A"; "A"]%byte, 2).
Proof. repeat split; vm_compute; reflexivity. Qed.

(** * Words after the stream *)

Section Tail.

Variable tail : list Z.

Lemma pullByte_withTail (s s' : State) :
  sized s → pullByte s = Ok s' →
  sized s' ∧ pullByte (withTail tail s) = Ok (withTail tail s').
Proof.
  intros Hs H. apply pullByte_Ok in H as (Hb & Hp & w & Hw & ->).
  split; [exact Hs|].
  apply pullByte_Ok. cbn [withTail Bits InputPosition InputSize InputData Head Buffer Empty].
  split; [exact Hb|]. split; [lia|]. exists w. split; [|reflexivity].
  apply load_Ok in Hw as [Hp0 Hw]. apply load_Ok. split; [exact Hp0|].
  apply lookup_app_l_Some. exact Hw.
Qed.

Lemma needBits_withTail (s s' : State) (n : Z) :
  sized s → needBits s n = Ok s' →
  sized s' ∧ needBits (withTail tail s) n = Ok (withTail tail s').
Proof.
  intros Hs H. unfold needBits in *. cbn [withTail Bits].
  destruct (32 <? n); [discriminate H|]. destruct (Bits s <? n).
  - apply pullByte_withTail; assumption.
  - injection H as <-. auto.
Qed.

Lemma dropBits_withTail (s s' : State) (n : Z) :
  sized s → dropBits s n = Ok s' →
  sized s' ∧ dropBits (withTail tail s) n = Ok (withTail tail s').
Proof.
  intros Hs H. unfold dropBits in *. cbn [withTail Bits Head Buffer].
  destruct (32 <? n); [discriminate H|]. destruct (Bits s <? n); [discriminate H|].
  destruct (n =? 32); injection H as <-; split; first [exact Hs | reflexivity].
Qed.

Lemma readBits_withTail (s : State) (n : Z) : readBits (withTail tail s) n = readBits s n.
Proof. reflexivity. Qed.

Lemma readCode_withTail (t : HuffmanTree) (s s' : State) (c : Z) :
  sized s → readCode t s = Ok (c, s') →
  sized s' ∧ readCode t (withTail tail s) = Ok (c, withTail tail s').
Proof.
  intros Hs H. unfold readCode in *.
  destruct (load (CompressedCodes t) 0) as [c0| | | |]; try discriminate H.
  cbn [mbind outcome_bind] in *. destruct (c0 =? 0); [discriminate H|].
  destruct (needBits s 32) as [s1| | | |] eqn:Q1; try discriminate H.
  destruct (needBits_withTail _ _ _ Hs Q1) as [Hs1 ->].
  cbn [mbind outcome_bind] in *. rewrite readBits_withTail.
  destruct (scanCodes (CompressedCodes t) (readBits s1 32) 0) as [i| | | |];
    try discriminate H.
  cbn [mbind outcome_bind] in *.
  destruct (load (BitsLength t) i) as [L| | | |]; try discriminate H.
  cbn [mbind outcome_bind] in *.
  destruct (load (SymbolValueOffset t) i) as [off| | | |]; try discriminate H.
  cbn [mbind outcome_bind] in *.
  destruct (load (CompressedCodes t) i) as [mc| | | |]; try discriminate H.
  cbn [mbind outcome_bind] in *.
  match type of H with
  | (?m ≫= _) = _ => destruct m as [sym| | | |]; try discriminate H
  end.
  cbn [mbind outcome_bind] in *.
  destruct (dropBits s1 L) as [s2| | | |] eqn:Q2; try discriminate H.
  destruct (dropBits_withTail _ _ _ Hs1 Q2) as [Hs2 ->].
  cbn [mbind outcome_bind] in *. injection H as <- <-. auto.
Qed.

Lemma parseLoop_withTail (dict : HuffmanTree) (fuel : nat) :
  ∀ (s s' : State) (r : Z) (bt ct bt' ct' : list Z),
  sized s → parseLoop fuel dict s r bt ct = Ok (s', bt', ct') →
  sized s' ∧ parseLoop fuel dict (withTail tail s) r bt ct = Ok (withTail tail s', bt', ct').
Proof.
  induction fuel as [|fuel IH]; intros s s' r bt ct bt' ct' Hs H; cbn [parseLoop] in *.
  - destruct (r <? 0); [|discriminate H]. injection H as <- <- <-. auto.
  - destruct (r <? 0); [injection H as <- <- <-; auto|].
    destruct (readCode dict s) as [[c s1]| | | |] eqn:Q1; try discriminate H.
    destruct (readCode_withTail _ _ _ _ Hs Q1) as [Hs1 ->].
    cbn [mbind outcome_bind] in *.
    destruct (Z.land c 31 =? 0).
    + apply IH; assumption.
    + destruct (registerSymbols _ _ _ _ _) as [[[r1 bt1] ct1]| | | |]; try discriminate H.
      cbn [mbind outcome_bind] in *. apply IH; assumption.
Qed.

Lemma parseHuffmanTree_withTail (dict t t' : HuffmanTree) (s s' : State) :
  sized s → parseHuffmanTree dict s t = Ok (s', t') →
  sized s' ∧ parseHuffmanTree dict (withTail tail s) t = Ok (withTail tail s', t').
Proof.
  intros Hs H. unfold parseHuffmanTree in *.
  destruct (needBits s 16) as [s1| | | |] eqn:Q1; try discriminate H.
  destruct (needBits_withTail _ _ _ Hs Q1) as [Hs1 ->].
  cbn [mbind outcome_bind] in *. rewrite readBits_withTail.
  destruct (dropBits s1 16) as [s2| | | |] eqn:Q2; try discriminate H.
  destruct (dropBits_withTail _ _ _ Hs1 Q2) as [Hs2 ->].
  cbn [mbind outcome_bind] in *. cbv zeta in *.
  destruct (parseLoop _ dict s2 _ _ _) as [[[s3 bt] ct]| | | |] eqn:Q3; try discriminate H.
  destruct (parseLoop_withTail _ _ _ _ _ _ _ _ _ Hs2 Q3) as [Hs3 ->].
  cbn [mbind outcome_bind] in *.
  destruct (createHuffmanTree t bt ct) as [t1| | | |]; try discriminate H.
  cbn [mbind outcome_bind] in *. injection H as <- <-. auto.
Qed.

Lemma decodeWriteSize_withTail (add : Z) (s s' : State) (v len : Z) :
  sized s → decodeWriteSize add s v = Ok (len, s') →
  sized s' ∧ decodeWriteSize add (withTail tail s) v = Ok (len, withTail tail s').
Proof.
  intros Hs H. unfold decodeWriteSize in *. cbv zeta in *.
  match type of H with
  | (?m ≫= _) = _ => destruct m as [w| | | |]; try discriminate H
  end.
  cbn [mbind outcome_bind] in *.
  destruct ((1 <? v / 4) && negb (v =? 28)).
  - destruct (needBits s (u8 (v / 4 - 1))) as [s1| | | |] eqn:Q1; try discriminate H.
    destruct (needBits_withTail _ _ _ Hs Q1) as [Hs1 ->].
    cbn [mbind outcome_bind] in *. rewrite readBits_withTail.
    destruct (dropBits s1 (u8 (v / 4 - 1))) as [s2| | | |] eqn:Q2; try discriminate H.
    destruct (dropBits_withTail _ _ _ Hs1 Q2) as [Hs2 ->].
    cbn [mbind outcome_bind] in *. injection H as <- <-. auto.
  - cbn [mbind outcome_bind] in *. injection H as <- <-. auto.
Qed.

Lemma decodeWriteOffset_withTail (t : HuffmanTree) (s s' : State) (dist : Z) :
  sized s → decodeWriteOffset t s = Ok (dist, s') →
  sized s' ∧ decodeWriteOffset t (withTail tail s) = Ok (dist, withTail tail s').
Proof.
  intros Hs H. unfold decodeWriteOffset in *.
  destruct (readCode t s) as [[c s0]| | | |] eqn:Q0; try discriminate H.
  destruct (readCode_withTail _ _ _ _ Hs Q0) as [Hs0 ->].
  cbn [mbind outcome_bind] in *. cbv zeta in *.
  destruct (baseWriteOffset c) as [w| | | |]; try discriminate H.
  cbn [mbind outcome_bind] in *.
  destruct (1 <? c / 2).
  - destruct (needBits s0 (u8 (c / 2 - 1))) as [s1| | | |] eqn:Q1; try discriminate H.
    destruct (needBits_withTail _ _ _ Hs0 Q1) as [Hs1 ->].
    cbn [mbind outcome_bind] in *. rewrite readBits_withTail.
    destruct (dropBits s1 (u8 (c / 2 - 1))) as [s2| | | |] eqn:Q2; try discriminate H.
    destruct (dropBits_withTail _ _ _ Hs1 Q2) as [Hs2 ->].
    cbn [mbind outcome_bind] in *. injection H as <- <-. auto.
  - cbn [mbind outcome_bind] in *. injection H as <- <-. auto.
Qed.

Lemma inflateCodes_withTail (add : Z) (ts tc : HuffmanTree) (size : Z) (n : nat) :
  ∀ (s s' : State) (out out' : list byte) (pos pos' : Z),
  sized s → inflateCodes n add ts tc s out pos size = Ok (s', out', pos') →
  sized s' ∧
  inflateCodes n add ts tc (withTail tail s) out pos size = Ok (withTail tail s', out', pos').
Proof.
  induction n as [|n IH]; intros s s' out out' pos pos' Hs H; cbn [inflateCodes] in *.
  - injection H as <- <- <-. auto.
  - destruct (pos <? size); [|injection H as <- <- <-; auto].
    destruct (readCode ts s) as [[c s1]| | | |] eqn:Q1; try discriminate H.
    destruct (readCode_withTail _ _ _ _ Hs Q1) as [Hs1 ->].
    cbn [mbind outcome_bind] in *.
    destruct (c <? 256).
    + destruct (store out pos (byte_of_Z c)) as [out1| | | |]; try discriminate H.
      cbn [mbind outcome_bind] in *. apply IH; assumption.
    + destruct (decodeWriteSize add s1 (u16 (c - 256))) as [[len s2]| | | |] eqn:Q2;
        try discriminate H.
      destruct (decodeWriteSize_withTail _ _ _ _ _ Hs1 Q2) as [Hs2 ->].
      cbn [mbind outcome_bind] in *.
      destruct (decodeWriteOffset tc s2) as [[dist s3]| | | |] eqn:Q3; try discriminate H.
      destruct (decodeWriteOffset_withTail _ _ _ _ Hs2 Q3) as [Hs3 ->].
      cbn [mbind outcome_bind] in *.
      destruct (copyBytes (Z.to_nat len) out pos dist size) as [[out1 pos1]| | | |];
        try discriminate H.
      cbn [mbind outcome_bind] in *. apply IH; assumption.
Qed.

Lemma inflateBlock_withTail (dict : HuffmanTree) (add : Z) (s s' : State)
    (out out' : list byte) (pos pos' size : Z) :
  sized s → inflateBlock dict add s out pos size = Ok (s', out', pos') →
  sized s' ∧
  inflateBlock dict add (withTail tail s) out pos size = Ok (withTail tail s', out', pos').
Proof.
  intros Hs H. unfold inflateBlock in *.
  destruct (parseHuffmanTree dict s emptyTree) as [[s1 t1]| | | |] eqn:Q1; try discriminate H.
  destruct (parseHuffmanTree_withTail _ _ _ _ _ Hs Q1) as [Hs1 ->].
  cbn [mbind outcome_bind] in *.
  destruct (parseHuffmanTree dict s1 emptyTree) as [[s2 t2]| | | |] eqn:Q2; try discriminate H.
  destruct (parseHuffmanTree_withTail _ _ _ _ _ Hs1 Q2) as [Hs2 ->].
  cbn [mbind outcome_bind] in *.
  destruct (needBits s2 4) as [s3| | | |] eqn:Q3; try discriminate H.
  destruct (needBits_withTail _ _ _ Hs2 Q3) as [Hs3 ->].
  cbn [mbind outcome_bind] in *. rewrite readBits_withTail.
  destruct (dropBits s3 4) as [s4| | | |] eqn:Q4; try discriminate H.
  destruct (dropBits_withTail _ _ _ Hs3 Q4) as [Hs4 ->].
  cbn [mbind outcome_bind] in *.
  apply inflateCodes_withTail; assumption.
Qed.

Lemma inflateBlocks_withTail (dict : HuffmanTree) (add size : Z) (fuel : nat) :
  ∀ (s s' : State) (out out' : list byte) (pos pos' : Z),
  sized s → inflateBlocks fuel dict add s out pos size = Ok (s', out', pos') →
  sized s' ∧
  inflateBlocks fuel dict add (withTail tail s) out pos size
    = Ok (withTail tail s', out', pos').
Proof.
  induction fuel as [|fuel IH]; intros s s' out out' pos pos' Hs H; cbn [inflateBlocks] in *.
  - destruct (pos <? size); [discriminate H|]. injection H as <- <- <-. auto.
  - destruct (pos <? size); [|injection H as <- <- <-; auto].
    destruct (inflateBlock dict add s out pos size) as [[[s1 out1] pos1]| | | |] eqn:Q1;
      try discriminate H.
    destruct (inflateBlock_withTail _ _ _ _ _ _ _ _ _ Hs Q1) as [Hs1 ->].
    cbn [mbind outcome_bind] in *. apply IH; assumption.
Qed.

Lemma inflateData_withTail (dict : HuffmanTree) (s s' : State)
    (out out' : list byte) (size pos' : Z) :
  sized s → inflateData dict s out size = Ok (s', out', pos') →
  inflateData dict (withTail tail s) out size = Ok (withTail tail s', out', pos').
Proof.
  intros Hs H. unfold inflateData in *.
  destruct (needBits s 8) as [s1| | | |] eqn:Q1; try discriminate H.
  destruct (needBits_withTail _ _ _ Hs Q1) as [Hs1 ->].
  cbn [mbind outcome_bind] in *.
  destruct (dropBits s1 4) as [s2| | | |] eqn:Q2; try discriminate H.
  destruct (dropBits_withTail _ _ _ Hs1 Q2) as [Hs2 ->].
  cbn [mbind outcome_bind] in *. rewrite readBits_withTail.
  destruct (dropBits s2 4) as [s3| | | |] eqn:Q3; try discriminate H.
  destruct (dropBits_withTail _ _ _ Hs2 Q3) as [Hs3 ->].
  cbn [mbind outcome_bind] in *.
  apply inflateBlocks_withTail; assumption.
Qed.

End Tail.

Lemma wordBytes_app_l (input extra : list byte) (k : nat) :
  (4 * k + 4 ≤ length input)%nat → wordBytes (input ++ extra) k = wordBytes input k.
Proof.
  intros H. unfold wordBytes. rewrite drop_app_le by lia.
  rewrite take_app_le; [reflexivity|]. rewrite length_drop. lia.
Qed.

Lemma wordBytes_app_r (input extra : list byte) (n j : nat) :
  length input = (4 * n)%nat → wordBytes (input ++ extra) (n + j) = wordBytes extra j.
Proof.
  intros H. unfold wordBytes.
  replace (4 * (n + j))%nat with (length input + 4 * j)%nat by lia.
  rewrite drop_app_add. reflexivity.
Qed.

Lemma littleEndianWords_app (input extra : list byte) :
  Z.of_nat (length input) mod 4 = 0 →
  littleEndianWords (input ++ extra) = littleEndianWords input ++ littleEndianWords extra.
Proof.
  intros Hmod.
  assert (∃ n, length input = (4 * n)%nat) as [n Hn].
  { exists (Z.to_nat (Z.of_nat (length input) / 4)).
    pose proof (Z.div_mod (Z.of_nat (length input)) 4 ltac:(lia)). lia. }
  unfold littleEndianWords. rewrite length_app, Hn.
  replace ((4 * n + length extra) / 4)%nat with (n + length extra / 4)%nat.
  2:{ rewrite (Nat.mul_comm 4 n), Nat.div_add_l by lia. reflexivity. }
  replace (4 * n / 4)%nat with n by (rewrite Nat.mul_comm, Nat.div_mul; lia).
  rewrite seq_app, fmap_app. f_equal.
  - apply list_fmap_ext. intros i k Hk. apply lookup_seq in Hk as [-> Hlt].
    simpl. rewrite wordBytes_app_l by lia. reflexivity.
  - change (0 + n)%nat with n. replace n with (n + 0)%nat at 1 by lia.
    rewrite <- (fmap_add_seq n 0), <- list_fmap_compose.
    apply list_fmap_ext. intros i k Hk. simpl.
    rewrite wordBytes_app_r by exact Hn. reflexivity.
Qed.

Lemma inflateWords_withTail (dict : HuffmanTree) (ws tail : list Z) (cap custom : Z)
    (r : list byte * Z) :
  Z.of_nat (length (ws ++ tail)) < 2 ^ 32 →
  inflateWords dict ws cap custom = Ok r →
  inflateWords dict (ws ++ tail) cap custom = Ok r.
Proof.
  intros Hlen H. rewrite length_app, Nat2Z.inj_add in Hlen.
  unfold inflateWords in *.
  assert (u32 (Z.of_nat (length ws)) = Z.of_nat (length ws)) as Hu
    by (apply Z.mod_small; lia).
  assert (mkState (ws ++ tail) (u32 (Z.of_nat (length (ws ++ tail)))) 0 0 0 0 false
          = withTail tail (mkState ws (u32 (Z.of_nat (length ws))) 0 0 0 0 false)) as ->.
  { unfold withTail. cbn [InputData InputSize InputPosition Head Bits Buffer Empty].
    rewrite Hu. f_equal.
    rewrite length_app, Nat2Z.inj_add. apply Z.mod_small. lia. }
  set (s0 := mkState ws (u32 (Z.of_nat (length ws))) 0 0 0 0 false) in *.
  assert (sized s0) as Hs0 by (unfold sized, s0; cbn [InputData InputSize]; exact Hu).
  destruct (needBits s0 32) as [s1| | | |] eqn:Q1; try discriminate H.
  destruct (needBits_withTail tail _ _ _ Hs0 Q1) as [Hs1 ->].
  cbn [mbind outcome_bind] in *.
  destruct (dropBits s1 32) as [s2| | | |] eqn:Q2; try discriminate H.
  destruct (dropBits_withTail tail _ _ _ Hs1 Q2) as [Hs2 ->].
  cbn [mbind outcome_bind] in *.
  destruct (needBits s2 32) as [s3| | | |] eqn:Q3; try discriminate H.
  destruct (needBits_withTail tail _ _ _ Hs2 Q3) as [Hs3 ->].
  cbn [mbind outcome_bind] in *. cbv zeta in *. rewrite readBits_withTail.
  destruct (dropBits s3 32) as [s4| | | |] eqn:Q4; try discriminate H.
  destruct (dropBits_withTail tail _ _ _ Hs3 Q4) as [Hs4 ->].
  cbn [mbind outcome_bind] in *.
  match type of H with
  | (?m ≫= _) = _ => destruct m as [[[s' out] pos]| | | |] eqn:QD; try discriminate H
  end.
  rewrite (inflateData_withTail tail _ _ _ _ _ _ _ Hs4 QD).
  exact H.
Qed.

(** [X7].  Bytes after the compressed stream are ignored: when
    [inflateBuffer] succeeds on an input, it returns the same output and
    the same reported size on that input followed by any whole number of
    further words (the whole shorter than [2^34] bytes). *)
Theorem inflateBuffer_ignores_trailing_words
    (sz sz' : Z) (input extra : list byte) (cap custom : Z) (r : list byte * Z) :
  Z.of_nat (length extra) mod 4 = 0 →
  Z.of_nat (length (input ++ extra)) < 2 ^ 34 →
  inflateBuffer sz (Some input) cap custom = Ok r →
  inflateBuffer sz' (Some (input ++ extra)) cap custom = Ok r.
Proof.
  intros Hextra Hlen H.
  destruct (Z.eq_dec (Z.of_nat (length input) mod 4) 0) as [Hmod|Hmod].
  2:{ rewrite inflateBuffer_partial_word in H by exact Hmod. discriminate H. }
  rewrite (inflateBuffer_words _ _ _ _ _ (convertU8ToU32_littleEndianWords input Hmod)) in H.
  assert (Z.of_nat (length (input ++ extra)) mod 4 = 0) as Hmod'.
  { rewrite length_app, Nat2Z.inj_add, Z.add_mod, Hmod, Hextra by lia. reflexivity. }
  rewrite (inflateBuffer_words _ _ _ _ _ (convertU8ToU32_littleEndianWords _ Hmod')).
  rewrite littleEndianWords_app by exact Hmod.
  apply inflateWords_withTail; [|exact H].
  rewrite <- littleEndianWords_app by exact Hmod.
  unfold littleEndianWords. rewrite length_fmap, length_seq.
  rewrite Nat2Z.inj_div. simpl Z.of_nat.
  apply Z.div_lt_upper_bound; lia.
Qed.

Lemma inflateBuffer_ignores_trailing_words_witness :
  Z.of_nat (length [xff; xff; xff; xff]) mod 4 = 0 ∧
  Z.of_nat (length (bytesOfWords literalStream ++ [xff; xff; xff; xff])) < 2 ^ 34 ∧
  inflateBuffer 28 (Some (bytesOfWords literalStream)) 0 0 = Ok (["A"; "A"; "A"]%byte, 3) ∧
  inflateBuffer 32 (Some (bytesOfWords literalStream ++ [xff; xff; xff; xff])) 0 0
    = Ok (["A"; "A"; "A"]%byte, 3).
Proof.
  assert (inflateBuffer 28 (Some (bytesOfWords literalStream)) 0 0
          = Ok (["A"; "A"; "A"]%byte, 3)) as H by (vm_compute; reflexivity).
  assert (Z.of_nat (length (bytesOfWords literalStream ++ [xff; xff; xff; xff])) < 2 ^ 34)
    as Hlen by (vm_compute; reflexivity).
  split; [reflexivity|]. split; [exact Hlen|]. split; [exact H|].
  exact (inflateBuffer_ignores_trailing_words 28 32 (bytesOfWords literalStream)
           [xff; xff; xff; xff] 0 0 (["A"; "A"; "A"]%byte, 3) eq_refl Hlen H).
Defined.

Lemma inflateWords_short (dict : HuffmanTree) (ws : list Z) (cap custom : Z) :
  (length ws < 3)%nat → inflateWords dict ws cap custom = Exit EndOfInput.
Proof.
  intros H. destruct ws as [|w0 [|w1 [|w2 ws]]]; [| | |simpl in H; lia];
    vm_compute; reflexivity.
Qed.

Lemma inflateWords_declared_zero (dict : HuffmanTree) (w0 w2 cap : Z) :
  0 ≤ cap →
  inflateWords dict [w0; 0; w2] cap 0 = Ok ([], 0).
Proof.
  intros Hcap. unfold inflateWords.
  change (needBits (mkState [w0; 0; w2] (u32 (Z.of_nat (length [w0; 0; w2]))) 0 0 0 0 false) 32)
    with (Ok (mkState [w0; 0; w2] 3 1 w0 32 0 false)).
  cbn [mbind outcome_bind].
  change (dropBits (mkState [w0; 0; w2] 3 1 w0 32 0 false) 32)
    with (Ok (mkState [w0; 0; w2] 3 1 0 0 0 false)).
  cbn [mbind outcome_bind].
  change (needBits (mkState [w0; 0; w2] 3 1 0 0 0 false) 32)
    with (Ok (mkState [w0; 0; w2] 3 2 0 32 0 false)).
  cbn [mbind outcome_bind].
  change (dropBits (mkState [w0; 0; w2] 3 2 0 32 0 false) 32)
    with (Ok (mkState [w0; 0; w2] 3 2 0 0 0 false)).
  cbn [mbind outcome_bind].
  change (readBits (mkState [w0; 0; w2] 3 2 0 32 0 false) 32) with 0.
  change (0 <? 0) with false. cbv iota.
  assert ((if negb (cap =? 0) && (cap <? 0) then cap else 0) = 0) as ->.
  { destruct (cap <? 0) eqn:Q; [lia|]. rewrite andb_false_r. reflexivity. }
  vm_compute. reflexivity.
Qed.

(** [X10].  [inflateBuffer] needs three words before it looks at the
    declared size: the word that is skipped, the declared size and the
    word that holds the 8-bit field.  On an input of 0, 4 or 8 bytes (a
    slice that is empty but not nil included) the process ends with
    [Reached end of input]; no error value is returned, also when the
    declared size is zero. *)
Theorem inflateBuffer_short_input_exits
    (sz : Z) (input : list byte) (cap custom : Z) :
  (length input < 12)%nat → Z.of_nat (length input) mod 4 = 0 →
  inflateBuffer sz (Some input) cap custom = Exit EndOfInput.
Proof.
  intros Hlen Hmod.
  destruct (convertU8ToU32_Ok input Hmod) as (ws & Hconv & Hl & _).
  rewrite (inflateBuffer_words _ _ _ _ _ Hconv).
  apply inflateWords_short.
  assert (Z.of_nat (length input) / 4 < 3) by (apply Z.div_lt_upper_bound; lia). lia.
Qed.

Lemma inflateBuffer_short_input_exits_witness :
  (length [x00; x00; x00; x00; x00; x00; x00; x00] < 12)%nat ∧
  Z.of_nat (length [x00; x00; x00; x00; x00; x00; x00; x00]) mod 4 = 0 ∧
  inflateBuffer 8 (Some [x00; x00; x00; x00; x00; x00; x00; x00]) 0 0 = Exit EndOfInput.
Proof.
  split; [simpl; lia|]. split; [reflexivity|].
  apply (inflateBuffer_short_input_exits 8 [x00; x00; x00; x00; x00; x00; x00; x00] 0 0);
    [simpl; lia|reflexivity].
Defined.

(** [X11].  A stream that declares the size 0 and has a third word
    inflates to the empty output: with no custom size, whatever the cap,
    [inflateBuffer] returns an empty slice and reports 0.  The third word
    is pulled for the 8-bit field and nothing of it is used; no tree is
    read. *)
Theorem inflateBuffer_declared_size_zero
    (sz : Z) (input : list byte) (w0 w2 : Z) (rest : list Z) (cap : Z) :
  convertU8ToU32 input = Ok (w0 :: 0 :: w2 :: rest) →
  Z.of_nat (length input) < 2 ^ 34 → 0 ≤ cap →
  inflateBuffer sz (Some input) cap 0 = Ok ([], 0).
Proof.
  intros Hconv Hlen Hcap.
  rewrite (inflateBuffer_words _ _ _ _ _ Hconv).
  change (w0 :: 0 :: w2 :: rest) with ([w0; 0; w2] ++ rest).
  apply inflateWords_withTail; [|apply inflateWords_declared_zero; exact Hcap].
  change ([w0; 0; w2] ++ rest) with (w0 :: 0 :: w2 :: rest).
  assert (Z.of_nat (length input) mod 4 = 0) as Hmod.
  { unfold convertU8ToU32 in Hconv. cbv zeta in Hconv.
    destruct (Z.of_nat (length input) mod 4 =? 0) eqn:Q; [lia|discriminate Hconv]. }
  destruct (convertU8ToU32_Ok input Hmod) as (ws & Hconv' & Hl & _).
  rewrite Hconv in Hconv'. injection Hconv' as <-.
  rewrite Hl. apply Z.div_lt_upper_bound; lia.
Qed.

Lemma inflateBuffer_declared_size_zero_witness :
  convertU8ToU32 (bytesOfWords [0xdeadbeef; 0; 0x12345678; 7])
    = Ok (0xdeadbeef :: 0 :: 0x12345678 :: [7]) ∧
  Z.of_nat (length (bytesOfWords [0xdeadbeef; 0; 0x12345678; 7])) < 2 ^ 34 ∧ 0 ≤ 9 ∧
  inflateBuffer 16 (Some (bytesOfWords [0xdeadbeef; 0; 0x12345678; 7])) 9 0 = Ok ([], 0).
Proof.
  assert (convertU8ToU32 (bytesOfWords [0xdeadbeef; 0; 0x12345678; 7])
          = Ok (0xdeadbeef :: 0 :: 0x12345678 :: [7])) as H by (vm_compute; reflexivity).
  assert (Z.of_nat (length (bytesOfWords [0xdeadbeef; 0; 0x12345678; 7])) < 2 ^ 34) as Hl
    by (vm_compute; reflexivity).
  split; [exact H|]. split; [exact Hl|]. split; [lia|].
  exact (inflateBuffer_declared_size_zero 16 (bytesOfWords [0xdeadbeef; 0; 0x12345678; 7])
           0xdeadbeef 0x12345678 [7] 9 H Hl ltac:(lia)).
Defined.

(** * Tree descriptions and copy lengths *)

Lemma createHuffmanTree_fresh (t : HuffmanTree) :
  createHuffmanTree t freshBitTab freshCodeTab = Ok t.
Proof. vm_compute. reflexivity. Qed.

(** [X8].  A tree whose description starts with the symbol count 0, or
    with a count of [0x8001] or more (negative as an [int16]), has no
    symbol: [parseHuffmanTree] consumes the 16 bits of the count and
    nothing else, and leaves the tree as it was handed in, which is the
    zero tree in [inflateData].  Reading a code from the zero tree ends
    the process with [Trying to read code from an empty HuffmanTree], so a
    pass of the code loop that still has a byte to produce ends so when
    its symbol tree has no symbol. *)
Theorem parseHuffmanTree_without_symbols
    (dict t : HuffmanTree) (s s1 s2 : State) :
  needBits s 16 = Ok s1 → dropBits s1 16 = Ok s2 →
  u16 (readBits s1 16) = 0 ∨ 0x8001 ≤ u16 (readBits s1 16) →
  parseHuffmanTree dict s t = Ok (s2, t) ∧
  ∀ (n : nat) (add : Z) (tc : HuffmanTree) (s' : State) (out : list byte) (pos size : Z),
    pos < size →
    inflateCodes (S n) add emptyTree tc s' out pos size = Exit EmptyHuffmanTree.
Proof.
  intros H1 H2 Hn. split.
  - unfold parseHuffmanTree. rewrite H1. cbn [mbind outcome_bind]. rewrite H2.
    cbn [mbind outcome_bind]. cbv zeta.
    pose proof (u16_range (readBits s1 16)) as Hr.
    set (k := u16 (readBits s1 16)) in *.
    assert (i16 (i16 k - 1) < 0) as Hneg.
    { destruct Hn as [->|Hbig]; [reflexivity|].
      assert (i16 k = k - 2 ^ 16) as ->.
      { unfold i16. replace (k + 2 ^ 15) with (k - 2 ^ 15 + 1 * 2 ^ 16) by lia.
        rewrite Z.mod_add by lia. rewrite Z.mod_small; lia. }
      rewrite i16_small; lia. }
    assert (∀ fuel, parseLoop fuel dict s2 (i16 (i16 k - 1)) freshBitTab freshCodeTab
                    = Ok (s2, freshBitTab, freshCodeTab)) as ->.
    { intros fuel. destruct fuel; cbn [parseLoop];
        destruct (i16 (i16 k - 1) <? 0) eqn:Q; try lia; reflexivity. }
    cbn [mbind outcome_bind]. rewrite createHuffmanTree_fresh. reflexivity.
  - intros n add tc s' out pos size Hpos. cbn [inflateCodes].
    destruct (pos <? size) eqn:Q; [|lia]. reflexivity.
Qed.

Lemma parseHuffmanTree_without_symbols_witness :
  needBits (mkState [] 0 0 0x8001FFFF 32 0 false) 16
    = Ok (mkState [] 0 0 0x8001FFFF 32 0 false) ∧
  dropBits (mkState [] 0 0 0x8001FFFF 32 0 false) 16
    = Ok (mkState [] 0 0 0xFFFF0000 16 0 false) ∧
  (u16 (readBits (mkState [] 0 0 0x8001FFFF 32 0 false) 16) = 0 ∨
   0x8001 ≤ u16 (readBits (mkState [] 0 0 0x8001FFFF 32 0 false) 16)) ∧
  parseHuffmanTree huffmanTreeDict (mkState [] 0 0 0x8001FFFF 32 0 false) emptyTree
    = Ok (mkState [] 0 0 0xFFFF0000 16 0 false, emptyTree) ∧
  ∀ (n : nat) (add : Z) (tc : HuffmanTree) (s' : State) (out : list byte) (pos size : Z),
    pos < size →
    inflateCodes (S n) add emptyTree tc s' out pos size = Exit EmptyHuffmanTree.
Proof.
  split; [reflexivity|]. split; [reflexivity|].
  split; [right; vm_compute; discriminate|].
  apply (parseHuffmanTree_without_symbols huffmanTreeDict emptyTree
           (mkState [] 0 0 0x8001FFFF 32 0 false)
           (mkState [] 0 0 0x8001FFFF 32 0 false)
           (mkState [] 0 0 0xFFFF0000 16 0 false) eq_refl eq_refl).
  right. vm_compute. discriminate.
Defined.

(** The count [0x8000] is no such case: [numberSymbol - 1] wraps to 32767. *)
Example symbol_count_0x8000_wraps : i16 (i16 0x8000 - 1) = 32767.
Proof. reflexivity. Qed.

Lemma registerSymbols_cases (n : nat) :
  ∀ (bits r : Z) (wb wc : list Z),
  (∃ x, registerSymbols n bits r wb wc = Ok x) ∨ registerSymbols n bits r wb wc = Panic.
Proof.
  induction n as [|n IH]; intros bits r wb wc; cbn [registerSymbols]; [eauto|].
  destruct (load_cases wb bits) as [[cur ->]| ->]; [|auto]. cbn [mbind outcome_bind].
  destruct (cur =? -1).
  - destruct (store_cases wb bits (i16 r)) as [[bt ->]| ->]; [|auto].
    cbn [mbind outcome_bind]. apply IH.
  - destruct (store_cases wc r cur) as [[ct ->]| ->]; [|auto]. cbn [mbind outcome_bind].
    destruct (store_cases wb bits (i16 r)) as [[bt ->]| ->]; [|auto].
    cbn [mbind outcome_bind]. apply IH.
Qed.

(** After the symbol 0 the next one is [-1], and [workingBits[bits]] is
    taken. *)
Lemma registerSymbols_minus_one (n : nat) (bits cur : Z) (wb wc : list Z) :
  load wb bits = Ok cur → cur ≠ -1 →
  registerSymbols (S n) bits (-1) wb wc = Panic.
Proof.
  intros Hl Hc. cbn [registerSymbols]. rewrite Hl. cbn [mbind outcome_bind].
  destruct (cur =? -1) eqn:Q; [lia|].
  rewrite (load_Panic wb) || idtac.
  unfold store. cbn. reflexivity.
Qed.

Lemma registerSymbols_Ok_count (n : nat) :
  ∀ (bits r : Z) (wb wc : list Z) (x : Z * list Z * list Z),
  0 ≤ r < 2 ^ 15 → registerSymbols n bits r wb wc = Ok x → Z.of_nat n ≤ r + 1.
Proof.
  induction n as [|n IH]; intros bits r wb wc x Hr H; [lia|].
  cbn [registerSymbols] in H.
  destruct (load wb bits) as [cur| | | |] eqn:Hl; try discriminate H.
  cbn [mbind outcome_bind] in H.
  assert (∃ bt ct, store wb bits (i16 r) = Ok bt ∧
                   registerSymbols n bits (i16 (r - 1)) bt ct = Ok x) as (bt & ct & Hs & Hrest).
  { destruct (cur =? -1).
    - destruct (store wb bits (i16 r)) as [bt| | | |] eqn:Hs; try discriminate H.
      cbn [mbind outcome_bind] in H. eauto.
    - destruct (store wc r cur) as [ct| | | |]; try discriminate H.
      cbn [mbind outcome_bind] in H.
      destruct (store wb bits (i16 r)) as [bt| | | |] eqn:Hs; try discriminate H.
      cbn [mbind outcome_bind] in H. eauto. }
  destruct (Z.eq_dec r 0) as [->|Hne].
  - destruct n as [|n]; [lia|]. exfalso.
    change (i16 (0 - 1)) with (-1) in Hrest.
    rewrite (registerSymbols_minus_one n bits 0) in Hrest; [discriminate Hrest| |lia].
    apply store_Ok in Hs as [Hb ->]. apply load_Ok. split; [lia|].
    apply list_lookup_insert_eq. lia.
  - rewrite i16_small in Hrest by lia.
    apply IH in Hrest; lia.
Qed.

Lemma registerSymbols_past_last (n : nat) (bits r : Z) (wb wc : list Z) :
  0 ≤ r < 2 ^ 15 → r + 1 < Z.of_nat n →
  registerSymbols n bits r wb wc = Panic.
Proof.
  intros Hr Hn. destruct (registerSymbols_cases n bits r wb wc) as [[x Hx]|Hp]; [|exact Hp].
  apply registerSymbols_Ok_count in Hx; [lia|exact Hr].
Qed.

(** [X9].  A description entry gives a code length and a count of symbols;
    when the code length is not zero and the count exceeds the number of
    symbols that are still to be described, [parseHuffmanTree] registers
    the symbol [-1] and panics on [workingCode[-1]].  (With the code
    length zero the count is only subtracted and the loop ends.) *)
Theorem parseLoop_run_past_last_symbol_panics
    (fuel : nat) (dict : HuffmanTree) (s s1 : State) (tempCode remainingSymbol : Z)
    (workingBits workingCode : list Z) :
  readCode dict s = Ok (tempCode, s1) → 0 ≤ tempCode < 2 ^ 16 →
  Z.land tempCode 0x1F ≠ 0 →
  0 ≤ remainingSymbol < 2 ^ 15 →
  remainingSymbol + 1 < Z.shiftr tempCode 5 + 1 →
  parseLoop (S fuel) dict s remainingSymbol workingBits workingCode = Panic.
Proof.
  intros Hread Hc Hbits Hr Hcount. cbn [parseLoop].
  destruct (remainingSymbol <? 0) eqn:Q; [lia|].
  rewrite Hread. cbn [mbind outcome_bind]. cbv zeta.
  destruct (Z.land tempCode 31 =? 0) eqn:Q2; [lia|].
  assert (0 ≤ Z.shiftr tempCode 5 < 2 ^ 11) as Hsh.
  { rewrite Z.shiftr_div_pow2 by lia. split; [apply Z.div_pos; lia|].
    apply Z.div_lt_upper_bound; lia. }
  rewrite (i16_small (Z.shiftr tempCode 5 + 1)) by lia.
  rewrite registerSymbols_past_last; [reflexivity|lia|lia].
Qed.

Lemma parseLoop_run_past_last_symbol_panics_witness :
  readCode huffmanTreeDict (pumpOfBits (field 6 12))
    = Ok (0x28, mkState [] 0 0 0 26 0 false) ∧
  0 ≤ 0x28 < 2 ^ 16 ∧ Z.land 0x28 0x1F ≠ 0 ∧ 0 ≤ 0 < 2 ^ 15 ∧
  0 + 1 < Z.shiftr 0x28 5 + 1 ∧
  parseLoop 1 huffmanTreeDict (pumpOfBits (field 6 12)) 0 freshBitTab freshCodeTab = Panic.
Proof.
  assert (readCode huffmanTreeDict (pumpOfBits (field 6 12))
          = Ok (0x28, mkState [] 0 0 0 26 0 false)) as H by (vm_compute; reflexivity).
  split; [exact H|]. split; [lia|]. split; [vm_compute; discriminate|].
  split; [lia|]. split; [vm_compute; reflexivity|].
  apply (parseLoop_run_past_last_symbol_panics 0 huffmanTreeDict _ _ 0x28 0 _ _ H).
  - lia.
  - vm_compute. discriminate.
  - lia.
  - vm_compute. reflexivity.
Defined.

(** [X12].  The length of a copy.  For the symbol [0x100 + v] of the symbol
    tree and the constant [S] read before the main loop: [v >= 29] ends
    the process with [Invalid value for writeSize code]; otherwise the
    length lies between [S] and [S + 255], it is [v + S] for [v < 4], at
    least [8 + S] from [v = 8] on (where additional bits are read), and
    [255 + S] for [v = 28]. *)
Theorem copy_length_range (add : Z) (s : State) (v : Z) :
  wfState s → 0 ≤ v → 1 ≤ add ≤ 16 →
  (29 ≤ v → decodeWriteSize add s v = Exit InvalidWriteSize) ∧
  (∀ len s', decodeWriteSize add s v = Ok (len, s') →
     v ≤ 28 ∧ add ≤ len ≤ add + 255 ∧
     (v < 4 → len = v + add ∧ s' = s) ∧
     (8 ≤ v → 8 + add ≤ len) ∧
     (v = 28 → len = 255 + add ∧ s' = s)).
Proof.
  intros Hwf Hv Hadd.
  destruct (baseWriteSize_spec add s v Hv) as (H0 & H1 & H2 & H28 & Hbad). cbv zeta in *.
  split; [exact Hbad|].
  intros len s' H.
  assert (0 ≤ v mod 4 < 4) as Hr by (apply Z.mod_pos_bound; lia).
  assert (v = 4 * (v / 4) + v mod 4) as Hqr by (apply Z.div_mod; lia).
  destruct (Z.le_gt_cases 29 v) as [Hge|Hlt].
  { rewrite (Hbad Hge) in H. discriminate H. }
  destruct (Z.eq_dec v 28) as [->|Hne].
  { rewrite (H28 eq_refl) in H. injection H as <- <-.
    unfold u32. rewrite Z.mod_small by lia. repeat split; lia. }
  assert (0 ≤ v / 4 ≤ 6) as Hq by lia.
  destruct (Z.eq_dec (v / 4) 0) as [Hq0|Hq0].
  { rewrite (H0 Hq0) in H. injection H as <- <-.
    unfold u32. rewrite Z.mod_small by lia. repeat split; lia. }
  destruct (Z.eq_dec (v / 4) 1) as [Hq1|Hq1].
  { rewrite (H1 Hq1) in H. injection H as <- <-.
    unfold u32. rewrite Z.mod_small by lia. repeat split; lia. }
  rewrite (H2 ltac:(lia)) in H.
  destruct (needBits s (v / 4 - 1)) as [s1| | | |] eqn:Q1; try discriminate H.
  cbn [mbind outcome_bind] in H.
  destruct (dropBits s1 (v / 4 - 1)) as [s2| | | |] eqn:Q2; try discriminate H.
  cbn [mbind outcome_bind] in H. injection H as <- <-.
  assert (wfState s1) as Hwf1 by (eapply needBits_wf; eassumption).
  pose proof (readBits_range s1 (v / 4 - 1) Hwf1 ltac:(lia)) as Hrd.
  set (q := v / 4) in *. set (x := readBits s1 (q - 1)) in *.
  assert (0 < 2 ^ (q - 1)) as Hpos by (apply Z.pow_pos_nonneg; lia).
  assert (2 ^ (q - 1) ≤ 2 ^ 5) as Hle by (apply Z.pow_le_mono_r; lia).
  assert (2 ≤ 2 ^ (q - 1)) as Hge2.
  { change 2 with (2 ^ 1) at 1. apply Z.pow_le_mono_r; lia. }
  assert (Z.lor (2 ^ (q - 1) * (4 + v mod 4)) x = x + 2 ^ (q - 1) * (4 + v mod 4)) as ->.
  { rewrite Z.lor_comm, <- (lor_shiftl_disjoint x (4 + v mod 4) (q - 1)) by lia.
    rewrite Z.shiftl_mul_pow2 by lia. f_equal. ring. }
  assert (x + 2 ^ (q - 1) * (4 + v mod 4) ≤ 255) by nia.
  unfold u32. rewrite Z.mod_small by nia.
  repeat split; try lia; try nia.
Qed.

Lemma copy_length_range_witness :
  wfState onesState ∧ 0 ≤ 9 ∧ 1 ≤ 3 ≤ 16 ∧
  (29 ≤ 9 → decodeWriteSize 3 onesState 9 = Exit InvalidWriteSize) ∧
  (∀ len s', decodeWriteSize 3 onesState 9 = Ok (len, s') →
     9 ≤ 28 ∧ 3 ≤ len ≤ 3 + 255 ∧
     (9 < 4 → len = 9 + 3 ∧ s' = onesState) ∧
     (8 ≤ 9 → 8 + 3 ≤ len) ∧
     (9 = 28 → len = 255 + 3 ∧ s' = onesState)).
Proof.
  assert (wfState onesState) as Hwf by (apply wfStateb_sound; reflexivity).
  split; [exact Hwf|]. split; [lia|]. split; [lia|].
  exact (copy_length_range 3 onesState 9 Hwf ltac:(lia) ltac:(lia)).
Defined.

Example decodeWriteSize_samples :
  decodeWriteSize 3 onesState 9 = Ok (14, mkState [] 0 0 0xFFFFFFFE 31 0 false) ∧
  decodeWriteSize 3 onesState 28 = Ok (258, onesState) ∧
  decodeWriteSize 3 onesState 29 = Exit InvalidWriteSize.
Proof. repeat split; reflexivity. Qed.

(** * One pass, and bytes against words *)

(** [X5].  The output is written from left to right, each byte once.  A
    pass of the main loop that starts at the output position [pos] and
    stops at [pos'] moves forward by at least one byte, stays within the
    output size, keeps the length of the buffer, and changes no byte
    before [pos] and none from [pos'] on. *)
Theorem inflateBlock_writes_between_positions
    (dict : HuffmanTree) (add : Z) (s s' : State)
    (out out' : list byte) (pos pos' size : Z) :
  wfState s → 1 ≤ add ≤ 16 → 0 ≤ pos < size → size < 2 ^ 32 →
  inflateBlock dict add s out pos size = Ok (s', out', pos') →
  pos < pos' ≤ size ∧ length out' = length out ∧
  take (Z.to_nat pos) out' = take (Z.to_nat pos) out ∧
  drop (Z.to_nat pos') out' = drop (Z.to_nat pos') out.
Proof.
  intros Hwf Hadd Hpos Hsize H.
  pose proof (inflateBlock_progress _ _ _ _ _ _ _ _ _ Hwf Hadd Hpos Hsize H) as Hprog.
  assert (0 ≤ pos ≤ size) as Hpos' by lia.
  pose proof (inflateBlock_pos _ _ _ _ _ _ _ _ _ Hpos' Hsize H) as (Hp & Hl).
  pose proof (inflateBlock_sameOutside _ _ _ _ _ _ _ _ _ Hpos' Hsize H) as (Ht & Hd).
  repeat split; try lia; assumption.
Qed.

Lemma inflateBlock_writes_between_positions_witness :
  ∃ s', inflateBlock huffmanTreeDict 3
          (mkState literalStream 7 3 0x00420600 24 0 false)
          (replicate 5 x00) 0 3
        = Ok (s', ["A"; "A"; "A"; x00; x00]%byte, 3) ∧
        0 < 3 ≤ 3 ∧ length ["A"; "A"; "A"; x00; x00]%byte = length (replicate 5 x00) ∧
        take (Z.to_nat 0) ["A"; "A"; "A"; x00; x00]%byte = take (Z.to_nat 0) (replicate 5 x00) ∧
        drop (Z.to_nat 3) ["A"; "A"; "A"; x00; x00]%byte = drop (Z.to_nat 3) (replicate 5 x00).
Proof.
  eexists. split; [vm_compute; reflexivity|].
  eapply (inflateBlock_writes_between_positions huffmanTreeDict 3
            (mkState literalStream 7 3 0x00420600 24 0 false) _
            (replicate 5 x00) ["A"; "A"; "A"; x00; x00]%byte 0 3 3).
  - apply wfStateb_sound. vm_compute. reflexivity.
  - lia.
  - lia.
  - lia.
  - vm_compute. reflexivity.
Defined.

Lemma byte_of_to_Z (b : byte) : byte_of_Z (byte_to_Z b) = b.
Proof. destruct b; reflexivity. Qed.

Lemma byte_to_of_Z (z : Z) : byte_to_Z (byte_of_Z z) = z mod 2 ^ 8.
Proof.
  unfold byte_to_Z, byte_of_Z, u8.
  pose proof (Z.mod_pos_bound z (2 ^ 8) ltac:(lia)) as Hr.
  destruct (Byte.of_N (Z.to_N (z mod 2 ^ 8))) as [b|] eqn:E.
  - apply Byte.to_of_N in E. rewrite E. lia.
  - apply Byte.of_N_None_iff in E. lia.
Qed.

Lemma le_value_bytesOfWord (w : Z) : 0 ≤ w < 2 ^ 32 → le_value (bytesOfWord w) = w.
Proof.
  intros Hw. unfold bytesOfWord. cbn [le_value]. rewrite !byte_to_of_Z.
  rewrite !Z.shiftr_div_pow2 by lia.
  pose proof (Z.div_mod w (2 ^ 8) ltac:(lia)).
  pose proof (Z.div_mod (w / 2 ^ 8) (2 ^ 8) ltac:(lia)).
  pose proof (Z.div_mod (w / 2 ^ 8 / 2 ^ 8) (2 ^ 8) ltac:(lia)).
  rewrite !Z.div_div in * by lia.
  change (2 ^ 8 * 2 ^ 8) with (2 ^ 16) in *. change (2 ^ 16 * 2 ^ 8) with (2 ^ 24) in *.
  assert (w / 2 ^ 24 < 2 ^ 8) by (apply Z.div_lt_upper_bound; lia).
  assert (0 ≤ w / 2 ^ 24) by (apply Z.div_pos; lia).
  rewrite (Z.mod_small (w / 2 ^ 24)) by lia. lia.
Qed.

Lemma byte_of_Z_add (x y : Z) : byte_of_Z (x + 2 ^ 8 * y) = byte_of_Z x.
Proof.
  unfold byte_of_Z, u8. rewrite (Z.mul_comm (2 ^ 8) y), Z.mod_add by lia. reflexivity.
Qed.

Lemma bytesOfWord_le_value (b0 b1 b2 b3 : byte) :
  bytesOfWord (le_value [b0; b1; b2; b3]) = [b0; b1; b2; b3].
Proof.
  pose proof (byte_to_Z_range b0). pose proof (byte_to_Z_range b1).
  pose proof (byte_to_Z_range b2). pose proof (byte_to_Z_range b3).
  unfold bytesOfWord. cbn [le_value]. rewrite !Z.shiftr_div_pow2 by lia.
  rewrite Z.mul_0_r, Z.add_0_r.
  set (x0 := byte_to_Z b0) in *. set (x1 := byte_to_Z b1) in *.
  set (x2 := byte_to_Z b2) in *. set (x3 := byte_to_Z b3) in *.
  assert ((x0 + 2 ^ 8 * (x1 + 2 ^ 8 * (x2 + 2 ^ 8 * x3))) / 2 ^ 8
          = x1 + 2 ^ 8 * (x2 + 2 ^ 8 * x3)) as E1.
  { rewrite Z.add_comm, Z.mul_comm, Z.div_add_l by lia. rewrite Z.div_small; lia. }
  assert ((x0 + 2 ^ 8 * (x1 + 2 ^ 8 * (x2 + 2 ^ 8 * x3))) / 2 ^ 16 = x2 + 2 ^ 8 * x3) as E2.
  { change (2 ^ 16) with (2 ^ 8 * 2 ^ 8). rewrite <- Z.div_div, E1 by lia.
    rewrite Z.add_comm, Z.mul_comm, Z.div_add_l by lia. rewrite Z.div_small; lia. }
  assert ((x0 + 2 ^ 8 * (x1 + 2 ^ 8 * (x2 + 2 ^ 8 * x3))) / 2 ^ 24 = x3) as E3.
  { change (2 ^ 24) with (2 ^ 16 * 2 ^ 8). rewrite <- Z.div_div, E2 by lia.
    rewrite Z.add_comm, Z.mul_comm, Z.div_add_l by lia. rewrite Z.div_small; lia. }
  rewrite E1, E2, E3. rewrite !byte_of_Z_add.
  unfold x0, x1, x2, x3. rewrite !byte_of_to_Z. reflexivity.
Qed.

Lemma littleEndianWords_four (b0 b1 b2 b3 : byte) :
  littleEndianWords [b0; b1; b2; b3] = [le_value [b0; b1; b2; b3]].
Proof. reflexivity. Qed.

Lemma littleEndianWords_bytesOfWords (ws : list Z) :
  Forall (λ w, 0 ≤ w < 2 ^ 32) ws → littleEndianWords (bytesOfWords ws) = ws.
Proof.
  induction 1 as [|w ws Hw _ IH]; [reflexivity|].
  unfold bytesOfWords. cbn [map concat]. fold (bytesOfWords ws).
  rewrite (littleEndianWords_app (bytesOfWord w) (bytesOfWords ws)) by reflexivity.
  rewrite IH. unfold bytesOfWord at 1. rewrite littleEndianWords_four.
  fold (bytesOfWord w). rewrite le_value_bytesOfWord by exact Hw. reflexivity.
Qed.

Lemma bytesOfWords_littleEndianWords (n : nat) :
  ∀ input : list byte, length input = (4 * n)%nat →
  bytesOfWords (littleEndianWords input) = input.
Proof.
  induction n as [|n IH]; intros input Hl.
  - destruct input; [reflexivity|discriminate].
  - destruct input as [|b0 [|b1 [|b2 [|b3 rest]]]]; try (simpl in Hl; lia).
    change (b0 :: b1 :: b2 :: b3 :: rest) with ([b0; b1; b2; b3] ++ rest).
    rewrite (littleEndianWords_app [b0; b1; b2; b3] rest) by reflexivity.
    rewrite littleEndianWords_four.
    unfold bytesOfWords. cbn [app map concat]. fold (bytesOfWords (littleEndianWords rest)).
    rewrite IH by (simpl in Hl; lia).
    rewrite bytesOfWord_le_value. reflexivity.
Qed.

(** [X17].  [convertU8ToU32] and the little-endian writing of words are
    inverse to each other: the bytes of a list of 32-bit words convert back
    to these words, and the words of an input that converts write back to
    that input, so two inputs that convert to the same words are equal. *)
Theorem convertU8ToU32_round_trip :
  (∀ ws, Forall (λ w, 0 ≤ w < 2 ^ 32) ws → convertU8ToU32 (bytesOfWords ws) = Ok ws) ∧
  (∀ input ws, convertU8ToU32 input = Ok ws → bytesOfWords ws = input).
Proof.
  split.
  - intros ws Hws.
    assert (Z.of_nat (length (bytesOfWords ws)) mod 4 = 0) as Hmod.
    { clear Hws. induction ws as [|w ws IH]; [reflexivity|].
      unfold bytesOfWords in *. cbn [map concat]. rewrite length_app, Nat2Z.inj_add.
      rewrite Z.add_mod, IH by lia. reflexivity. }
    rewrite convertU8ToU32_littleEndianWords by exact Hmod.
    rewrite littleEndianWords_bytesOfWords by exact Hws. reflexivity.
  - intros input ws H.
    assert (Z.of_nat (length input) mod 4 = 0) as Hmod.
    { unfold convertU8ToU32 in H. cbv zeta in H.
      destruct (Z.of_nat (length input) mod 4 =? 0) eqn:Q; [lia|discriminate H]. }
    rewrite convertU8ToU32_littleEndianWords in H by exact Hmod. injection H as <-.
    apply (bytesOfWords_littleEndianWords (length input / 4)).
    pose proof (Nat.div_mod_eq (length input) 4).
    assert (length input mod 4 = 0)%nat.
    { apply Nat2Z.inj. rewrite Nat2Z.inj_mod. exact Hmod. }
    lia.
Qed.

(** * The archive on disk *)

Lemma remaining_at (bytes : list byte) (c : Z) :
  0 ≤ c → remaining (mkFile bytes c) = drop (Z.to_nat c) bytes.
Proof.
  intros Hc. unfold remaining. cbn [contents cursor].
  destruct (Z.of_nat (length bytes) <=? c) eqn:Q; [|reflexivity].
  symmetry. apply drop_ge. lia.
Qed.

Lemma readUintLE_at (n : nat) (bytes : list byte) (c : Z) :
  0 ≤ c → c + Z.of_nat n ≤ Z.of_nat (length bytes) →
  readUintLE n (mkFile bytes c) = (uintAt bytes c n, mkFile bytes (c + Z.of_nat n)).
Proof.
  intros Hc Hfit. unfold readUintLE, readFull. rewrite remaining_at by exact Hc.
  cbn [contents cursor].
  assert (length (take n (drop (Z.to_nat c) bytes)) = n) as Hl.
  { rewrite length_take, length_drop. lia. }
  rewrite Hl, Nat.eqb_refl. reflexivity.
Qed.

Lemma readIdentifier_at (n : Z) (bytes : list byte) (c : Z) :
  0 ≤ c → 0 ≤ n → c + n ≤ Z.of_nat (length bytes) →
  readIdentifier n (mkFile bytes c) = (bytesAt bytes c (Z.to_nat n), mkFile bytes (c + n)).
Proof.
  intros Hc Hn Hfit. unfold readIdentifier, fileRead. rewrite remaining_at by exact Hc.
  cbn [contents cursor]. rewrite length_replicate.
  assert (length (take (Z.to_nat n) (drop (Z.to_nat c) bytes)) = Z.to_nat n) as Hl.
  { rewrite length_take, length_drop. lia. }
  rewrite Hl, drop_replicate, Nat.sub_diag. cbn [replicate].
  rewrite app_nil_r. unfold bytesAt. f_equal. f_equal. lia.
Qed.

Lemma readDatHeader_at (bytes : list byte) :
  40 ≤ Z.of_nat (length bytes) →
  readDatHeader (mkFile bytes 0) = (datHeaderAt bytes, mkFile bytes 40).
Proof.
  intros Hlen. unfold readDatHeader, readUint32LE, readUint64LE, DatMagicNumber.
  rewrite (readUintLE_at 1 bytes 0) by (simpl; lia). change (0 + Z.of_nat 1) with 1.
  rewrite (readIdentifier_at 3 bytes 1) by lia. change (1 + 3) with 4.
  rewrite (readUintLE_at 4 bytes 4) by (simpl; lia). change (4 + Z.of_nat 4) with 8.
  rewrite (readUintLE_at 4 bytes 8) by (simpl; lia). change (8 + Z.of_nat 4) with 12.
  rewrite (readUintLE_at 4 bytes 12) by (simpl; lia). change (12 + Z.of_nat 4) with 16.
  rewrite (readUintLE_at 4 bytes 16) by (simpl; lia). change (16 + Z.of_nat 4) with 20.
  rewrite (readUintLE_at 4 bytes 20) by (simpl; lia). change (20 + Z.of_nat 4) with 24.
  rewrite (readUintLE_at 8 bytes 24) by (simpl; lia). change (24 + Z.of_nat 8) with 32.
  rewrite (readUintLE_at 4 bytes 32) by (simpl; lia). change (32 + Z.of_nat 4) with 36.
  rewrite (readUintLE_at 4 bytes 36) by (simpl; lia). change (36 + Z.of_nat 4) with 40.
  reflexivity.
Qed.

Lemma readMFTHeader_at (bytes : list byte) (m : Z) :
  0 ≤ m → m + 24 ≤ Z.of_nat (length bytes) →
  readMFTHeader (mkFile bytes m) = (mftHeaderAt bytes m, mkFile bytes (m + 24)).
Proof.
  intros Hm Hlen. unfold readMFTHeader, readUint32LE, readUint64LE, MftMagicNumber.
  rewrite (readIdentifier_at 4 bytes m) by lia.
  rewrite (readUintLE_at 8 bytes (m + 4)) by (simpl; lia).
  replace (m + 4 + Z.of_nat 8) with (m + 12) by lia.
  rewrite (readUintLE_at 4 bytes (m + 12)) by (simpl; lia).
  replace (m + 12 + Z.of_nat 4) with (m + 16) by lia.
  rewrite (readUintLE_at 4 bytes (m + 16)) by (simpl; lia).
  replace (m + 16 + Z.of_nat 4) with (m + 20) by lia.
  rewrite (readUintLE_at 4 bytes (m + 20)) by (simpl; lia).
  replace (m + 20 + Z.of_nat 4) with (m + 24) by lia.
  reflexivity.
Qed.

Lemma readMFTEntry_at (bytes : list byte) (c : Z) :
  0 ≤ c → c + 24 ≤ Z.of_nat (length bytes) →
  readMFTEntry (mkFile bytes c) = (mftDataAt bytes c, mkFile bytes (c + 24)).
Proof.
  intros Hc Hlen. unfold readMFTEntry, readUint16LE, readUint32LE, readUint64LE.
  rewrite (readUintLE_at 8 bytes c) by (simpl; lia).
  replace (c + Z.of_nat 8) with (c + 8) by lia.
  rewrite (readUintLE_at 4 bytes (c + 8)) by (simpl; lia).
  replace (c + 8 + Z.of_nat 4) with (c + 12) by lia.
  rewrite (readUintLE_at 2 bytes (c + 12)) by (simpl; lia).
  replace (c + 12 + Z.of_nat 2) with (c + 14) by lia.
  rewrite (readUintLE_at 2 bytes (c + 14)) by (simpl; lia).
  replace (c + 14 + Z.of_nat 2) with (c + 16) by lia.
  rewrite (readUintLE_at 4 bytes (c + 16)) by (simpl; lia).
  replace (c + 16 + Z.of_nat 4) with (c + 20) by lia.
  rewrite (readUintLE_at 4 bytes (c + 20)) by (simpl; lia).
  replace (c + 20 + Z.of_nat 4) with (c + 24) by lia.
  reflexivity.
Qed.

Lemma readMFTEntries_at (bytes : list byte) (n : nat) :
  ∀ c, 0 ≤ c → c + 24 * Z.of_nat n ≤ Z.of_nat (length bytes) →
  ∃ es, readMFTEntries n (mkFile bytes c) = (es, mkFile bytes (c + 24 * Z.of_nat n)) ∧
        length es = n ∧
        ∀ i, (i < n)%nat → es !! i = Some (mftDataAt bytes (c + 24 * Z.of_nat i)).
Proof.
  induction n as [|n IH]; intros c Hc Hlen.
  - exists []. simpl. rewrite Z.add_0_r. repeat split. intros i Hi. lia.
  - cbn [readMFTEntries]. rewrite readMFTEntry_at by lia.
    destruct (IH (c + 24) ltac:(lia) ltac:(lia)) as (es & Hes & Hl & Hi).
    rewrite Hes. exists (mftDataAt bytes c :: es). split; [|split].
    + do 2 f_equal. lia.
    + simpl. lia.
    + intros [|i] Hlt; simpl.
      * rewrite Z.add_0_r. reflexivity.
      * rewrite Hi by lia. do 2 f_equal. lia.
Qed.

Lemma readMFTIndexEntry_at (bytes : list byte) (c : Z) :
  0 ≤ c → c + 8 ≤ Z.of_nat (length bytes) →
  readMFTIndexEntry (mkFile bytes c) = (mftIndexDataAt bytes c, mkFile bytes (c + 8)).
Proof.
  intros Hc Hlen. unfold readMFTIndexEntry, readUint32LE.
  rewrite (readUintLE_at 4 bytes c) by (simpl; lia).
  replace (c + Z.of_nat 4) with (c + 4) by lia.
  rewrite (readUintLE_at 4 bytes (c + 4)) by (simpl; lia).
  replace (c + 4 + Z.of_nat 4) with (c + 8) by lia.
  reflexivity.
Qed.

Lemma readMFTIndexEntries_at (bytes : list byte) (n : nat) :
  ∀ c, 0 ≤ c → c + 8 * Z.of_nat n ≤ Z.of_nat (length bytes) →
  ∃ es, readMFTIndexEntries n (mkFile bytes c) = (es, mkFile bytes (c + 8 * Z.of_nat n)) ∧
        length es = n ∧
        ∀ i, (i < n)%nat → es !! i = Some (mftIndexDataAt bytes (c + 8 * Z.of_nat i)).
Proof.
  induction n as [|n IH]; intros c Hc Hlen.
  - exists []. simpl. rewrite Z.add_0_r. repeat split. intros i Hi. lia.
  - cbn [readMFTIndexEntries]. rewrite readMFTIndexEntry_at by lia.
    destruct (IH (c + 8) ltac:(lia) ltac:(lia)) as (es & Hes & Hl & Hi).
    rewrite Hes. exists (mftIndexDataAt bytes c :: es). split; [|split].
    + do 2 f_equal. lia.
    + simpl. lia.
    + intros [|i] Hlt; simpl.
      * rewrite Z.add_0_r. reflexivity.
      * rewrite Hi by lia. do 2 f_equal. lia.
Qed.

Lemma uintAt_nonneg (bytes : list byte) (off : Z) (n : nat) : 0 ≤ uintAt bytes off n.
Proof. apply le_value_nonneg. Qed.

Lemma seekIgnoringError_at (bytes : list byte) (c off : Z) :
  0 ≤ off < 2 ^ 63 → seekIgnoringError (mkFile bytes c) (i64 off) = mkFile bytes off.
Proof.
  intros H. unfold seekIgnoringError, fileSeek, i64.
  replace ((off + 2 ^ 63) mod 2 ^ 64 - 2 ^ 63) with off by (rewrite Z.mod_small; lia).
  destruct (off <? 0) eqn:Q; [lia|]. reflexivity.
Qed.

(** [X13].  The layout [loadDatFile] reads.  For a file that holds its 40
    header bytes, an MFT header with the magic at [MftOffset] (bytes 24 to
    31 of the file), the [NumEntries >= 2] entries of 24 bytes after it,
    and the index table at the offset of entry 1: the handle has the header
    fields at the offsets 0, 1, 4, 8, 12, 16, 20, 24, 32 and 36, the MFT
    header fields at [MftOffset + 0, 4, 12, 16, 20], entry [i] at
    [MftOffset + 24 + 24 i] (fields at 0, 8, 12, 14, 16 and 20), and
    [Size / 8] index records of 8 bytes, record [j] at the offset of entry
    1 plus [8 j]; all integers are little-endian. *)
Theorem loadDatFile_reads_the_layout (bytes : list byte) :
  40 ≤ Z.of_nat (length bytes) →
  let header := datHeaderAt bytes in
  let m := MftOffset header in
  let mftHeader := mftHeaderAt bytes m in
  let indexEntry := mftDataAt bytes (m + 24 + 24) in
  m < 2 ^ 63 →
  m + 24 + 24 * NumEntries mftHeader ≤ Z.of_nat (length bytes) →
  Identifier mftHeader = mftMagic → 2 ≤ NumEntries mftHeader →
  Offset indexEntry < 2 ^ 63 →
  Offset indexEntry + 8 * (Size indexEntry / 8) ≤ Z.of_nat (length bytes) →
  ∃ h, loadDatFile (Some bytes) = Ok h ∧
       Header h = header ∧ MFTHeaderOf h = mftHeader ∧
       Z.of_nat (length (MFTDataOf h)) = NumEntries mftHeader ∧
       (∀ i, 0 ≤ i < NumEntries mftHeader →
             MFTDataOf h !! Z.to_nat i = Some (mftDataAt bytes (m + 24 + 24 * i))) ∧
       Z.of_nat (length (MFTIndexDataOf h)) = Size indexEntry / 8 ∧
       (∀ j, 0 ≤ j < Size indexEntry / 8 →
             MFTIndexDataOf h !! Z.to_nat j
             = Some (mftIndexDataAt bytes (Offset indexEntry + 8 * j))).
Proof.
  intros Hlen header m mftHeader indexEntry Hm Hfit Hmagic Hnum Hoff Hidx.
  assert (0 ≤ m) as Hm0 by apply uintAt_nonneg.
  assert (0 ≤ Offset indexEntry) as Ho0 by apply uintAt_nonneg.
  assert (0 ≤ Size indexEntry / 8) as Hs0 by (apply Z.div_pos; [apply uintAt_nonneg|lia]).
  unfold loadDatFile.
  rewrite readDatHeader_at by exact Hlen. fold header. fold m.
  rewrite seekIgnoringError_at by lia.
  rewrite readMFTHeader_at by lia. fold mftHeader.
  rewrite Hmagic. rewrite bool_decide_eq_true_2 by reflexivity. cbn [negb].
  destruct (readMFTEntries_at bytes (Z.to_nat (NumEntries mftHeader)) (m + 24)
              ltac:(lia) ltac:(lia)) as (es & Hes & Hl & Hi).
  rewrite Hes.
  assert (es !! 1%nat = Some indexEntry) as H1.
  { rewrite (Hi 1%nat) by lia. reflexivity. }
  assert (load es MftEntryIndexNum = Ok indexEntry) as ->
    by (apply load_Ok; split; [unfold MftEntryIndexNum; lia|exact H1]).
  cbn [mbind outcome_bind].
  rewrite seekIgnoringError_at by lia.
  destruct (readMFTIndexEntries_at bytes (Z.to_nat (Size indexEntry / 8)) (Offset indexEntry)
              Ho0 ltac:(lia)) as (xs & Hxs & Hlx & Hj).
  rewrite Hxs. eexists. split; [reflexivity|]. cbn [Header MFTHeaderOf MFTDataOf MFTIndexDataOf].
  split; [reflexivity|]. split; [reflexivity|]. split; [lia|]. split; [|split; [lia|]].
  - intros i Hir. rewrite Hi by lia. do 2 f_equal. lia.
  - intros j Hjr. rewrite Hj by lia. do 2 f_equal. lia.
Qed.

Lemma loadDatFile_reads_the_layout_witness :
  ∃ h, loadDatFile (Some twoEntryArchive) = Ok h ∧
       Header h = datHeaderAt twoEntryArchive ∧
       MFTHeaderOf h = mftHeaderAt twoEntryArchive (MftOffset (datHeaderAt twoEntryArchive)) ∧
       Z.of_nat (length (MFTDataOf h))
       = NumEntries (mftHeaderAt twoEntryArchive (MftOffset (datHeaderAt twoEntryArchive))) ∧
       (∀ i, 0 ≤ i < NumEntries (mftHeaderAt twoEntryArchive
                                    (MftOffset (datHeaderAt twoEntryArchive))) →
             MFTDataOf h !! Z.to_nat i
             = Some (mftDataAt twoEntryArchive
                       (MftOffset (datHeaderAt twoEntryArchive) + 24 + 24 * i))) ∧
       Z.of_nat (length (MFTIndexDataOf h))
       = Size (mftDataAt twoEntryArchive
                 (MftOffset (datHeaderAt twoEntryArchive) + 24 + 24)) / 8 ∧
       (∀ j, 0 ≤ j < Size (mftDataAt twoEntryArchive
                             (MftOffset (datHeaderAt twoEntryArchive) + 24 + 24)) / 8 →
             MFTIndexDataOf h !! Z.to_nat j
             = Some (mftIndexDataAt twoEntryArchive
                       (Offset (mftDataAt twoEntryArchive
                                  (MftOffset (datHeaderAt twoEntryArchive) + 24 + 24))
                        + 8 * j))).
Proof.
  apply (loadDatFile_reads_the_layout twoEntryArchive); vm_compute; congruence.
Defined.

Example twoEntryArchive_layout :
  datHeaderAt twoEntryArchive = mkDatHeader 0x97 [x41; x4e; x1a] 40 0 0 0 0 40 72 0 ∧
  mftHeaderAt twoEntryArchive 40 = mkMFTHeader mftMagic 0 2 0 0 ∧
  mftDataAt twoEntryArchive (40 + 24 + 24) = mkMFTData 112 16 0 0 0 0 ∧
  mftIndexDataAt twoEntryArchive (112 + 8) = mkMFTIndexData 6 2.
Proof. repeat split; reflexivity. Qed.

Lemma i64_small (z : Z) : 0 ≤ z < 2 ^ 63 → i64 z = z.
Proof. intros H. unfold i64. rewrite Z.mod_small; lia. Qed.


(** The buffer [extractMFTData] fills for an entry that is not flagged
    compressed. *)
Lemma extractEntry_uncompressed (bytes : list byte) (mftEntry : MFTData) :
  0 ≤ Offset mftEntry < 2 ^ 63 → 0 ≤ Size mftEntry → CompressionFlag mftEntry = 0 →
  Size mftEntry = 0 ∨ Offset mftEntry < Z.of_nat (length bytes) →
  extractEntry (Some bytes) mftEntry
  = Ok (bytesAt bytes (Offset mftEntry) (Z.to_nat (Size mftEntry))
        ++ replicate (Z.to_nat (Size mftEntry)
                      - length (bytesAt bytes (Offset mftEntry) (Z.to_nat (Size mftEntry))))
                     x00).
Proof.
  intros Hoff Hsize Hflag Hcase. unfold extractEntry, fileSeek.
  rewrite i64_small by lia.
  destruct (Offset mftEntry <? 0) eqn:Q; [lia|].
  unfold fileRead. rewrite remaining_at by lia. cbn [contents cursor].
  rewrite length_replicate.
  set (size := Z.to_nat (Size mftEntry)).
  fold (bytesAt bytes (Offset mftEntry) size).
  set (available := bytesAt bytes (Offset mftEntry) size).
  rewrite drop_replicate.
  assert ((negb (size =? 0)%nat && (length available =? 0)%nat) = false) as ->.
  { destruct Hcase as [Hz|Hin].
    - assert (size = 0%nat) as -> by (unfold size; lia). reflexivity.
    - destruct (size =? 0)%nat eqn:E; [reflexivity|]. cbn [negb andb].
      apply Nat.eqb_neq in E. apply Nat.eqb_neq.
      unfold available, bytesAt. rewrite length_take, length_drop. lia. }
  rewrite Hflag. reflexivity.
Qed.



Example extractEntry_samples :
  extractEntry (Some sampleDisk) (mkMFTData 4 5 0 0 0 0)
    = Ok ["e"; "f"; x00; x00; x00]%byte ∧
  extractEntry (Some sampleDisk) (mkMFTData 6 5 0 0 0 0) = Error ErrRead ∧
  extractEntry (Some sampleDisk) (mkMFTData 6 0 0 0 0 0) = Ok [] ∧
  extractEntry (Some sampleDisk) (mkMFTData (2 ^ 63) 1 0 0 0 0) = Error ErrSeek ∧
  extractEntry None (mkMFTData 0 1 0 0 0 0) = Error ErrOpen.
Proof. repeat split; reflexivity. Qed.

Lemma findIndex_by_base_id (table : list MFTIndexData) (number : Z) :
  findIndex table number false
  = if existsb (λ e, BaseID e =? number) table then number else -1.
Proof.
  induction table as [|e table IH]; [reflexivity|].
  cbn [findIndex existsb andb negb orb].
  destruct (BaseID e =? number) eqn:Q; [|exact IH].
  cbn [orb]. lia.
Qed.

(** [X15].  A lookup by base id ([isFileID = false], the only kind [main]
    makes) uses the index table as a membership test only: when some
    record has the base id [number], the entry read is
    [MFTData[number - 1]], whatever file ids the table holds and wherever
    the record stands; when none has, the result is [MFT entry not found]. *)
Theorem extractMFTData_by_base_id
    (disk : option (list byte)) (datFile : DatFile) (number : Z) :
  0 ≤ number →
  extractMFTData disk datFile number false
  = if existsb (λ e, BaseID e =? number) (MFTIndexDataOf datFile)
    then mftEntry ← load (MFTDataOf datFile) (number - 1); extractEntry disk mftEntry
    else Error ErrNotFound.
Proof.
  intros Hn. unfold extractMFTData. cbv zeta. rewrite findIndex_by_base_id.
  destruct (existsb _ _); [|reflexivity].
  destruct (number =? -1) eqn:Q; [lia|]. reflexivity.
Qed.

Lemma extractMFTData_by_base_id_witness :
  0 ≤ 2 ∧
  extractMFTData (Some sampleDisk) sampleHandle 2 false
  = if existsb (λ e, BaseID e =? 2) (MFTIndexDataOf sampleHandle)
    then mftEntry ← load (MFTDataOf sampleHandle) (2 - 1);
         extractEntry (Some sampleDisk) mftEntry
    else Error ErrNotFound.
Proof.
  split; [lia|]. apply (extractMFTData_by_base_id (Some sampleDisk) sampleHandle 2). lia.
Defined.

Lemma digitOf_range (c : Ascii.ascii) (d : Z) : digitOf c = Some d → 0 ≤ d ≤ 9.
Proof.
  unfold digitOf. cbv zeta.
  destruct ((48 <=? Z.of_N (Ascii.N_of_ascii c)) && (Z.of_N (Ascii.N_of_ascii c) <=? 57)) eqn:Q;
    [|discriminate].
  intros [= <-]. apply andb_prop in Q. lia.
Qed.

Lemma parseDigits_range (s : String.string) :
  ∀ n v, 0 ≤ n < 2 ^ 32 → parseDigits s n = Some v → 0 ≤ v < 2 ^ 32.
Proof.
  induction s as [|c s IH]; intros n v Hn H; cbn [parseDigits] in H.
  - injection H as <-. exact Hn.
  - destruct (digitOf c) as [d|] eqn:Hd; [|discriminate H].
    apply digitOf_range in Hd. cbv zeta in H.
    destruct (2 ^ 32 - 1 <? n * 10 + d) eqn:Q; [discriminate H|].
    apply (IH (n * 10 + d)); [lia|exact H].
Qed.

Lemma parseUint32_range (s : String.string) (v : Z) :
  parseUint32 s = Some v → 0 ≤ v < 2 ^ 32.
Proof.
  destruct s as [|c s]; [discriminate|]. unfold parseUint32.
  apply parseDigits_range. lia.
Qed.

(** [X16].  What [main] dumps.  With the number [n] of an entry on the
    command line, an archive that loads, an index record with the base id
    [n], and an entry [n - 1] that is not flagged compressed and starts
    inside the file: [main] panics on [data[:128]] when the entry has fewer
    than 128 bytes, and otherwise dumps the 128 bytes of the file at the
    offset of the entry.  The older [main] does what this one does for the
    argument 16. *)
Theorem main_dumps_first_128_bytes_of_entry
    (prog arg : String.string) (more : list String.string) (bytes : list byte)
    (n : Z) (datFile : DatFile) (mftEntry : MFTData) :
  parseUint32 arg = Some n →
  loadDatFile (Some bytes) = Ok datFile →
  existsb (λ e, BaseID e =? n) (MFTIndexDataOf datFile) = true → 1 ≤ n →
  MFTDataOf datFile !! Z.to_nat (n - 1) = Some mftEntry →
  CompressionFlag mftEntry = 0 → 0 ≤ Size mftEntry →
  0 ≤ Offset mftEntry < 2 ^ 63 → Offset mftEntry < Z.of_nat (length bytes) →
  (Size mftEntry < 128 → main (prog :: arg :: more) (Some bytes) = Panic) ∧
  (128 ≤ Size mftEntry → Offset mftEntry + 128 ≤ Z.of_nat (length bytes) →
   main (prog :: arg :: more) (Some bytes)
   = Ok (PrintedDump (bytesAt bytes (Offset mftEntry) 128))) ∧
  mainLocalDat (Some bytes) = main [prog; "16"%string] (Some bytes).
Proof.
  intros Hparse Hload Hfound Hn Hentry Hflag Hsize Hoff Hin.
  pose proof (parseUint32_range _ _ Hparse) as Hrange.
  assert (main (prog :: arg :: more) (Some bytes)
          = if Z.of_nat (length (bytesAt bytes (Offset mftEntry) (Z.to_nat (Size mftEntry))
                                 ++ replicate (Z.to_nat (Size mftEntry)
                                    - length (bytesAt bytes (Offset mftEntry)
                                                      (Z.to_nat (Size mftEntry)))) x00))
               <? 128
            then Panic
            else Ok (PrintedDump
                       (take 128 (bytesAt bytes (Offset mftEntry) (Z.to_nat (Size mftEntry))
                                  ++ replicate (Z.to_nat (Size mftEntry)
                                     - length (bytesAt bytes (Offset mftEntry)
                                                       (Z.to_nat (Size mftEntry)))) x00))))
    as Hmain.
  { unfold main. rewrite Hparse, Hload.
    assert (u32 n = n) as -> by (apply Z.mod_small; lia).
    unfold extractMFTData. cbv zeta. rewrite findIndex_by_base_id, Hfound.
    destruct (n =? -1) eqn:Q; [lia|].
    assert (load (MFTDataOf datFile) (n - 1) = Ok mftEntry) as ->
      by (apply load_Ok; split; [lia|exact Hentry]).
    cbn [mbind outcome_bind].
    rewrite extractEntry_uncompressed by (assumption || lia). reflexivity. }
  assert (Z.of_nat (length (bytesAt bytes (Offset mftEntry) (Z.to_nat (Size mftEntry))
                            ++ replicate (Z.to_nat (Size mftEntry)
                               - length (bytesAt bytes (Offset mftEntry)
                                                 (Z.to_nat (Size mftEntry)))) x00))
          = Size mftEntry) as Hlen.
  { rewrite length_app, length_replicate. unfold bytesAt.
    rewrite length_take, length_drop. lia. }
  rewrite Hlen in Hmain.
  split; [|split].
  - intros Hshort. rewrite Hmain. destruct (Size mftEntry <? 128) eqn:Q; [reflexivity|lia].
  - intros Hlong Hfit. rewrite Hmain. destruct (Size mftEntry <? 128) eqn:Q; [lia|].
    do 2 f_equal. unfold bytesAt.
    rewrite take_app_le by (rewrite length_take, length_drop; lia).
    rewrite take_take. f_equal. lia.
  - unfold mainLocalDat, main.
    change (parseUint32 "16"%string) with (Some 16). change (u32 16) with 16.
    reflexivity.
Qed.

Lemma main_dumps_first_128_bytes_of_entry_witness :
  (Size (mkMFTData 112 16 0 0 0 0) < 128 →
   main ["skritto"%string; "2"%string] (Some twoEntryArchive) = Panic) ∧
  (128 ≤ Size (mkMFTData 112 16 0 0 0 0) →
   Offset (mkMFTData 112 16 0 0 0 0) + 128 ≤ Z.of_nat (length twoEntryArchive) →
   main ["skritto"%string; "2"%string] (Some twoEntryArchive)
   = Ok (PrintedDump (bytesAt twoEntryArchive (Offset (mkMFTData 112 16 0 0 0 0)) 128))) ∧
  mainLocalDat (Some twoEntryArchive) = main ["skritto"%string; "16"%string] (Some twoEntryArchive).
Proof.
  apply (main_dumps_first_128_bytes_of_entry "skritto"%string "2"%string [] twoEntryArchive 2
           (mkDatFile (mkDatHeader 0x97 [x41; x4e; x1a] 40 0 0 0 0 40 72 0)
                      (mkMFTHeader mftMagic 0 2 0 0)
                      [mkMFTData 0 0 0 0 0 0; mkMFTData 112 16 0 0 0 0]
                      [mkMFTIndexData 5 1; mkMFTIndexData 6 2])
           (mkMFTData 112 16 0 0 0 0)).
  - vm_compute. reflexivity.
  - vm_compute. reflexivity.
  - reflexivity.
  - lia.
  - reflexivity.
  - reflexivity.
  - simpl. lia.
  - simpl. lia.
  - vm_compute. reflexivity.
Defined.

Example main_samples :
  main ["skritto"%string] (Some twoEntryArchive) = Ok PrintedUsage ∧
  main ["skritto"%string; "+2"%string] (Some twoEntryArchive)
    = Ok (PrintedParseError "+2"%string) ∧
  main ["skritto"%string; "4294967296"%string] (Some twoEntryArchive)
    = Ok (PrintedParseError "4294967296"%string) ∧
  main ["skritto"%string; "2"%string] None = Ok (PrintedLoadError ErrOpen) ∧
  main ["skritto"%string; "7"%string] (Some twoEntryArchive)
    = Ok (PrintedExtractError 7 ErrNotFound) ∧
  main ["skritto"%string; "2"%string] (Some twoEntryArchive) = Panic.
Proof. repeat split; vm_compute; reflexivity. Qed.

(** * Canonical codes *)

Lemma padded_length (l : list Z) :
  (length l ≤ Z.to_nat MAX_SYMBOL_VALUE)%nat → length (padded l) = Z.to_nat MAX_SYMBOL_VALUE.
Proof. intros H. unfold padded. rewrite length_app, length_replicate. lia. Qed.

Lemma padded_lookup_l (l : list Z) (i : nat) (x : Z) :
  l !! i = Some x → padded l !! i = Some x.
Proof. intros H. unfold padded. apply lookup_app_l_Some. exact H. Qed.

Lemma padded_lookup_r (l : list Z) (i : nat) :
  (length l ≤ i < Z.to_nat MAX_SYMBOL_VALUE)%nat → padded l !! i = Some 0.
Proof.
  intros H. unfold padded. rewrite lookup_app_r by lia.
  apply lookup_replicate_2. lia.
Qed.

(** Writing after the part that is filled. *)
Lemma store_padded (l : list Z) (x : Z) :
  (length l < Z.to_nat MAX_SYMBOL_VALUE)%nat →
  store (padded l) (Z.of_nat (length l)) x = Ok (padded (l ++ [x])).
Proof.
  intros H. apply store_Ok. rewrite padded_length by lia. split; [lia|].
  rewrite Nat2Z.id. unfold padded.
  rewrite length_app. cbn [length].
  replace (Z.to_nat MAX_SYMBOL_VALUE - length l)%nat
    with (S (Z.to_nat MAX_SYMBOL_VALUE - (length l + 1)))%nat by lia.
  cbn [replicate].
  rewrite insert_app_r_alt by lia. rewrite Nat.sub_diag. cbn [insert list_insert].
  rewrite <- app_assoc. reflexivity.
Qed.

Lemma chainOf_end (codeTab : list Z) (l : list Z) : chainOf codeTab (-1) l → l = [].
Proof. inversion 1; [reflexivity|lia]. Qed.

Lemma chainOf_symbols (codeTab : list Z) (sym : Z) (l : list Z) :
  chainOf codeTab sym l → Forall (λ x, 0 ≤ x < Z.of_nat (length codeTab)) l.
Proof.
  induction 1 as [|sym next rest Hne Hl _ IH]; [constructor|].
  constructor; [|exact IH].
  apply load_Ok in Hl as [H0 Hl]. apply lookup_lt_Some in Hl. lia.
Qed.

Lemma u32_sub_idemp (a b : Z) : u32 (u32 a - b) = u32 (a - b).
Proof. unfold u32. apply Zminus_mod_idemp_l. Qed.

(** The walk along a chain writes the chain after the symbols that are
    there and lowers the code once for every symbol. *)
Lemma walkChain_chain (codeTab : list Z) (sym : Z) (l : list Z) :
  chainOf codeTab sym l →
  ∀ (fuel : nat) (syms : list Z) (code : Z),
  Z.of_nat (length codeTab) ≤ 2 ^ 16 → 0 ≤ code < 2 ^ 32 →
  (length syms + length l ≤ Z.to_nat MAX_SYMBOL_VALUE)%nat → (length l ≤ fuel)%nat →
  walkChain fuel codeTab (padded syms) sym (Z.of_nat (length syms)) code
  = Ok (padded (syms ++ l), Z.of_nat (length syms) + Z.of_nat (length l),
        u32 (code - Z.of_nat (length l))).
Proof.
  induction 1 as [|sym next rest Hne Hl Hrest IH]; intros fuel syms code Hct Hcode Hfit Hfuel.
  - assert (u32 (code - Z.of_nat (length (@nil Z))) = code) as ->.
    { cbn [length]. rewrite Z.sub_0_r. apply Z.mod_small. lia. }
    rewrite app_nil_r. cbn [length]. rewrite Z.add_0_r.
    destruct fuel; reflexivity.
  - cbn [length] in Hfit, Hfuel. destruct fuel as [|fuel]; [lia|].
    cbn [walkChain]. destruct (sym =? -1) eqn:Q; [lia|].
    pose proof Hl as Hl'. apply load_Ok in Hl' as [Hs0 Hlk]. apply lookup_lt_Some in Hlk.
    assert (u16 sym = sym) as -> by (apply Z.mod_small; lia).
    rewrite store_padded by lia. cbn [mbind outcome_bind].
    rewrite Hl. cbn [mbind outcome_bind].
    assert (u16 (Z.of_nat (length syms) + 1) = Z.of_nat (length (syms ++ [sym]))) as ->.
    { rewrite length_app. cbn [length]. unfold MAX_SYMBOL_VALUE in Hfit.
      rewrite Nat2Z.inj_add. apply Z.mod_small. lia. }
    rewrite (IH fuel (syms ++ [sym]) (u32 (code - 1))); try lia.
    + rewrite <- app_assoc. cbn [app]. rewrite u32_sub_idemp.
      rewrite length_app. cbn [length]. do 2 f_equal; [f_equal; lia|f_equal; lia].
    + apply u32_range.
    + rewrite length_app. cbn [length]. lia.
Qed.

(** The table when the symbols [syms] and the classes [classes] are
    registered. *)

Lemma u32_double_succ (a : Z) : u32 (Z.shiftl (u32 a) 1 + 1) = u32 (2 * a + 1).
Proof.
  rewrite Z.shiftl_mul_pow2 by lia. unfold u32. change (2 ^ 1) with 2.
  rewrite Z.add_mod, Z.mul_mod, Z.mod_mod by lia.
  rewrite <- Z.mul_mod, <- Z.add_mod by lia. f_equal. lia.
Qed.

(** One pass of [createHuffmanTree], for the code length [L] with the
    chain [l]. *)
Lemma createStep_level (bitTab codeTab : list Z) (syms : list Z) (classes : list (Z * Z * Z))
    (L free first : Z) (l : list Z) :
  bitTab !! Z.to_nat L = Some first → chainOf codeTab first l →
  Z.of_nat (length codeTab) ≤ 2 ^ 16 →
  0 ≤ L < 32 → Z.of_nat (length l) ≤ free ≤ 2 ^ L →
  (length syms + length l ≤ Z.to_nat MAX_SYMBOL_VALUE)%nat →
  Z.of_nat (length classes) ≤ L →
  let n := Z.of_nat (length l) in
  let class := if n =? 0 then []
               else [((free - n) * 2 ^ (32 - L), L, Z.of_nat (length syms) + n - 1)] in
  createStep bitTab codeTab (partialTree syms classes) (u32 (free - 1)) L
             (Z.of_nat (length classes)) (Z.of_nat (length syms))
  = Ok (partialTree (syms ++ l) (classes ++ class), u32 (2 * (free - n) - 1),
        Z.of_nat (length (classes ++ class)), Z.of_nat (length (syms ++ l))).
Proof.
  intros Hfirst Hchain Hct HL Hfree Hfit Hcls n class.
  unfold createStep.
  assert (load bitTab L = Ok first) as -> by (apply load_Ok; split; [lia|exact Hfirst]).
  cbn [mbind outcome_bind].
  destruct (first =? -1) eqn:Q.
  - assert (first = -1) as -> by lia. apply chainOf_end in Hchain. subst l.
    subst n class. cbn [length Z.of_nat Z.eqb]. rewrite !app_nil_r.
    cbn [mbind outcome_bind]. rewrite u32_double_succ.
    replace (2 * (free - Z.of_nat 0) - 1) with (2 * (free - 1) + 1) by (simpl; lia).
    reflexivity.
  - assert (l ≠ []) as Hne by (inversion Hchain; [lia|discriminate]).
    assert (0 < n) as Hn by (subst n; destruct l; [congruence|cbn [length]; lia]).
    cbn [partialTree SymbolValues CompressedCodes BitsLength SymbolValueOffset].
    unfold MAX_SYMBOL_VALUE in *.
    rewrite (walkChain_chain codeTab first l Hchain chainFuel syms (u32 (free - 1)));
      [|lia|apply u32_range|unfold MAX_SYMBOL_VALUE; lia|unfold chainFuel, MAX_SYMBOL_VALUE; lia].
    cbn [mbind outcome_bind]. fold n.
    rewrite u32_sub_idemp.
    assert (0 < 2 ^ L) as HpL by (apply Z.pow_pos_nonneg; lia).
    assert (0 < 2 ^ (32 - L)) as HpR by (apply Z.pow_pos_nonneg; lia).
    assert (2 ^ L * 2 ^ (32 - L) = 2 ^ 32) as Hsplit
      by (rewrite <- Z.pow_add_r by lia; f_equal; lia).
    assert (u32 (Z.shiftl (u32 (u32 (free - 1 - n) + 1)) (u8 (32 - L)))
            = (free - n) * 2 ^ (32 - L)) as ->.
    { assert (u8 (32 - L) = 32 - L) as -> by (apply Z.mod_small; lia).
      assert (u32 (u32 (free - 1 - n) + 1) = free - n) as ->.
      { unfold u32. rewrite Z.add_mod_idemp_l by lia.
        replace (free - 1 - n + 1) with (free - n) by lia. apply Z.mod_small. nia. }
      rewrite Z.shiftl_mul_pow2 by lia. apply Z.mod_small. nia. }
    assert ((length classes < Z.to_nat 285)%nat) as Hc285 by lia.
    rewrite <- (length_map (λ c : Z * Z * Z, c.1.1) classes) at 1.
    rewrite store_padded by (rewrite length_map; exact Hc285).
    cbn [mbind outcome_bind].
    rewrite <- (length_map (λ c : Z * Z * Z, c.1.2) classes) at 1.
    rewrite store_padded by (rewrite length_map; exact Hc285).
    cbn [mbind outcome_bind].
    rewrite <- (length_map (λ c : Z * Z * Z, c.2) classes) at 1.
    rewrite store_padded by (rewrite length_map; exact Hc285).
    cbn [mbind outcome_bind].
    assert (u16 (Z.of_nat (length syms) + n - 1) = Z.of_nat (length syms) + n - 1) as ->
      by (apply Z.mod_small; lia).
    assert (u16 (Z.of_nat (length classes) + 1) = Z.of_nat (length classes) + 1) as ->
      by (apply Z.mod_small; lia).
    rewrite u32_double_succ.
    subst class. destruct (n =? 0) eqn:Qn; [lia|].
    unfold partialTree. rewrite !map_app. cbn [map fst snd].
    rewrite !length_app. cbn [length]. rewrite !Nat2Z.inj_add.
    replace (2 * (free - n) - 1) with (2 * (free - 1 - n) + 1) by lia.
    fold n. change (Z.of_nat 1) with 1. reflexivity.
Qed.

Lemma createLoop_levels (bitTab codeTab : list Z) :
  ∀ (rest : list (list Z)) (L free : Z) (syms : list Z) (classes : list (Z * Z * Z)),
  Forall2 (chainOf codeTab) (drop (Z.to_nat L) bitTab) rest →
  Z.of_nat (length codeTab) ≤ 2 ^ 16 →
  0 ≤ L → L + Z.of_nat (length rest) ≤ 32 → 0 ≤ free ≤ 2 ^ L → fits rest free →
  (length syms + length (concat rest) ≤ Z.to_nat MAX_SYMBOL_VALUE)%nat →
  Z.of_nat (length classes) ≤ L →
  createLoop (length rest) bitTab codeTab (partialTree syms classes) (u32 (free - 1)) L
             (Z.of_nat (length classes)) (Z.of_nat (length syms))
  = Ok (partialTree (syms ++ concat rest)
                    (classes ++ classesOf rest L free (Z.of_nat (length syms)))).
Proof.
  induction rest as [|l rest IH]; intros L free syms classes Hch Hct HL0 HL Hfree Hfits Hfit Hcls.
  - cbn [length createLoop concat classesOf]. rewrite !app_nil_r. reflexivity.
  - cbn [length] in HL. cbn [concat] in Hfit. rewrite length_app in Hfit.
    destruct (drop (Z.to_nat L) bitTab) as [|first tl] eqn:Hdrop; [inversion Hch|].
    apply Forall2_cons in Hch as [Hchain Hrest].
    assert (bitTab !! Z.to_nat L = Some first) as Hfirst.
    { rewrite <- (Nat.add_0_r (Z.to_nat L)), <- lookup_drop, Hdrop. reflexivity. }
    assert (drop (Z.to_nat (L + 1)) bitTab = tl) as Hdrop'.
    { replace (Z.to_nat (L + 1)) with (Z.to_nat L + 1)%nat by lia.
      rewrite <- drop_drop, Hdrop. reflexivity. }
    unfold fits in Hfits. cbn [freeCodes] in Hfits.
    apply Forall2_cons in Hfits as [Hn Hfits'].
    cbn [length createLoop].
    rewrite (createStep_level bitTab codeTab syms classes L free first l Hfirst Hchain Hct);
      [|lia|lia|lia|lia].
    cbn [mbind outcome_bind]. cbv zeta.
    assert (u8 (L + 1) = L + 1) as -> by (apply Z.mod_small; lia).
    set (n := Z.of_nat (length l)) in *.
    set (class := if n =? 0 then []
                  else [((free - n) * 2 ^ (32 - L), L, Z.of_nat (length syms) + n - 1)]).
    replace (2 * (free - n) - 1) with (2 * (free - n) - 1) by reflexivity.
    assert (Z.of_nat (length class) ≤ 1) as Hclass
      by (unfold class; destruct (n =? 0); cbn [length]; lia).
    rewrite (IH (L + 1) (2 * (free - n)) (syms ++ l) (classes ++ class)).
    + cbn [concat classesOf]. fold n. fold class.
      rewrite <- !app_assoc. rewrite length_app, Nat2Z.inj_add. fold n. reflexivity.
    + rewrite Hdrop'. exact Hrest.
    + exact Hct.
    + lia.
    + lia.
    + rewrite Z.pow_add_r by lia. change (2 ^ 1) with 2. lia.
    + exact Hfits'.
    + rewrite length_app. lia.
    + rewrite length_app, Nat2Z.inj_add. lia.
Qed.

(** [createHuffmanTree] builds the table of the canonical code. *)
Lemma createHuffmanTree_canonical (bitTab codeTab : list Z) (levels : list (list Z)) :
  length bitTab = Z.to_nat MAX_CODE_BITS_LENGTH →
  Z.of_nat (length codeTab) ≤ 2 ^ 16 →
  Forall2 (chainOf codeTab) bitTab levels →
  fits levels 1 →
  (length (concat levels) ≤ Z.to_nat MAX_SYMBOL_VALUE)%nat →
  createHuffmanTree emptyTree bitTab codeTab = Ok (canonicalTree levels).
Proof.
  intros Hbt Hct Hch Hfits Hcount.
  pose proof (Forall2_length _ _ _ Hch) as Hlen.
  assert (Z.of_nat (length levels) = 32) as H32
    by (rewrite <- Hlen, Hbt; reflexivity).
  unfold createHuffmanTree. rewrite <- Hbt, Hlen.
  assert (0 ≤ 1 ≤ 2 ^ 0) as Hfree by (simpl; lia).
  assert (Z.of_nat (length (@nil (Z * Z * Z))) ≤ 0) as Hcls by (simpl; lia).
  assert (0 + Z.of_nat (length levels) ≤ 32) as HL by lia.
  exact (createLoop_levels bitTab codeTab levels 0 1 [] [] Hch Hct (Z.le_refl 0) HL
           Hfree Hfits Hcount Hcls).
Qed.

Lemma fits_cons (l : list Z) (rest : list (list Z)) (free : Z) :
  fits (l :: rest) free ↔
  Z.of_nat (length l) ≤ free ∧ fits rest (2 * (free - Z.of_nat (length l))).
Proof. unfold fits. cbn [freeCodes]. rewrite Forall2_cons. reflexivity. Qed.

Lemma freeCodes_length (levels : list (list Z)) (free : Z) :
  length (freeCodes levels free) = length levels.
Proof.
  revert free. induction levels as [|l rest IH]; intros free; cbn [freeCodes length];
    [reflexivity | rewrite IH; reflexivity].
Qed.

(** The class of a length that has symbols: where it is in the table, and
    that every class before it starts above its codes. *)
Lemma classesOf_level (rest : list (list Z)) :
  ∀ (L free cum : Z) (j : nat) (l : list Z) (f : Z),
  0 ≤ free → fits rest free →
  rest !! j = Some l → freeCodes rest free !! j = Some f → l ≠ [] →
  let n := Z.of_nat (length l) in
  let Lj := L + Z.of_nat j in
  let before := Z.of_nat (length (concat (take j rest))) in
  n ≤ f ∧ f ≤ free * 2 ^ Z.of_nat j ∧
  ∃ i : nat,
    classesOf rest L free cum !! i
      = Some ((f - n) * 2 ^ (32 - Lj), Lj, cum + before + n - 1) ∧
    (Lj ≤ 32 → ∀ (i' : nat) c, (i' < i)%nat → classesOf rest L free cum !! i' = Some c →
       f * 2 ^ (32 - Lj) ≤ c.1.1).
Proof.
  induction rest as [|l0 rest IH]; intros L free cum j l f Hfree Hfits Hj Hf Hl; [discriminate|].
  apply fits_cons in Hfits as [Hn0 Hfits].
  destruct j as [|j]; cbn [lookup list_lookup freeCodes] in Hj, Hf; cbv zeta.
  - injection Hj as ->. injection Hf as ->.
    cbn [take concat length classesOf]. rewrite !Z.add_0_r.
    split; [exact Hn0|]. split; [change (Z.of_nat 0) with 0; rewrite Z.pow_0_r; lia|].
    exists 0%nat.
    destruct (Z.of_nat (length l) =? 0) eqn:E;
      [apply Z.eqb_eq in E; destruct l; [congruence | cbn [length] in E; lia]|].
    split; [reflexivity|]. intros _ i' c Hi'. lia.
  - destruct (IH (L + 1) (2 * (free - Z.of_nat (length l0))) (cum + Z.of_nat (length l0))
                j l f ltac:(lia) Hfits Hj Hf Hl) as (Hn & Hfree' & i & Hi & Hbefore).
    split; [exact Hn|].
    assert (f ≤ free * 2 ^ Z.of_nat (S j)) as Hf2.
    { rewrite Nat2Z.inj_succ, Z.pow_succ_r by lia.
      pose proof (Z.pow_pos_nonneg 2 (Z.of_nat j) ltac:(lia) ltac:(lia)). nia. }
    split; [exact Hf2|].
    cbn [take concat classesOf]. rewrite length_app, Nat2Z.inj_add.
    replace (L + Z.of_nat (S j)) with (L + 1 + Z.of_nat j) by lia.
    replace (cum + (Z.of_nat (length l0) + Z.of_nat (length (concat (take j rest)))))
      with (cum + Z.of_nat (length l0) + Z.of_nat (length (concat (take j rest)))) by lia.
    destruct (Z.of_nat (length l0) =? 0) eqn:E.
    + exists i. cbn [app]. split; [exact Hi | exact Hbefore].
    + exists (S i). cbn [app lookup list_lookup]. split; [exact Hi|].
      intros HL i' c Hi' Hc. destruct i' as [|i'].
      * cbn [lookup list_lookup] in Hc. injection Hc as <-. cbn [fst].
        replace (32 - L) with (32 - (L + 1 + Z.of_nat j) + (Z.of_nat j + 1)) by lia.
        rewrite Z.pow_add_r by lia. rewrite Z.pow_add_r by lia. change (2 ^ 1) with 2.
        pose proof (Z.pow_pos_nonneg 2 (32 - (L + 1 + Z.of_nat j)) ltac:(lia) ltac:(lia)).
        nia.
      * cbn [lookup list_lookup] in Hc. apply (Hbefore HL i' c); [lia | exact Hc].
Qed.

(** Where the symbols of a length are in [SymbolValues]. *)
Lemma concat_level (rest : list (list Z)) (j k : nat) (l : list Z) (sym : Z) :
  rest !! j = Some l → l !! k = Some sym →
  concat rest !! (length (concat (take j rest)) + k)%nat = Some sym.
Proof.
  revert j. induction rest as [|l0 rest IH]; intros j Hj Hk; [discriminate|].
  destruct j as [|j]; cbn [lookup list_lookup] in Hj.
  - injection Hj as ->. cbn [take concat length]. apply lookup_app_l_Some. exact Hk.
  - cbn [take concat]. rewrite length_app, <- Nat.add_assoc.
    rewrite lookup_app_r by lia.
    replace (length l0 + (length (concat (take j rest)) + k) - length l0)%nat
      with (length (concat (take j rest)) + k)%nat by lia.
    apply IH; assumption.
Qed.

Lemma classesOf_length (rest : list (list Z)) (L free cum : Z) :
  (length (classesOf rest L free cum) ≤ length rest)%nat.
Proof.
  revert L free cum. induction rest as [|l rest IH]; intros L free cum; cbn [classesOf length];
    [lia|].
  rewrite length_app. specialize (IH (L + 1) (2 * (free - Z.of_nat (length l)))
                                     (cum + Z.of_nat (length l))).
  destruct (Z.of_nat (length l) =? 0); cbn [length]; lia.
Qed.

Lemma load_padded (l : list Z) (i : nat) (x : Z) :
  l !! i = Some x → load (padded l) (Z.of_nat i) = Ok x.
Proof.
  intros H. apply load_Ok. split; [lia|]. rewrite Nat2Z.id. apply padded_lookup_l, H.
Qed.

Lemma length_concat_ge (levels : list (list Z)) (L : nat) (l : list Z) :
  levels !! L = Some l → (length l ≤ length (concat levels))%nat.
Proof.
  revert L. induction levels as [|l0 rest IH]; intros L HL; [discriminate|].
  cbn [concat]. rewrite length_app. destruct L as [|L]; cbn [lookup list_lookup] in HL.
  - injection HL as ->. lia.
  - specialize (IH L HL). lia.
Qed.

(** [readCode] on the table of a canonical code. *)
Lemma readCode_canonical (levels : list (list Z)) (s s1 : State)
    (L k : nat) (l : list Z) (free sym : Z) :
  length levels = Z.to_nat MAX_CODE_BITS_LENGTH →
  fits levels 1 →
  (length (concat levels) ≤ Z.to_nat MAX_SYMBOL_VALUE)%nat →
  CompressedCodes (canonicalTree levels) !! 0%nat ≠ Some 0 →
  levels !! L = Some l → freeCodes levels 1 !! L = Some free → l !! k = Some sym →
  needBits s 32 = Ok s1 →
  readBits s1 32 / 2 ^ (32 - Z.of_nat L) = free - 1 - Z.of_nat k →
  readCode (canonicalTree levels) s = (s2 ← dropBits s1 (Z.of_nat L); Ok (sym, s2)).
Proof.
  intros Hlen Hfits Hcount Hc0 HL Hfree Hk Hneed Hbits.
  assert (l ≠ []) as Hl by (intros ->; discriminate).
  pose proof (lookup_lt_Some _ _ _ HL) as HL32. rewrite Hlen in HL32.
  change (Z.to_nat MAX_CODE_BITS_LENGTH) with 32%nat in HL32.
  pose proof (lookup_lt_Some _ _ _ Hk) as Hkn.
  destruct (classesOf_level levels 0 1 0 L l free ltac:(lia) Hfits HL Hfree Hl)
    as (Hn & Hf & i & Hi & Hbefore).
  rewrite Z.add_0_l in Hi, Hbefore. rewrite Z.add_0_l in Hi. rewrite Z.mul_1_l in Hf.
  set (n := Z.of_nat (length l)) in *.
  set (before := length (concat (take L levels))) in *.
  set (P := 2 ^ (32 - Z.of_nat L)) in *.
  assert (0 < P) as HP by (apply Z.pow_pos_nonneg; lia).
  assert (2 ^ Z.of_nat L * P = 2 ^ 32) as HLP.
  { unfold P. rewrite <- Z.pow_add_r by lia. f_equal. lia. }
  set (b := readBits s1 32) in *.
  assert (P * (free - 1 - Z.of_nat k) ≤ b < P * (free - Z.of_nat k)) as Hb.
  { pose proof (Z.div_mod b P ltac:(lia)) as Hdm.
    pose proof (Z.mod_pos_bound b P HP) as Hmod. rewrite Hbits in Hdm. lia. }
  set (mc := (free - n) * P) in *.
  assert (mc ≤ b) as Hmc by (unfold mc; nia).
  assert (b < free * P) as Hbf by nia.
  assert (b < 2 ^ 32) as Hb32 by nia.
  assert (0 ≤ mc) as Hmc0 by (unfold mc; nia).
  pose proof (concat_level levels L k l sym HL Hk) as Hsym. fold before in Hsym.
  pose proof (lookup_lt_Some _ _ _ Hsym) as Hsymlt.
  change (Z.to_nat MAX_SYMBOL_VALUE) with 285%nat in Hcount.
  assert ((b - mc) / P = n - 1 - Z.of_nat k) as Hidx.
  { unfold mc. replace (b - (free - n) * P) with (b + (- (free - n)) * P) by lia.
    rewrite Z.div_add by lia. fold P in Hbits. lia. }
  unfold readCode. cbn [CompressedCodes BitsLength SymbolValueOffset SymbolValues canonicalTree].
  set (classes := classesOf levels 0 1 0) in *.
  cbn [CompressedCodes canonicalTree] in Hc0. fold classes in Hc0.
  destruct (padded (map (λ c, c.1.1) classes) !! 0%nat) as [c0|] eqn:E0.
  2: { apply lookup_ge_None in E0. unfold padded in E0.
       rewrite length_app, length_replicate in E0.
       change (Z.to_nat MAX_SYMBOL_VALUE) with 285%nat in E0. lia. }
  assert (c0 ≠ 0) as Hc0' by congruence.
  rewrite (proj2 (load_Ok _ 0 c0) (conj (Z.le_refl 0) E0)).
  cbn [mbind outcome_bind].
  destruct (c0 =? 0) eqn:Ec0; [lia|].
  rewrite Hneed. cbn [mbind outcome_bind]. cbv zeta. fold b.
  assert (map (λ c, c.1.1) classes !! i = Some mc) as Hcode
    by (rewrite list_lookup_fmap, Hi; reflexivity).
  assert (map (λ c, c.1.2) classes !! i = Some (Z.of_nat L)) as Hlen'
    by (rewrite list_lookup_fmap, Hi; reflexivity).
  assert (map (λ c, c.2) classes !! i = Some (Z.of_nat before + n - 1)) as Hoff
    by (rewrite list_lookup_fmap, Hi; reflexivity).
  assert (scanCodes (padded (map (λ c, c.1.1) classes)) b 0 = Ok (0 + Z.of_nat i)) as ->.
  { apply (scanCodes_first _ _ 0 i mc (padded_lookup_l _ _ _ Hcode) Hmc).
    intros j mj Hj Hmj.
    pose proof (lookup_lt_Some _ _ _ Hi) as Hilt.
    unfold padded in Hmj. rewrite lookup_app_l in Hmj by (rewrite length_map; lia).
    rewrite list_lookup_fmap in Hmj.
    destruct (classes !! j) as [c|] eqn:Ecj; [|discriminate Hmj].
    injection Hmj as <-.
    pose proof (Hbefore ltac:(lia) j c Hj Ecj). lia. }
  cbn [mbind outcome_bind]. rewrite Z.add_0_l.
  rewrite (load_padded _ _ _ Hlen'). cbn [mbind outcome_bind].
  rewrite (load_padded _ _ _ Hoff). cbn [mbind outcome_bind].
  rewrite (load_padded _ _ _ Hcode). cbn [mbind outcome_bind].
  assert (u16 (Z.of_nat before + n - 1
               - u16 (Z.shiftr (u32 (b - mc)) (u8 (32 - Z.of_nat L))))
          = Z.of_nat (before + k)) as ->.
  { assert (u32 (b - mc) = b - mc) as -> by (apply Z.mod_small; lia).
    assert (u8 (32 - Z.of_nat L) = 32 - Z.of_nat L) as -> by (apply Z.mod_small; lia).
    rewrite Z.shiftr_div_pow2 by lia. fold P. rewrite Hidx.
    assert (u16 (n - 1 - Z.of_nat k) = n - 1 - Z.of_nat k) as ->.
    { apply Z.mod_small. unfold n. pose proof (length_concat_ge levels L l HL). lia. }
    replace (Z.of_nat before + n - 1 - (n - 1 - Z.of_nat k))
      with (Z.of_nat (before + k)) by lia.
    apply Z.mod_small. lia. }
  rewrite (load_padded _ _ _ Hsym). cbn [mbind outcome_bind].
  reflexivity.
Qed.

(** Lengths without symbols give no class and double the free codes. *)
Lemma classesOf_empty_levels (n : nat) (rest : list (list Z)) :
  ∀ L free cum : Z,
  classesOf (replicate n [] ++ rest) L free cum
  = classesOf rest (L + Z.of_nat n) (free * 2 ^ Z.of_nat n) cum.
Proof.
  induction n as [|n IH]; intros L free cum.
  - cbn [replicate app]. change (Z.of_nat 0) with 0. rewrite Z.pow_0_r.
    f_equal; lia.
  - cbn [replicate app classesOf length]. change (Z.of_nat 0 =? 0) with true. cbn [app].
    rewrite IH. rewrite Nat2Z.inj_succ, Z.pow_succ_r by lia.
    change (Z.of_nat 0) with 0. f_equal; lia.
Qed.

(** A first length whose symbols take every code of that length gives a
    table that starts with the minimum code 0. *)
Lemma canonicalTree_full_level (L : nat) (l : list Z) (rest : list (list Z)) :
  Z.of_nat (length l) = 2 ^ Z.of_nat L →
  CompressedCodes (canonicalTree (replicate L [] ++ l :: rest)) !! 0%nat = Some 0.
Proof.
  intros Hfull. cbn [CompressedCodes canonicalTree].
  rewrite classesOf_empty_levels. cbn [classesOf].
  pose proof (Z.pow_pos_nonneg 2 (Z.of_nat L) ltac:(lia) ltac:(lia)) as Hpos.
  destruct (Z.of_nat (length l) =? 0) eqn:E; [apply Z.eqb_eq in E; lia|].
  rewrite Hfull. cbn [app map fst]. unfold padded. cbn [app lookup list_lookup].
  f_equal. lia.
Qed.

Lemma readCode_first_code_zero (t : HuffmanTree) (s : State) :
  CompressedCodes t !! 0%nat = Some 0 → readCode t s = Exit EmptyHuffmanTree.
Proof.
  intros H. unfold readCode.
  rewrite (proj2 (load_Ok _ 0 0) (conj (Z.le_refl 0) H)). reflexivity.
Qed.

(** ** Which windows are codes *)

Lemma leftover_bound (rest : list (list Z)) :
  ∀ free : Z, 0 ≤ free → fits rest free →
  0 ≤ leftover rest free ≤ free * 2 ^ Z.of_nat (length rest).
Proof.
  induction rest as [|l rest IH]; intros free Hfree Hfits; cbn [leftover length].
  - change (Z.of_nat 0) with 0. rewrite Z.pow_0_r. lia.
  - apply fits_cons in Hfits as [Hn Hfits].
    specialize (IH (2 * (free - Z.of_nat (length l))) ltac:(lia) Hfits).
    rewrite Nat2Z.inj_succ, Z.pow_succ_r by lia.
    pose proof (Z.pow_pos_nonneg 2 (Z.of_nat (length rest)) ltac:(lia) ltac:(lia)). nia.
Qed.

(** A window is below the left-over codes or starts with the code of one
    symbol. *)
Lemma levels_cover (rest : list (list Z)) :
  ∀ (L free b : Z),
  0 ≤ L → L + Z.of_nat (length rest) = 32 → 0 ≤ free → fits rest free →
  0 ≤ b < free * 2 ^ (32 - L) →
  b < leftover rest free ∨
  ∃ (j : nat) (l : list Z) (f : Z) (k : nat),
    rest !! j = Some l ∧ freeCodes rest free !! j = Some f ∧ (k < length l)%nat ∧
    b / 2 ^ (32 - (L + Z.of_nat j)) = f - 1 - Z.of_nat k.
Proof.
  induction rest as [|l rest IH]; intros L free b HL0 HL Hfree Hfits Hb; cbn [length] in HL.
  - left. cbn [leftover]. replace (32 - L) with 0 in Hb by lia. rewrite Z.pow_0_r in Hb. lia.
  - apply fits_cons in Hfits as [Hn Hfits]. cbn [leftover].
    set (n := Z.of_nat (length l)) in *.
    set (P := 2 ^ (32 - L)) in *.
    assert (0 < P) as HP by (apply Z.pow_pos_nonneg; lia).
    destruct (Z.lt_ge_cases b ((free - n) * P)) as [Hlow|Hhigh].
    + destruct (IH (L + 1) (2 * (free - n)) b ltac:(lia) ltac:(lia) ltac:(lia) Hfits)
        as [Hleft|(j & l' & f & k & Hj & Hf & Hk & Hq)].
      * replace (32 - (L + 1)) with (32 - L - 1) by lia.
        assert (P = 2 * 2 ^ (32 - L - 1)) as HP2.
        { unfold P. rewrite <- Z.pow_succ_r by lia. f_equal. lia. }
        lia.
      * left. exact Hleft.
      * right. exists (S j), l', f, k. cbn [lookup list_lookup freeCodes].
        repeat split; try assumption.
        rewrite <- Hq. do 2 f_equal. lia.
    + right. exists 0%nat, l, free, (Z.to_nat (free - 1 - b / P)).
      cbn [lookup list_lookup freeCodes]. rewrite Z.add_0_r. fold P.
      assert (free - n ≤ b / P) as Hq1 by (apply Z.div_le_lower_bound; lia).
      assert (b / P < free) as Hq2 by (apply Z.div_lt_upper_bound; lia).
      repeat split; try reflexivity; lia.
Qed.

(** Every class starts at or above the left-over codes. *)
Lemma classesOf_above_leftover (rest : list (list Z)) :
  ∀ (L free cum : Z) (c : Z * Z * Z),
  0 ≤ L → L + Z.of_nat (length rest) = 32 → 0 ≤ free → fits rest free →
  c ∈ classesOf rest L free cum → leftover rest free ≤ c.1.1.
Proof.
  induction rest as [|l rest IH]; intros L free cum c HL0 HL Hfree Hfits Hc;
    cbn [classesOf length] in *.
  - apply elem_of_nil in Hc. contradiction.
  - apply fits_cons in Hfits as [Hn Hfits]. cbn [leftover].
    apply elem_of_app in Hc as [Hc|Hc].
    + destruct (Z.of_nat (length l) =? 0); [apply elem_of_nil in Hc; contradiction|].
      apply list_elem_of_singleton in Hc. subst c. cbn [fst].
      pose proof (leftover_bound rest (2 * (free - Z.of_nat (length l))) ltac:(lia) Hfits) as Hb.
      replace (32 - L) with (Z.of_nat (length rest) + 1) by lia.
      rewrite Z.pow_add_r by lia. change (2 ^ 1) with 2. lia.
    + apply (IH (L + 1) (2 * (free - Z.of_nat (length l))) (cum + Z.of_nat (length l)) c);
        try assumption; lia.
Qed.

(** [readCode] on a window that is below every class of the table. *)
Lemma readCode_canonical_no_code (levels : list (list Z)) (s s1 : State) (sym : Z) :
  length levels = Z.to_nat MAX_CODE_BITS_LENGTH →
  fits levels 1 →
  (length (concat levels) ≤ Z.to_nat MAX_SYMBOL_VALUE)%nat →
  CompressedCodes (canonicalTree levels) !! 0%nat ≠ Some 0 →
  concat levels !! 0%nat = Some sym →
  needBits s 32 = Ok s1 →
  0 ≤ readBits s1 32 < leftover levels 1 →
  readCode (canonicalTree levels) s = (s2 ← dropBits s1 0; Ok (sym, s2)).
Proof.
  intros Hlen Hfits Hcount Hc0 Hsym Hneed Hb.
  change (Z.to_nat MAX_CODE_BITS_LENGTH) with 32%nat in Hlen.
  pose proof (leftover_bound levels 1 ltac:(lia) Hfits) as Hleft.
  rewrite Hlen in Hleft. change (1 * 2 ^ Z.of_nat 32) with (2 ^ 32) in Hleft.
  unfold readCode. cbn [CompressedCodes BitsLength SymbolValueOffset SymbolValues canonicalTree].
  set (classes := classesOf levels 0 1 0) in *.
  cbn [CompressedCodes canonicalTree] in Hc0. fold classes in Hc0.
  set (b := readBits s1 32) in *.
  pose proof (classesOf_length levels 0 1 0) as Hm. fold classes in Hm. rewrite Hlen in Hm.
  destruct (padded (map (λ c, c.1.1) classes) !! 0%nat) as [c0|] eqn:E0.
  2: { apply lookup_ge_None in E0. unfold padded in E0.
       rewrite length_app, length_replicate in E0.
       change (Z.to_nat MAX_SYMBOL_VALUE) with 285%nat in E0. lia. }
  assert (c0 ≠ 0) as Hc0' by congruence.
  rewrite (proj2 (load_Ok _ 0 c0) (conj (Z.le_refl 0) E0)).
  cbn [mbind outcome_bind].
  destruct (c0 =? 0) eqn:Ec0; [lia|].
  rewrite Hneed. cbn [mbind outcome_bind]. cbv zeta. fold b.
  set (m := length classes) in *.
  assert (∀ f : Z * Z * Z → Z, padded (map f classes) !! m = Some 0) as Hpad.
  { intros f. apply padded_lookup_r. rewrite length_map. fold m.
    change (Z.to_nat MAX_SYMBOL_VALUE) with 285%nat. lia. }
  assert (∀ f : Z * Z * Z → Z, load (padded (map f classes)) (Z.of_nat m) = Ok 0) as Hloads.
  { intros f. apply load_Ok. split; [lia|]. rewrite Nat2Z.id. apply Hpad. }
  assert (scanCodes (padded (map (λ c, c.1.1) classes)) b 0 = Ok (0 + Z.of_nat m)) as ->.
  { apply (scanCodes_first _ _ 0 m 0 (Hpad _)); [lia|].
    intros j mj Hj Hmj.
    unfold padded in Hmj. rewrite lookup_app_l in Hmj by (rewrite length_map; fold m; lia).
    rewrite list_lookup_fmap in Hmj.
    destruct (classes !! j) as [c|] eqn:Ecj; [|discriminate Hmj].
    injection Hmj as <-.
    pose proof (classesOf_above_leftover levels 0 1 0 c ltac:(lia) ltac:(lia) ltac:(lia) Hfits
                  (list_elem_of_lookup_2 _ _ _ Ecj)). lia. }
  cbn [mbind outcome_bind]. rewrite Z.add_0_l.
  rewrite !Hloads. cbn [mbind outcome_bind].
  assert (u16 (0 - u16 (Z.shiftr (u32 (b - 0)) (u8 (32 - 0)))) = Z.of_nat 0) as ->.
  { rewrite Z.sub_0_r. assert (u32 b = b) as -> by (apply Z.mod_small; lia).
    change (u8 (32 - 0)) with 32. rewrite Z.shiftr_div_pow2 by lia.
    rewrite Z.div_small by lia. reflexivity. }
  rewrite (load_padded _ _ _ Hsym). cbn [mbind outcome_bind].
  reflexivity.
Qed.

(** ** Filling the working tables *)

Lemma chainOf_nonneg (codeTab : list Z) (first : Z) (l : list Z) :
  chainOf codeTab first l → Forall (λ x, 0 ≤ x < Z.of_nat (length codeTab)) l.
Proof.
  induction 1 as [|sym next rest Hne Hload Hrest IH]; constructor; [|exact IH].
  apply load_Ok in Hload as [H0 Hl]. apply lookup_lt_Some in Hl. lia.
Qed.

(** A write outside a chain leaves the chain as it is. *)
Lemma chainOf_store (codeTab : list Z) (first : Z) (l : list Z) (sym v : Z) :
  chainOf codeTab first l → 0 ≤ sym → sym ∉ l →
  chainOf (<[Z.to_nat sym := v]> codeTab) first l.
Proof.
  intros H Hsym. induction H as [|x next rest Hne Hload Hrest IH]; intros Hnot.
  - constructor.
  - apply not_elem_of_cons in Hnot as [Hx Hnot].
    apply (chain_next _ x next rest Hne); [|apply IH, Hnot].
    apply load_Ok in Hload as [H0 Hl]. apply load_Ok. split; [exact H0|].
    rewrite list_lookup_insert_ne by lia. exact Hl.
Qed.

Lemma chains_store (codeTab bitTab : list Z) (levels : list (list Z)) (sym v : Z) :
  Forall2 (chainOf codeTab) bitTab levels → 0 ≤ sym → sym ∉ concat levels →
  Forall2 (chainOf (<[Z.to_nat sym := v]> codeTab)) bitTab levels.
Proof.
  intros H Hsym. induction H as [|first l bt lv Hc Hrest IH]; intros Hnot; constructor.
  - apply chainOf_store; [exact Hc | exact Hsym|].
    intros Hin. apply Hnot. cbn [concat]. apply elem_of_app. left. exact Hin.
  - apply IH. intros Hin. apply Hnot. cbn [concat]. apply elem_of_app. right. exact Hin.
Qed.

Lemma concat_insert_elem (levels : list (list Z)) (i : nat) (l l' : list Z) (x : Z) :
  levels !! i = Some l →
  x ∈ concat (<[i := l']> levels) → x ∈ l' ∨ x ∈ concat levels.
Proof.
  revert i. induction levels as [|l0 rest IH]; intros i Hi Hx; [discriminate|].
  destruct i as [|i]; cbn [lookup list_lookup insert list_insert concat] in *.
  - apply elem_of_app in Hx as [Hx|Hx]; [left; exact Hx|].
    right. apply elem_of_app. right. exact Hx.
  - apply elem_of_app in Hx as [Hx|Hx].
    + right. apply elem_of_app. left. exact Hx.
    + destruct (IH i Hi Hx) as [H|H]; [left; exact H|].
      right. apply elem_of_app. right. exact H.
Qed.

Lemma concat_insert_keeps (levels : list (list Z)) (i : nat) (l l' : list Z) (x : Z) :
  levels !! i = Some l → (x ∈ l → x ∈ l') →
  x ∈ concat levels → x ∈ concat (<[i := l']> levels).
Proof.
  revert i. induction levels as [|l0 rest IH]; intros i Hi Hsub Hx; [discriminate|].
  destruct i as [|i]; cbn [lookup list_lookup insert list_insert concat] in *.
  - injection Hi as ->. apply elem_of_app in Hx as [Hx|Hx]; apply elem_of_app; auto.
  - apply elem_of_app in Hx as [Hx|Hx]; apply elem_of_app; [left; exact Hx|].
    right. apply (IH i Hi Hsub Hx).
Qed.

Lemma level_in_concat (levels : list (list Z)) (i : nat) (l : list Z) (x : Z) :
  levels !! i = Some l → x ∈ l → x ∈ concat levels.
Proof.
  revert i. induction levels as [|l0 rest IH]; intros i Hi Hx; [discriminate|].
  destruct i as [|i]; cbn [lookup list_lookup concat] in *; apply elem_of_app.
  - injection Hi as ->. left. exact Hx.
  - right. apply (IH i Hi Hx).
Qed.

(** [fillTabsHelper] puts a new symbol at the head of the chain of its
    length. *)
Lemma fillTabsHelper_tabsOf (bits symbol : Z) (bitTab codeTab : list Z)
    (levels : list (list Z)) (l : list Z) :
  tabsOf bitTab codeTab levels →
  0 ≤ bits < MAX_CODE_BITS_LENGTH →
  0 ≤ symbol < MAX_SYMBOL_VALUE → symbol < Z.of_nat (length codeTab) →
  levels !! Z.to_nat bits = Some l →
  symbol ∉ concat levels →
  ∃ bitTab' codeTab',
    fillTabsHelper bits symbol bitTab codeTab = Ok (bitTab', codeTab') ∧
    length codeTab' = length codeTab ∧
    tabsOf bitTab' codeTab' (<[Z.to_nat bits := symbol :: l]> levels).
Proof.
  intros [Hch Hfresh] Hbits Hsym Hct Hl Hnew.
  destruct (Forall2_lookup_r _ _ _ _ _ Hch Hl) as (cur & Hcur & Hchain).
  pose proof (lookup_lt_Some _ _ _ Hcur) as Hlt.
  unfold fillTabsHelper.
  destruct (MAX_CODE_BITS_LENGTH <=? bits) eqn:E1; [lia|].
  destruct (MAX_SYMBOL_VALUE <=? symbol) eqn:E2; [lia|].
  rewrite (proj2 (load_Ok bitTab bits cur) (conj (proj1 Hbits) Hcur)).
  cbn [mbind outcome_bind].
  assert (store bitTab bits symbol = Ok (<[Z.to_nat bits := symbol]> bitTab)) as Hst
    by (apply store_Ok; split; [lia | reflexivity]).
  assert (∀ x, x ∉ concat (<[Z.to_nat bits := symbol :: l]> levels) →
            x ≠ symbol ∧ x ∉ concat levels) as Hout.
  { intros x Hx. split.
    - intros ->. apply Hx.
      eapply level_in_concat; [|left].
      apply list_lookup_insert_eq. apply lookup_lt_Some in Hl. exact Hl.
    - intros Hin. apply Hx.
      apply (concat_insert_keeps levels _ l (symbol :: l) x Hl); [right; assumption|exact Hin]. }
  destruct (cur =? -1) eqn:Ecur.
  - apply Z.eqb_eq in Ecur. subst cur. apply chainOf_end in Hchain. subst l.
    rewrite Hst. cbn [mbind outcome_bind].
    exists (<[Z.to_nat bits := symbol]> bitTab), codeTab. split; [reflexivity|].
    split; [reflexivity|]. split.
    + apply Forall2_insert; [exact Hch|].
      apply (chain_next _ symbol (-1) []); [lia | | constructor].
      apply Hfresh; [lia | exact Hnew].
    + intros x Hx Hnot. destruct (Hout x Hnot) as [_ Hnot'].
      apply Hfresh; assumption.
  - apply Z.eqb_neq in Ecur.
    assert (store codeTab symbol cur = Ok (<[Z.to_nat symbol := cur]> codeTab)) as Hsc
      by (apply store_Ok; split; [lia | reflexivity]).
    rewrite Hsc. cbn [mbind outcome_bind]. rewrite Hst. cbn [mbind outcome_bind].
    exists (<[Z.to_nat bits := symbol]> bitTab), (<[Z.to_nat symbol := cur]> codeTab).
    split; [reflexivity|]. split; [apply length_insert|]. split.
    + apply Forall2_insert; [apply chains_store; [exact Hch | lia | exact Hnew]|].
      apply (chain_next _ symbol cur l); [lia | |].
      * apply load_Ok. split; [lia|]. apply list_lookup_insert_eq. lia.
      * apply chainOf_store; [exact Hchain | lia|].
        intros Hin. apply Hnew. eapply level_in_concat; eassumption.
    + intros x Hx Hnot. rewrite length_insert in Hx.
      destruct (Hout x Hnot) as [Hne Hnot'].
      pose proof (Hfresh x Hx Hnot') as Hload.
      apply load_Ok in Hload as [H0 Hload]. apply load_Ok. split; [lia|].
      rewrite list_lookup_insert_ne by lia. exact Hload.
Qed.

(** One pass of the loop [for codeNumberSymbol > 0] does what
    [fillTabsHelper] does. *)
Lemma registerSymbols_step (n : nat) (bits r : Z) (bt ct : list Z) :
  0 ≤ bits < MAX_CODE_BITS_LENGTH → 0 ≤ r < MAX_SYMBOL_VALUE →
  registerSymbols (S n) bits r bt ct
  = ('(bt', ct') ← fillTabsHelper bits r bt ct; registerSymbols n bits (r - 1) bt' ct').
Proof.
  intros Hbits Hr. cbn [registerSymbols]. unfold fillTabsHelper.
  unfold MAX_CODE_BITS_LENGTH, MAX_SYMBOL_VALUE in *.
  destruct (32 <=? bits) eqn:E1; [lia|]. destruct (285 <=? r) eqn:E2; [lia|].
  rewrite !(i16_small r) by lia. rewrite (i16_small (r - 1)) by lia.
  destruct (load bt bits) as [cur| | | |]; cbn [mbind outcome_bind]; reflexivity.
Qed.

(** A run of [n] symbols of one length, from [r] downwards. *)
Lemma registerSymbols_tabsOf (bits : Z) :
  ∀ (n : nat) (r : Z) (bt ct : list Z) (levels : list (list Z)) (l : list Z),
  tabsOf bt ct levels → length ct = Z.to_nat MAX_SYMBOL_VALUE →
  0 ≤ bits < MAX_CODE_BITS_LENGTH →
  Z.of_nat n ≤ r + 1 → r < MAX_SYMBOL_VALUE →
  levels !! Z.to_nat bits = Some l →
  (∀ x, x ∈ concat levels → r < x) →
  ∃ bt' ct',
    registerSymbols n bits r bt ct = Ok (r - Z.of_nat n, bt', ct') ∧
    length ct' = Z.to_nat MAX_SYMBOL_VALUE ∧
    tabsOf bt' ct' (<[Z.to_nat bits := seqZ (r - Z.of_nat n + 1) (Z.of_nat n) ++ l]> levels).
Proof.
  induction n as [|n IH]; intros r bt ct levels l Htabs Hct Hbits Hn Hr Hl Habove.
  - exists bt, ct. cbn [registerSymbols]. change (Z.of_nat 0) with 0. rewrite Z.sub_0_r.
    split; [reflexivity|]. split; [exact Hct|].
    cbn [seqZ]. rewrite list_insert_id by exact Hl. exact Htabs.
  - rewrite registerSymbols_step by lia.
    assert (r ∉ concat levels) as Hnew by (intros Hin; specialize (Habove r Hin); lia).
    destruct (fillTabsHelper_tabsOf bits r bt ct levels l Htabs Hbits ltac:(lia)
                ltac:(rewrite Hct; unfold MAX_SYMBOL_VALUE in *; lia) Hl Hnew)
      as (bt1 & ct1 & Hfill & Hlen1 & Htabs1).
    rewrite Hfill. cbn [mbind outcome_bind].
    pose proof (lookup_lt_Some _ _ _ Hl) as Hlt.
    destruct (IH (r - 1) bt1 ct1 (<[Z.to_nat bits := r :: l]> levels) (r :: l) Htabs1
                ltac:(congruence) Hbits ltac:(lia) ltac:(lia)
                (list_lookup_insert_eq _ _ _ Hlt))
      as (bt' & ct' & Hrun & Hlen' & Htabs').
    { intros x Hx. destruct (concat_insert_elem levels _ l (r :: l) x Hl Hx) as [H|H].
      - apply elem_of_cons in H as [->|H]; [lia|].
        specialize (Habove x (level_in_concat levels _ l x Hl H)). lia.
      - specialize (Habove x H). lia. }
    exists bt', ct'. rewrite Hrun.
    replace (r - 1 - Z.of_nat n) with (r - Z.of_nat (S n)) by lia.
    split; [reflexivity|]. split; [exact Hlen'|].
    rewrite list_insert_insert_eq in Htabs'.
    rewrite seqZ_S.
    replace (r - Z.of_nat (S n) + 1 + Z.of_nat n) with r by lia.
    rewrite <- app_assoc. cbn [app].
    replace (r - Z.of_nat (S n) + 1) with (r - 1 - Z.of_nat n + 1) by lia.
    exact Htabs'.
Qed.

(** [readCode] on a window at or above the left-over codes: the window
    starts with the code of a symbol. *)
Lemma readCode_canonical_some_code (levels : list (list Z)) (s s1 : State) :
  length levels = Z.to_nat MAX_CODE_BITS_LENGTH →
  fits levels 1 →
  (length (concat levels) ≤ Z.to_nat MAX_SYMBOL_VALUE)%nat →
  CompressedCodes (canonicalTree levels) !! 0%nat ≠ Some 0 →
  needBits s 32 = Ok s1 →
  leftover levels 1 ≤ readBits s1 32 < 2 ^ 32 →
  ∃ (L k : nat) (l : list Z) (sym : Z),
    levels !! L = Some l ∧ l !! k = Some sym ∧
    readCode (canonicalTree levels) s = (s2 ← dropBits s1 (Z.of_nat L); Ok (sym, s2)).
Proof.
  intros Hlen Hfits Hcount Hc0 Hneed Hb.
  pose proof (leftover_bound levels 1 ltac:(lia) Hfits) as Hleft.
  destruct (levels_cover levels 0 1 (readBits s1 32) ltac:(lia)
              ltac:(rewrite Hlen; reflexivity) ltac:(lia) Hfits
              ltac:(rewrite Z.sub_0_r, Z.mul_1_l; lia))
    as [Hlow|(j & l & f & k & Hj & Hf & Hk & Hq)]; [lia|].
  destruct (lookup_lt_is_Some_2 l k Hk) as [sym Hsym].
  exists j, k, l, sym. split; [exact Hj|]. split; [exact Hsym|].
  rewrite Z.add_0_l in Hq.
  exact (readCode_canonical levels s s1 j k l f sym Hlen Hfits Hcount Hc0 Hj Hf Hsym Hneed Hq).
Qed.

Lemma tableLevels_elem (bits symbols : list Z) :
  ∀ (levels : list (list Z)) (L : nat) (l : list Z) (sym : Z),
  Forall (λ b, 0 ≤ b) bits →
  tableLevels bits symbols levels !! L = Some l → sym ∈ l →
  (∃ l0, levels !! L = Some l0 ∧ sym ∈ l0) ∨
  (∃ i : nat, bits !! i = Some (Z.of_nat L) ∧ symbols !! i = Some sym).
Proof.
  revert symbols. induction bits as [|b bits IH]; intros symbols levels L l sym Hpos Hl Hsym.
  - left. exists l. split; [exact Hl | exact Hsym].
  - destruct symbols as [|x symbols]; [left; exists l; split; [exact Hl | exact Hsym]|].
    cbn [tableLevels] in Hl. apply Forall_cons in Hpos as [Hb Hpos].
    destruct (IH symbols _ L l sym Hpos Hl Hsym) as [(l0 & Hl0 & Hin)|(i & Hi1 & Hi2)].
    + destruct (decide (Z.to_nat b = L)) as [Heq|Hne].
      * subst L. rewrite list_lookup_alter, decide_True in Hl0 by reflexivity.
        destruct (levels !! Z.to_nat b) as [l1|] eqn:E1; simpl in Hl0;
          [|discriminate Hl0].
        injection Hl0 as <-. apply elem_of_cons in Hin as [->|Hin].
        -- right. exists 0%nat. cbn [lookup list_lookup]. split; [f_equal; lia | reflexivity].
        -- left. exists l1. split; [reflexivity | exact Hin].
      * rewrite list_lookup_alter_ne in Hl0 by exact Hne.
        left. exists l0. split; [exact Hl0 | exact Hin].
    + right. exists (S i). cbn [lookup list_lookup]. split; assumption.
Qed.

Lemma huffmanTreeDict_canonical : huffmanTreeDict = canonicalTree dictLevels.
Proof. vm_compute. reflexivity. Qed.

Lemma dictLevels_facts :
  length dictLevels = Z.to_nat MAX_CODE_BITS_LENGTH ∧
  (length (concat dictLevels) ≤ Z.to_nat MAX_SYMBOL_VALUE)%nat ∧
  leftover dictLevels 1 = 0 ∧
  CompressedCodes (canonicalTree dictLevels) !! 0%nat = Some 0xa0000000.
Proof. vm_compute. repeat split; try reflexivity. lia. Qed.

Lemma tabsOf_fresh : tabsOf freshBitTab freshCodeTab noLevels.
Proof.
  split.
  - unfold freshBitTab, noLevels. apply Forall2_replicate. constructor.
  - intros sym Hsym _. unfold freshCodeTab in *. rewrite length_replicate in Hsym.
    apply load_Ok. split; [lia|]. apply lookup_replicate_2. lia.
Qed.

Lemma dictBits_nonneg : Forall (λ b, 0 ≤ b) dictBits.
Proof.
  apply Forall_forall. intros v Hv.
  assert (forallb (λ v, 0 <=? v) dictBits = true) as Hb by (vm_compute; reflexivity).
  rewrite forallb_forall in Hb. apply list_elem_of_In in Hv. specialize (Hb v Hv). lia.
Qed.

Lemma fits_dictLevels : fits dictLevels 1.
Proof.
  unfold fits.
  match goal with
  | |- Forall2 _ ?l _ => let l' := eval vm_compute in l in change l with l'
  end.
  cbn [freeCodes length].
  repeat (apply Forall2_cons; split; [simpl; lia|]).
  constructor.
Qed.

(** ** The table for any lengths *)




(** ** The tables of [parseHuffmanTree] *)










(** ** Canonical codes: the tree of [createHuffmanTree] and its decoder *)

(** Proves that concrete tables hold concrete chains. *)
Ltac chains :=
  vm_compute;
  repeat (apply Forall2_cons; split;
          [repeat first [ apply chain_end
                        | eapply chain_next; [lia | vm_compute; reflexivity |] ]|]);
  constructor.

Ltac fitting :=
  unfold fits;
  match goal with
  | |- Forall2 _ ?l _ => let l' := eval vm_compute in l in change l with l'
  end;
  cbn [freeCodes length];
  repeat (apply Forall2_cons; split; [simpl; lia|]);
  constructor.

(** [X18].  When the working tables hold, for every code length [L], the
    chain of the symbols [levels[L]], no length has more symbols than codes
    are free, and there are at most 285 symbols, [createHuffmanTree] fills
    the zero tree with the table of the canonical code: [SymbolValues]
    lists the symbols by increasing length, each length in the order of its
    chain, and every length that has symbols has one class, with the
    left-aligned smallest code of the length, the length and the index of
    the last symbol of the length.  The first symbol of a chain gets the
    highest free code. *)
Theorem createHuffmanTree_builds_canonical_table
    (bitTab codeTab : list Z) (levels : list (list Z)) :
  length bitTab = Z.to_nat MAX_CODE_BITS_LENGTH →
  Z.of_nat (length codeTab) ≤ 2 ^ 16 →
  Forall2 (chainOf codeTab) bitTab levels →
  fits levels 1 →
  (length (concat levels) ≤ Z.to_nat MAX_SYMBOL_VALUE)%nat →
  createHuffmanTree emptyTree bitTab codeTab = Ok (canonicalTree levels).
Proof. exact (createHuffmanTree_canonical bitTab codeTab levels). Qed.

Lemma createHuffmanTree_builds_canonical_table_witness :
  length smallBitTab = Z.to_nat MAX_CODE_BITS_LENGTH ∧
  Z.of_nat (length smallCodeTab) ≤ 2 ^ 16 ∧
  Forall2 (chainOf smallCodeTab) smallBitTab smallLevels ∧
  fits smallLevels 1 ∧
  (length (concat smallLevels) ≤ Z.to_nat MAX_SYMBOL_VALUE)%nat ∧
  createHuffmanTree emptyTree smallBitTab smallCodeTab = Ok (canonicalTree smallLevels).
Proof.
  assert (length smallBitTab = Z.to_nat MAX_CODE_BITS_LENGTH) as H1 by reflexivity.
  assert (Z.of_nat (length smallCodeTab) ≤ 2 ^ 16) as H2
    by (change (Z.of_nat (length smallCodeTab)) with 285; lia).
  assert (Forall2 (chainOf smallCodeTab) smallBitTab smallLevels) as H3 by chains.
  assert (fits smallLevels 1) as H4 by fitting.
  assert (length (concat smallLevels) ≤ Z.to_nat MAX_SYMBOL_VALUE)%nat as H5
    by (vm_compute; lia).
  repeat (split; [assumption|]).
  exact (createHuffmanTree_builds_canonical_table smallBitTab smallCodeTab smallLevels
           H1 H2 H3 H4 H5).
Defined.

Example canonicalTree_sample :
  take 3 (SymbolValues (canonicalTree smallLevels)) = [5; 7; 9] ∧
  take 3 (CompressedCodes (canonicalTree smallLevels)) = [0x80000000; 0; 0] ∧
  take 3 (BitsLength (canonicalTree smallLevels)) = [1; 2; 0] ∧
  take 3 (SymbolValueOffset (canonicalTree smallLevels)) = [0; 2; 0].
Proof. vm_compute. repeat split; reflexivity. Qed.

(** [X19].  Decoding with a tree that [createHuffmanTree] built: when the
    32-bit window starts with the code of the [k]-th symbol of the chain of
    the length [L] (the code [free - 1 - k] of [L] bits, [free] being the
    number of free codes of that length), [readCode] returns that symbol
    and drops [L] bits.  The table must not start with the minimum code
    0, which [readCode] takes for an empty tree. *)
Theorem readCode_decodes_canonical_code
    (bitTab codeTab : list Z) (levels : list (list Z)) (t : HuffmanTree) (s s1 : State)
    (L k : nat) (l : list Z) (free sym : Z) :
  length bitTab = Z.to_nat MAX_CODE_BITS_LENGTH →
  Z.of_nat (length codeTab) ≤ 2 ^ 16 →
  Forall2 (chainOf codeTab) bitTab levels →
  fits levels 1 →
  (length (concat levels) ≤ Z.to_nat MAX_SYMBOL_VALUE)%nat →
  createHuffmanTree emptyTree bitTab codeTab = Ok t →
  CompressedCodes t !! 0%nat ≠ Some 0 →
  levels !! L = Some l → freeCodes levels 1 !! L = Some free → l !! k = Some sym →
  needBits s 32 = Ok s1 →
  readBits s1 32 / 2 ^ (32 - Z.of_nat L) = free - 1 - Z.of_nat k →
  readCode t s = (s2 ← dropBits s1 (Z.of_nat L); Ok (sym, s2)).
Proof.
  intros Hbt Hct Hch Hfits Hcount Ht Hc0 HL Hfree Hk Hneed Hbits.
  rewrite (createHuffmanTree_canonical bitTab codeTab levels Hbt Hct Hch Hfits Hcount) in Ht.
  injection Ht as <-.
  exact (readCode_canonical levels s s1 L k l free sym
           ltac:(rewrite <- (Forall2_length _ _ _ Hch); exact Hbt)
           Hfits Hcount Hc0 HL Hfree Hk Hneed Hbits).
Qed.

Lemma readCode_decodes_canonical_code_witness :
  length smallBitTab = Z.to_nat MAX_CODE_BITS_LENGTH ∧
  Z.of_nat (length smallCodeTab) ≤ 2 ^ 16 ∧
  Forall2 (chainOf smallCodeTab) smallBitTab smallLevels ∧
  fits smallLevels 1 ∧
  (length (concat smallLevels) ≤ Z.to_nat MAX_SYMBOL_VALUE)%nat ∧
  createHuffmanTree emptyTree smallBitTab smallCodeTab = Ok (canonicalTree smallLevels) ∧
  CompressedCodes (canonicalTree smallLevels) !! 0%nat ≠ Some 0 ∧
  smallLevels !! 2%nat = Some [7; 9] ∧ freeCodes smallLevels 1 !! 2%nat = Some 2 ∧
  [7; 9] !! 1%nat = Some 9 ∧
  needBits (pumpOfBits [false; false; true]) 32 = Ok (pumpOfBits [false; false; true]) ∧
  readBits (pumpOfBits [false; false; true]) 32 / 2 ^ (32 - Z.of_nat 2) = 2 - 1 - Z.of_nat 1 ∧
  readCode (canonicalTree smallLevels) (pumpOfBits [false; false; true])
  = (s2 ← dropBits (pumpOfBits [false; false; true]) (Z.of_nat 2); Ok (9, s2)).
Proof.
  assert (length smallBitTab = Z.to_nat MAX_CODE_BITS_LENGTH) as H1 by reflexivity.
  assert (Z.of_nat (length smallCodeTab) ≤ 2 ^ 16) as H2
    by (change (Z.of_nat (length smallCodeTab)) with 285; lia).
  assert (Forall2 (chainOf smallCodeTab) smallBitTab smallLevels) as H3 by chains.
  assert (fits smallLevels 1) as H4 by fitting.
  assert (length (concat smallLevels) ≤ Z.to_nat MAX_SYMBOL_VALUE)%nat as H5
    by (vm_compute; lia).
  assert (createHuffmanTree emptyTree smallBitTab smallCodeTab
          = Ok (canonicalTree smallLevels)) as H6 by (vm_compute; reflexivity).
  assert (CompressedCodes (canonicalTree smallLevels) !! 0%nat ≠ Some 0) as H7
    by (vm_compute; discriminate).
  assert (smallLevels !! 2%nat = Some [7; 9]) as H8 by reflexivity.
  assert (freeCodes smallLevels 1 !! 2%nat = Some 2) as H9 by reflexivity.
  assert ([7; 9] !! 1%nat = Some 9) as H10 by reflexivity.
  assert (needBits (pumpOfBits [false; false; true]) 32
          = Ok (pumpOfBits [false; false; true])) as H11 by reflexivity.
  assert (readBits (pumpOfBits [false; false; true]) 32 / 2 ^ (32 - Z.of_nat 2)
          = 2 - 1 - Z.of_nat 1) as H12 by (vm_compute; reflexivity).
  repeat (split; [assumption|]).
  exact (readCode_decodes_canonical_code smallBitTab smallCodeTab smallLevels
           (canonicalTree smallLevels) (pumpOfBits [false; false; true])
           (pumpOfBits [false; false; true]) 2 1 [7; 9] 2 9
           H1 H2 H3 H4 H5 H6 H7 H8 H9 H10 H11 H12).
Defined.

Example readCode_small_code :
  readCode (canonicalTree smallLevels) (pumpOfBits [true])
    = Ok (5, mkState [] 0 0 0 31 0 false) ∧
  readCode (canonicalTree smallLevels) (pumpOfBits [false; true])
    = Ok (7, mkState [] 0 0 0 30 0 false) ∧
  readCode (canonicalTree smallLevels) (pumpOfBits [false; false])
    = Ok (9, mkState [] 0 0 0 30 0 false).
Proof. vm_compute. repeat split; reflexivity. Qed.

(** [X20].  A code whose shortest length [L] has [2^L] symbols, so that
    these symbols use every code (two symbols of one bit, 256 symbols of
    eight bits), gives a table that starts with the minimum code 0, and
    [readCode] exits on it with the message of the empty tree, whatever the
    input. *)
Theorem readCode_takes_full_length_for_empty_tree
    (bitTab codeTab : list Z) (L : nat) (l : list Z) (rest : list (list Z)) :
  length bitTab = Z.to_nat MAX_CODE_BITS_LENGTH →
  Z.of_nat (length codeTab) ≤ 2 ^ 16 →
  Forall2 (chainOf codeTab) bitTab (replicate L [] ++ l :: rest) →
  fits (replicate L [] ++ l :: rest) 1 →
  (length (concat (replicate L [] ++ l :: rest)) ≤ Z.to_nat MAX_SYMBOL_VALUE)%nat →
  Z.of_nat (length l) = 2 ^ Z.of_nat L →
  ∃ t, createHuffmanTree emptyTree bitTab codeTab = Ok t ∧
       ∀ s, readCode t s = Exit EmptyHuffmanTree.
Proof.
  intros Hbt Hct Hch Hfits Hcount Hfull.
  exists (canonicalTree (replicate L [] ++ l :: rest)). split.
  - exact (createHuffmanTree_canonical bitTab codeTab _ Hbt Hct Hch Hfits Hcount).
  - intros s. apply readCode_first_code_zero, canonicalTree_full_level, Hfull.
Qed.

Lemma readCode_takes_full_length_for_empty_tree_witness :
  length fullBitTab = Z.to_nat MAX_CODE_BITS_LENGTH ∧
  Z.of_nat (length fullCodeTab) ≤ 2 ^ 16 ∧
  Forall2 (chainOf fullCodeTab) fullBitTab (replicate 1 [] ++ [5; 6] :: replicate 30 []) ∧
  fits (replicate 1 [] ++ [5; 6] :: replicate 30 []) 1 ∧
  (length (concat (replicate 1 [] ++ [5; 6] :: replicate 30 []))
   ≤ Z.to_nat MAX_SYMBOL_VALUE)%nat ∧
  Z.of_nat (length [5; 6]) = 2 ^ Z.of_nat 1 ∧
  ∃ t, createHuffmanTree emptyTree fullBitTab fullCodeTab = Ok t ∧
       ∀ s, readCode t s = Exit EmptyHuffmanTree.
Proof.
  assert (length fullBitTab = Z.to_nat MAX_CODE_BITS_LENGTH) as H1 by reflexivity.
  assert (Z.of_nat (length fullCodeTab) ≤ 2 ^ 16) as H2
    by (change (Z.of_nat (length fullCodeTab)) with 285; lia).
  assert (Forall2 (chainOf fullCodeTab) fullBitTab (replicate 1 [] ++ [5; 6] :: replicate 30 []))
    as H3 by chains.
  assert (fits (replicate 1 [] ++ [5; 6] :: replicate 30 []) 1) as H4 by fitting.
  assert (length (concat (replicate 1 [] ++ [5; 6] :: replicate 30 []))
          ≤ Z.to_nat MAX_SYMBOL_VALUE)%nat as H5 by (vm_compute; lia).
  assert (Z.of_nat (length [5; 6]) = 2 ^ Z.of_nat 1) as H6 by reflexivity.
  repeat (split; [assumption|]).
  exact (readCode_takes_full_length_for_empty_tree fullBitTab fullCodeTab 1 [5; 6]
           (replicate 30 []) H1 H2 H3 H4 H5 H6).
Defined.

(** [X21].  With a code that leaves codes unused, a window below every
    class of the table (below the left-over codes) is no code.  [readCode]
    runs into the first unused entry of the table, whose minimum code,
    length and offset are zero: it returns the first symbol of the table
    and drops no bit. *)
Theorem readCode_window_without_code
    (bitTab codeTab : list Z) (levels : list (list Z)) (t : HuffmanTree) (s s1 : State)
    (sym : Z) :
  length bitTab = Z.to_nat MAX_CODE_BITS_LENGTH →
  Z.of_nat (length codeTab) ≤ 2 ^ 16 →
  Forall2 (chainOf codeTab) bitTab levels →
  fits levels 1 →
  (length (concat levels) ≤ Z.to_nat MAX_SYMBOL_VALUE)%nat →
  createHuffmanTree emptyTree bitTab codeTab = Ok t →
  CompressedCodes t !! 0%nat ≠ Some 0 →
  concat levels !! 0%nat = Some sym →
  needBits s 32 = Ok s1 →
  0 ≤ readBits s1 32 < leftover levels 1 →
  readCode t s = (s2 ← dropBits s1 0; Ok (sym, s2)).
Proof.
  intros Hbt Hct Hch Hfits Hcount Ht Hc0 Hsym Hneed Hb.
  rewrite (createHuffmanTree_canonical bitTab codeTab levels Hbt Hct Hch Hfits Hcount) in Ht.
  injection Ht as <-.
  exact (readCode_canonical_no_code levels s s1 sym
           ltac:(rewrite <- (Forall2_length _ _ _ Hch); exact Hbt)
           Hfits Hcount Hc0 Hsym Hneed Hb).
Qed.

Lemma readCode_window_without_code_witness :
  length gapBitTab = Z.to_nat MAX_CODE_BITS_LENGTH ∧
  Z.of_nat (length smallCodeTab) ≤ 2 ^ 16 ∧
  Forall2 (chainOf smallCodeTab) gapBitTab gapLevels ∧
  fits gapLevels 1 ∧
  (length (concat gapLevels) ≤ Z.to_nat MAX_SYMBOL_VALUE)%nat ∧
  createHuffmanTree emptyTree gapBitTab smallCodeTab = Ok (canonicalTree gapLevels) ∧
  CompressedCodes (canonicalTree gapLevels) !! 0%nat ≠ Some 0 ∧
  concat gapLevels !! 0%nat = Some 7 ∧
  needBits (pumpOfBits [false; true]) 32 = Ok (pumpOfBits [false; true]) ∧
  0 ≤ readBits (pumpOfBits [false; true]) 32 < leftover gapLevels 1 ∧
  readCode (canonicalTree gapLevels) (pumpOfBits [false; true])
  = (s2 ← dropBits (pumpOfBits [false; true]) 0; Ok (7, s2)).
Proof.
  assert (length gapBitTab = Z.to_nat MAX_CODE_BITS_LENGTH) as H1 by reflexivity.
  assert (Z.of_nat (length smallCodeTab) ≤ 2 ^ 16) as H2
    by (change (Z.of_nat (length smallCodeTab)) with 285; lia).
  assert (Forall2 (chainOf smallCodeTab) gapBitTab gapLevels) as H3 by chains.
  assert (fits gapLevels 1) as H4 by fitting.
  assert (length (concat gapLevels) ≤ Z.to_nat MAX_SYMBOL_VALUE)%nat as H5
    by (vm_compute; lia).
  assert (createHuffmanTree emptyTree gapBitTab smallCodeTab
          = Ok (canonicalTree gapLevels)) as H6 by (vm_compute; reflexivity).
  assert (CompressedCodes (canonicalTree gapLevels) !! 0%nat ≠ Some 0) as H7
    by (vm_compute; discriminate).
  assert (concat gapLevels !! 0%nat = Some 7) as H8 by reflexivity.
  assert (needBits (pumpOfBits [false; true]) 32 = Ok (pumpOfBits [false; true])) as H9
    by reflexivity.
  assert (0 ≤ readBits (pumpOfBits [false; true]) 32 < leftover gapLevels 1) as H10
    by (vm_compute; split; [discriminate | reflexivity]).
  repeat (split; [assumption|]).
  exact (readCode_window_without_code gapBitTab smallCodeTab gapLevels
           (canonicalTree gapLevels) (pumpOfBits [false; true]) (pumpOfBits [false; true]) 7
           H1 H2 H3 H4 H5 H6 H7 H8 H9 H10).
Defined.

Example readCode_gap_code :
  readCode (canonicalTree gapLevels) (pumpOfBits [true; true])
    = Ok (7, mkState [] 0 0 0 30 0 false) ∧
  readCode (canonicalTree gapLevels) (pumpOfBits [false; true])
    = Ok (7, pumpOfBits [false; true]).
Proof. vm_compute. repeat split; reflexivity. Qed.

(** [X22].  Every window at or above the left-over codes, which is every
    window when the code is complete, starts with the code of one symbol:
    [readCode] returns a symbol of some length [L] of the code and drops
    [L] bits. *)
Theorem readCode_decodes_every_code_window
    (bitTab codeTab : list Z) (levels : list (list Z)) (t : HuffmanTree) (s s1 : State) :
  length bitTab = Z.to_nat MAX_CODE_BITS_LENGTH →
  Z.of_nat (length codeTab) ≤ 2 ^ 16 →
  Forall2 (chainOf codeTab) bitTab levels →
  fits levels 1 →
  (length (concat levels) ≤ Z.to_nat MAX_SYMBOL_VALUE)%nat →
  createHuffmanTree emptyTree bitTab codeTab = Ok t →
  CompressedCodes t !! 0%nat ≠ Some 0 →
  needBits s 32 = Ok s1 →
  leftover levels 1 ≤ readBits s1 32 < 2 ^ 32 →
  ∃ (L k : nat) (l : list Z) (sym : Z),
    levels !! L = Some l ∧ l !! k = Some sym ∧
    readCode t s = (s2 ← dropBits s1 (Z.of_nat L); Ok (sym, s2)).
Proof.
  intros Hbt Hct Hch Hfits Hcount Ht Hc0 Hneed Hb.
  rewrite (createHuffmanTree_canonical bitTab codeTab levels Hbt Hct Hch Hfits Hcount) in Ht.
  injection Ht as <-.
  exact (readCode_canonical_some_code levels s s1
           ltac:(rewrite <- (Forall2_length _ _ _ Hch); exact Hbt)
           Hfits Hcount Hc0 Hneed Hb).
Qed.

Lemma readCode_decodes_every_code_window_witness :
  length smallBitTab = Z.to_nat MAX_CODE_BITS_LENGTH ∧
  Z.of_nat (length smallCodeTab) ≤ 2 ^ 16 ∧
  Forall2 (chainOf smallCodeTab) smallBitTab smallLevels ∧
  fits smallLevels 1 ∧
  (length (concat smallLevels) ≤ Z.to_nat MAX_SYMBOL_VALUE)%nat ∧
  createHuffmanTree emptyTree smallBitTab smallCodeTab = Ok (canonicalTree smallLevels) ∧
  CompressedCodes (canonicalTree smallLevels) !! 0%nat ≠ Some 0 ∧
  needBits (pumpOfBits [true]) 32 = Ok (pumpOfBits [true]) ∧
  leftover smallLevels 1 ≤ readBits (pumpOfBits [true]) 32 < 2 ^ 32 ∧
  ∃ (L k : nat) (l : list Z) (sym : Z),
    smallLevels !! L = Some l ∧ l !! k = Some sym ∧
    readCode (canonicalTree smallLevels) (pumpOfBits [true])
    = (s2 ← dropBits (pumpOfBits [true]) (Z.of_nat L); Ok (sym, s2)).
Proof.
  assert (length smallBitTab = Z.to_nat MAX_CODE_BITS_LENGTH) as H1 by reflexivity.
  assert (Z.of_nat (length smallCodeTab) ≤ 2 ^ 16) as H2
    by (change (Z.of_nat (length smallCodeTab)) with 285; lia).
  assert (Forall2 (chainOf smallCodeTab) smallBitTab smallLevels) as H3 by chains.
  assert (fits smallLevels 1) as H4 by fitting.
  assert (length (concat smallLevels) ≤ Z.to_nat MAX_SYMBOL_VALUE)%nat as H5
    by (vm_compute; lia).
  assert (createHuffmanTree emptyTree smallBitTab smallCodeTab
          = Ok (canonicalTree smallLevels)) as H6 by (vm_compute; reflexivity).
  assert (CompressedCodes (canonicalTree smallLevels) !! 0%nat ≠ Some 0) as H7
    by (vm_compute; discriminate).
  assert (needBits (pumpOfBits [true]) 32 = Ok (pumpOfBits [true])) as H8 by reflexivity.
  assert (leftover smallLevels 1 ≤ readBits (pumpOfBits [true]) 32 < 2 ^ 32) as H9
    by (vm_compute; split; [discriminate | reflexivity]).
  repeat (split; [assumption|]).
  exact (readCode_decodes_every_code_window smallBitTab smallCodeTab smallLevels
           (canonicalTree smallLevels) (pumpOfBits [true]) (pumpOfBits [true])
           H1 H2 H3 H4 H5 H6 H7 H8 H9).
Defined.

(** [X23].  [fillTabsHelper] keeps the working tables a set of chains:
    called with a length below 32 and a symbol below 285 that no chain
    holds yet, it puts the symbol at the head of the chain of its length
    and leaves every other chain as it is.  (The symbols that no chain
    holds keep the end mark in [ioWorkingCodeTab], which the next call
    relies on.) *)
Theorem fillTabsHelper_puts_symbol_at_head_of_chain
    (bits symbol : Z) (bitTab codeTab : list Z) (levels : list (list Z)) (l : list Z) :
  tabsOf bitTab codeTab levels →
  0 ≤ bits < MAX_CODE_BITS_LENGTH →
  0 ≤ symbol < MAX_SYMBOL_VALUE → symbol < Z.of_nat (length codeTab) →
  levels !! Z.to_nat bits = Some l →
  symbol ∉ concat levels →
  ∃ bitTab' codeTab',
    fillTabsHelper bits symbol bitTab codeTab = Ok (bitTab', codeTab') ∧
    length codeTab' = length codeTab ∧
    tabsOf bitTab' codeTab' (<[Z.to_nat bits := symbol :: l]> levels).
Proof. exact (fillTabsHelper_tabsOf bits symbol bitTab codeTab levels l). Qed.

Lemma fillTabsHelper_puts_symbol_at_head_of_chain_witness :
  tabsOf freshBitTab freshCodeTab noLevels ∧
  0 ≤ 2 < MAX_CODE_BITS_LENGTH ∧
  0 ≤ 9 < MAX_SYMBOL_VALUE ∧ 9 < Z.of_nat (length freshCodeTab) ∧
  noLevels !! Z.to_nat 2 = Some [] ∧
  (9 ∉ concat noLevels) ∧
  ∃ bitTab' codeTab',
    fillTabsHelper 2 9 freshBitTab freshCodeTab = Ok (bitTab', codeTab') ∧
    length codeTab' = length freshCodeTab ∧
    tabsOf bitTab' codeTab' (<[Z.to_nat 2 := [9]]> noLevels).
Proof.
  assert (0 ≤ 2 < MAX_CODE_BITS_LENGTH) as H2 by (unfold MAX_CODE_BITS_LENGTH; lia).
  assert (0 ≤ 9 < MAX_SYMBOL_VALUE) as H3 by (unfold MAX_SYMBOL_VALUE; lia).
  assert (9 < Z.of_nat (length freshCodeTab)) as H4
    by (change (Z.of_nat (length freshCodeTab)) with 285; lia).
  assert (noLevels !! Z.to_nat 2 = Some []) as H5 by reflexivity.
  assert (9 ∉ concat noLevels) as H6 by (vm_compute; apply not_elem_of_nil).
  split; [exact tabsOf_fresh|].
  repeat (split; [assumption|]).
  exact (fillTabsHelper_puts_symbol_at_head_of_chain 2 9 freshBitTab freshCodeTab noLevels []
           tabsOf_fresh H2 H3 H4 H5 H6).
Defined.

(** [X24].  The loop of [parseHuffmanTree] that registers a run of [n]
    symbols of one length, from [remainingSymbol] downwards: when every
    symbol that the chains hold is above [remainingSymbol] and the run does
    not pass the symbol 0, it puts the symbols
    [remainingSymbol - n + 1 .. remainingSymbol], in increasing order, in
    front of the chain of the length, and leaves
    [remainingSymbol - n]. *)
Theorem registerSymbols_puts_run_on_chain
    (bits : Z) (n : nat) (r : Z) (bt ct : list Z) (levels : list (list Z)) (l : list Z) :
  tabsOf bt ct levels → length ct = Z.to_nat MAX_SYMBOL_VALUE →
  0 ≤ bits < MAX_CODE_BITS_LENGTH →
  Z.of_nat n ≤ r + 1 → r < MAX_SYMBOL_VALUE →
  levels !! Z.to_nat bits = Some l →
  (∀ x, x ∈ concat levels → r < x) →
  ∃ bt' ct',
    registerSymbols n bits r bt ct = Ok (r - Z.of_nat n, bt', ct') ∧
    length ct' = Z.to_nat MAX_SYMBOL_VALUE ∧
    tabsOf bt' ct' (<[Z.to_nat bits := seqZ (r - Z.of_nat n + 1) (Z.of_nat n) ++ l]> levels).
Proof. exact (registerSymbols_tabsOf bits n r bt ct levels l). Qed.

Lemma registerSymbols_puts_run_on_chain_witness :
  tabsOf freshBitTab freshCodeTab noLevels ∧
  length freshCodeTab = Z.to_nat MAX_SYMBOL_VALUE ∧
  0 ≤ 2 < MAX_CODE_BITS_LENGTH ∧
  Z.of_nat 3 ≤ 4 + 1 ∧ 4 < MAX_SYMBOL_VALUE ∧
  noLevels !! Z.to_nat 2 = Some [] ∧
  (∀ x, x ∈ concat noLevels → 4 < x) ∧
  ∃ bt' ct',
    registerSymbols 3 2 4 freshBitTab freshCodeTab = Ok (4 - Z.of_nat 3, bt', ct') ∧
    length ct' = Z.to_nat MAX_SYMBOL_VALUE ∧
    tabsOf bt' ct' (<[Z.to_nat 2 := seqZ (4 - Z.of_nat 3 + 1) (Z.of_nat 3) ++ []]> noLevels).
Proof.
  assert (length freshCodeTab = Z.to_nat MAX_SYMBOL_VALUE) as H2 by reflexivity.
  assert (0 ≤ 2 < MAX_CODE_BITS_LENGTH) as H3 by (unfold MAX_CODE_BITS_LENGTH; lia).
  assert (Z.of_nat 3 ≤ 4 + 1) as H4 by lia.
  assert (4 < MAX_SYMBOL_VALUE) as H5 by (unfold MAX_SYMBOL_VALUE; lia).
  assert (noLevels !! Z.to_nat 2 = Some []) as H6 by reflexivity.
  assert (∀ x, x ∈ concat noLevels → 4 < x) as H7
    by (vm_compute; intros x Hx; apply elem_of_nil in Hx; contradiction).
  split; [exact tabsOf_fresh|].
  repeat (split; [assumption|]).
  exact (registerSymbols_puts_run_on_chain 2 3 4 freshBitTab freshCodeTab noLevels []
           tabsOf_fresh H2 H3 H4 H5 H6 H7).
Defined.

Example registerSymbols_sample :
  registerSymbols 3 2 4 freshBitTab freshCodeTab
  = Ok (1, <[2%nat := 2]> freshBitTab, <[2%nat := 3]> (<[3%nat := 4]> freshCodeTab)).
Proof. vm_compute. reflexivity. Qed.

(** [X25].  The dictionary tree that [initializeHuffmanTreeDict] builds
    decodes every window: on a pump with 32-bit registers that can fill
    its window, [readCode] returns a symbol of the table of the dictionary
    and drops the number of bits that the table gives for it. *)
Theorem huffmanTreeDict_decodes_every_window (s s1 : State) :
  wfState s → needBits s 32 = Ok s1 →
  ∃ (i : nat) (bits sym : Z),
    dictBits !! i = Some bits ∧ dictSymbols !! i = Some sym ∧
    readCode huffmanTreeDict s = (s2 ← dropBits s1 bits; Ok (sym, s2)).
Proof.
  intros Hwf Hneed.
  pose proof (needBits_wf s s1 32 Hwf Hneed) as (Hhead & _).
  destruct dictLevels_facts as (Hlen & Hcount & Hleft & Hc0).
  assert (CompressedCodes (canonicalTree dictLevels) !! 0%nat ≠ Some 0) as Hc0'
    by (rewrite Hc0; discriminate).
  assert (leftover dictLevels 1 ≤ readBits s1 32 < 2 ^ 32) as Hb
    by (rewrite Hleft, readBits_32; exact Hhead).
  destruct (readCode_canonical_some_code dictLevels s s1 Hlen fits_dictLevels Hcount Hc0'
              Hneed Hb) as (L & k & l & sym & HL & Hk & Hread).
  destruct (tableLevels_elem dictBits dictSymbols noLevels L l sym dictBits_nonneg HL
              (list_elem_of_lookup_2 _ _ _ Hk)) as [(l0 & Hl0 & Hin)|(i & Hi1 & Hi2)].
  - unfold noLevels in Hl0. apply lookup_replicate in Hl0 as [-> _].
    apply elem_of_nil in Hin. contradiction.
  - exists i, (Z.of_nat L), sym. rewrite huffmanTreeDict_canonical.
    split; [exact Hi1|]. split; [exact Hi2 | exact Hread].
Qed.

Lemma huffmanTreeDict_decodes_every_window_witness :
  wfState (pumpOfBits (field 6 12)) ∧
  needBits (pumpOfBits (field 6 12)) 32 = Ok (pumpOfBits (field 6 12)) ∧
  ∃ (i : nat) (bits sym : Z),
    dictBits !! i = Some bits ∧ dictSymbols !! i = Some sym ∧
    readCode huffmanTreeDict (pumpOfBits (field 6 12))
    = (s2 ← dropBits (pumpOfBits (field 6 12)) bits; Ok (sym, s2)).
Proof.
  assert (wfState (pumpOfBits (field 6 12))) as H1
    by (apply wfStateb_sound; vm_compute; reflexivity).
  assert (needBits (pumpOfBits (field 6 12)) 32 = Ok (pumpOfBits (field 6 12))) as H2
    by reflexivity.
  repeat (split; [assumption|]).
  exact (huffmanTreeDict_decodes_every_window (pumpOfBits (field 6 12))
           (pumpOfBits (field 6 12)) H1 H2).
Defined.



(** * The checks of the pump never fire *)

Lemma bind_proper {A B} (m : outcome A) (f : A → outcome B) :
  proper m → (∀ a, m = Ok a → proper (f a)) → proper (m ≫= f).
Proof.
  unfold proper. intros Hm Hf. destruct m; simpl; try discriminate.
  - now apply Hf.
  - intros m' [= <-]. now apply Hm.
Qed.

Lemma load_proper {A} (l : list A) (i : Z) : proper (load l i).
Proof. unfold proper. destruct (load_cases l i) as [[x ->]| ->]; discriminate. Qed.

Lemma store_proper {A} (l : list A) (i : Z) (x : A) : proper (store l i x).
Proof. unfold proper. destruct (store_cases l i x) as [[l' ->]| ->]; discriminate. Qed.

Create HintDb proper.
#[local] Hint Resolve load_proper store_proper : proper.

Ltac proper_step :=
  match goal with
  | |- proper (Ok _) => unfold proper; discriminate
  | |- proper (Error _) => unfold proper; discriminate
  | |- proper Panic => unfold proper; discriminate
  | |- proper NoFuel => unfold proper; discriminate
  | |- proper (Exit EndOfInput) => intros ? [= <-]; reflexivity
  | |- proper (Exit EmptyHuffmanTree) => intros ? [= <-]; reflexivity
  | |- proper (Exit InvalidWriteSize) => intros ? [= <-]; reflexivity
  | |- proper (Exit InvalidWriteOffset) => intros ? [= <-]; reflexivity
  | |- proper (_ ≫= _) => apply bind_proper; [|intros ? ?]
  | |- proper (if ?b then _ else _) => destruct b eqn:?
  | |- proper (match ?p with (_, _) => _ end) => destruct p
  | |- proper _ => solve [eauto with proper]
  end.

Ltac proper_auto := cbv zeta; repeat proper_step.

Lemma needBits_proper (s : State) (bits : Z) : bits ≤ 32 → proper (needBits s bits).
Proof.
  intros Hb. unfold needBits. destruct (32 <? bits) eqn:E1; [lia|].
  destruct (Bits s <? bits) eqn:E2; [|proper_auto].
  unfold pullByte. destruct (32 <=? Bits s) eqn:E3; [lia|]. proper_auto.
Qed.

Lemma needBits_held (s s1 : State) (bits : Z) :
  held s → 0 ≤ bits ≤ 32 → needBits s bits = Ok s1 → held s1 ∧ bits ≤ Bits s1.
Proof.
  unfold held. intros Hs Hb H. unfold needBits in H.
  destruct (32 <? bits) eqn:E1; [discriminate H|].
  destruct (Bits s <? bits) eqn:E2.
  - apply pullByte_Ok in H. destruct H as (Hlt & _ & w & _ & ->). cbn [Bits].
    unfold u32. rewrite Z.mod_small; lia.
  - injection H as <-. lia.
Qed.

Lemma dropBits_proper (s : State) (bits : Z) :
  bits ≤ 32 → bits ≤ Bits s → proper (dropBits s bits).
Proof.
  intros H1 H2. destruct (dropBits_Ok s bits H1 H2) as (s' & -> & _). proper_auto.
Qed.

Lemma dropBits_held (s s' : State) (bits : Z) :
  held s → 0 ≤ bits → dropBits s bits = Ok s' → held s'.
Proof.
  unfold held. intros Hs Hb H. unfold dropBits in H.
  destruct (32 <? bits); [discriminate H|].
  destruct (Bits s <? bits) eqn:E; [discriminate H|].
  destruct (bits =? 32); injection H as <-; cbn [Bits]; unfold u32;
    rewrite Z.mod_small; lia.
Qed.

(** A request and the drops that follow it. *)
Lemma need_drop_proper {A} (s : State) (bits : Z) (k : State → outcome A) :
  held s → 0 ≤ bits ≤ 32 →
  (∀ s1, held s1 → bits ≤ Bits s1 → proper (k s1)) →
  proper (s1 ← needBits s bits; k s1).
Proof.
  intros Hs Hb Hk. apply bind_proper; [apply needBits_proper; lia|].
  intros s1 H1. destruct (needBits_held s s1 bits Hs Hb H1). now apply Hk.
Qed.

Lemma scanCodes_proper (codes : list Z) (b i : Z) : proper (scanCodes codes b i).
Proof.
  revert i. induction codes as [|c rest IH]; intros i; cbn [scanCodes]; proper_auto.
Qed.
#[local] Hint Resolve scanCodes_proper : proper.

Lemma load_lengthsOk (t : HuffmanTree) (i b : Z) :
  lengthsOk t → load (BitsLength t) i = Ok b → 0 ≤ b ≤ 32.
Proof.
  unfold lengthsOk. intros Ht H. apply load_Ok in H as [_ H].
  rewrite Forall_forall in Ht. apply Ht. eapply list_elem_of_lookup_2. exact H.
Qed.

Lemma readCode_proper (t : HuffmanTree) (s : State) :
  lengthsOk t → held s → proper (readCode t s).
Proof.
  intros Ht Hs. unfold readCode.
  apply bind_proper; [apply load_proper|]. intros c0 _.
  destruct (c0 =? 0); [proper_auto|].
  apply need_drop_proper; [exact Hs | lia|]. intros s1 Hs1 Hb1. cbv zeta.
  apply bind_proper; [apply scanCodes_proper|]. intros idx _.
  apply bind_proper; [apply load_proper|]. intros tempBits Hl.
  pose proof (load_lengthsOk t idx tempBits Ht Hl) as Hb.
  proper_auto. apply dropBits_proper; lia.
Qed.

Lemma readCode_held (t : HuffmanTree) (s s' : State) (c : Z) :
  lengthsOk t → held s → readCode t s = Ok (c, s') → held s'.
Proof.
  intros Ht Hs H. unfold readCode in H. binds.
  destruct (v =? 0); [discriminate H|]. binds. injection H as _ <-.
  match goal with
  | Hn : needBits s 32 = Ok ?s1, Hl : load (BitsLength t) _ = Ok ?b,
    Hd : dropBits ?s1 ?b = Ok _ |- _ =>
      destruct (needBits_held s s1 32 Hs ltac:(lia) Hn) as [Hs1 _];
      pose proof (load_lengthsOk t _ b Ht Hl);
      apply (dropBits_held s1 _ b Hs1 ltac:(lia) Hd)
  end.
Qed.

Lemma extra_bits_proper {A} (s : State) (bits : Z) (k : State → outcome A) :
  held s → 0 ≤ bits ≤ 32 →
  (∀ s2, held s2 → proper (k s2)) →
  proper (s1 ← needBits s bits; s2 ← dropBits s1 bits; k s2).
Proof.
  intros Hs Hb Hk. apply need_drop_proper; [exact Hs | exact Hb|].
  intros s1 Hs1 Hb1. apply bind_proper; [apply dropBits_proper; lia|].
  intros s2 H2. apply Hk. apply (dropBits_held s1 s2 bits Hs1 ltac:(lia) H2).
Qed.

Lemma decodeWriteSize_proper (add : Z) (s : State) (v : Z) :
  held s → 0 ≤ v → proper (decodeWriteSize add s v).
Proof.
  intros Hs Hv. unfold decodeWriteSize. cbv zeta.
  apply bind_proper; [proper_auto|]. intros writeSize Hw.
  apply bind_proper; [|intros [w s'] _; proper_auto].
  destruct ((1 <? v / 4) && negb (v =? 28)) eqn:E; [|proper_auto].
  apply andb_true_iff in E as [E1 E2]. apply Z.ltb_lt in E1.
  assert (v / 4 < 7) as Hlt.
  { destruct (v / 4 =? 0) eqn:Q0; [lia|]. destruct (v / 4 <? 7) eqn:Q1; [lia|].
    destruct (v =? 28) eqn:Q2; [discriminate E2 | discriminate Hw]. }
  assert (u8 (v / 4 - 1) = v / 4 - 1) as -> by (apply Z.mod_small; lia).
  apply need_drop_proper; [exact Hs | lia|]. intros s1 Hs1 Hb1. cbv zeta.
  proper_auto. apply dropBits_proper; lia.
Qed.

Lemma decodeWriteSize_held (add : Z) (s s' : State) (v w : Z) :
  held s → 0 ≤ v → decodeWriteSize add s v = Ok (w, s') → held s'.
Proof.
  intros Hs Hv H. unfold decodeWriteSize in H. cbv zeta in H.
  destruct (v / 4 =? 0) eqn:Q0; cbn [mbind outcome_bind] in H.
  - destruct ((1 <? v / 4) && negb (v =? 28)) eqn:E;
      [apply andb_true_iff in E as [E1 _]; lia|].
    cbn [mbind outcome_bind] in H. injection H as _ <-. exact Hs.
  - destruct (v / 4 <? 7) eqn:Q1; cbn [mbind outcome_bind] in H.
    + destruct ((1 <? v / 4) && negb (v =? 28)) eqn:E.
      * assert (u8 (v / 4 - 1) = v / 4 - 1) as Hu by (apply Z.mod_small; lia).
        rewrite Hu in H. binds. injection H as _ <-.
        match goal with Hp : Ok (_, _) = Ok (_, _) |- _ => injection Hp as _ <- end.
        match goal with
        | Hn : needBits s ?b = Ok ?s1, Hd : dropBits ?s1 ?b = Ok _ |- _ =>
            destruct (needBits_held s s1 b Hs ltac:(lia) Hn) as [Hs1 _];
            apply (dropBits_held s1 _ b Hs1 ltac:(lia) Hd)
        end.
      * cbn [mbind outcome_bind] in H. injection H as _ <-. exact Hs.
    + destruct (v =? 28) eqn:Q2; [|discriminate H].
      rewrite andb_false_r in H. cbn [mbind outcome_bind] in H.
      injection H as _ <-. exact Hs.
Qed.

Lemma baseWriteOffset_Ok (c w : Z) : baseWriteOffset c = Ok w → c / 2 < 17.
Proof.
  unfold baseWriteOffset. cbv zeta. destruct (c / 2 =? 0) eqn:Q0; [lia|].
  destruct (c / 2 <? 17) eqn:Q1; [lia | discriminate].
Qed.

Lemma decodeWriteOffset_proper (t : HuffmanTree) (s : State) :
  lengthsOk t → held s → proper (decodeWriteOffset t s).
Proof.
  intros Ht Hs. unfold decodeWriteOffset.
  apply bind_proper; [apply readCode_proper; assumption|]. intros [c s0] Hc.
  pose proof (readCode_held t s s0 c Ht Hs Hc) as Hs0. cbv zeta.
  apply bind_proper; [unfold baseWriteOffset; proper_auto|]. intros w Hw.
  apply baseWriteOffset_Ok in Hw.
  apply bind_proper; [|intros [w' s'] _; proper_auto].
  destruct (1 <? c / 2) eqn:E; [|proper_auto].
  assert (u8 (c / 2 - 1) = c / 2 - 1) as -> by (apply Z.mod_small; lia).
  apply need_drop_proper; [exact Hs0 | lia|]. intros s1 Hs1 Hb1. cbv zeta.
  proper_auto. apply dropBits_proper; lia.
Qed.

Lemma decodeWriteOffset_held (t : HuffmanTree) (s s' : State) (w : Z) :
  lengthsOk t → held s → decodeWriteOffset t s = Ok (w, s') → held s'.
Proof.
  intros Ht Hs H. unfold decodeWriteOffset in H.
  destruct (readCode t s) as [[c s0]| | | |] eqn:Hc; try discriminate H.
  cbn [mbind outcome_bind] in H. cbv zeta in H.
  pose proof (readCode_held t s s0 c Ht Hs Hc) as Hs0.
  destruct (baseWriteOffset c) as [w0| | | |] eqn:Hw; try discriminate H.
  cbn [mbind outcome_bind] in H. apply baseWriteOffset_Ok in Hw.
  destruct (1 <? c / 2) eqn:E.
  - assert (u8 (c / 2 - 1) = c / 2 - 1) as Hu by (apply Z.mod_small; lia).
    rewrite Hu in H. binds. injection H as _ <-.
    match goal with Hp : Ok (_, _) = Ok (_, _) |- _ => injection Hp as _ <- end.
    match goal with
    | Hn : needBits s0 ?b = Ok ?s1, Hd : dropBits ?s1 ?b = Ok _ |- _ =>
        destruct (needBits_held s0 s1 b Hs0 ltac:(lia) Hn) as [Hs1 _];
        apply (dropBits_held s1 _ b Hs1 ltac:(lia) Hd)
    end.
  - cbn [mbind outcome_bind] in H. injection H as _ <-. exact Hs0.
Qed.

Lemma copyBytes_proper (n : nat) (out : list byte) (pos d size : Z) :
  proper (copyBytes n out pos d size).
Proof.
  revert out pos. induction n as [|n IH]; intros out pos; cbn [copyBytes]; proper_auto.
Qed.
#[local] Hint Resolve copyBytes_proper : proper.

Lemma inflateCodes_proper (n : nat) (add : Z) (ts tc : HuffmanTree) :
  lengthsOk ts → lengthsOk tc →
  ∀ (s : State) (out : list byte) (pos size : Z),
  held s → proper (inflateCodes n add ts tc s out pos size).
Proof.
  intros Hts Htc. induction n as [|n IH]; intros s out pos size Hs; cbn [inflateCodes];
    [proper_auto|].
  destruct (pos <? size); [|proper_auto].
  apply bind_proper; [apply readCode_proper; assumption|]. intros [c s1] Hc.
  pose proof (readCode_held ts s s1 c Hts Hs Hc) as Hs1.
  destruct (c <? 256).
  - apply bind_proper; [apply store_proper|]. intros out' _. apply IH, Hs1.
  - pose proof (u16_range (c - 256)) as Hu.
    apply bind_proper; [apply decodeWriteSize_proper; [exact Hs1 | lia]|].
    intros [w s2] Hw.
    pose proof (decodeWriteSize_held add s1 s2 (u16 (c - 256)) w Hs1 (proj1 Hu) Hw) as Hs2.
    apply bind_proper; [apply decodeWriteOffset_proper; assumption|].
    intros [d s3] Hd.
    pose proof (decodeWriteOffset_held tc s2 s3 d Htc Hs2 Hd) as Hs3.
    apply bind_proper; [apply copyBytes_proper|]. intros [out' pos'] _.
    apply IH, Hs3.
Qed.

Lemma inflateCodes_held (n : nat) (add : Z) (ts tc : HuffmanTree) :
  lengthsOk ts → lengthsOk tc →
  ∀ (s s' : State) (out out' : list byte) (pos pos' size : Z),
  held s → inflateCodes n add ts tc s out pos size = Ok (s', out', pos') → held s'.
Proof.
  intros Hts Htc. induction n as [|n IH]; intros s s' out out' pos pos' size Hs H;
    cbn [inflateCodes] in H; [injection H as <- _ _; exact Hs|].
  destruct (pos <? size); [|injection H as <- _ _; exact Hs].
  destruct (readCode ts s) as [[c s1]| | | |] eqn:Hc; try discriminate H.
  cbn [mbind outcome_bind] in H.
  pose proof (readCode_held ts s s1 c Hts Hs Hc) as Hs1.
  destruct (c <? 256).
  - destruct (store out pos (byte_of_Z c)) as [o1| | | |]; try discriminate H.
    cbn [mbind outcome_bind] in H. exact (IH _ _ _ _ _ _ _ Hs1 H).
  - pose proof (u16_range (c - 256)) as Hu.
    destruct (decodeWriteSize add s1 (u16 (c - 256))) as [[w s2]| | | |] eqn:Hw;
      try discriminate H.
    cbn [mbind outcome_bind] in H.
    pose proof (decodeWriteSize_held add s1 s2 (u16 (c - 256)) w Hs1 (proj1 Hu) Hw) as Hs2.
    destruct (decodeWriteOffset tc s2) as [[d s3]| | | |] eqn:Hd; try discriminate H.
    cbn [mbind outcome_bind] in H.
    pose proof (decodeWriteOffset_held tc s2 s3 d Htc Hs2 Hd) as Hs3.
    destruct (copyBytes (Z.to_nat w) out pos d size) as [[o1 p1]| | | |]; try discriminate H.
    cbn [mbind outcome_bind] in H. exact (IH _ _ _ _ _ _ _ Hs3 H).
Qed.

(** *** The trees have lengths below 32 *)

Lemma walkChain_proper (fuel : nat) (ct sv : list Z) (sym off code : Z) :
  proper (walkChain fuel ct sv sym off code).
Proof.
  revert sv sym off code. induction fuel as [|fuel IH]; intros sv sym off code;
    cbn [walkChain]; proper_auto.
Qed.
#[local] Hint Resolve walkChain_proper : proper.

Lemma createStep_proper (bt ct : list Z) (t : HuffmanTree) (code bits cci off : Z) :
  proper (createStep bt ct t code bits cci off).
Proof. unfold createStep. proper_auto. Qed.
#[local] Hint Resolve createStep_proper : proper.

Lemma createLoop_proper (n : nat) (bt ct : list Z) (t : HuffmanTree) (code bits cci off : Z) :
  proper (createLoop n bt ct t code bits cci off).
Proof.
  revert t code bits cci off. induction n as [|n IH]; intros t code bits cci off;
    cbn [createLoop]; proper_auto.
Qed.

Lemma createHuffmanTree_proper (t : HuffmanTree) (bt ct : list Z) :
  proper (createHuffmanTree t bt ct).
Proof. apply createLoop_proper. Qed.
#[local] Hint Resolve createHuffmanTree_proper : proper.

Lemma createStep_lengthsOk (bt ct : list Z) (t t' : HuffmanTree)
    (code bits cci off code' cci' off' : Z) :
  lengthsOk t → 0 ≤ bits ≤ 32 →
  createStep bt ct t code bits cci off = Ok (t', code', cci', off') → lengthsOk t'.
Proof.
  unfold createStep. intros Ht Hb H. binds. injection H as <- _ _ _.
  match goal with
  | Hi : (if ?c then _ else _) = Ok _ |- _ => destruct c
  end.
  - match goal with Hi : Ok _ = Ok _ |- _ => injection Hi as <- _ _ _ end. exact Ht.
  - binds.
    match goal with Hi : Ok _ = Ok _ |- _ => injection Hi as <- _ _ _ end.
    match goal with
    | Hst : store (BitsLength t) _ bits = Ok _ |- _ => apply store_Ok in Hst as [_ ->]
    end.
    unfold lengthsOk in *. cbn [BitsLength]. apply Forall_insert; [exact Ht | exact Hb].
Qed.

Lemma createLoop_lengthsOk (n : nat) :
  ∀ (bt ct : list Z) (t t' : HuffmanTree) (code bits cci off : Z),
  lengthsOk t → 0 ≤ bits → bits + Z.of_nat n ≤ 32 →
  createLoop n bt ct t code bits cci off = Ok t' → lengthsOk t'.
Proof.
  induction n as [|n IH]; intros bt ct t t' code bits cci off Ht Hb Hn H;
    cbn [createLoop] in H.
  - injection H as <-. exact Ht.
  - destruct (createStep bt ct t code bits cci off) as [[[[t1 code1] cci1] off1]| | | |] eqn:Hs;
      try discriminate H.
    cbn [mbind outcome_bind] in H.
    assert (0 ≤ bits ≤ 32) as Hb32 by lia.
    pose proof (createStep_lengthsOk _ _ _ _ _ _ _ _ _ _ _ Ht Hb32 Hs) as Ht1.
    assert (u8 (bits + 1) = bits + 1) as Hu by (apply Z.mod_small; lia).
    rewrite Hu in H.
    assert (0 ≤ bits + 1) as Hb1 by lia.
    assert (bits + 1 + Z.of_nat n ≤ 32) as Hn1 by lia.
    exact (IH _ _ _ _ _ _ _ _ Ht1 Hb1 Hn1 H).
Qed.

Lemma lengthsOk_emptyTree : lengthsOk emptyTree.
Proof. unfold lengthsOk, emptyTree. cbn [BitsLength]. apply Forall_replicate. lia. Qed.

Lemma createHuffmanTree_lengthsOk (bt ct : list Z) (t : HuffmanTree) :
  createHuffmanTree emptyTree bt ct = Ok t → lengthsOk t.
Proof.
  unfold createHuffmanTree. intros H.
  assert (0 + Z.of_nat (Z.to_nat MAX_CODE_BITS_LENGTH) ≤ 32) as Hn
    by (unfold MAX_CODE_BITS_LENGTH; lia).
  exact (createLoop_lengthsOk _ _ _ _ _ _ _ _ _ lengthsOk_emptyTree (Z.le_refl 0) Hn H).
Qed.

Lemma lengthsOk_huffmanTreeDict : lengthsOk huffmanTreeDict.
Proof.
  apply createHuffmanTree_lengthsOk
    with (bt := match fillTabs dictBits 0 dictSymbols freshBitTab freshCodeTab with
                | Ok (bt, _) => bt | _ => [] end)
         (ct := match fillTabs dictBits 0 dictSymbols freshBitTab freshCodeTab with
                | Ok (_, ct) => ct | _ => [] end).
  vm_compute. reflexivity.
Qed.

(** *** The tree description and the main loop *)

Lemma registerSymbols_proper (n : nat) (bits r : Z) (bt ct : list Z) :
  proper (registerSymbols n bits r bt ct).
Proof.
  revert r bt ct. induction n as [|n IH]; intros r bt ct; cbn [registerSymbols]; proper_auto.
Qed.
#[local] Hint Resolve registerSymbols_proper : proper.

Section Dictionary.

Variable dict : HuffmanTree.
Hypothesis dict_lengths : lengthsOk dict.

Lemma parseLoop_proper (fuel : nat) :
  ∀ (s : State) (r : Z) (bt ct : list Z),
  held s → proper (parseLoop fuel dict s r bt ct).
Proof.
  induction fuel as [|fuel IH]; intros s r bt ct Hs; cbn [parseLoop].
  - proper_auto.
  - destruct (r <? 0); [proper_auto|].
    apply bind_proper; [apply readCode_proper; assumption|]. intros [c s1] Hc.
    pose proof (readCode_held dict s s1 c dict_lengths Hs Hc) as Hs1. cbv zeta.
    destruct (Z.land c 31 =? 0); [apply IH, Hs1|].
    apply bind_proper; [apply registerSymbols_proper|]. intros [[r' bt'] ct'] _.
    apply IH, Hs1.
Qed.

Lemma parseLoop_held (fuel : nat) :
  ∀ (s s' : State) (r : Z) (bt ct bt' ct' : list Z),
  held s → parseLoop fuel dict s r bt ct = Ok (s', bt', ct') → held s'.
Proof.
  induction fuel as [|fuel IH]; intros s s' r bt ct bt' ct' Hs H; cbn [parseLoop] in H.
  - destruct (r <? 0); [|discriminate H]. injection H as <- _ _. exact Hs.
  - destruct (r <? 0); [injection H as <- _ _; exact Hs|].
    destruct (readCode dict s) as [[c s1]| | | |] eqn:Hc; try discriminate H.
    cbn [mbind outcome_bind] in H. cbv zeta in H.
    pose proof (readCode_held dict s s1 c dict_lengths Hs Hc) as Hs1.
    destruct (Z.land c 31 =? 0); [exact (IH _ _ _ _ _ _ _ Hs1 H)|].
    destruct (registerSymbols _ _ _ _ _) as [[[r' bt1] ct1]| | | |]; try discriminate H.
    cbn [mbind outcome_bind] in H. exact (IH _ _ _ _ _ _ _ Hs1 H).
Qed.

Lemma parseHuffmanTree_proper (s : State) (t : HuffmanTree) :
  held s → proper (parseHuffmanTree dict s t).
Proof.
  intros Hs. unfold parseHuffmanTree.
  apply need_drop_proper; [exact Hs | lia|]. intros s1 Hs1 Hb1.
  apply bind_proper; [apply dropBits_proper; lia|]. intros s2 H2. cbv zeta.
  pose proof (dropBits_held s1 s2 16 Hs1 ltac:(lia) H2) as Hs2.
  apply bind_proper; [apply parseLoop_proper, Hs2|]. intros [[s3 bt] ct] _.
  proper_auto.
Qed.

Lemma parseHuffmanTree_held (s s' : State) (t : HuffmanTree) :
  held s → parseHuffmanTree dict s emptyTree = Ok (s', t) → held s' ∧ lengthsOk t.
Proof.
  intros Hs H. unfold parseHuffmanTree in H.
  destruct (needBits s 16) as [s1| | | |] eqn:H1; try discriminate H.
  cbn [mbind outcome_bind] in H.
  destruct (needBits_held s s1 16 Hs ltac:(lia) H1) as [Hs1 _].
  destruct (dropBits s1 16) as [s2| | | |] eqn:H2; try discriminate H.
  cbn [mbind outcome_bind] in H. cbv zeta in H.
  pose proof (dropBits_held s1 s2 16 Hs1 ltac:(lia) H2) as Hs2.
  destruct (parseLoop _ dict s2 _ freshBitTab freshCodeTab) as [[[s3 bt] ct]| | | |] eqn:Hl;
    try discriminate H.
  cbn [mbind outcome_bind] in H.
  destruct (createHuffmanTree emptyTree bt ct) as [t'| | | |] eqn:Hc; try discriminate H.
  cbn [mbind outcome_bind] in H. injection H as <- <-.
  split; [exact (parseLoop_held _ _ _ _ _ _ _ _ Hs2 Hl) | exact (createHuffmanTree_lengthsOk _ _ _ Hc)].
Qed.

Lemma inflateBlock_proper (add : Z) (s : State) (out : list byte) (pos size : Z) :
  held s → proper (inflateBlock dict add s out pos size).
Proof.
  intros Hs. unfold inflateBlock.
  apply bind_proper; [apply parseHuffmanTree_proper, Hs|]. intros [s1 ts] H1.
  destruct (parseHuffmanTree_held s s1 ts Hs H1) as [Hs1 Hts].
  apply bind_proper; [apply parseHuffmanTree_proper, Hs1|]. intros [s2 tc] H2.
  destruct (parseHuffmanTree_held s1 s2 tc Hs1 H2) as [Hs2 Htc].
  apply need_drop_proper; [exact Hs2 | lia|]. intros s3 Hs3 Hb3. cbv zeta.
  apply bind_proper; [apply dropBits_proper; lia|]. intros s4 H4.
  apply inflateCodes_proper; try assumption.
  apply (dropBits_held s3 s4 4 Hs3 ltac:(lia) H4).
Qed.

Lemma inflateBlock_held (add : Z) (s s' : State) (out out' : list byte) (pos pos' size : Z) :
  held s → inflateBlock dict add s out pos size = Ok (s', out', pos') → held s'.
Proof.
  intros Hs H. unfold inflateBlock in H.
  destruct (parseHuffmanTree dict s emptyTree) as [[s1 ts]| | | |] eqn:H1; try discriminate H.
  cbn [mbind outcome_bind] in H.
  destruct (parseHuffmanTree_held s s1 ts Hs H1) as [Hs1 Hts].
  destruct (parseHuffmanTree dict s1 emptyTree) as [[s2 tc]| | | |] eqn:H2; try discriminate H.
  cbn [mbind outcome_bind] in H.
  destruct (parseHuffmanTree_held s1 s2 tc Hs1 H2) as [Hs2 Htc].
  destruct (needBits s2 4) as [s3| | | |] eqn:H3; try discriminate H.
  cbn [mbind outcome_bind] in H. cbv zeta in H.
  destruct (needBits_held s2 s3 4 Hs2 ltac:(lia) H3) as [Hs3 _].
  destruct (dropBits s3 4) as [s4| | | |] eqn:H4; try discriminate H.
  cbn [mbind outcome_bind] in H.
  pose proof (dropBits_held s3 s4 4 Hs3 ltac:(lia) H4) as Hs4.
  exact (inflateCodes_held _ add ts tc Hts Htc _ _ _ _ _ _ _ Hs4 H).
Qed.

Lemma inflateBlocks_proper (fuel : nat) (add : Z) :
  ∀ (s : State) (out : list byte) (pos size : Z),
  held s → proper (inflateBlocks fuel dict add s out pos size).
Proof.
  induction fuel as [|fuel IH]; intros s out pos size Hs; cbn [inflateBlocks].
  - proper_auto.
  - destruct (pos <? size); [|proper_auto].
    apply bind_proper; [apply inflateBlock_proper, Hs|]. intros [[s' out'] pos'] Hb.
    apply IH. exact (inflateBlock_held _ _ _ _ _ _ _ _ Hs Hb).
Qed.

Lemma inflateData_proper (s : State) (out : list byte) (size : Z) :
  held s → proper (inflateData dict s out size).
Proof.
  intros Hs. unfold inflateData.
  apply need_drop_proper; [exact Hs | lia|]. intros s1 Hs1 Hb1.
  apply bind_proper; [apply dropBits_proper; lia|]. intros s2 H2. cbv zeta.
  pose proof (dropBits_held s1 s2 4 Hs1 ltac:(lia) H2) as Hs2.
  assert (4 ≤ Bits s2) as Hb2.
  { destruct (dropBits_Ok s1 4 ltac:(lia) ltac:(lia)) as (s2' & Hd & Hbits & _).
    rewrite Hd in H2. injection H2 as <-. rewrite Hbits. unfold held in Hs1.
    unfold u32. rewrite Z.mod_small; lia. }
  apply bind_proper; [apply dropBits_proper; lia|]. intros s3 H3.
  apply inflateBlocks_proper. apply (dropBits_held s2 s3 4 Hs2 ltac:(lia) H3).
Qed.

Lemma inflateWords_proper (ws : list Z) (cap custom : Z) :
  proper (inflateWords dict ws cap custom).
Proof.
  unfold inflateWords. cbv zeta.
  apply extra_bits_proper; [unfold held; cbn [Bits]; lia | lia|]. intros s2 Hs2.
  apply need_drop_proper; [exact Hs2 | lia|]. intros s3 Hs3 Hb3.
  apply bind_proper; [apply dropBits_proper; lia|]. intros s4 H4.
  apply bind_proper; [|intros [[s' out] pos] _; proper_auto].
  apply inflateData_proper. apply (dropBits_held s3 s4 32 Hs3 ltac:(lia) H4).
Qed.

End Dictionary.

Lemma convertU8ToU32_proper (input : list byte) : proper (convertU8ToU32 input).
Proof.
  unfold convertU8ToU32. cbv zeta.
  destruct (negb _); [proper_auto|].
  generalize 0 as i. induction (Z.to_nat _) as [|n IH]; intros i; cbn [convertLoop].
  - proper_auto.
  - apply bind_proper; [unfold wordAt; proper_auto|]. intros w _.
    apply bind_proper; [apply IH|]. intros rest _. proper_auto.
Qed.

Lemma inflateBuffer_proper (sz : Z) (input : option (list byte)) (cap custom : Z) :
  proper (inflateBuffer sz input cap custom).
Proof.
  unfold inflateBuffer. destruct input as [input|]; [|proper_auto].
  rewrite initializeHuffmanTreeDict_Ok. cbn [mbind outcome_bind].
  apply bind_proper; [apply load_proper|]. intros c0 _.
  destruct (c0 =? 0); [proper_auto|].
  pose proof (convertU8ToU32_proper input) as Hc.
  destruct (convertU8ToU32 input) as [ws| | | |]; try proper_auto.
  - apply inflateWords_proper, lengthsOk_huffmanTreeDict.
  - intros m' [= <-]. exact (Hc m eq_refl).
Qed.

(** [X27].  The four checks of the bit pump never fire in [inflateBuffer]:
    every request asks for at most 32 bits, a word is pulled only into a
    window of fewer than 32 bits, and every drop follows a request for at
    least as many bits (the code lengths of a tree are below 32).  When
    [inflateBuffer] ends the process, the message is one of the four
    others: the end of the input, a code read from an empty tree, an
    invalid length code, an invalid distance code. *)
Theorem inflateBuffer_pump_checks_never_fire
    (sz : Z) (input : option (list byte)) (cap custom : Z) (m : exit_msg) :
  inflateBuffer sz input cap custom = Exit m →
  m = EndOfInput ∨ m = EmptyHuffmanTree ∨ m = InvalidWriteSize ∨ m = InvalidWriteOffset.
Proof.
  intros H. pose proof (inflateBuffer_proper sz input cap custom m H) as Hm.
  destruct m; try discriminate Hm; auto.
Qed.

Lemma inflateBuffer_pump_checks_never_fire_witness :
  inflateBuffer 8 (Some [x00; x00; x00; x00; x00; x00; x00; x00]) 0 0 = Exit EndOfInput ∧
  (EndOfInput = EndOfInput ∨ EndOfInput = EmptyHuffmanTree ∨
   EndOfInput = InvalidWriteSize ∨ EndOfInput = InvalidWriteOffset).
Proof.
  assert (inflateBuffer 8 (Some [x00; x00; x00; x00; x00; x00; x00; x00]) 0 0
          = Exit EndOfInput) as H by (vm_compute; reflexivity).
  split; [exact H|].
  exact (inflateBuffer_pump_checks_never_fire 8
           (Some [x00; x00; x00; x00; x00; x00; x00; x00]) 0 0 EndOfInput H).
Defined.

Lemma loadDatFile_fueled (disk : option (list byte)) : fueled (loadDatFile disk).
Proof.
  unfold loadDatFile, fueled. destruct disk as [bytes|]; [|discriminate].
  cbv zeta.
  destruct (readDatHeader _) as [header file].
  destruct (readMFTHeader _) as [mftHeader file1].
  destruct (negb _); [discriminate|].
  destruct (readMFTEntries _ _) as [mftData file2].
  destruct (load_cases mftData MftEntryIndexNum) as [[e ->]| ->]; [|discriminate].
  cbn [mbind outcome_bind].
  destruct (readMFTIndexEntries _ _) as [mftIndexData file3]. discriminate.
Qed.

(** [X28].  Every run of [main] comes to an end: no loop of the program
    runs for ever.  The chain walk of [createHuffmanTree] ends within 286
    steps (it panics on a cycle of the working table), every entry of a
    tree description stands for at least one symbol, and every pass of the
    main loop of [inflateData] writes at least one byte. *)
Theorem main_comes_to_an_end (args : list String.string) (disk : option (list byte)) :
  fueled (main args disk).
Proof.
  unfold main, fueled.
  destruct args as [|prog [|arg more]]; try discriminate.
  destruct (parseUint32 arg) as [n|]; [|discriminate].
  pose proof (loadDatFile_fueled disk) as Hl. unfold fueled in Hl.
  destruct (loadDatFile disk) as [datFile| | | |]; try discriminate; [|congruence].
  pose proof (extractMFTData_fueled disk datFile (u32 n) false) as He. unfold fueled in He.
  destruct (extractMFTData disk datFile (u32 n) false) as [data| | | |];
    try discriminate; [|congruence].
  destruct (Z.of_nat (length data) <? 128); discriminate.
Qed.

